(** * Continuation lowering and traversal-stack lowering of LLPC

    A shallow embedding of
      - [lgc/patch/LowerGpuRt.cpp] (the traversal-stack lowering pass), and
      - the continuation utilities ([replaceAllPointerUses],
        [forwardContinuationFrameStoreToLoad], [continuationStackOffsetToPtr],
        [replaceIntrinsicCall]),
    together with the properties the design document states about them.

    Conventions.  A C++ [unsigned] is a [Z] reduced with [wrap32]; an
    [int64_t] byte offset is a [Z].  Code that can stop the compiler returns an
    [Outcome]: [report_fatal_error], [llvm_unreachable] and a failed [assert]
    are distinct outcomes.  [assert] is compiled out when [NDEBUG] is defined,
    so every function that contains one takes the build flavour [NDEBUG] as an
    argument. *)

From Stdlib Require Import ZArith List Bool String Lia Arith Sorted Permutation.
Import ListNotations.

Local Open Scope string_scope.
Local Open Scope list_scope.
Local Open Scope Z_scope.

(** ** Outcomes of fallible compiler code *)

Inductive Outcome (A : Type) : Type :=
| Ok (a : A)
| FatalError (msg : string)          (* report_fatal_error(msg) *)
| UnreachableExecuted (msg : string) (* llvm_unreachable(msg) *)
| AssertionFailed (msg : string)     (* assert(cond && msg), NDEBUG undefined *)
| UndefinedBehaviour                 (* e.g. use of a null or erased object *)
| OutOfFuel.                         (* the model's fuel ran out *)

Arguments Ok {A} a.
Arguments FatalError {A} msg.
Arguments UnreachableExecuted {A} msg.
Arguments AssertionFailed {A} msg.
Arguments UndefinedBehaviour {A}.
Arguments OutOfFuel {A}.

Definition bind {A B : Type} (m : Outcome A) (k : A -> Outcome B) : Outcome B :=
  match m with
  | Ok a => k a
  | FatalError msg => FatalError msg
  | UnreachableExecuted msg => UnreachableExecuted msg
  | AssertionFailed msg => AssertionFailed msg
  | UndefinedBehaviour => UndefinedBehaviour
  | OutOfFuel => OutOfFuel
  end.

Notation "x <- m ;; k" := (bind m (fun x => k))
  (at level 61, m at next level, right associativity).

(** [assert(cond)]: checked unless the build defines [NDEBUG]. *)
Definition assert (NDEBUG : bool) (cond : bool) (msg : string) : Outcome unit :=
  if NDEBUG || cond then Ok tt else AssertionFailed msg.

Definition isOk {A : Type} (m : Outcome A) : bool :=
  match m with Ok _ => true | _ => false end.

(** ** 32-bit unsigned arithmetic *)

Definition wrap32 (z : Z) : Z := z mod 2 ^ 32.

(** [llvm::alignTo(Value, Align)] on [uint64_t]: the next multiple of [Align]. *)
Definition alignTo (value align : Z) : Z := (value + align - 1) / align * align.

(** [llvm::Log2_32]: floor of the base-2 logarithm. *)
Definition Log2_32 (v : Z) : Z := Z.log2 v.

(* ===================================================================== *)
(** * lgc/patch/LowerGpuRt.cpp *)
(* ===================================================================== *)

Module LowerGpuRt.

(** Modelled from the spec: [MaxLdsStackEntries] is declared in
    [lgc/patch/LowerGpuRt.h], which is not among the sources; the design
    document gives the fixed per-thread entry count [E = 16], and
    [visitLdsStackStore] asserts [MaxLdsStackEntries == 16]. *)
Definition MaxLdsStackEntries : Z := 16.

(** *** Pipeline state consulted by the pass *)

Record ComputeShaderMode := {
  workgroupSizeX : Z;
  workgroupSizeY : Z;
  workgroupSizeZ : Z
}.

Record Options := {
  rtBoxSortHeuristicMode : Z;
  rtStaticPipelineFlags : Z;
  rtTriCompressMode : Z
}.

Record PipelineState := {
  isGraphics : bool;
  getComputeShaderMode : ComputeShaderMode;
  gfxIpMajor : Z;            (* getTargetInfo().getGfxIpVersion().major *)
  getOptions : Options
}.

(** *** Values built by [m_builder] *)

Inductive BuiltInKind :=
| BuiltInSubgroupLocalInvocationId
| BuiltInLocalInvocationIndex.

(** The IR values the pass creates, as expression trees.  [Operand n] is a
    value of the surrounding function (an argument of the lowered call). *)
Inductive Expr :=
| Operand (n : nat)
| ConstInt32 (c : Z)                         (* m_builder->getInt32(c) *)
| ReadBuiltInInput (k : BuiltInKind)         (* CreateReadBuiltInInput *)
| And (a b : Expr)
| LShr (a b : Expr)
| Shl (a b : Expr)
| Mul (a b : Expr)
| Add (a b : Expr)
| StackElemPtr (index : Expr)                (* GEP stackTy, m_stack, {index} *)
| StackArrayElemPtr (i0 i1 : Expr)           (* GEP m_stackTy, m_stack, {i0, i1} *)
| PtrToInt (p : Expr)
| LoadInt32 (addr : Expr)                    (* CreateLoad(i32, addr) *)
| DsBvhStackRtn (addr lastVisited data offset : Expr)
                                             (* amdgcn_ds_bvh_stack_rtn *)
| ExtractValue (agg : Expr) (idx : nat).

(** A side effect emitted in front of the lowered call. *)
Inductive Effect :=
| StoreTo (value addr : Expr).               (* CreateStore(value, addr) *)

(** *** The abstract gpurt operations *)

Inductive GpurtOp :=
| GpurtGetStackSizeOp
| GpurtGetStackBaseOp
| GpurtGetStackStrideOp
| GpurtStackWriteOp (index value : Expr) (useExtraStack : bool)
| GpurtStackReadOp (index : Expr) (useExtraStack : bool)
| GpurtLdsStackInitOp
| GpurtLdsStackStoreOp (newPos oldPos data : Expr)
| GpurtGetBoxSortHeuristicModeOp
| GpurtGetStaticFlagsOp
| GpurtGetTriangleCompressionModeOp
| GpurtGetFlattenedGroupThreadIdOp.

(** The declaration a call refers to ([inst.getCalledFunction()]). *)
Inductive OpDecl :=
| DeclGetStackSize | DeclGetStackBase | DeclGetStackStride
| DeclStackWrite | DeclStackRead | DeclLdsStackInit | DeclLdsStackStore
| DeclGetBoxSortHeuristicMode | DeclGetStaticFlags
| DeclGetTriangleCompressionMode | DeclGetFlattenedGroupThreadId.

Definition getCalledFunction (op : GpurtOp) : OpDecl :=
  match op with
  | GpurtGetStackSizeOp => DeclGetStackSize
  | GpurtGetStackBaseOp => DeclGetStackBase
  | GpurtGetStackStrideOp => DeclGetStackStride
  | GpurtStackWriteOp _ _ _ => DeclStackWrite
  | GpurtStackReadOp _ _ => DeclStackRead
  | GpurtLdsStackInitOp => DeclLdsStackInit
  | GpurtLdsStackStoreOp _ _ _ => DeclLdsStackStore
  | GpurtGetBoxSortHeuristicModeOp => DeclGetBoxSortHeuristicMode
  | GpurtGetStaticFlagsOp => DeclGetStaticFlags
  | GpurtGetTriangleCompressionModeOp => DeclGetTriangleCompressionMode
  | GpurtGetFlattenedGroupThreadIdOp => DeclGetFlattenedGroupThreadId
  end.

Definition OpDecl_eqb (a b : OpDecl) : bool :=
  match a, b with
  | DeclGetStackSize, DeclGetStackSize
  | DeclGetStackBase, DeclGetStackBase
  | DeclGetStackStride, DeclGetStackStride
  | DeclStackWrite, DeclStackWrite
  | DeclStackRead, DeclStackRead
  | DeclLdsStackInit, DeclLdsStackInit
  | DeclLdsStackStore, DeclLdsStackStore
  | DeclGetBoxSortHeuristicMode, DeclGetBoxSortHeuristicMode
  | DeclGetStaticFlags, DeclGetStaticFlags
  | DeclGetTriangleCompressionMode, DeclGetTriangleCompressionMode
  | DeclGetFlattenedGroupThreadId, DeclGetFlattenedGroupThreadId => true
  | _, _ => false
  end.

(** *** Modules *)

(** An instruction of the module: a call of a gpurt operation, the code a
    lowered call was replaced by, or anything else. *)
Inductive Inst :=
| Call (op : GpurtOp)
| Lowered (effects : list Effect) (replacement : Expr)
| OtherInst (n : nat).

(** The [LdsStack] global: an array of [numElements] 32-bit words in address
    space [addrSpace], aligned to [alignment] bytes. *)
Record GlobalVariable := {
  gvName : string;
  numElements : Z;
  addrSpace : Z;
  alignment : Z
}.

Record Module_ := {
  globals : list GlobalVariable;
  declarations : list OpDecl;
  insts : list Inst
}.

(** *** [LowerGpuRt::getWorkgroupSize] (lines 99-114) *)

Definition getWorkgroupSize (NDEBUG : bool) (ps : PipelineState) : Outcome Z :=
  let workgroupSize :=
    if isGraphics ps then 64
    else
      let mode := getComputeShaderMode ps in
      wrap32 (wrap32 (workgroupSizeX mode * workgroupSizeY mode)
              * workgroupSizeZ mode) in
  _ <- assert NDEBUG (negb (workgroupSize =? 0)) "workgroupSize != 0" ;;
  Ok (if gfxIpMajor ps >=? 11
      then wrap32 (alignTo workgroupSize 32)
      else workgroupSize).

(** *** [LowerGpuRt::getThreadIdInGroup] (lines 118-123) *)

Definition getThreadIdInGroup (ps : PipelineState) : Expr :=
  ReadBuiltInInput (if isGraphics ps then BuiltInSubgroupLocalInvocationId
                    else BuiltInLocalInvocationIndex).

(** *** [LowerGpuRt::createGlobalStack] (lines 128-161) *)

Record Payload := {
  needGlobalStack : bool;
  needExtraStack : bool
}.

Definition visitPayload (payload : Payload) (i : Inst) : Payload :=
  match i with
  | Call (GpurtStackWriteOp _ _ useExtraStack)
  | Call (GpurtStackReadOp _ useExtraStack) =>
      {| needGlobalStack := true;
         needExtraStack := needExtraStack payload || useExtraStack |}
  | Call GpurtLdsStackInitOp =>
      {| needGlobalStack := true;
         needExtraStack := needExtraStack payload |}
  | _ => payload
  end.

Definition collectPayload (m : Module_) : Payload :=
  fold_left visitPayload (insts m)
            {| needGlobalStack := false; needExtraStack := false |}.

(** The result is the created global ([m_stack], whose type [m_stackTy] is
    [[numElements x i32]]), or [None] when no global is created. *)
Definition createGlobalStack (NDEBUG : bool) (ps : PipelineState) (m : Module_)
  : Outcome (option GlobalVariable) :=
  let payload := collectPayload m in
  if needGlobalStack payload then
    w <- getWorkgroupSize NDEBUG ps ;;
    let ldsStackSize := wrap32 (w * MaxLdsStackEntries) in
    let ldsStackSize :=
      if needExtraStack payload then wrap32 (Z.shiftl ldsStackSize 1)
      else ldsStackSize in
    Ok (Some {| gvName := "LdsStack"; numElements := ldsStackSize;
                addrSpace := 3; alignment := 4 |})
  else Ok None.

(** *** The visitors (lines 167-360)

    Each returns the effects emitted before the call and the value the call
    is replaced by. *)

Definition visitGetStackSize (NDEBUG : bool) (ps : PipelineState)
  : Outcome (list Effect * Expr) :=
  w <- getWorkgroupSize NDEBUG ps ;;
  Ok ([], ConstInt32 (wrap32 (MaxLdsStackEntries * w))).

Definition visitGetStackBase (ps : PipelineState) : Outcome (list Effect * Expr) :=
  Ok ([], getThreadIdInGroup ps).

Definition visitGetStackStride (NDEBUG : bool) (ps : PipelineState)
  : Outcome (list Effect * Expr) :=
  w <- getWorkgroupSize NDEBUG ps ;;
  Ok ([], ConstInt32 w).

Definition extraStackIndex (NDEBUG : bool) (ps : PipelineState)
    (stackIndex : Expr) (useExtraStack : bool) : Outcome Expr :=
  if useExtraStack then
    w <- getWorkgroupSize NDEBUG ps ;;
    Ok (Add stackIndex (ConstInt32 (wrap32 (w * MaxLdsStackEntries))))
  else Ok stackIndex.

Definition visitStackRead (NDEBUG : bool) (ps : PipelineState)
    (index : Expr) (useExtraStack : bool) : Outcome (list Effect * Expr) :=
  stackIndex <- extraStackIndex NDEBUG ps index useExtraStack ;;
  let stackAddr := StackElemPtr stackIndex in
  Ok ([], LoadInt32 stackAddr).

Definition visitStackWrite (NDEBUG : bool) (ps : PipelineState)
    (index value : Expr) (useExtraStack : bool) : Outcome (list Effect * Expr) :=
  stackIndex <- extraStackIndex NDEBUG ps index useExtraStack ;;
  let stackArrayAddr := StackElemPtr stackIndex in
  Ok ([StoreTo value stackArrayAddr], ConstInt32 0).

(** The per-thread base offset in dwords (lines 249-265). *)
Definition stackBasePerThread (NDEBUG : bool) (ps : PipelineState) : Outcome Expr :=
  let stackBasePerThread := getThreadIdInGroup ps in
  w <- getWorkgroupSize NDEBUG ps ;;
  if w >? 32 then
    let localThreadId := And stackBasePerThread (ConstInt32 31) in
    let localGroupId := LShr stackBasePerThread (ConstInt32 5) in
    let stackSize := ConstInt32 (wrap32 (MaxLdsStackEntries * 32)) in
    let groupOf32ThreadSize := Mul localGroupId stackSize in
    Ok (Add localThreadId groupOf32ThreadSize)
  else Ok stackBasePerThread.

Definition visitLdsStackInit (NDEBUG : bool) (ps : PipelineState)
  : Outcome (list Effect * Expr) :=
  base <- stackBasePerThread NDEBUG ps ;;
  let stackBaseAsInt := PtrToInt (StackArrayElemPtr (ConstInt32 0) base) in
  let stackAddr := Shl stackBaseAsInt (ConstInt32 16) in
  Ok ([], stackAddr).

Definition visitLdsStackStore (NDEBUG : bool) (newPos oldPos data : Expr)
  : Outcome (list Effect * Expr) :=
  let stackAddr := newPos in
  let stackAddrVal := LoadInt32 stackAddr in
  let lastVisited := oldPos in
  _ <- assert NDEBUG (MaxLdsStackEntries =? 16) "MaxLdsStackEntries == 16" ;;
  let offset :=
    ConstInt32 (wrap32 (Z.shiftl (wrap32 (Log2_32 MaxLdsStackEntries - 3)) 12)) in
  let result := DsBvhStackRtn stackAddrVal lastVisited data offset in
  Ok ([StoreTo (ExtractValue result 1) stackAddr], ExtractValue result 0).

Definition visitGetBoxSortHeuristicMode (ps : PipelineState)
  : Outcome (list Effect * Expr) :=
  Ok ([], ConstInt32 (rtBoxSortHeuristicMode (getOptions ps))).

Definition visitGetStaticFlags (ps : PipelineState) : Outcome (list Effect * Expr) :=
  Ok ([], ConstInt32 (rtStaticPipelineFlags (getOptions ps))).

Definition visitGetTriangleCompressionMode (ps : PipelineState)
  : Outcome (list Effect * Expr) :=
  Ok ([], ConstInt32 (rtTriCompressMode (getOptions ps))).

Definition visitGetFlattenedGroupThreadId (ps : PipelineState)
  : Outcome (list Effect * Expr) :=
  Ok ([], getThreadIdInGroup ps).

(** Dispatch of the visitor built in [run] (lines 65-78). *)
Definition visit (NDEBUG : bool) (ps : PipelineState) (op : GpurtOp)
  : Outcome (list Effect * Expr) :=
  match op with
  | GpurtGetStackSizeOp => visitGetStackSize NDEBUG ps
  | GpurtGetStackBaseOp => visitGetStackBase ps
  | GpurtGetStackStrideOp => visitGetStackStride NDEBUG ps
  | GpurtStackWriteOp index value extra => visitStackWrite NDEBUG ps index value extra
  | GpurtStackReadOp index extra => visitStackRead NDEBUG ps index extra
  | GpurtLdsStackInitOp => visitLdsStackInit NDEBUG ps
  | GpurtLdsStackStoreOp newPos oldPos data => visitLdsStackStore NDEBUG newPos oldPos data
  | GpurtGetBoxSortHeuristicModeOp => visitGetBoxSortHeuristicMode ps
  | GpurtGetStaticFlagsOp => visitGetStaticFlags ps
  | GpurtGetTriangleCompressionModeOp => visitGetTriangleCompressionMode ps
  | GpurtGetFlattenedGroupThreadIdOp => visitGetFlattenedGroupThreadId ps
  end.

(** *** [LowerGpuRt::run] (lines 54-95) *)

Inductive PreservedAnalyses := PreservedAnalyses_all | PreservedAnalyses_none.

(** State of the pass while the visitor runs: the rewritten instructions so
    far, [m_callsToLower] and [m_funcsToLower] (a set). *)
Record PassState := {
  rewritten : list Inst;
  m_callsToLower : list GpurtOp;
  m_funcsToLower : list OpDecl
}.

Definition setInsert (d : OpDecl) (s : list OpDecl) : list OpDecl :=
  if existsb (OpDecl_eqb d) s then s else s ++ [d].

Definition visitInst (NDEBUG : bool) (ps : PipelineState) (st : PassState)
    (i : Inst) : Outcome PassState :=
  match i with
  | Call op =>
      r <- visit NDEBUG ps op ;;
      Ok {| rewritten := rewritten st ++ [Lowered (fst r) (snd r)];
            m_callsToLower := m_callsToLower st ++ [op];
            m_funcsToLower := setInsert (getCalledFunction op) (m_funcsToLower st) |}
  | _ =>
      Ok {| rewritten := rewritten st ++ [i];
            m_callsToLower := m_callsToLower st;
            m_funcsToLower := m_funcsToLower st |}
  end.

Fixpoint visitAll (NDEBUG : bool) (ps : PipelineState) (st : PassState)
    (l : list Inst) : Outcome PassState :=
  match l with
  | [] => Ok st
  | i :: l' => st' <- visitInst NDEBUG ps st i ;; visitAll NDEBUG ps st' l'
  end.

Definition run (NDEBUG : bool) (ps : PipelineState) (m : Module_)
  : Outcome (PreservedAnalyses * Module_) :=
  stack <- createGlobalStack NDEBUG ps m ;;
  st <- visitAll NDEBUG ps
          {| rewritten := []; m_callsToLower := []; m_funcsToLower := [] |}
          (insts m) ;;
  let m' :=
    {| globals := globals m ++ match stack with Some g => [g] | None => [] end;
       declarations :=
         filter (fun d => negb (existsb (OpDecl_eqb d) (m_funcsToLower st)))
                (declarations m);
       insts := rewritten st |} in
  if negb (Nat.eqb (List.length (m_callsToLower st)) 0)
  then Ok (PreservedAnalyses_all, m')
  else Ok (PreservedAnalyses_none, m').

(** *** Run-time meaning of the emitted integer arithmetic

    [tid] is the value the built-in input reads for the executing thread;
    only the integer operations that [stackBasePerThread] emits are given a
    meaning, everything else evaluates to [None]. *)
Fixpoint evalExpr (tid : Z) (e : Expr) : option Z :=
  match e with
  | ConstInt32 c => Some (wrap32 c)
  | ReadBuiltInInput _ => Some (wrap32 tid)
  | And a b =>
      match evalExpr tid a, evalExpr tid b with
      | Some x, Some y => Some (Z.land x y) | _, _ => None end
  | LShr a b =>
      match evalExpr tid a, evalExpr tid b with
      | Some x, Some y => Some (Z.shiftr x y) | _, _ => None end
  | Shl a b =>
      match evalExpr tid a, evalExpr tid b with
      | Some x, Some y => Some (wrap32 (Z.shiftl x y)) | _, _ => None end
  | Mul a b =>
      match evalExpr tid a, evalExpr tid b with
      | Some x, Some y => Some (wrap32 (x * y)) | _, _ => None end
  | Add a b =>
      match evalExpr tid a, evalExpr tid b with
      | Some x, Some y => Some (wrap32 (x + y)) | _, _ => None end
  | _ => None
  end.

End LowerGpuRt.

(* ===================================================================== *)
(** * A model of the LLVM IR the continuation utilities work on *)
(* ===================================================================== *)

Module IR.

(** Types.  Pointers are opaque: a pointer type is its address space, which
    is what [getWithSamePointeeType] computes in the current branch of the
    source ([PointerType::get(Context, AddressSpace)]). *)
#[warnings="-register-all"] Inductive Ty :=
| VoidTy
| IntegerTy (bits : nat)
| FloatTy
| PointerTy (addrSpace : nat)
| VectorTy (n : nat) (elem : Ty)
| StructTy (elems : list Ty).

Fixpoint Ty_eq_dec (a b : Ty) {struct a} : {a = b} + {a <> b}.
Proof.
  decide equality; try apply Nat.eq_dec.
  apply (list_eq_dec Ty_eq_dec).
Defined.

Definition Ty_eqb (a b : Ty) : bool := if Ty_eq_dec a b then true else false.

Definition isPointerTy (t : Ty) : bool :=
  match t with PointerTy _ => true | _ => false end.

Definition isIntegerTy (t : Ty) : bool :=
  match t with IntegerTy _ => true | _ => false end.

Definition isStructTy (t : Ty) : bool :=
  match t with StructTy _ => true | _ => false end.

(** [llvm::getWithSamePointeeType] (source lines 430-439). *)
Definition getWithSamePointeeType (PtrTy : Ty) (AddressSpace : nat) : Ty :=
  PointerTy AddressSpace.

(** Values: the result of an instruction, a function argument, or a constant
    (which carries its type). *)
Inductive Value :=
| VInst (id : nat)
| VArg (n : nat)
| VConst (ty : Ty) (c : Z).

Definition Value_eq_dec (a b : Value) : {a = b} + {a <> b}.
Proof.
  decide equality; try apply Nat.eq_dec; try apply Z.eq_dec; apply Ty_eq_dec.
Defined.

Definition Value_eqb (a b : Value) : bool :=
  if Value_eq_dec a b then true else false.

(** Instructions, by opcode.  [GetElementPtr] records what
    [accumulateConstantOffset] answers: [Some off] (sign-extended) when every
    index is constant, [None] otherwise. *)
Inductive Instr :=
| Call (isLifetimeStartOrEnd : bool) (callArgs : list Value)
| Load (ptr : Value) (isSimple : bool)
| Store (val ptr : Value) (isSimple : bool)
| And (a b : Value)
| Add (a b : Value)
| PtrToInt (v : Value)
| IntToPtr (v : Value)
| BitCast (v : Value)
| AddrSpaceCast (v : Value)
| GetElementPtr (ptr : Value) (indices : list Value) (constantOffset : option Z)
| Select (cond a b : Value)
| Other (opcode : nat) (ops : list Value).

Record Instruction := {
  getId : nat;
  getKind : Instr;
  getType : Ty
}.

(** A function: the types of its arguments and its instructions in program
    order. *)
Record Function_ := {
  args : list Ty;
  body : list Instruction
}.

Definition operands (k : Instr) : list Value :=
  match k with
  | Call _ callArgs => callArgs
  | Load ptr _ => [ptr]
  | Store val ptr _ => [val; ptr]
  | And a b | Add a b => [a; b]
  | PtrToInt v | IntToPtr v | BitCast v | AddrSpaceCast v => [v]
  | GetElementPtr ptr indices _ => ptr :: indices
  | Select c a b => [c; a; b]
  | Other _ ops => ops
  end.

Definition mapOperands (g : Value -> Value) (k : Instr) : Instr :=
  match k with
  | Call lt callArgs => Call lt (map g callArgs)
  | Load ptr s => Load (g ptr) s
  | Store val ptr s => Store (g val) (g ptr) s
  | And a b => And (g a) (g b)
  | Add a b => Add (g a) (g b)
  | PtrToInt v => PtrToInt (g v)
  | IntToPtr v => IntToPtr (g v)
  | BitCast v => BitCast (g v)
  | AddrSpaceCast v => AddrSpaceCast (g v)
  | GetElementPtr ptr indices off => GetElementPtr (g ptr) (map g indices) off
  | Select c a b => Select (g c) (g a) (g b)
  | Other op ops => Other op (map g ops)
  end.

Definition lookup (f : Function_) (id : nat) : option Instruction :=
  find (fun i => Nat.eqb (getId i) id) (body f).

(** [V->getType()]. *)
Definition valueType (f : Function_) (v : Value) : option Ty :=
  match v with
  | VInst id => option_map getType (lookup f id)
  | VArg n => nth_error (args f) n
  | VConst ty _ => Some ty
  end.

(** A [Use]: operand number [getOperandNo] of instruction [getUser] holds the
    value [get]. *)
Record Use := {
  getUser : nat;
  getOperandNo : nat;
  get : Value
}.

Fixpoint usesFrom (user : nat) (v : Value) (n : nat) (ops : list Value)
  : list Use :=
  match ops with
  | [] => []
  | o :: ops' =>
      (if Value_eqb o v
       then [{| getUser := user; getOperandNo := n; get := v |}] else [])
      ++ usesFrom user v (S n) ops'
  end.

(** [V->uses()], in program order of the users (LLVM's use-list order is
    unspecified for the purposes of the code modelled here). *)
Definition uses (f : Function_) (v : Value) : list Use :=
  flat_map (fun i => usesFrom (getId i) v 0 (operands (getKind i))) (body f).

(** [V->users()]: one entry per use. *)
Definition users (f : Function_) (v : Value) : list nat :=
  map getUser (uses f v).

Definition use_empty (f : Function_) (v : Value) : bool :=
  match uses f v with [] => true | _ => false end.

Definition subst (old new v : Value) : Value :=
  if Value_eqb v old then new else v.

(** [Old->replaceAllUsesWith(New)]. *)
Definition replaceAllUsesWith (f : Function_) (old new : Value) : Function_ :=
  {| args := args f;
     body := map (fun i => {| getId := getId i;
                              getKind := mapOperands (subst old new) (getKind i);
                              getType := getType i |}) (body f) |}.

(** [Inst->eraseFromParent()]. *)
Definition eraseFromParent (f : Function_) (id : nat) : Function_ :=
  {| args := args f;
     body := filter (fun i => negb (Nat.eqb (getId i) id)) (body f) |}.

Fixpoint setNth {A : Type} (n : nat) (x : A) (l : list A) : list A :=
  match l, n with
  | [], _ => []
  | _ :: l', O => x :: l'
  | y :: l', S n' => y :: setNth n' x l'
  end.

(** [V->mutateType(Ty)]; constants are uniqued by type and are not retyped
    by the code modelled here. *)
Definition mutateType (f : Function_) (v : Value) (t : Ty) : Function_ :=
  match v with
  | VInst id =>
      {| args := args f;
         body := map (fun i => if Nat.eqb (getId i) id
                               then {| getId := getId i; getKind := getKind i;
                                       getType := t |}
                               else i) (body f) |}
  | VArg n => {| args := setNth n t (args f); body := body f |}
  | VConst _ _ => f
  end.

End IR.

(* ===================================================================== *)
(** * [llvm::forwardContinuationFrameStoreToLoad] (source lines 270-428) *)
(* ===================================================================== *)

Module Forward.
Import IR.

(** [IntervalTree<int64_t, StoreInst *>::DataType]: the closed byte range
    [[left, right]] written by store [value]. *)
Record IntervalData := {
  left : Z;
  right : Z;
  value : nat
}.

Record OffsetStorePair := {
  spOffset : Z;
  spStore : nat
}.

(** [PointerUse]: a use of a pointer derived from the frame pointer, and the
    byte offset of that pointer from the frame pointer. *)
Record PointerUse := {
  Ptr : Use;
  Offset : Z
}.

(** What the use walk collects.  [OffsetLoadMap] is a [DenseMap]; it is kept
    as an association list in order of first insertion, and iterated in that
    order. *)
Record Collected := {
  OffsetLoadMap : list (Z * list nat);
  StoreIntervals : list IntervalData;
  SortedStores : list OffsetStorePair
}.

Definition emptyCollected : Collected :=
  {| OffsetLoadMap := []; StoreIntervals := []; SortedStores := [] |}.

(** [OffsetLoadMap[Offset].push_back(Load)]. *)
Fixpoint pushLoad (m : list (Z * list nat)) (off : Z) (load : nat)
  : list (Z * list nat) :=
  match m with
  | [] => [(off, [load])]
  | (o, ls) :: m' =>
      if o =? off then (o, ls ++ [load]) :: m'
      else (o, ls) :: pushLoad m' off load
  end.

(** The outcome of the walk: it either gives up (an early [return]) or
    finishes with everything collected. *)
Inductive WalkResult :=
| GiveUp
| Finished (c : Collected).

Section WithEnvironment.

(** [assert] is active unless [NDEBUG]. *)
Variable NDEBUG : bool.
(** [DataLayout::getTypeStoreSize], in bytes. *)
Variable getTypeStoreSize : Ty -> Z.
(** [DominatorTree::dominates(Store, Load)] on instruction ids. *)
Variable dominates : nat -> nat -> bool.

(** [Worklist.push_back(PointerUse(&UU, off))] for every use in [us]; the
    head of the list is the back of the vector. *)
Definition pushUses (us : list Use) (off : Z) (Worklist : list PointerUse)
  : list PointerUse :=
  rev (map (fun u => {| Ptr := u; Offset := off |}) us) ++ Worklist.

(** One iteration of the [while (!Worklist.empty())] loop (lines 305-359):
    [inl] is an early [return], [inr] the next work list and collection. *)
Definition visitUse (f : Function_) (PtrUse : PointerUse)
    (Worklist : list PointerUse) (c : Collected)
  : Outcome (unit + list PointerUse * Collected) :=
  match lookup f (getUser (Ptr PtrUse)) with
  | None => UndefinedBehaviour
  | Some U =>
      match getKind U with
      | GetElementPtr _ _ constantOffset =>
          match constantOffset with
          | None => Ok (inl tt)        (* Give up on dynamic indexes *)
          | Some off =>
              Ok (inr (pushUses (uses f (VInst (getId U)))
                                (off + Offset PtrUse) Worklist, c))
          end
      | Load _ isSimple =>
          if negb isSimple then Ok (inl tt)
          else
            Ok (inr (Worklist,
                     {| OffsetLoadMap :=
                          pushLoad (OffsetLoadMap c) (Offset PtrUse) (getId U);
                        StoreIntervals := StoreIntervals c;
                        SortedStores := SortedStores c |}))
      | Store val ptr isSimple =>
          if negb isSimple || Value_eqb val (get (Ptr PtrUse)) then Ok (inl tt)
          else
            _ <- assert NDEBUG (Value_eqb ptr (get (Ptr PtrUse)))
                   "Store->getPointerOperand() == PtrUse.Ptr->get()" ;;
            match valueType f val with
            | None => UndefinedBehaviour
            | Some valTy =>
                let StoredBytes := wrap32 (getTypeStoreSize valTy) in
                Ok (inr (Worklist,
                         {| OffsetLoadMap := OffsetLoadMap c;
                            StoreIntervals :=
                              StoreIntervals c ++
                              [{| left := Offset PtrUse;
                                  right := Offset PtrUse + StoredBytes - 1;
                                  value := getId U |}];
                            SortedStores :=
                              SortedStores c ++
                              [{| spOffset := Offset PtrUse;
                                  spStore := getId U |}] |}))
            end
      | BitCast _ | AddrSpaceCast _ =>
          Ok (inr (pushUses (uses f (VInst (getId U))) (Offset PtrUse) Worklist, c))
      | _ => Ok (inl tt)              (* Unhandled user of the frame pointer *)
      end
  end.

Fixpoint walk (fuel : nat) (f : Function_) (Worklist : list PointerUse)
    (c : Collected) : Outcome WalkResult :=
  match Worklist with
  | [] => Ok (Finished c)
  | PtrUse :: Worklist' =>
      match fuel with
      | O => OutOfFuel
      | S fuel' =>
          r <- visitUse f PtrUse Worklist' c ;;
          match r with
          | inl _ => Ok GiveUp
          | inr (Worklist'', c') => walk fuel' f Worklist'' c'
          end
      end
  end.

(** [llvm::sort] of [SortedStores] by [Offset] (lines 362-365), as an
    insertion sort. *)
Fixpoint insertSorted (p : OffsetStorePair) (l : list OffsetStorePair)
  : list OffsetStorePair :=
  match l with
  | [] => [p]
  | q :: l' =>
      if spOffset q <=? spOffset p then q :: insertSorted p l'
      else p :: q :: l'
  end.

Definition sortStores (l : list OffsetStorePair) : list OffsetStorePair :=
  fold_left (fun acc p => insertSorted p acc) l [].

(** [llvm::upper_bound(SortedStores, V, V < Elem.Offset)]: the first element
    whose offset is strictly greater than [V], [None] for [end()]. *)
Definition upper_bound (sorted : list OffsetStorePair) (V : Z)
  : option OffsetStorePair :=
  find (fun Elem => V <? spOffset Elem) sorted.

(** [StoreIntervals.getContaining(Point)]. *)
Definition getContaining (ivs : list IntervalData) (Point : Z)
  : list IntervalData :=
  filter (fun iv => (left iv <=? Point) && (Point <=? right iv)) ivs.

Definition isEmpty {A : Type} (l : list A) : bool :=
  match l with [] => true | _ => false end.

(** The checks of the inner loop body (lines 385-415) for one load: the id of
    the store to forward from and the value it stores, or [None] for a
    [continue]. *)
Definition forwardableStore (f : Function_) (c : Collected)
    (sorted : list OffsetStorePair) (Offset : Z) (StoreInfo : IntervalData)
    (Load : Instruction) : Outcome (option (nat * Value)) :=
  let LoadBytes := wrap32 (getTypeStoreSize (getType Load)) in
  let IntersectionsRight :=
    getContaining (StoreIntervals c) (Offset + LoadBytes - 1) in
  _ <- assert NDEBUG (negb (isEmpty IntersectionsRight))
         "!IntersectionsRight.empty()" ;;
  match IntersectionsRight with
  | [front] =>
      if negb (Nat.eqb (value front) (value StoreInfo)) then Ok None
      else
        let Store := value StoreInfo in
        let MaybeConflict := upper_bound sorted Offset in
        let conflict :=
          match MaybeConflict with
          | Some e => spOffset e <? right StoreInfo
          | None => false
          end in
        if conflict then Ok None
        else
          match lookup f Store with
          | Some {| getKind := IR.Store val _ _ |} =>
              match valueType f val with
              | None => UndefinedBehaviour
              | Some StoredTy =>
                  if negb (Ty_eqb (getType Load) StoredTy) then Ok None
                  else if negb (dominates Store (getId Load)) then Ok None
                  else Ok (Some (Store, val))
              end
          | _ => UndefinedBehaviour
          end
  | _ => Ok None
  end.

(** The inner loop body: the checks, then lines 417-425. *)
Definition forwardLoad (f : Function_) (c : Collected)
    (sorted : list OffsetStorePair) (Offset : Z) (StoreInfo : IntervalData)
    (LoadId : nat) : Outcome Function_ :=
  match lookup f LoadId with
  | Some ({| getKind := IR.Load LoadPtr _ |} as Load) =>
      s <- forwardableStore f c sorted Offset StoreInfo Load ;;
      match s with
      | None => Ok f
      | Some (_, val) =>
          let f := replaceAllUsesWith f (VInst LoadId) val in
          let f := eraseFromParent f LoadId in
          (* Erase the possibly dead instruction which defines the pointer. *)
          if negb (use_empty f LoadPtr) then Ok f
          else
            match LoadPtr with
            | VInst PtrInstr => Ok (eraseFromParent f PtrInstr)
            | _ => Ok f
            end
      end
  | _ => UndefinedBehaviour
  end.

Fixpoint forwardLoads (f : Function_) (c : Collected)
    (sorted : list OffsetStorePair) (Offset : Z) (StoreInfo : IntervalData)
    (Loads : list nat) : Outcome Function_ :=
  match Loads with
  | [] => Ok f
  | LoadId :: Loads' =>
      f' <- forwardLoad f c sorted Offset StoreInfo LoadId ;;
      forwardLoads f' c sorted Offset StoreInfo Loads'
  end.

(** The outer loop body (lines 371-427) for one entry of [OffsetLoadMap]. *)
Definition forwardGroup (f : Function_) (c : Collected)
    (sorted : list OffsetStorePair) (entry : Z * list nat) : Outcome Function_ :=
  let (Offset, Loads) := entry in
  _ <- assert NDEBUG (negb (isEmpty Loads)) "!Loads.empty()" ;;
  let IntersectionsLeft := getContaining (StoreIntervals c) Offset in
  match IntersectionsLeft with
  | [StoreInfo] =>
      if negb (Offset =? left StoreInfo) then Ok f
      else forwardLoads f c sorted Offset StoreInfo Loads
  | _ => Ok f
  end.

Fixpoint forwardGroups (f : Function_) (c : Collected)
    (sorted : list OffsetStorePair) (entries : list (Z * list nat))
  : Outcome Function_ :=
  match entries with
  | [] => Ok f
  | entry :: entries' =>
      f' <- forwardGroup f c sorted entry ;;
      forwardGroups f' c sorted entries'
  end.

Definition forwardContinuationFrameStoreToLoad (fuel : nat) (f : Function_)
    (FramePtr : Value) : Outcome Function_ :=
  r <- walk fuel f (pushUses (uses f FramePtr) 0 []) emptyCollected ;;
  match r with
  | GiveUp => Ok f
  | Finished c =>
      let sorted := sortStores (SortedStores c) in
      (* Nothing to do if there is no store. *)
      if isEmpty (StoreIntervals c) then Ok f
      else forwardGroups f c sorted (OffsetLoadMap c)
  end.

End WithEnvironment.

End Forward.

(* ===================================================================== *)
(** * [llvm::replaceAllPointerUses] (source lines 170-268) *)
(* ===================================================================== *)

Module AddrSpaceRewrite.
Import IR.

(** [cast<PointerType>(Ty)]: asserts the dynamic type; a plain
    [static_cast] under [NDEBUG]. *)
Definition castPointerType (NDEBUG : bool) (t : Ty) : Outcome nat :=
  match t with
  | PointerTy addrSpace => Ok addrSpace
  | _ => if NDEBUG then UndefinedBehaviour
         else AssertionFailed "cast<Ty>() argument of incompatible type!"
  end.

Definition typeOf (f : Function_) (v : Value) : Outcome Ty :=
  match valueType f v with
  | Some t => Ok t
  | None => UndefinedBehaviour
  end.

(** [Old->replaceAllUsesWith(New)] with LLVM's own precondition: replacing a
    value by itself is asserted against, and without the assertion the use
    list of [Old] never empties. *)
Definition doRAUW (NDEBUG : bool) (f : Function_) (old new : Value)
  : Outcome Function_ :=
  if Value_eqb old new then
    if NDEBUG then (if use_empty f old then Ok f else UndefinedBehaviour)
    else AssertionFailed "this->replaceAllUsesWith(expr(this)) is NOT valid!"
  else Ok (replaceAllUsesWith f old new).

(** The function being rewritten and the caller's [ToBeRemoved] vector. *)
Record State := {
  fn : Function_;
  ToBeRemoved : list nat
}.

(** [Worklist.append(Ptr->users().begin(), Ptr->users().end())]; the head of
    the list is the back of the vector. *)
Definition appendUsers (f : Function_) (Ptr : nat) (Worklist : list nat)
  : list nat :=
  rev (users f (VInst Ptr)) ++ Worklist.

(** The lambda [GetMutatedPtrTy] (lines 191-195). *)
Definition GetMutatedPtrTy (NDEBUG : bool) (NewAS : nat) (t : Ty) : Outcome Ty :=
  _ <- castPointerType NDEBUG t ;;
  Ok (getWithSamePointeeType t NewAS).

(** One iteration of the work-list loop (lines 197-267) for the popped
    instruction [Ptr]. *)
Definition visit (NDEBUG : bool) (NewAS : nat) (st : State) (Ptr : nat)
    (Worklist : list nat) : Outcome (State * list nat) :=
  let f := fn st in
  match lookup f Ptr with
  | None => UndefinedBehaviour
  | Some Inst =>
      let break_ (f' : Function_) :=
        Ok ({| fn := f'; ToBeRemoved := ToBeRemoved st |},
            appendUsers f' Ptr Worklist) in
      let continue_ (st' : State) (wl : list nat) := Ok (st', wl) in
      match getKind Inst with
      | Call isLifetimeStartOrEnd _ =>
          if isLifetimeStartOrEnd then
            (* The lifetime marker is not useful anymore. *)
            continue_ {| fn := eraseFromParent f Ptr;
                         ToBeRemoved := ToBeRemoved st |} Worklist
          else UnreachableExecuted "Unhandled call instruction"
      | Load _ _ | Store _ _ _ => continue_ st Worklist
      | And _ _ | Add _ _ | PtrToInt _ => break_ f
      | BitCast src =>
          srcTy <- typeOf f src ;;
          _ <- assert NDEBUG (isPointerTy srcTy && isPointerTy (getType Inst))
                 "getSrcTy()->isPointerTy() && getDestTy()->isPointerTy()" ;;
          t <- GetMutatedPtrTy NDEBUG NewAS (getType Inst) ;;
          break_ (mutateType f (VInst Ptr) t)
      | AddrSpaceCast op0 =>
          (* Check that the pointer operand has already been fixed *)
          op0Ty <- typeOf f op0 ;;
          op0AS <- castPointerType NDEBUG op0Ty ;;
          _ <- assert NDEBUG (Nat.eqb op0AS NewAS)
                 "getOperand(0)->getType()->getPointerAddressSpace() == NewAS" ;;
          (* Push the correct users before RAUW. *)
          let Worklist := appendUsers f Ptr Worklist in
          t <- GetMutatedPtrTy NDEBUG NewAS (getType Inst) ;;
          let f := mutateType f (VInst Ptr) t in
          f <- doRAUW NDEBUG f (VInst Ptr) op0 ;;
          continue_ {| fn := f; ToBeRemoved := ToBeRemoved st ++ [Ptr] |} Worklist
      | IntToPtr _ | GetElementPtr _ _ _ =>
          t <- GetMutatedPtrTy NDEBUG NewAS (getType Inst) ;;
          break_ (mutateType f (VInst Ptr) t)
      | Select _ _ _ =>
          let OldType := getType Inst in
          if isPointerTy OldType then
            NewType <- GetMutatedPtrTy NDEBUG NewAS OldType ;;
            (* No further processing if the type has the correct pointer type *)
            if Ty_eqb NewType OldType then continue_ st Worklist
            else break_ (mutateType f (VInst Ptr) NewType)
          else break_ f
      | Other _ _ => UnreachableExecuted "Unhandled instruction"
      end
  end.

Fixpoint loop (NDEBUG : bool) (NewAS : nat) (fuel : nat) (st : State)
    (Worklist : list nat) : Outcome State :=
  match Worklist with
  | [] => Ok st
  | Ptr :: Worklist' =>
      match fuel with
      | O => OutOfFuel
      | S fuel' =>
          r <- visit NDEBUG NewAS st Ptr Worklist' ;;
          loop NDEBUG NewAS fuel' (fst r) (snd r)
      end
  end.

Definition replaceAllPointerUses (NDEBUG : bool) (fuel : nat) (f : Function_)
    (OldPointerValue NewPointerValue : Value) (ToBeRemoved : list nat)
  : Outcome State :=
  (* Assert that both types are pointers that only differ in the address
     space. *)
  oldTy <- typeOf f OldPointerValue ;;
  newTy <- typeOf f NewPointerValue ;;
  OldAS <- castPointerType NDEBUG oldTy ;;
  NewAS <- castPointerType NDEBUG newTy ;;
  let NewPtrTy := newTy in
  _ <- assert NDEBUG (negb (Nat.eqb NewAS OldAS))
         "NewAS != OldPtrTy->getAddressSpace()" ;;
  _ <- assert NDEBUG (Ty_eqb (getWithSamePointeeType oldTy NewAS) NewPtrTy)
         "getWithSamePointeeType(OldPtrTy, NewAS) == NewPtrTy" ;;
  let f := mutateType f OldPointerValue NewPtrTy in
  (* Traverse through the users and setup the addrspace *)
  let Worklist := rev (users f OldPointerValue) in
  f <- doRAUW NDEBUG f OldPointerValue NewPointerValue ;;
  loop NDEBUG NewAS fuel {| fn := f; ToBeRemoved := ToBeRemoved |} Worklist.

End AddrSpaceRewrite.

(* ===================================================================== *)
(** * Values created through an [IRBuilder] *)
(* ===================================================================== *)

Module Builder.
Import IR.

(** The value an [IRBuilder] call returns, as the tree of the calls that
    built it.  [Existing] is a value that was there before. *)
#[warnings="-register-all"] Inductive BValue :=
| Existing (name : string)
| CreateIntToPtr (v : BValue) (destTy : Ty)
| CreateGEP (elemTy : Ty) (base : BValue) (indices : list BValue)
| CreateInBoundsGEP (elemTy : Ty) (base : BValue) (indices : list BValue)
| CreateAlloca (allocTy : Ty)
| CreateZExt (v : BValue) (destTy : Ty)
| getInt32 (c : Z)
| InlinedCall (callee : string) (callArgs : list BValue)
                                       (* Inliner.inlineCall(...).returnValue *)
| CreateCall (callee : string) (callArgs : list BValue).

(** A function of the runtime library: its name, its parameter types, for
    each parameter the pointee type its metadata records (what
    [getFuncArgPtrElementType] answers; [None] for a non-pointer), and its
    return type. *)
Record FunctionDecl := {
  fnName : string;
  paramTypes : list Ty;
  argPtrElementTypes : list (option Ty);
  returnType : Ty
}.

(** [Module::getFunction(Name)]. *)
Definition getFunction (M : list FunctionDecl) (Name : string)
  : option FunctionDecl :=
  find (fun F => String.eqb (fnName F) Name) M.

End Builder.

(* ===================================================================== *)
(** * [llvm::continuationStackOffsetToPtr] (source lines 683-710) *)
(* ===================================================================== *)

Module StackAddr.
Import IR Builder.

Inductive ContStackAddrspace := Scratch | Global.

Section WithAddressSpaces.

Variable NDEBUG : bool.
(** [static_cast<uint32_t>(ContStackAddrspace)]: the enumerators' values are
    declared in a header that is not among the sources. *)
Variable addrSpaceNumber : ContStackAddrspace -> nat.

(** [llvm::getContinuationStackGlobalMemBase] (lines 795-800). *)
Definition getContinuationStackGlobalMemBase (GpurtLibrary : list FunctionDecl)
  : Outcome FunctionDecl :=
  match getFunction GpurtLibrary "_cont_GetContinuationStackGlobalMemBase" with
  | None =>
      if NDEBUG then UndefinedBehaviour
      else AssertionFailed
             "Could not find GetContinuationStackGlobalMemBase function"
  | Some F =>
      _ <- assert NDEBUG
             (Nat.eqb (List.length (paramTypes F)) 0
              && Ty_eqb (returnType F) (IntegerTy 64))
             "F->arg_size() == 0 && F->getReturnType()->isIntegerTy(64)" ;;
      Ok F
  end.

(** [StackAddrspaceMD] is what [ContHelper::tryGetStackAddrspace] reads from
    the module of the insertion point. *)
Definition continuationStackOffsetToPtr
    (StackAddrspaceMD : option ContStackAddrspace)
    (Offset : BValue) (OffsetTy : Ty) (GpurtLibrary : list FunctionDecl)
  : Outcome BValue :=
  _ <- assert NDEBUG (Ty_eqb OffsetTy (IntegerTy 32))
         "Stack offset is expected to be an i32" ;;
  match StackAddrspaceMD with
  | None => FatalError "Missing stack addrspace metadata!"
  | Some Scratch =>
      Ok (CreateIntToPtr Offset (PointerTy (addrSpaceNumber Scratch)))
  | Some Global =>
      (* Stack lives in global memory, so add the base address *)
      let PtrTy := PointerTy (addrSpaceNumber Global) in
      F <- getContinuationStackGlobalMemBase GpurtLibrary ;;
      let BaseAddr := InlinedCall (fnName F) [] in
      let BaseAddrPtr := CreateIntToPtr BaseAddr PtrTy in
      Ok (CreateGEP (IntegerTy 8) BaseAddrPtr [Offset])
  end.

End WithAddressSpaces.

End StackAddr.

(* ===================================================================== *)
(** * [llvm::replaceIntrinsicCall] and its table (lines 64-119, 903-1032) *)
(* ===================================================================== *)

Module IntrinsicRemap.
Import IR Builder.

Inductive DXILShaderKind :=
| Pixel | Vertex | Geometry | Hull | Domain | Compute | Library
| RayGeneration | Intersection | AnyHit | ClosestHit | Miss | Callable
| Mesh | Amplification | Node | Invalid.

(** The [lgc.rt] operations that have an entry in [LgcRtGpuRtMap]. *)
Inductive LgcRtOp :=
| InstanceIdOp | InstanceIndexOp | HitKindOp | RayFlagsOp
| DispatchRaysIndexOp | DispatchRaysDimensionsOp
| WorldRayOriginOp | WorldRayDirectionOp
| ObjectRayOriginOp | ObjectRayDirectionOp
| ObjectToWorldOp | WorldToObjectOp
| RayTminOp | RayTcurrentOp
| IgnoreHitOp | AcceptHitAndEndSearchOp | TraceRayOp | ReportHitOp
| CallCallableShaderOp | PrimitiveIndexOp | GeometryIndexOp.

Record GpuRtIntrinsicEntry := {
  Name : string;
  AccessesHitData : bool
}.

Definition GPURTMAP_ENTRY (GpurtName : string) (accessesHitData : bool) :=
  {| Name := GpurtName; AccessesHitData := accessesHitData |}.

Definition LgcRtGpuRtMap (op : LgcRtOp) : GpuRtIntrinsicEntry :=
  match op with
  | InstanceIdOp => GPURTMAP_ENTRY "InstanceID" true
  | InstanceIndexOp => GPURTMAP_ENTRY "InstanceIndex" true
  | HitKindOp => GPURTMAP_ENTRY "HitKind" true
  | RayFlagsOp => GPURTMAP_ENTRY "RayFlags" false
  | DispatchRaysIndexOp => GPURTMAP_ENTRY "DispatchRaysIndex3" false
  | DispatchRaysDimensionsOp => GPURTMAP_ENTRY "DispatchRaysDimensions3" false
  | WorldRayOriginOp => GPURTMAP_ENTRY "WorldRayOrigin3" false
  | WorldRayDirectionOp => GPURTMAP_ENTRY "WorldRayDirection3" false
  | ObjectRayOriginOp => GPURTMAP_ENTRY "ObjectRayOrigin3" true
  | ObjectRayDirectionOp => GPURTMAP_ENTRY "ObjectRayDirection3" true
  | ObjectToWorldOp => GPURTMAP_ENTRY "ObjectToWorld4x3" true
  | WorldToObjectOp => GPURTMAP_ENTRY "WorldToObject4x3" true
  | RayTminOp => GPURTMAP_ENTRY "RayTMin" false
  | RayTcurrentOp => GPURTMAP_ENTRY "RayTCurrent" true
  | IgnoreHitOp => GPURTMAP_ENTRY "IgnoreHit" false
  | AcceptHitAndEndSearchOp => GPURTMAP_ENTRY "AcceptHitAndEndSearch" false
  | TraceRayOp => GPURTMAP_ENTRY "TraceRay" false
  | ReportHitOp => GPURTMAP_ENTRY "ReportHit" false
  | CallCallableShaderOp => GPURTMAP_ENTRY "CallShader" false
  | PrimitiveIndexOp => GPURTMAP_ENTRY "PrimitiveIndex" true
  | GeometryIndexOp => GPURTMAP_ENTRY "GeometryIndex" true
  end.

(** The function a call refers to: its name and, when it is one of the mapped
    dialect operations, which one. *)
Record Callee := {
  calleeName : string;
  dialectOp : option LgcRtOp
}.

(** A call instruction: the called function ([None] for an indirect call),
    its argument operands with their types, and its result type. *)
Record CallInst := {
  getCalledFunction : option Callee;
  argOperands : list (BValue * Ty);
  callType : Ty
}.

(** [llvm::isLgcRtOp] (lines 97-99). *)
Definition isLgcRtOp (F : option Callee) : bool :=
  match F with
  | Some fn => String.prefix "lgc.rt" (calleeName fn)
  | None => false
  end.

(** [llvm::findIntrImplEntryByIntrinsicCall] (lines 109-119). *)
Definition findIntrImplEntryByIntrinsicCall (Call : CallInst)
  : Outcome (option GpuRtIntrinsicEntry) :=
  if negb (isLgcRtOp (getCalledFunction Call)) then Ok None
  else
    match getCalledFunction Call with
    | Some {| dialectOp := Some op |} => Ok (Some (LgcRtGpuRtMap op))
    | _ => FatalError "Unhandled lgc.rt op!"
    end.

(** [llvm::getFuncArgPtrElementType(F, ArgNo)] (lines 1174-1184); the
    pointee type comes from the function's metadata. *)
Definition getFuncArgPtrElementType (F : FunctionDecl) (ArgNo : nat)
  : Outcome (option Ty) :=
  match nth_error (paramTypes F) ArgNo with
  | None => UndefinedBehaviour           (* F->getArg(ArgNo) out of range *)
  | Some ArgTy =>
      if negb (isPointerTy ArgTy) then Ok None
      else
        match nth_error (argPtrElementTypes F) ArgNo with
        | Some t => Ok t
        | None => UndefinedBehaviour
        end
  end.

Section WithBuild.

Variable NDEBUG : bool.

(** The loop of [getDXILSystemData] (lines 915-925): the number of zero
    indices pushed while descending into first members. *)
Fixpoint descend (SystemDataTy Ty : Ty) {struct SystemDataTy} : Outcome nat :=
  if Ty_eqb SystemDataTy Ty then Ok O
  else
    match SystemDataTy with
    | StructTy (first :: _) => n <- descend first Ty ;; Ok (S n)
    | StructTy [] => UndefinedBehaviour  (* getElementType(0) of an empty struct *)
    | _ =>
        FatalError
          "Invalid system data struct: Did not contain the needed struct type"
    end.

(** [llvm::getDXILSystemData] (lines 905-929).  [Ty] is [None] when
    [getFuncArgPtrElementType] returned a null type. *)
Definition getDXILSystemData (SystemData : BValue) (SystemDataTy : Ty)
    (Ty : option Ty) : Outcome BValue :=
  match Ty with
  | None => if NDEBUG then UndefinedBehaviour
            else AssertionFailed "Expected a struct type for system data"
  | Some Ty =>
      _ <- assert NDEBUG (isStructTy Ty)
             "Expected a struct type for system data" ;;
      n <- descend SystemDataTy Ty ;;
      (* Indices starts with one zero that dereferences the pointer *)
      if Nat.eqb (S n) 1 then Ok SystemData
      else Ok (CreateInBoundsGEP SystemDataTy SystemData
                 (repeat (getInt32 0) (S n)))
  end.

(** [GpurtLibrary->getFunction(Name)] for a hit-state accessor, with the
    asserts of lines 961-967 and 972-978. *)
Definition getHitStateAccessor (GpurtLibrary : list FunctionDecl)
    (Name msg : string) : Outcome FunctionDecl :=
  match getFunction GpurtLibrary Name with
  | None => if NDEBUG then UndefinedBehaviour else AssertionFailed msg
  | Some F =>
      _ <- assert NDEBUG
             (isStructTy (returnType F)
              && Nat.eqb (List.length (paramTypes F)) 1
              && match paramTypes F with
                 | p :: _ => isPointerTy p
                 | [] => false
                 end)
             "hit state accessor signature" ;;
      Ok F
  end.

(** The argument loop (lines 999-1021), from call operand [CallI] on, over
    the remaining parameter types of the implementation. *)
Fixpoint convertArguments (IntrName : string) (callArgs : list (BValue * Ty))
    (implParams : list IR.Ty) : Outcome (list BValue) :=
  match implParams with
  | [] => Ok []
  | NewType :: implParams' =>
      match callArgs with
      | [] => UndefinedBehaviour       (* getArgOperand out of range *)
      | (Arg, ArgType) :: callArgs' =>
          a <- (if Ty_eqb ArgType NewType then Ok Arg
                else if isIntegerTy NewType && isIntegerTy ArgType
                     then Ok (CreateZExt Arg NewType)   (* zext int arguments *)
                     else FatalError ("Can't convert argument for intrinsic '"
                                      ++ IntrName ++ "'")%string) ;;
          rest <- convertArguments IntrName callArgs' implParams' ;;
          Ok (a :: rest)
      end
  end.

(** Instructions [replaceIntrinsicCall] emits besides the new call. *)
Inductive Emitted :=
| EmitAllocaAtEntry (a : BValue)
| EmitStore (val ptr : BValue).

Record Replacement := {
  NewCall : BValue;                 (* B.CreateCall(IntrImpl, Arguments) *)
  Arguments : list BValue;
  GetHitData : option string;       (* the accessor that was inlined, if any *)
  emitted : list Emitted;
  replacesUses : bool               (* Call->replaceAllUsesWith(NewCall) ran *)
}.

Definition replaceIntrinsicCall (SystemDataTy : Ty) (SystemData : BValue)
    (Kind : DXILShaderKind) (Call : CallInst)
    (GpurtLibrary : list FunctionDecl) : Outcome (option Replacement) :=
  IntrImplEntry <- findIntrImplEntryByIntrinsicCall Call ;;
  match IntrImplEntry with
  | None => Ok None
  | Some IntrImplEntry =>
      let Name := ("_cont_" ++ Name IntrImplEntry)%string in
      match getFunction GpurtLibrary Name with
      | None =>
          FatalError ("Intrinsic implementation '" ++ Name ++ "' not found")%string
      | Some IntrImpl =>
          (* Add the right system data type *)
          t0 <- getFuncArgPtrElementType IntrImpl 0 ;;
          sys <- getDXILSystemData SystemData SystemDataTy t0 ;;
          (* For hit data accessors, get the hit data struct *)
          hit <-
            (if AccessesHitData IntrImplEntry then
               GetHitData <-
                 (match Kind with
                  | AnyHit | Intersection =>
                      getHitStateAccessor GpurtLibrary "_cont_GetCandidateState"
                        "Could not find GetCandidateState function"
                  | _ =>
                      getHitStateAccessor GpurtLibrary "_cont_GetCommittedState"
                        "Could not find GetCommittedState function"
                  end) ;;
               (* The intrinsic expects a pointer, so create an alloca *)
               let HitDataAlloca := CreateAlloca (returnType GetHitData) in
               t <- getFuncArgPtrElementType GetHitData 0 ;;
               trav <- getDXILSystemData SystemData SystemDataTy t ;;
               let HitData := InlinedCall (fnName GetHitData) [trav] in
               Ok (Some (fnName GetHitData),
                   [EmitAllocaAtEntry HitDataAlloca;
                    EmitStore HitData HitDataAlloca],
                   [HitDataAlloca])
             else Ok (None, [], [])) ;;
          let '(accessor, emitted, hitArgs) := hit in
          (* Skip the system data argument and the hit data argument *)
          let ImplI := if AccessesHitData IntrImplEntry then 2%nat else 1%nat in
          rest <- convertArguments (IntrinsicRemap.Name IntrImplEntry)
                    (argOperands Call) (skipn ImplI (paramTypes IntrImpl)) ;;
          let Arguments := sys :: hitArgs ++ rest in
          Ok (Some {| NewCall := CreateCall (fnName IntrImpl) Arguments;
                      Arguments := Arguments;
                      GetHitData := accessor;
                      emitted := emitted;
                      replacesUses := negb (Ty_eqb (callType Call) VoidTy) |})
      end
  end.

End WithBuild.

End IntrinsicRemap.

(* ===================================================================== *)
(** * The design document's formulas, for comparison with the code *)
(* ===================================================================== *)

Module Spec.
Import LowerGpuRt.

(** The workgroup size before rounding: 64 for graphics stages, otherwise the
    product of the three configured workgroup dimensions. *)
Definition configuredWorkgroupSize (ps : PipelineState) : Z :=
  if isGraphics ps then 64
  else workgroupSizeX (getComputeShaderMode ps)
       * workgroupSizeY (getComputeShaderMode ps)
       * workgroupSizeZ (getComputeShaderMode ps).

(** The next multiple of 32. *)
Definition roundUp32 (w : Z) : Z := 32 * ((w + 31) / 32).

(** [W]: rounded up to a multiple of 32 from hardware generation 11 on. *)
Definition workgroupSize (ps : PipelineState) : Z :=
  if 11 <=? gfxIpMajor ps then roundUp32 (configuredWorkgroupSize ps)
  else configuredWorkgroupSize ps.

(** The operations for which the stack global exists: stack read, stack
    write and stack init. *)
Definition isStackOp (i : Inst) : bool :=
  match i with
  | Call (GpurtStackWriteOp _ _ _)
  | Call (GpurtStackReadOp _ _)
  | Call GpurtLdsStackInitOp => true
  | _ => false
  end.

(** A stack read or write that requests the extra stack. *)
Definition requestsExtraStack (i : Inst) : bool :=
  match i with
  | Call (GpurtStackWriteOp _ _ useExtraStack)
  | Call (GpurtStackReadOp _ useExtraStack) => useExtraStack
  | _ => false
  end.

(** Capacity in 32-bit words: [E * W], doubled for the extra stack. *)
Definition capacity (ps : PipelineState) (m : Module_) : Z :=
  16 * workgroupSize ps * (if existsb requestsExtraStack (insts m) then 2 else 1).

(** The per-thread base offset for [W > 32]. *)
Definition base (t : Z) : Z := t mod 32 + (t / 32) * (16 * 32).

(** Workgroup dimensions a pipeline can be configured with: positive, with a
    product of at most [2 ^ 26] invocations, so that no 32-bit product of the
    pass wraps around. *)
Definition realisticWorkgroup (ps : PipelineState) : Prop :=
  isGraphics ps = false ->
  0 < workgroupSizeX (getComputeShaderMode ps) /\
  0 < workgroupSizeY (getComputeShaderMode ps) /\
  0 < workgroupSizeZ (getComputeShaderMode ps) /\
  workgroupSizeX (getComputeShaderMode ps)
  * workgroupSizeY (getComputeShaderMode ps)
  * workgroupSizeZ (getComputeShaderMode ps) <= 2 ^ 26.

Definition isCall (i : Inst) : bool :=
  match i with Call _ => true | _ => false end.

(** The gpurt operations called in a list of instructions. *)
Definition callsOf (l : list Inst) : list GpurtOp :=
  flat_map (fun i => match i with Call op => [op] | _ => [] end) l.

(** [r] is what the pass leaves in place of instruction [i]. *)
Definition lowersTo (i r : Inst) : Prop :=
  match i with
  | Call _ => exists effects replacement, r = Lowered effects replacement
  | _ => r = i
  end.

(** A compute pipeline with an 8 x 8 x 1 workgroup on a gfx11 target. *)
Definition examplePipeline : PipelineState :=
  {| isGraphics := false;
     getComputeShaderMode :=
       {| workgroupSizeX := 8; workgroupSizeY := 8; workgroupSizeZ := 1 |};
     gfxIpMajor := 11;
     getOptions := {| rtBoxSortHeuristicMode := 0;
                      rtStaticPipelineFlags := 0;
                      rtTriCompressMode := 0 |} |}.


(** The shader stages that read the candidate hit state. *)
Definition readsCandidateState (Kind : IntrinsicRemap.DXILShaderKind) : Prop :=
  Kind = IntrinsicRemap.AnyHit \/ Kind = IntrinsicRemap.Intersection.

(** ** Well-formedness of a function, as LLVM's verifier would require it *)

(** Instruction ids are unique. *)
Definition uniqueIds (f : IR.Function_) : Prop :=
  NoDup (map IR.getId (IR.body f)).

Definition isOther (k : IR.Instr) : bool :=
  match k with IR.Other _ _ => true | _ => false end.

(** Instructions are numbered so that, phi-like ([Other]) instructions apart,
    an instruction's operands are defined by instructions with smaller
    numbers. *)
Definition definedBeforeUse (f : IR.Function_) : Prop :=
  forall i j,
    In i (IR.body f) -> isOther (IR.getKind i) = false ->
    In (IR.VInst j) (IR.operands (IR.getKind i)) -> (j < IR.getId i)%nat.

(** Every operand refers to a value of the function. *)
Definition operandsDefined (f : IR.Function_) : Prop :=
  forall i v,
    In i (IR.body f) -> In v (IR.operands (IR.getKind i)) ->
    IR.valueType f v <> None.

(** ** The pointers the forwarding analysis follows *)

(** The byte offset an address computation adds, for the instructions the
    walk looks through. *)
Definition passThrough (k : IR.Instr) : option Z :=
  match k with
  | IR.GetElementPtr _ _ (Some off) => Some off
  | IR.BitCast _ | IR.AddrSpaceCast _ => Some 0
  | _ => None
  end.

(** [Derived f FramePtr p off]: [p] is reached from the frame pointer through
    constant-offset address computation only, at byte offset [off]. *)
Inductive Derived (f : IR.Function_) (FramePtr : IR.Value)
  : IR.Value -> Z -> Prop :=
| Derived_frame : Derived f FramePtr FramePtr 0
| Derived_step (p : IR.Value) (off delta : Z) (U : IR.Instruction) :
    Derived f FramePtr p off ->
    In U (IR.body f) ->
    In p (IR.operands (IR.getKind U)) ->
    passThrough (IR.getKind U) = Some delta ->
    Derived f FramePtr (IR.VInst (IR.getId U)) (delta + off).

(** The users at which the analysis gives up: an address computation with a
    non-constant offset, a non-simple load or store, a store of the pointer
    itself, or any other kind of user. *)
Definition abortsWalk (k : IR.Instr) (used : IR.Value) : bool :=
  match k with
  | IR.GetElementPtr _ _ None => true
  | IR.GetElementPtr _ _ (Some _) => false
  | IR.BitCast _ | IR.AddrSpaceCast _ => false
  | IR.Load _ isSimple => negb isSimple
  | IR.Store val _ isSimple => negb isSimple || IR.Value_eqb val used
  | _ => true
  end.

(** ** The result of forwarding *)

Definition memb (x : nat) (l : list nat) : bool := existsb (Nat.eqb x) l.

(** Replace the result of every load in [D] by [V]. *)
Definition substForwarded (D : list nat) (V v : IR.Value) : IR.Value :=
  match v with
  | IR.VInst id => if memb id D then V else v
  | _ => v
  end.

(** An instruction with every operand that is a load in [D] replaced by
    [V]. *)
Definition forwardInst (D : list nat) (V : IR.Value) (i : IR.Instruction)
  : IR.Instruction :=
  {| IR.getId := IR.getId i;
     IR.getKind := IR.mapOperands (substForwarded D V) (IR.getKind i);
     IR.getType := IR.getType i |}.

(** [f] with every use of a load in [D] replaced by [V] and the instructions
    in [E] erased. *)
Definition applyForwarding (D E : list nat) (V : IR.Value) (f : IR.Function_)
  : IR.Function_ :=
  {| IR.args := IR.args f;
     IR.body :=
       filter (fun i => negb (memb (IR.getId i) E))
         (map (forwardInst D V) (IR.body f)) |}.

(** All loads the walk collected. *)
Definition allLoads (c : Forward.Collected) : list nat :=
  List.concat (map snd (Forward.OffsetLoadMap c)).

(** ** Notions used to reason about the use walk *)

Section WalkNotions.
Import IR Forward.
(** The work-list entry [pu] is a use that occurs in [f]. *)
Definition isUse (f : Function_) (pu : PointerUse) : Prop :=
  In (Ptr pu) (uses f (get (Ptr pu))).

(** The collection after [OffsetLoadMap[off].push_back(l)]. *)
Definition withLoad (c : Collected) (off : Z) (l : nat) : Collected :=
  {| OffsetLoadMap := pushLoad (OffsetLoadMap c) off l;
     StoreIntervals := StoreIntervals c;
     SortedStores := SortedStores c |}.

(** The collection after recording store [s] of a value of type [ty] at
    offset [off]. *)
Definition withStore (getTypeStoreSize : Ty -> Z) (c : Collected) (off : Z)
    (ty : Ty) (s : nat) : Collected :=
  {| OffsetLoadMap := OffsetLoadMap c;
     StoreIntervals :=
       StoreIntervals c ++
       [{| left := off; right := off + wrap32 (getTypeStoreSize ty) - 1;
           value := s |}];
     SortedStores := SortedStores c ++ [{| spOffset := off; spStore := s |}] |}.
(** A pass-through user of [pu] is within [k] of the bound [N] on the
    instruction numbers. *)
Definition rankOK (f : Function_) (N k : nat) (pu : PointerUse) : Prop :=
  forall U, In U (body f) -> getId U = getUser (Ptr pu) ->
            passThrough (getKind U) <> None -> (N <= getId U + k)%nat.

(** [ReachUse f wl p off U]: the walk started from work list [wl] gets to the
    use of pointer [p], at offset [off], by instruction [U]. *)
Inductive ReachUse (f : Function_) (wl : list PointerUse)
  : Value -> Z -> Instruction -> Prop :=
| ReachUse_entry (pu : PointerUse) (U : Instruction) :
    In pu wl -> In U (body f) -> getId U = getUser (Ptr pu) ->
    ReachUse f wl (get (Ptr pu)) (Offset pu) U
| ReachUse_step (p : Value) (off delta : Z) (U U' : Instruction) :
    ReachUse f wl p off U ->
    passThrough (getKind U) = Some delta ->
    In U' (body f) ->
    In (VInst (getId U)) (operands (getKind U')) ->
    ReachUse f wl (VInst (getId U)) (delta + off) U'.

(** Every collected load is a simple load of [f] from a pointer derived from
    the frame pointer at the recorded offset. *)
Definition loadsOK (f : Function_) (FramePtr : Value) (c : Collected) : Prop :=
  forall o ls,
    In (o, ls) (OffsetLoadMap c) ->
    ls <> [] /\
    forall l, In l ls ->
      exists U ptr,
        In U (body f) /\ getId U = l /\ getKind U = Load ptr true /\
        Derived f FramePtr ptr o.

(** Every collected interval is the byte range a simple store of [f] writes
    through a pointer derived from the frame pointer. *)
Definition storesOK (getTypeStoreSize : Ty -> Z) (f : Function_)
    (FramePtr : Value) (c : Collected) : Prop :=
  forall iv,
    In iv (StoreIntervals c) ->
    exists U val ptr ty,
      In U (body f) /\ getId U = value iv /\ getKind U = Store val ptr true /\
      valueType f val = Some ty /\
      right iv = left iv + wrap32 (getTypeStoreSize ty) - 1 /\
      Derived f FramePtr ptr (left iv).

(** [SortedStores] lists the offsets and stores of [StoreIntervals]. *)
Definition sortedMatches (c : Collected) : Prop :=
  SortedStores c =
  map (fun iv => {| spOffset := left iv; spStore := value iv |})
      (StoreIntervals c).


End WalkNotions.

(** The order [SortedStores] is sorted by. *)
Definition offsetLe (a b : Forward.OffsetStorePair) : Prop :=
  Forward.spOffset a <= Forward.spOffset b.

(** ** Notions for the address-space rewrite *)

Definition isLifetimeMarker (k : IR.Instr) : bool :=
  match k with IR.Call true _ => true | _ => false end.

(** [f'] is [f] with nothing changed except that some lifetime markers were
    erased: same arguments, same instructions with the same operands. *)
Definition unchangedExceptLifetimeMarkers (f f' : IR.Function_) : Prop :=
  IR.args f' = IR.args f /\
  exists erased,
    (forall i, In i (IR.body f) -> In (IR.getId i) erased ->
               isLifetimeMarker (IR.getKind i) = true) /\
    IR.body f' =
      filter (fun i => negb (memb (IR.getId i) erased)) (IR.body f).

(** No instruction that defines [v] is a lifetime marker. *)
Definition notLifetimeMarker (f : IR.Function_) (v : IR.Value) : Prop :=
  forall i, In i (IR.body f) -> v = IR.VInst (IR.getId i) ->
            isLifetimeMarker (IR.getKind i) = false.

Definition isConstant (v : IR.Value) : bool :=
  match v with IR.VConst _ _ => true | _ => false end.

(** No instruction of [f] has [v] as an operand. *)
Definition unused (f : IR.Function_) (v : IR.Value) : Prop :=
  forall i, In i (IR.body f) -> ~ In v (IR.operands (IR.getKind i)).

(** The rewritten pointer [v] has type [T] wherever it is defined, and is
    not a lifetime marker. *)
Definition retyped (f : IR.Function_) (v : IR.Value) (T : IR.Ty) : Prop :=
  match v with
  | IR.VInst o =>
      (exists i, IR.lookup f o = Some i) /\
      forall i, In i (IR.body f) -> IR.getId i = o ->
                IR.getType i = T /\ isLifetimeMarker (IR.getKind i) = false
  | IR.VArg k => nth_error (IR.args f) k = Some T
  | IR.VConst ty _ => ty = T
  end.

(** The replacing pointer [v] has type [T] and is not a lifetime marker. *)
Definition hasPointerType (f : IR.Function_) (v : IR.Value) (T : IR.Ty) : Prop :=
  match v with
  | IR.VInst n =>
      exists i, IR.lookup f n = Some i /\ IR.getType i = T /\
                isLifetimeMarker (IR.getKind i) = false
  | IR.VArg k => nth_error (IR.args f) k = Some T
  | IR.VConst ty _ => ty = T
  end.

(** The instruction [i] as [mutateType] leaves it: retyped to [t] when its
    id is [x]. *)
Definition retypeIf (x : nat) (t : IR.Ty) (i : IR.Instruction) : IR.Instruction :=
  if Nat.eqb (IR.getId i) x
  then {| IR.getId := IR.getId i; IR.getKind := IR.getKind i; IR.getType := t |}
  else i.

(** The instruction [i] as [replaceAllUsesWith a b] leaves it. *)
Definition rauwInst (a b : IR.Value) (i : IR.Instruction) : IR.Instruction :=
  {| IR.getId := IR.getId i;
     IR.getKind := IR.mapOperands (IR.subst a b) (IR.getKind i);
     IR.getType := IR.getType i |}.

(** What holds of the function from the initial replacement on: [Old] has
    no use left and has the new type, which is also the type of [New]. *)
Definition pointerRewritten (Old New : IR.Value) (T : IR.Ty) (g : IR.Function_) : Prop :=
  unused g Old /\ retyped g Old T /\ hasPointerType g New T.

(** The rewrite returns, and what it returns is the function it was given
    except for erased lifetime markers. *)
Definition rewriteLeavesUnchanged (NDEBUG : bool) (fuel : nat)
    (f : IR.Function_) (Old New : IR.Value) (ToBeRemoved : list nat) : Prop :=
  exists st,
    AddrSpaceRewrite.replaceAllPointerUses NDEBUG fuel f Old New ToBeRemoved
      = Ok st /\
    unchangedExceptLifetimeMarkers f (AddrSpaceRewrite.fn st).

End Spec.

(* ===================================================================== *)
(** * Concrete inputs used below *)
(* ===================================================================== *)

Module Examples.
Import IR Builder.

Definition i32 : Ty := IntegerTy 32.
Definition i64 : Ty := IntegerTy 64.

(** Address-space numbers for the two stack modes. *)
Definition exampleAddrSpaces (a : StackAddr.ContStackAddrspace) : nat :=
  match a with StackAddr.Scratch => 21%nat | StackAddr.Global => 22%nat end.

Definition systemDataTy : Ty := StructTy [i32].
Definition hitDataTy : Ty := StructTy [FloatTy; i32].

(** A runtime library with the [InstanceID] implementation and the two hit
    state accessors. *)
Definition exampleGpurtLibrary : list FunctionDecl :=
  [ {| fnName := "_cont_InstanceID";
       paramTypes := [PointerTy 0; PointerTy 0];
       argPtrElementTypes := [Some systemDataTy; Some hitDataTy];
       returnType := i32 |};
    {| fnName := "_cont_GetCandidateState";
       paramTypes := [PointerTy 0];
       argPtrElementTypes := [Some systemDataTy];
       returnType := hitDataTy |};
    {| fnName := "_cont_GetCommittedState";
       paramTypes := [PointerTy 0];
       argPtrElementTypes := [Some systemDataTy];
       returnType := hitDataTy |};
    {| fnName := "_cont_GetContinuationStackGlobalMemBase";
       paramTypes := [];
       argPtrElementTypes := [];
       returnType := i64 |} ].

Definition instanceIdCall : IntrinsicRemap.CallInst :=
  {| IntrinsicRemap.getCalledFunction :=
       Some {| IntrinsicRemap.calleeName := "lgc.rt.instance.id";
               IntrinsicRemap.dialectOp := Some IntrinsicRemap.InstanceIdOp |};
     IntrinsicRemap.argOperands := [];
     IntrinsicRemap.callType := i32 |}.

(** *** Frames for the forwarding analysis *)

Section Frames.
Import Forward.


(** Store sizes under a data layout with byte-sized integers and 64-bit
    pointers. *)
Definition exampleDL (t : Ty) : Z :=
  match t with
  | IntegerTy bits => (Z.of_nat bits + 7) / 8
  | FloatTy => 4
  | PointerTy _ => 8
  | _ => 0
  end.

Definition inst (id : nat) (k : Instr) (t : Ty) : Instruction :=
  {| getId := id; getKind := k; getType := t |}.

(** Frame pointer [VArg 0]; [store i32] at offsets 0 and 4, then an [i64]
    load at offset 0, whose result instruction 5 uses. *)
Definition frameSplitStores : Function_ :=
  {| args := [PointerTy 0; i32; i32];
     body :=
       [ inst 1 (Store (VArg 1) (VArg 0) true) VoidTy;
         inst 2 (GetElementPtr (VArg 0) [VConst i64 4] (Some 4)) (PointerTy 0);
         inst 3 (Store (VArg 2) (VInst 2) true) VoidTy;
         inst 4 (Load (VArg 0) true) i64;
         inst 5 (Other 0 [VInst 4]) VoidTy ] |}.

(** [store i64] at offset 0, then [store i32] at offset 4, then an [i64]
    load at offset 0. *)
Definition frameInteriorStore : Function_ :=
  {| args := [PointerTy 0; i64; i32];
     body :=
       [ inst 1 (Store (VArg 1) (VArg 0) true) VoidTy;
         inst 2 (GetElementPtr (VArg 0) [VConst i64 4] (Some 4)) (PointerTy 0);
         inst 3 (Store (VArg 2) (VInst 2) true) VoidTy;
         inst 4 (Load (VArg 0) true) i64;
         inst 5 (Other 0 [VInst 4]) VoidTy ] |}.

(** [store i32 %arg1] at offset 0, then an [i32] load at offset 0 through a
    bitcast of the frame pointer. *)
Definition frameRoundTrip : Function_ :=
  {| args := [PointerTy 0; i32];
     body :=
       [ inst 1 (Store (VArg 1) (VArg 0) true) VoidTy;
         inst 2 (BitCast (VArg 0)) (PointerTy 0);
         inst 4 (Load (VInst 2) true) i32;
         inst 5 (Other 0 [VInst 4]) VoidTy ] |}.

Definition frameRoundTripCollected : Collected :=
  {| OffsetLoadMap := [(0, [4%nat])];
     StoreIntervals := [{| left := 0; right := 3; value := 1 |}];
     SortedStores := [{| spOffset := 0; spStore := 1 |}] |}.

(** The same frame with a volatile load added. *)
Definition frameVolatile : Function_ :=
  {| args := [PointerTy 0; i32];
     body :=
       [ inst 1 (Store (VArg 1) (VArg 0) true) VoidTy;
         inst 2 (Load (VArg 0) true) i32;
         inst 3 (Load (VArg 0) false) i32;
         inst 5 (Other 0 [VInst 2; VInst 3]) VoidTy ] |}.

(** [store i32 %arg1] at offset 0, then an [i32] load and an [i64] load at
    offset 0. *)
Definition frameWideLoad : Function_ :=
  {| args := [PointerTy 0; i32];
     body :=
       [ inst 1 (Store (VArg 1) (VArg 0) true) VoidTy;
         inst 2 (Load (VArg 0) true) i32;
         inst 3 (Load (VArg 0) true) i64;
         inst 5 (Other 0 [VInst 2; VInst 3]) VoidTy ] |}.


(** *** A function for the address-space rewrite

    Two pointer arguments in address space 5, a load and a store through the
    first one. *)
Definition sameSpaceFunction : Function_ :=
  {| args := [PointerTy 5; PointerTy 5; i32];
     body :=
       [ inst 1 (Load (VArg 0) true) i32;
         inst 2 (Store (VArg 2) (VArg 0) true) VoidTy ] |}.

Definition sameSpaceRewritten : Function_ :=
  {| args := [PointerTy 5; PointerTy 5; i32];
     body :=
       [ inst 1 (Load (VArg 1) true) i32;
         inst 2 (Store (VArg 2) (VArg 1) true) VoidTy ] |}.

(** A scratch pointer [VArg 0] in address space 5 with a lifetime marker, a
    [getelementptr] and a load through it; [VArg 1] is the pointer in
    address space 21 that replaces it. *)
Definition rewriteFunction : Function_ :=
  {| args := [PointerTy 5; PointerTy 21];
     body :=
       [ inst 1 (Call true [VArg 0]) VoidTy;
         inst 2 (GetElementPtr (VArg 0) [VConst i32 1] (Some 4)) (PointerTy 5);
         inst 3 (Load (VInst 2) true) i32 ] |}.

Definition rewriteFunctionRewritten : Function_ :=
  {| args := [PointerTy 21; PointerTy 21];
     body :=
       [ inst 2 (GetElementPtr (VArg 1) [VConst i32 1] (Some 4)) (PointerTy 21);
         inst 3 (Load (VInst 2) true) i32 ] |}.

End Frames.

End Examples.

(* ===================================================================== *)
(** * Notions used to state further properties of [LowerGpuRt] *)
(* ===================================================================== *)

Module Notions.
Import LowerGpuRt.

(** [r] is what the visitor of [run] leaves in place of instruction [i]:
    the effects and the replacement value that [visit] returns for a gpurt
    call, the instruction itself otherwise. *)
Definition loweredBy (NDEBUG : bool) (ps : PipelineState) (i r : Inst) : Prop :=
  match i with
  | Call op =>
      exists e, visit NDEBUG ps op = Ok e /\ r = Lowered (fst e) (snd e)
  | _ => r = i
  end.

(** The declarations that the calls of an instruction list refer to. *)
Definition calledDecls (l : list Inst) : list OpDecl :=
  map getCalledFunction (Spec.callsOf l).

(** The instructions for which the pass reads the workgroup size: the
    stack-size and stride queries, and the three operations for which
    [createGlobalStack] allocates the global. *)
Definition needsWorkgroupSize (i : Inst) : bool :=
  match i with
  | Call GpurtGetStackSizeOp
  | Call GpurtGetStackStrideOp
  | Call (GpurtStackWriteOp _ _ _)
  | Call (GpurtStackReadOp _ _)
  | Call GpurtLdsStackInitOp => true
  | _ => false
  end.

(** The workgroup size before the rounding of [getWorkgroupSize], as the
    32-bit code computes it. *)
Definition rawWorkgroupSize (ps : PipelineState) : Z :=
  if isGraphics ps then 64
  else wrap32 (wrap32 (workgroupSizeX (getComputeShaderMode ps)
                       * workgroupSizeY (getComputeShaderMode ps))
               * workgroupSizeZ (getComputeShaderMode ps)).

End Notions.

(* ===================================================================== *)
(** * [llvm::removeUnusedFunctionDecls] (source lines 121-135) *)
(* ===================================================================== *)

Module UnusedDecls.
Import IntrinsicRemap.

(** A function of the module, as far as [removeUnusedFunctionDecls] looks at
    it: its name, whether it is a declaration, and whether it has no user. *)
Record Function := {
  getName : string;
  isDeclaration : bool;
  user_empty : bool
}.

(** The function as the callee that [isLgcRtOp] is asked about; [isLgcRtOp]
    reads the name only. *)
Definition asCallee (F : Function) : option Callee :=
  Some {| calleeName := getName F; dialectOp := None |}.

(** The loop of lines 124-132 over the early-increment range of the module, with the
    functions that remain; erasing a declaration without users changes no
    other function's users. *)
Fixpoint eraseLoop (OnlyIntrinsics : bool) (Mod : list Function)
    (DidChange : bool) : bool * list Function :=
  match Mod with
  | [] => (DidChange, [])
  | F :: rest =>
      if isDeclaration F && user_empty F then
        if negb OnlyIntrinsics
           || (isLgcRtOp (asCallee F) || String.prefix "dx.op." (getName F))
        then
          (* F.eraseFromParent(); DidChange = true; *)
          eraseLoop OnlyIntrinsics rest true
        else
          let r := eraseLoop OnlyIntrinsics rest DidChange in
          (fst r, F :: snd r)
      else
        let r := eraseLoop OnlyIntrinsics rest DidChange in
        (fst r, F :: snd r)
  end.

(** [llvm::removeUnusedFunctionDecls] (lines 121-135): the returned flag and
    the functions the module is left with. *)
Definition removeUnusedFunctionDecls (Mod : list Function)
    (OnlyIntrinsics : bool) : bool * list Function :=
  eraseLoop OnlyIntrinsics Mod false.

(** A declaration without users; with [OnlyIntrinsics], one whose name
    starts with [lgc.rt] or [dx.op.]. *)
Definition unusedDecl (OnlyIntrinsics : bool) (F : Function) : bool :=
  isDeclaration F && user_empty F &&
  (negb OnlyIntrinsics
   || String.prefix "lgc.rt" (getName F)
   || String.prefix "dx.op." (getName F)).

End UnusedDecls.

(* ===================================================================== *)
(** * [isRematerializableLgcRtOp] and [LgcMaterializable] (lines 137-168, 1192-1257) *)
(* ===================================================================== *)

Module Remat.
Import IntrinsicRemap.

(** The [OpSet]s of lines 146-148 and 157-162. *)
Definition RematerializableDialectOps (op : LgcRtOp) : bool :=
  match op with
  | DispatchRaysDimensionsOp | DispatchRaysIndexOp => true
  | _ => false
  end.

Definition RematerializableIntersectionDialectOps (op : LgcRtOp) : bool :=
  match op with
  | InstanceIdOp | InstanceIndexOp | GeometryIndexOp
  | ObjectRayDirectionOp | ObjectRayOriginOp | ObjectToWorldOp
  | PrimitiveIndexOp | RayFlagsOp | RayTminOp | WorldRayDirectionOp
  | WorldRayOriginOp | WorldToObjectOp => true
  | _ => false
  end.

(** [OpSet::contains(const Function &)]: the function is the declaration of
    one of the set's operations. *)
Definition contains (set : LgcRtOp -> bool) (Callee : option Callee) : bool :=
  match Callee with
  | Some {| dialectOp := Some op |} => set op
  | _ => false
  end.

(** [ContHelper::isRematerializableLgcRtOp] (lines 137-168). *)
Definition isRematerializableLgcRtOp (CInst : CallInst)
    (Kind : option DXILShaderKind) : bool :=
  let Callee := getCalledFunction CInst in
  if negb (isLgcRtOp Callee) then false
  else
    (* Always rematerialize *)
    if contains RematerializableDialectOps Callee then true
    else
      if match Kind with
         | None | Some Intersection => true
         | Some _ => false
         end
         && contains RematerializableIntersectionDialectOps Callee
      then true
      else false.

Inductive IntrinsicID :=
| amdgcn_s_getpc
| OtherIntrinsic (id : nat).

(** Instructions as [LgcMaterializable] inspects them, with the operands it
    follows: the vector or aggregate operand of an extract, operand 0 of an
    insert, the address space a load reads from, and for a call the call
    itself and the intrinsic it is, if any. *)
Inductive MValue :=
| MConstant
| MArgument
| MInstruction (I : MInst)
with MInst :=
| ExtractElementInst (VectorOperand : MValue)
| ExtractValueInst (AggregateOperand : MValue)
| InsertElementInst (Operand0 : MValue)
| InsertValueInst (Operand0 : MValue)
| LoadInst (PointerAddressSpace : nat)
| CallInstr (CInst : CallInst) (Intrinsic : option IntrinsicID)
| OtherInstruction (opcode : nat).

(** The loop of lines 1198-1210: follow extracts to their source as long as
    the source is an instruction. *)
Fixpoint stripExtracts (V : MInst) : MInst :=
  match V with
  | ExtractElementInst (MInstruction NewInst) => stripExtracts NewInst
  | ExtractValueInst (MInstruction NewInst) => stripExtracts NewInst
  | _ => V
  end.

Section WithDefault.

(** [llvm::coro::defaultMaterializable], which LLVM provides. *)
Variable defaultMaterializable : MInst -> bool.

(** [llvm::LgcMaterializable] (lines 1192-1257). *)
Definition LgcMaterializable (OrigI : MInst) : bool :=
  let V := stripExtracts OrigI in
  if defaultMaterializable V then true
  else
    (* Insert into constant. *)
    if match V with
       | InsertElementInst MConstant | InsertValueInst MConstant => true
       | _ => false
       end
    then true
    else
      (* load from constant address space *)
      if match V with
         | LoadInst PointerAddressSpace => Nat.eqb PointerAddressSpace 4
         | _ => false
         end
      then true
      else
        match V with
        | CallInstr CInst Intrinsic =>
            match getCalledFunction CInst with
            | Some CalledFunc =>
                if isRematerializableLgcRtOp CInst None then true
                else
                  if match Intrinsic with
                     | Some amdgcn_s_getpc => true
                     | _ => false
                     end
                  then true
                  else
                    let CalledName := calleeName CalledFunc in
                    String.prefix "lgc.user.data" CalledName
                    || String.prefix "lgc.shader.input" CalledName
                    || String.prefix "lgc.load.user.data" CalledName
            | None => false
            end
        | _ => false
        end.

End WithDefault.

(** A call of the mapped [lgc.rt] operation [op], under its dialect name. *)
Definition callOf (name : string) (op : LgcRtOp) : CallInst :=
  {| getCalledFunction := Some {| calleeName := name; dialectOp := Some op |};
     argOperands := [];
     callType := IR.IntegerTy 32 |}.

End Remat.

(* ===================================================================== *)
(** * Metadata utilities (source lines 720-745, 802-812, 847-901, 1164-1172) *)
(* ===================================================================== *)

Module Metadata.

Inductive Opcode :=
| BitCast
| AddrSpaceCast
| OtherOpcode (n : nat).

Inductive GlobalValue :=
| Function (name : string)
| GlobalVariable (name : string).

(** Constants.  Of a constant expression the code below reads the opcode and
    operand 0; [OtherOpcode n] stands for an expression of any other opcode,
    [n] telling such expressions apart. *)
Inductive Constant :=
| GlobalConstant (g : GlobalValue)
| ConstantInt (BitWidth : nat) (ZExtValue : Z)
| ConstantExpr (opcode : Opcode) (Operand0 : Constant)
| OtherConstant (n : nat).

Definition Opcode_eq_dec (a b : Opcode) : {a = b} + {a <> b}.
Proof. decide equality. apply Nat.eq_dec. Defined.

Definition GlobalValue_eq_dec (a b : GlobalValue) : {a = b} + {a <> b}.
Proof. decide equality; apply string_dec. Defined.

Definition Constant_eq_dec (a b : Constant) : {a = b} + {a <> b}.
Proof.
  decide equality;
    first [apply GlobalValue_eq_dec | apply Z.eq_dec | apply Nat.eq_dec
          | apply Opcode_eq_dec].
Defined.

(** Constants are uniqued, so pointer equality is equality. *)
Definition Constant_eqb (a b : Constant) : bool :=
  if Constant_eq_dec a b then true else false.

(** A value: a constant or something else (an instruction, an argument). *)
Inductive Value :=
| ConstantValue (C : Constant)
| NonConstant (n : nat).

#[warnings="-register-all"] Inductive Metadata :=
| ConstantAsMetadata (Value : Constant)
| MDString (s : string)
| MDTuple (operands : list (option Metadata))
| OtherMDNode (n : nat).

(** The inner loop of [stripMDCasts] (lines 726-732). *)
Fixpoint stripBitCasts (Const : Constant) : Constant :=
  match Const with
  | ConstantExpr BitCast Operand0 => stripBitCasts Operand0
  | _ => Const
  end.

(** The loop of [stripMDCasts] over the operands of the tuple, with the
    operands the tuple is left with. *)
Fixpoint stripMDCastsFrom (operands : list (option Metadata)) (Changed : bool)
  : bool * list (option Metadata) :=
  match operands with
  | [] => (Changed, [])
  | MDVal :: rest =>
      match MDVal with
      | Some (ConstantAsMetadata Val) =>
          let Const := stripBitCasts Val in
          if negb (Constant_eqb Const Val) then
            (* MDTup->replaceOperandWith(I, NewMD); Changed = true; *)
            let r := stripMDCastsFrom rest true in
            (fst r, Some (ConstantAsMetadata Const) :: snd r)
          else
            let r := stripMDCastsFrom rest Changed in
            (fst r, MDVal :: snd r)
      | _ =>
          let r := stripMDCastsFrom rest Changed in
          (fst r, MDVal :: snd r)
      end
  end.

(** [stripMDCasts] (lines 720-745) on the operands of [MDTup]. *)
Definition stripMDCasts (MDTup : list (option Metadata))
  : bool * list (option Metadata) :=
  stripMDCastsFrom MDTup false.

(** The loop of [extractFunctionOrNull] (lines 894-899) and the final
    [dyn_cast_or_null<Function>]. *)
Fixpoint functionUnderBitCasts (C : Constant) : option string :=
  match C with
  | ConstantExpr BitCast Operand0 => functionUnderBitCasts Operand0
  | ConstantExpr _ _ => None              (* C = nullptr *)
  | GlobalConstant (Function name) => Some name
  | _ => None
  end.

(** [llvm::extractFunctionOrNull] (lines 891-901); the result is the name of
    the function.  [mdconst::extract_or_null] casts a non-null node to
    [ConstantAsMetadata]. *)
Definition extractFunctionOrNull (NDEBUG : bool) (N : option Metadata)
  : Outcome (option string) :=
  match N with
  | None => Ok None
  | Some (ConstantAsMetadata C) => Ok (functionUnderBitCasts C)
  | Some _ =>
      if NDEBUG then UndefinedBehaviour
      else AssertionFailed "cast<Ty>() argument of incompatible type!"
  end.

(** The loop of [isCastGlobal] (lines 803-810). *)
Fixpoint stripCasts (V : Constant) : Constant :=
  match V with
  | ConstantExpr BitCast Operand0
  | ConstantExpr AddrSpaceCast Operand0 => stripCasts Operand0
  | _ => V
  end.

(** [llvm::isCastGlobal] (lines 802-812); [V] may be null. *)
Definition isCastGlobal (Global : GlobalValue) (V : option Value) : bool :=
  match V with
  | Some (ConstantValue C) => Constant_eqb (GlobalConstant Global) (stripCasts C)
  | Some (NonConstant _) => false
  | None => false
  end.

(** [n] bitcasts around [C]. *)
Fixpoint bitcasts (n : nat) (C : Constant) : Constant :=
  match n with
  | O => C
  | S n' => ConstantExpr BitCast (bitcasts n' C)
  end.

(** [V] is [C] under bitcasts and address-space casts only. *)
Inductive CastOf (C : Constant) : Constant -> Prop :=
| CastOf_refl : CastOf C C
| CastOf_BitCast V : CastOf C V -> CastOf C (ConstantExpr BitCast V)
| CastOf_AddrSpaceCast V :
    CastOf C V -> CastOf C (ConstantExpr AddrSpaceCast V).

(** How many constant expressions are nested along operand 0. *)
Fixpoint depth (C : Constant) : nat :=
  match C with
  | ConstantExpr _ Operand0 => S (depth Operand0)
  | _ => O
  end.

(** The operand as [stripMDCasts] leaves it. *)
Definition strippedOperand (MDVal : option Metadata) : option Metadata :=
  match MDVal with
  | Some (ConstantAsMetadata Val) => Some (ConstantAsMetadata (stripBitCasts Val))
  | _ => MDVal
  end.

(** A constant operand that has a bitcast expression on top. *)
Definition hasBitCastOnTop (MDVal : option Metadata) : bool :=
  match MDVal with
  | Some (ConstantAsMetadata (ConstantExpr BitCast _)) => true
  | _ => false
  end.

(** No bitcast expression on top. *)
Definition noBitCastOnTop (C : Constant) : bool :=
  match C with ConstantExpr BitCast _ => false | _ => true end.

(** *** Register buffer metadata (lines 847-871) *)

Record RegisterBufferMD := {
  RegisterCount : Z;
  Addrspace : Z
}.

(** [llvm::createRegisterBufferMetadata]: [{i32 registersize, i32 addrspace}];
    [ConstantInt::get(I32, V)] keeps the low 32 bits of [V]. *)
Definition createRegisterBufferMetadata (MD : RegisterBufferMD) : Metadata :=
  MDTuple
    [Some (ConstantAsMetadata (ConstantInt 32 (wrap32 (RegisterCount MD))));
     Some (ConstantAsMetadata (ConstantInt 32 (wrap32 (Addrspace MD))))].

Section WithFieldType.

Variable NDEBUG : bool.
(** The conversion of [getZExtValue()] to the type of the fields of
    [RegisterBufferMD], which a header outside the sources declares. *)
Variable toField : Z -> Z.

(** [mdconst::dyn_extract<ConstantInt>(TMD->getOperand(I))] followed by the
    assertion on it and the read of its value. *)
Definition extractI32 (operands : list (option Metadata)) (I : nat)
    (msg : string) : Outcome Z :=
  match nth_error operands I with
  | None => UndefinedBehaviour                     (* no such operand *)
  | Some None =>
      if NDEBUG then UndefinedBehaviour
      else AssertionFailed "dyn_cast on a non-existent value"
  | Some (Some (ConstantAsMetadata (ConstantInt BitWidth ZExtValue))) =>
      _ <- assert NDEBUG (Nat.eqb BitWidth 32) msg ;;
      Ok (toField ZExtValue)
  | Some (Some _) =>
      if NDEBUG then UndefinedBehaviour else AssertionFailed msg
  end.

(** [llvm::getRegisterBufferMetadata]. *)
Definition getRegisterBufferMetadata (MD : Metadata) : Outcome RegisterBufferMD :=
  match MD with
  | MDTuple operands =>
      _ <- assert NDEBUG (Nat.eqb (List.length operands) 2)
             "registerbuffer metadata must be of format { i32, i32 }" ;;
      count <- extractI32 operands 0
                 "first registerbuffer metadata must be an i32" ;;
      space <- extractI32 operands 1
                 "second registerbuffer metadata must be an i32" ;;
      Ok {| RegisterCount := count; Addrspace := space |}
  | _ =>
      if NDEBUG then UndefinedBehaviour
      else AssertionFailed
             "registerbuffer metadata must be of format { i32, i32 }"
  end.

End WithFieldType.

(** *** [llvm::computeNeededStackSizeForRegisterBuffer] (lines 1164-1172) *)

Definition wrap64 (z : Z) : Z := z mod 2 ^ 64.

(** [RegisterBytes] is a constant that a header outside the sources
    declares. *)
Definition computeNeededStackSizeForRegisterBuffer (RegisterBytes : Z)
    (NumI32s NumReservedRegisters : Z) : Z :=
  if NumI32s <=? NumReservedRegisters then 0
  else
    let NumStackI32s := wrap64 (NumI32s - NumReservedRegisters) in
    wrap64 (NumStackI32s * RegisterBytes).

End Metadata.

(* ===================================================================== *)
(** * Notions used to state further properties of the continuation utilities *)
(* ===================================================================== *)

Module RemapNotions.
Import IR Builder.

(** The type reached from [T] by taking the first member [n] times. *)
Fixpoint firstMemberAt (n : nat) (T : Ty) : option Ty :=
  match n with
  | O => Some T
  | S n' =>
      match T with
      | StructTy (first :: _) => firstMemberAt n' first
      | _ => None
      end
  end.

(** [a] is the call operand [Arg] as it is passed on for a parameter of
    type [NewType]: itself, or zero-extended. *)
Definition passedAs (Arg : BValue) (ArgType NewType : Ty) (a : BValue) : Prop :=
  (ArgType = NewType /\ a = Arg) \/
  (ArgType <> NewType /\ isIntegerTy NewType = true /\
   isIntegerTy ArgType = true /\ a = CreateZExt Arg NewType).

End RemapNotions.

Module RewriteNotions.
Import IR.

(** An instruction without its operands and result type: its id with its
    opcode, flags and number of operands. *)
Definition skeleton (i : Instruction) : nat * Instr :=
  (getId i, mapOperands (fun _ => VArg 0) (getKind i)).

Definition isAddrSpaceCast (k : Instr) : bool :=
  match k with AddrSpaceCast _ => true | _ => false end.

(** The instructions the rewrite has no case for: calls other than lifetime
    markers and every opcode outside its [switch]. *)
Definition unsupported (k : Instr) : bool :=
  match k with
  | Call false _ => true
  | Other _ _ => true
  | _ => false
  end.

(** A scratch pointer [VArg 0] whose only user is an instruction of an
    opcode the rewrite has no case for. *)
Definition unsupportedFunction : Function_ :=
  {| args := [PointerTy 5; PointerTy 21];
     body := [ {| getId := 1; getKind := Other 7 [VArg 0];
                  getType := IntegerTy 32 |} ] |}.

End RewriteNotions.

Module ForwardNotions.
Import IR RewriteNotions.

(** An instruction without its operands: its id, opcode, flags, number of
    operands and result type. *)
Definition typedSkeleton (i : Instruction) : nat * Instr * Ty :=
  (skeleton i, getType i).

(** [f'] has the arguments of [f] and, in their order, the instructions of
    [f] whose id is not in [erased], with other operands at most. *)
Definition onlyErased (f f' : Function_) : Prop :=
  args f' = args f /\
  exists erased,
    map typedSkeleton (body f')
    = map typedSkeleton
        (filter (fun i => negb (Spec.memb (getId i) erased)) (body f)).

Definition isStore (k : Instr) : bool :=
  match k with Store _ _ _ => true | _ => false end.

Definition isLoad (k : Instr) : bool :=
  match k with Load _ _ => true | _ => false end.

End ForwardNotions.

(* ===================================================================== *)
(** * Module functions, enqueue intrinsics and DXIL metadata (lines 747-793, 829-845, 873-889, 1035-1056) *)
(* ===================================================================== *)

Module ModuleFunctions.
Import IR.

Inductive Attribute :=
| NoFree | NoRecurse | NoSync | NoUnwind | Speculatable | WillReturn.

(** What [setDoesNotAccessMemory] and its siblings record. *)
Inductive MemoryEffect :=
| DoesNotAccessMemory
| OnlyAccessesArgMemory
| OnlyWritesMemory
| OnlyReadsMemory.

(** A function of a module: its name, its type, its function attributes and
    its memory effects. *)
Record Function := {
  getName : string;
  ReturnType : Ty;
  Params : list Ty;
  isVarArg : bool;
  FnAttrs : list Attribute;
  Memory : list MemoryEffect
}.

(** A named value of a module's symbol table: a function, or a global
    variable, alias or ifunc. *)
Inductive GlobalValue :=
| FunctionValue (F : Function)
| OtherValue (Name : string).

Definition valueName (GV : GlobalValue) : string :=
  match GV with
  | FunctionValue F => getName F
  | OtherValue Name => Name
  end.

(** [Module::getNamedValue(Name)]. *)
Definition getNamedValue (M : list GlobalValue) (Name : string)
  : option GlobalValue :=
  find (fun GV => String.eqb (valueName GV) Name) M.

(** [Module::getFunction(Name)]: the named value when it is a function. *)
Definition getFunction (M : list GlobalValue) (Name : string)
  : option Function :=
  match getNamedValue M Name with
  | Some (FunctionValue F) => Some F
  | _ => None
  end.

(** [cast<Function>] of a value that is no function. *)
Definition castFailure {A : Type} (NDEBUG : bool) : Outcome A :=
  if NDEBUG then UndefinedBehaviour
  else AssertionFailed "cast<Ty>() argument of incompatible type!".

(** The three helpers below share one shape: return the function of that
    name when the module has one; otherwise
    [cast<Function>(M.getOrInsertFunction(...).getCallee())], which inserts
    the declaration [Func] when the name is free and gives the value that
    has the name when it is taken.  The result is the module and the
    function. *)
Definition getOrInsert (NDEBUG : bool) (M : list GlobalValue) (Func : Function)
  : Outcome (list GlobalValue * Function) :=
  match getFunction M (getName Func) with
  | Some F => Ok (M, F)
  | None =>
      match getNamedValue M (getName Func) with
      | None => Ok (M ++ [FunctionValue Func], Func)
      | Some (FunctionValue F) => Ok (M, F)
      | Some (OtherValue _) => castFailure NDEBUG
      end
  end.

(** [llvm::getContinuationStackOffset] (lines 778-793). *)
Definition getContinuationStackOffset (NDEBUG : bool) (M : list GlobalValue)
  : Outcome (list GlobalValue * Function) :=
  getOrInsert NDEBUG M
    {| getName := "continuation.getContinuationStackOffset";
       (* getContinuationStackOffsetType(C)->getPointerTo() *)
       ReturnType := PointerTy 0;
       Params := [];
       isVarArg := false;
       FnAttrs := [NoFree; NoRecurse; NoSync; NoUnwind; Speculatable; WillReturn];
       Memory := [DoesNotAccessMemory] |}.

(** [llvm::getRegisterBufferSetPointerBarrier] (lines 829-845). *)
Definition getRegisterBufferSetPointerBarrier (NDEBUG : bool)
    (M : list GlobalValue) : Outcome (list GlobalValue * Function) :=
  getOrInsert NDEBUG M
    {| getName := "registerbuffer.setpointerbarrier";
       ReturnType := VoidTy;
       Params := [];
       isVarArg := true;
       FnAttrs := [NoFree; NoRecurse; NoSync; NoUnwind; WillReturn];
       Memory := [OnlyAccessesArgMemory; OnlyWritesMemory] |}.

(** [llvm::getAccelStructAddr] (lines 873-889). *)
Definition getAccelStructAddr (NDEBUG : bool) (M : list GlobalValue)
    (HandleTy : Ty) : Outcome (list GlobalValue * Function) :=
  getOrInsert NDEBUG M
    {| getName := "amd.dx.getAccelStructAddr";
       ReturnType := IntegerTy 64;
       Params := [HandleTy];
       isVarArg := false;
       FnAttrs := [NoFree; NoRecurse; NoSync; NoUnwind; Speculatable; WillReturn];
       Memory := [OnlyAccessesArgMemory; OnlyReadsMemory] |}.

(** What a helper that gets or inserts the function named [Name] promises
    about its result [r] on the module [M]. *)
Definition getsOrInserts (NDEBUG : bool) (Name : string) (M : list GlobalValue)
    (r : Outcome (list GlobalValue * Function)) : Prop :=
  (forall F, getFunction M Name = Some F -> r = Ok (M, F)) /\
  (getNamedValue M Name = None ->
   exists F, r = Ok (M ++ [FunctionValue F], F)) /\
  (forall Other, getNamedValue M Name = Some (OtherValue Other) ->
                 r = castFailure NDEBUG) /\
  (forall M' F,
     r = Ok (M', F) ->
     getName F = Name /\
     getFunction M' Name = Some F /\
     (forall other, other <> Name ->
                    getNamedValue M' other = getNamedValue M other)).

End ModuleFunctions.

Module EnqueueIntrinsics.

(** [StringRef::contains]. *)
Fixpoint contains (Other s : string) : bool :=
  String.prefix Other s
  || match s with
     | EmptyString => false
     | String _ s' => contains Other s'
     end.

(** An argument of the new call: an argument operand of the old call, or the
    return address [B.CreatePtrToInt(CInst->getFunction(), B.getInt64Ty())]. *)
Inductive Arg :=
| Operand (n : nat)
| RetAddr (caller : string).

(** A call instruction: its identity, its argument operands and the function
    it is in. *)
Record CallInst := {
  callId : nat;
  callArgs : list Arg;
  getFunction : string
}.

(** A use of the function [F]: by a call as its callee, by a call as one of
    its arguments, or by a user that is no call. *)
Inductive Use :=
| CalleeUse (CInst : CallInst)
| ArgumentUse (CInst : CallInst)
| OtherUse.

Definition usedBy (id : nat) (u : Use) : bool :=
  match u with
  | CalleeUse c | ArgumentUse c => Nat.eqb (callId c) id
  | OtherUse => false
  end.

(** [B.CreateCall(NewFunc, Args); CInst->eraseFromParent();] *)
Record Edit := {
  erasedCall : nat;
  newArgs : list Arg
}.

(** [Args.insert(Args.begin() + n, x)]; [None] past the end. *)
Fixpoint insertAt {A : Type} (n : nat) (x : A) (l : list A) : option (list A) :=
  match n, l with
  | O, _ => Some (x :: l)
  | S n', a :: l' => option_map (cons a) (insertAt n' x l')
  | S _, [] => None
  end.

(** The arguments of the new call (lines 1040-1049). *)
Definition newCallArgs (Name : string) (CInst : CallInst) : Outcome (list Arg) :=
  let Args := callArgs CInst in
  let IsEnqueue := contains "Enqueue" Name in
  (* Add the current function as return address to the call. *)
  if IsEnqueue && contains "EnqueueCall" Name then
    let HasWaitMask := contains "WaitEnqueue" Name in
    let RetAddr := RetAddr (getFunction CInst) in
    match insertAt (if HasWaitMask then 3 else 2)%nat RetAddr Args with
    | Some Args' => Ok Args'
    | None => UndefinedBehaviour
    end
  else Ok Args.

(** The loop of [replaceEnqueueIntrinsic] (lines 1035-1056) over the
    early-increment range of [F.uses()].  Erasing a call removes all its
    uses of [F] from the list: the ones in [erased] are gone when the loop
    gets there, and the loop's saved position is destroyed when the use that
    follows the callee use belongs to the same call. *)
Fixpoint replaceEnqueueFrom (Name : string) (Uses : list Use)
    (erased : list nat) : Outcome (list Edit) :=
  match Uses with
  | [] => Ok []
  | Use :: rest =>
      if existsb (fun id => usedBy id Use) erased
      then replaceEnqueueFrom Name rest erased
      else
        match Use with
        | CalleeUse CInst =>
            Args <- newCallArgs Name CInst ;;
            if match find (fun u => negb (existsb (fun id => usedBy id u) erased))
                          rest with
               | Some next => usedBy (callId CInst) next
               | None => false
               end
            then UndefinedBehaviour
            else
              edits <- replaceEnqueueFrom Name rest (callId CInst :: erased) ;;
              Ok ({| erasedCall := callId CInst; newArgs := Args |} :: edits)
        | _ => replaceEnqueueFrom Name rest erased
        end
  end.

(** [replaceEnqueueIntrinsic(F, NewFunc)]: the calls it replaces by calls of
    [NewFunc], in order, with the arguments of the new calls. *)
Definition replaceEnqueueIntrinsic (Name : string) (Uses : list Use)
  : Outcome (list Edit) :=
  replaceEnqueueFrom Name Uses [].

(** The calls that have [F] as their callee, in use-list order. *)
Definition calleeUses (Uses : list Use) : list CallInst :=
  flat_map (fun u => match u with CalleeUse c => [c] | _ => [] end) Uses.

(** The calls among the users, one entry per use. *)
Definition callUsers (Uses : list Use) : list nat :=
  flat_map (fun u => match u with
                     | CalleeUse c | ArgumentUse c => [callId c]
                     | OtherUse => []
                     end) Uses.

(** Every call uses [F] once only. *)
Definition usedOnce (Uses : list Use) : Prop := NoDup (callUsers Uses).

(** [e] replaces the call [c] of the function named [Name]. *)
Definition replaces (Name : string) (c : CallInst) (e : Edit) : Prop :=
  erasedCall e = callId c /\ newCallArgs Name c = Ok (newArgs e).

End EnqueueIntrinsics.

Module FixupMetadata.
Import Metadata.

(** A metadata node as named metadata and attachments point to it: the
    [MDTuple] of the given identity, or a node that is no tuple. *)
Inductive MDNode :=
| TupleNode (id : nat)
| OtherNode (n : nat).

(** A function: its name and its metadata attachments, by kind. *)
Record Function := {
  getName : string;
  Attachments : list (string * MDNode)
}.

(** A module: the operands of its tuple nodes, its named metadata and its
    functions.  [stripMDCasts] changes a tuple in place, which every pointer
    to the tuple sees: the tuples are a store.  Of an operand that is itself
    a node, the store holds what it is at the start; the code below replaces
    constant operands only. *)
Record Module_ := {
  Tuples : nat -> list (option Metadata);
  NamedMetadata : list (string * list (option MDNode));
  functions : list Function
}.

(** [M.getNamedMetadata(MDName)]. *)
Definition getNamedMetadata (M : Module_) (MDName : string)
  : option (list (option MDNode)) :=
  option_map snd (find (fun MD => String.eqb (fst MD) MDName) (NamedMetadata M)).

(** [F.getMetadata(Kind)]: the first attachment of that kind. *)
Definition getMetadata (F : Function) (Kind : string) : option MDNode :=
  option_map snd (find (fun A => String.eqb (fst A) Kind) (Attachments F)).

(** [F.hasMetadata(Kind)]. *)
Definition hasMetadata (Kind : string) (F : Function) : bool :=
  match getMetadata F Kind with Some _ => true | None => false end.

(** [F.setMetadata(Kind, nullptr)]: every attachment of that kind goes. *)
Definition setMetadataNull (Kind : string) (F : Function) : Function :=
  {| getName := getName F;
     Attachments :=
       filter (fun A => negb (String.eqb (fst A) Kind)) (Attachments F) |}.

(** [MDTup->replaceOperandWith] for every operand, on the store. *)
Definition replaceOperands (T : nat -> list (option Metadata)) (id : nat)
    (operands : list (option Metadata)) : nat -> list (option Metadata) :=
  fun j => if Nat.eqb j id then operands else T j.

(** [if (auto *MDTup = dyn_cast_or_null<MDTuple>(Annot))
       Changed |= stripMDCasts(MDTup);]
    on the flag and the store. *)
Definition stripNode (st : bool * (nat -> list (option Metadata)))
    (Annot : option MDNode) : bool * (nat -> list (option Metadata)) :=
  match Annot with
  | Some (TupleNode id) =>
      let r := stripMDCasts (snd st id) in
      (fst st || fst r, replaceOperands (snd st) id (snd r))
  | _ => st
  end.

(** The body of the first loop of [fixupDxilMetadata] (lines 751-757). *)
Definition fixupNamed (M : Module_)
    (st : bool * (nat -> list (option Metadata))) (MDName : string)
  : bool * (nat -> list (option Metadata)) :=
  match getNamedMetadata M MDName with
  | Some operands => fold_left stripNode operands st
  | None => st
  end.

Section WithKindNames.

(** [ContHelper::MDContinuationName] and [ContHelper::MDContPayloadTyName],
    which a header outside the sources declares. *)
Variables MDContinuationName MDContPayloadTyName : string.

(** The body of the second loop (lines 761-769): the flag and the store, and
    the function as it is left. *)
Definition fixupFunction (st : bool * (nat -> list (option Metadata)))
    (F : Function) : bool * (nat -> list (option Metadata)) * Function :=
  let st1 :=
    match getMetadata F MDContinuationName with
    | Some MD => stripNode st (Some MD)
    | None => st
    end in
  if hasMetadata MDContPayloadTyName F
  then ((true, snd st1), setMetadataNull MDContPayloadTyName F)
  else (st1, F).

Fixpoint fixupFunctions (st : bool * (nat -> list (option Metadata)))
    (Fs : list Function)
  : bool * (nat -> list (option Metadata)) * list Function :=
  match Fs with
  | [] => (st, [])
  | F :: rest =>
      let r := fixupFunction st F in
      let r' := fixupFunctions (fst r) rest in
      (fst r', snd r :: snd r')
  end.

(** [llvm::fixupDxilMetadata] (lines 747-772): the flag it returns and the
    module it leaves. *)
Definition fixupDxilMetadata (M : Module_) : bool * Module_ :=
  let st := fold_left (fixupNamed M) ["dx.typeAnnotations"; "dx.entryPoints"]
              (false, Tuples M) in
  let r := fixupFunctions st (functions M) in
  (fst (fst r),
   {| Tuples := snd (fst r);
      NamedMetadata := NamedMetadata M;
      functions := snd r |}).

(** The tuples among some nodes. *)
Definition tupleNodes (Nodes : list (option MDNode)) : list nat :=
  flat_map (fun N => match N with Some (TupleNode id) => [id] | _ => [] end)
    Nodes.

(** The tuples [fixupDxilMetadata] strips: the operands of the two named
    metadata and the continuation metadata of the functions. *)
Definition strippedTuples (M : Module_) : list nat :=
  flat_map (fun MDName => match getNamedMetadata M MDName with
                          | Some operands => tupleNodes operands
                          | None => []
                          end) ["dx.typeAnnotations"; "dx.entryPoints"]
  ++ flat_map (fun F => tupleNodes [getMetadata F MDContinuationName])
       (functions M).

End WithKindNames.

End FixupMetadata.

(* ===================================================================== *)
(** * Conditions on a function used to state the forwarding theorems *)
(* ===================================================================== *)

Module ForwardConditions.
Import IR Forward Spec.

(** No user of a pointer derived from the frame pointer makes the use walk
    give up: every such user is a constant-offset address computation, a
    bitcast, an address-space cast, a simple load, or a simple store that
    does not store the pointer itself. *)
Definition neverGivesUp (f : Function_) (FramePtr : Value) : Prop :=
  forall p off U,
    Derived f FramePtr p off -> In U (body f) ->
    In p (operands (getKind U)) -> abortsWalk (getKind U) p = false.

(** The indices of an address computation are integers: none of them is a
    pointer derived from the frame pointer. *)
Definition indicesAreNoFramePointers (f : Function_) (FramePtr : Value) : Prop :=
  forall U ptr indices constantOffset v off,
    In U (body f) -> getKind U = GetElementPtr ptr indices constantOffset ->
    In v indices -> ~ Derived f FramePtr v off.

(** [U] is a simple load of [f] through a pointer derived from the frame
    pointer at byte offset [off]. *)
Definition frameLoadAt (f : Function_) (FramePtr : Value) (off : Z)
    (U : Instruction) : Prop :=
  exists ptr,
    In U (body f) /\ getKind U = Load ptr true /\ Derived f FramePtr ptr off.

(** [Sinst], at offset 0, is the only store through a pointer derived from
    the frame pointer. *)
Definition onlyStoreToFrame (f : Function_) (FramePtr : Value)
    (Sinst : Instruction) : Prop :=
  forall U val ptr isSimple off,
    In U (body f) -> getKind U = Store val ptr isSimple ->
    Derived f FramePtr ptr off -> U = Sinst /\ off = 0.

(** An instruction with every operand rewritten by [sigma]. *)
Definition rewriteOperands (sigma : Value -> Value) (i : Instruction)
  : Instruction :=
  {| getId := getId i;
     getKind := mapOperands sigma (getKind i);
     getType := getType i |}.

(** [f] with every operand rewritten by [sigma] and the instructions in [E]
    erased: the shape of the function after any number of
    [replaceAllUsesWith] and [eraseFromParent] steps. *)
Definition applyRewrite (sigma : Value -> Value) (E : list nat) (f : Function_)
  : Function_ :=
  {| args := args f;
     body := filter (fun i => negb (memb (getId i) E))
               (map (rewriteOperands sigma) (body f)) |}.

End ForwardConditions.

(* ===================================================================== *)
(** * Properties of [LowerGpuRt] *)
(* ===================================================================== *)

Lemma wrap32_small (z : Z) : 0 <= z < 2 ^ 32 -> wrap32 z = z.
Proof. intros H. unfold wrap32. apply Z.mod_small. exact H. Qed.

Lemma wrap32_range (z : Z) : 0 <= wrap32 z < 2 ^ 32.
Proof. unfold wrap32. apply Z.mod_pos_bound. reflexivity. Qed.

Lemma wrap32_mul_idemp_l (a b : Z) : wrap32 (wrap32 a * b) = wrap32 (a * b).
Proof. unfold wrap32. apply Z.mul_mod_idemp_l. discriminate. Qed.

Section LowerGpuRtFacts.
Import LowerGpuRt Spec.

Lemma configuredWorkgroupSize_range (ps : PipelineState) :
  realisticWorkgroup ps -> 0 < configuredWorkgroupSize ps <= 2 ^ 26.
Proof.
  unfold realisticWorkgroup, configuredWorkgroupSize.
  destruct (isGraphics ps).
  - intros _. lia.
  - intros H. destruct (H eq_refl) as (HX & HY & HZ & HP). nia.
Qed.

Lemma roundUp32_spec (w : Z) :
  w <= roundUp32 w < w + 32 /\ roundUp32 w mod 32 = 0.
Proof.
  unfold roundUp32. split.
  - pose proof (Z.div_mod (w + 31) 32 ltac:(lia)).
    pose proof (Z.mod_pos_bound (w + 31) 32 ltac:(lia)). lia.
  - rewrite Z.mul_comm. apply Z.mod_mul. lia.
Qed.

Lemma workgroupSize_range (ps : PipelineState) :
  realisticWorkgroup ps -> 0 < workgroupSize ps < 2 ^ 26 + 32.
Proof.
  intros H. pose proof (configuredWorkgroupSize_range ps H) as R.
  unfold workgroupSize. destruct (11 <=? gfxIpMajor ps).
  - pose proof (roundUp32_spec (configuredWorkgroupSize ps)). lia.
  - lia.
Qed.

(** On realistic workgroup dimensions the code's 32-bit computation of the
    workgroup size is the document's [W], and its assertion holds. *)
Lemma getWorkgroupSize_spec (NDEBUG : bool) (ps : PipelineState) :
  realisticWorkgroup ps ->
  getWorkgroupSize NDEBUG ps = Ok (workgroupSize ps).
Proof.
  intros H. pose proof (configuredWorkgroupSize_range ps H) as R.
  unfold getWorkgroupSize, workgroupSize.
  assert (E : (if isGraphics ps then 64
               else wrap32 (wrap32 (workgroupSizeX (getComputeShaderMode ps)
                                    * workgroupSizeY (getComputeShaderMode ps))
                            * workgroupSizeZ (getComputeShaderMode ps)))
              = configuredWorkgroupSize ps).
  { unfold configuredWorkgroupSize in *. destruct (isGraphics ps).
    - reflexivity.
    - rewrite wrap32_mul_idemp_l. apply wrap32_small. lia. }
  rewrite E. unfold assert.
  replace (configuredWorkgroupSize ps =? 0) with false
    by (symmetry; apply Z.eqb_neq; lia).
  rewrite orb_true_r. cbn [bind].
  rewrite Z.geb_leb.
  destruct (11 <=? gfxIpMajor ps); [| reflexivity].
  f_equal. unfold alignTo, roundUp32.
  replace (configuredWorkgroupSize ps + 32 - 1)
    with (configuredWorkgroupSize ps + 31) by lia.
  rewrite (Z.mul_comm _ 32).
  pose proof (roundUp32_spec (configuredWorkgroupSize ps)) as S.
  unfold roundUp32 in S. apply wrap32_small. lia.
Qed.

Lemma collectPayload_fold (l : list Inst) (p : Payload) :
  fold_left visitPayload l p =
  {| needGlobalStack := needGlobalStack p || existsb isStackOp l;
     needExtraStack := needExtraStack p || existsb requestsExtraStack l |}.
Proof.
  revert p. induction l as [| i l IH]; intros p; cbn [fold_left existsb].
  - rewrite !orb_false_r. destruct p; reflexivity.
  - rewrite IH. destruct i as [op | |]; try destruct op; cbn;
      rewrite ?orb_true_r, ?orb_false_r, ?orb_assoc; reflexivity.
Qed.

Lemma collectPayload_spec (m : Module_) :
  collectPayload m =
  {| needGlobalStack := existsb isStackOp (insts m);
     needExtraStack := existsb requestsExtraStack (insts m) |}.
Proof. unfold collectPayload. rewrite collectPayload_fold. reflexivity. Qed.

Lemma createGlobalStack_spec (NDEBUG : bool) (ps : PipelineState)
    (m : Module_) :
  realisticWorkgroup ps ->
  createGlobalStack NDEBUG ps m =
    Ok (if existsb isStackOp (insts m)
        then Some {| gvName := "LdsStack"; numElements := capacity ps m;
                     addrSpace := 3; alignment := 4 |}
        else None).
Proof.
  intros H.
  unfold createGlobalStack. rewrite collectPayload_spec.
  cbn [needGlobalStack needExtraStack].
  destruct (existsb isStackOp (insts m)); [| reflexivity].
  rewrite (getWorkgroupSize_spec NDEBUG ps H). cbn [bind].
  pose proof (workgroupSize_range ps H) as R.
  unfold capacity, MaxLdsStackEntries.
  do 2 f_equal. f_equal.
  rewrite (wrap32_small (workgroupSize ps * 16)) by lia.
  destruct (existsb requestsExtraStack (insts m)).
  - rewrite Z.shiftl_mul_pow2 by lia. rewrite wrap32_small; lia.
  - lia.
Qed.

Lemma examplePipeline_realistic : realisticWorkgroup examplePipeline.
Proof. intros _. cbn. lia. Defined.

(** C4.  For a pipeline with realistic workgroup dimensions,
    [createGlobalStack] creates the [LdsStack] global exactly when the module
    has a stack read, write or init operation, and then its capacity in
    32-bit words is [16 * W * (2 if a stack read or write requests the extra
    stack, else 1)], with [W] = 64 for graphics, the product of the three
    compute workgroup dimensions otherwise, rounded up to the next multiple of
    32 when the gfx major version is at least 11; without such an operation
    no global is created. *)
Theorem createGlobalStack_capacity (NDEBUG : bool) (ps : PipelineState)
    (m : Module_) :
  realisticWorkgroup ps ->
  createGlobalStack NDEBUG ps m =
    Ok (if existsb isStackOp (insts m)
        then Some {| gvName := "LdsStack"; numElements := capacity ps m;
                     addrSpace := 3; alignment := 4 |}
        else None)
  /\ workgroupSize ps =
       (if 11 <=? gfxIpMajor ps then roundUp32 (configuredWorkgroupSize ps)
        else configuredWorkgroupSize ps)
  /\ configuredWorkgroupSize ps <= roundUp32 (configuredWorkgroupSize ps)
       < configuredWorkgroupSize ps + 32
  /\ roundUp32 (configuredWorkgroupSize ps) mod 32 = 0.
Proof.
  intros H. split; [apply createGlobalStack_spec; exact H |].
  split; [reflexivity | apply roundUp32_spec].
Qed.

Lemma createGlobalStack_capacity_witness :
  createGlobalStack false examplePipeline
    {| globals := []; declarations := [DeclStackRead];
       insts := [Call (GpurtStackReadOp (Operand 0) true)] |}
  = Ok (Some {| gvName := "LdsStack"; numElements := 2048;
                addrSpace := 3; alignment := 4 |}).
Proof.
  exact (proj1 (createGlobalStack_capacity false examplePipeline
           {| globals := []; declarations := [DeclStackRead];
              insts := [Call (GpurtStackReadOp (Operand 0) true)] |}
           examplePipeline_realistic)).
Defined.

(** C4, counterexample.  The push/pop operation [GpurtLdsStackStoreOp] and the
    stack-size query are traversal-stack operations that [run] lowers, yet
    for a module that contains only them [createGlobalStack] creates no
    [LdsStack] global. *)
Lemma createGlobalStack_push_only_counterexample :
  createGlobalStack false examplePipeline
    {| globals := []; declarations := [DeclLdsStackStore; DeclGetStackSize];
       insts := [Call (GpurtLdsStackStoreOp (Operand 0) (Operand 1) (Operand 2));
                 Call GpurtGetStackSizeOp] |}
  = Ok None /\
  run false examplePipeline
    {| globals := []; declarations := [DeclLdsStackStore; DeclGetStackSize];
       insts := [Call (GpurtLdsStackStoreOp (Operand 0) (Operand 1) (Operand 2));
                 Call GpurtGetStackSizeOp] |}
  = Ok (PreservedAnalyses_all,
        {| globals := []; declarations := [];
           insts :=
             [Lowered
                [StoreTo
                   (ExtractValue
                      (DsBvhStackRtn (LoadInt32 (Operand 0)) (Operand 1)
                         (Operand 2) (ConstInt32 4096)) 1)
                   (Operand 0)]
                (ExtractValue
                   (DsBvhStackRtn (LoadInt32 (Operand 0)) (Operand 1)
                      (Operand 2) (ConstInt32 4096)) 0);
              Lowered [] (ConstInt32 1024)] |}).
Proof. split; reflexivity. Qed.

Lemma base_range (W t : Z) : 0 <= t < W -> 0 <= base t < 16 * W.
Proof.
  intros H. unfold base.
  pose proof (Z.div_mod t 32 ltac:(lia)).
  pose proof (Z.mod_pos_bound t 32 ltac:(lia)). lia.
Qed.

Lemma base_injective (t1 t2 : Z) : base t1 = base t2 -> t1 = t2.
Proof.
  unfold base. intros H.
  pose proof (Z.div_mod t1 32 ltac:(lia)).
  pose proof (Z.mod_pos_bound t1 32 ltac:(lia)).
  pose proof (Z.div_mod t2 32 ltac:(lia)).
  pose proof (Z.mod_pos_bound t2 32 ltac:(lia)). lia.
Qed.

(** What the instructions emitted for [W > 32] compute for thread [t]. *)
Lemma evalExpr_swizzled (k : BuiltInKind) (t : Z) :
  0 <= t < 2 ^ 28 ->
  evalExpr t (Add (And (ReadBuiltInInput k) (ConstInt32 31))
                  (Mul (LShr (ReadBuiltInInput k) (ConstInt32 5))
                       (ConstInt32 (wrap32 (MaxLdsStackEntries * 32)))))
  = Some (base t).
Proof.
  intros H. cbn [evalExpr]. f_equal.
  rewrite (wrap32_small t) by lia.
  change (wrap32 31) with (Z.ones 5). change (wrap32 5) with 5.
  change (wrap32 (wrap32 (MaxLdsStackEntries * 32))) with (16 * 32).
  rewrite Z.land_ones by lia. rewrite Z.shiftr_div_pow2 by lia.
  change (2 ^ 5) with 32.
  pose proof (Z.div_mod t 32 ltac:(lia)).
  pose proof (Z.mod_pos_bound t 32 ltac:(lia)).
  rewrite (wrap32_small (t / 32 * (16 * 32))) by lia.
  unfold base. apply wrap32_small. lia.
Qed.

(** C5.  When the workgroup size [W] the pass computes exceeds 32 (and is at
    most [2 ^ 28], so that the 32-bit arithmetic does not wrap), the
    instructions [visitLdsStackInit] emits for the per-thread base offset
    compute [base t = t mod 32 + (t div 32) * (16 * 32)] for every thread
    index [t] in [[0, W)]; [base t] lies in [[0, 16 * W)], and distinct thread
    indices in [[0, W)] get distinct base offsets. *)
Theorem stackBasePerThread_injective (NDEBUG : bool) (ps : PipelineState)
    (W : Z) :
  getWorkgroupSize NDEBUG ps = Ok W ->
  32 < W <= 2 ^ 28 ->
  exists e,
    stackBasePerThread NDEBUG ps = Ok e /\
    visitLdsStackInit NDEBUG ps =
      Ok ([], Shl (PtrToInt (StackArrayElemPtr (ConstInt32 0) e)) (ConstInt32 16)) /\
    (forall t, 0 <= t < W ->
       evalExpr t e = Some (base t) /\ 0 <= base t < 16 * W) /\
    (forall t1 t2, 0 <= t1 < W -> 0 <= t2 < W -> t1 <> t2 ->
       evalExpr t1 e <> evalExpr t2 e).
Proof.
  intros HW HR.
  unfold visitLdsStackInit, stackBasePerThread. rewrite HW. cbn [bind].
  replace (W >? 32) with true by (symmetry; apply Z.gtb_lt; lia).
  eexists. split; [reflexivity |]. split; [reflexivity |]. split.
  - intros t Ht. split.
    + apply evalExpr_swizzled. lia.
    + apply base_range. exact Ht.
  - intros t1 t2 H1 H2 Hne.
    unfold getThreadIdInGroup.
    rewrite !evalExpr_swizzled by lia.
    intros E. apply Hne. apply base_injective. congruence.
Qed.

Lemma stackBasePerThread_injective_witness :
  exists e,
    stackBasePerThread false
      {| isGraphics := true;
         getComputeShaderMode :=
           {| workgroupSizeX := 1; workgroupSizeY := 1; workgroupSizeZ := 1 |};
         gfxIpMajor := 11;
         getOptions := {| rtBoxSortHeuristicMode := 0;
                          rtStaticPipelineFlags := 0;
                          rtTriCompressMode := 0 |} |} = Ok e /\
    evalExpr 33 e = Some 513.
Proof.
  destruct (stackBasePerThread_injective false
              {| isGraphics := true;
                 getComputeShaderMode :=
                   {| workgroupSizeX := 1; workgroupSizeY := 1;
                      workgroupSizeZ := 1 |};
                 gfxIpMajor := 11;
                 getOptions := {| rtBoxSortHeuristicMode := 0;
                                  rtStaticPipelineFlags := 0;
                                  rtTriCompressMode := 0 |} |} 64
              eq_refl ltac:(lia)) as (e & He & _ & Hbase & _).
  exists e. split; [exact He |].
  destruct (Hbase 33 ltac:(lia)) as [Hev _]. exact Hev.
Defined.

(** C9.  For a pipeline with realistic workgroup dimensions, lowering the
    stack-size query replaces it by the constant [16 * W], whatever the
    module contains; when a stack read or write requests the extra stack,
    the [LdsStack] global that [createGlobalStack] allocates has twice that
    many words. *)
Theorem visitGetStackSize_not_doubled (NDEBUG : bool) (ps : PipelineState)
    (m : Module_) :
  realisticWorkgroup ps ->
  visit NDEBUG ps GpurtGetStackSizeOp =
    Ok ([], ConstInt32 (16 * workgroupSize ps)) /\
  (existsb requestsExtraStack (insts m) = true ->
   exists g, createGlobalStack NDEBUG ps m = Ok (Some g) /\
             numElements g = 2 * (16 * workgroupSize ps)).
Proof.
  intros H. pose proof (workgroupSize_range ps H) as R. split.
  - cbn [visit]. unfold visitGetStackSize.
    rewrite (getWorkgroupSize_spec NDEBUG ps H). cbn [bind].
    unfold MaxLdsStackEntries. rewrite wrap32_small by lia. reflexivity.
  - intros Hextra.
    pose proof (createGlobalStack_spec NDEBUG ps m H) as Hc.
    assert (Hs : existsb isStackOp (insts m) = true).
    { clear - Hextra. induction (insts m) as [| i l IH]; [discriminate |].
      cbn [existsb] in *. apply orb_true_iff in Hextra.
      apply orb_true_iff. destruct Hextra as [Hi | Hl].
      - left. destruct i as [op | |]; try destruct op; try discriminate;
          reflexivity.
      - right. auto. }
    rewrite Hs in Hc. eexists. split; [exact Hc |].
    cbn [numElements]. unfold capacity. rewrite Hextra. lia.
Qed.

Lemma visitGetStackSize_not_doubled_witness :
  visit false examplePipeline GpurtGetStackSizeOp = Ok ([], ConstInt32 1024) /\
  exists g,
    createGlobalStack false examplePipeline
      {| globals := []; declarations := [DeclStackRead];
         insts := [Call (GpurtStackReadOp (Operand 0) true)] |} = Ok (Some g) /\
    numElements g = 2048.
Proof.
  destruct (visitGetStackSize_not_doubled false examplePipeline
              {| globals := []; declarations := [DeclStackRead];
                 insts := [Call (GpurtStackReadOp (Operand 0) true)] |}
              examplePipeline_realistic) as [Hv Hg].
  split; [exact Hv |]. exact (Hg eq_refl).
Defined.

Lemma visitAll_spec (NDEBUG : bool) (ps : PipelineState) (l : list Inst) :
  forall st st',
    visitAll NDEBUG ps st l = Ok st' ->
    exists l',
      rewritten st' = rewritten st ++ l' /\
      Forall2 lowersTo l l' /\
      m_callsToLower st' = m_callsToLower st ++ callsOf l /\
      (callsOf l = [] -> m_funcsToLower st' = m_funcsToLower st).
Proof.
  induction l as [| i l IH]; intros st st' H; cbn [visitAll] in H.
  - inversion H; subst. exists []. rewrite !app_nil_r. repeat split; constructor.
  - destruct (visitInst NDEBUG ps st i) as [st1 | | | | |] eqn:E;
      cbn [bind] in H; try discriminate.
    destruct (IH st1 st' H) as (l' & Hr & Hf & Hc & Hd).
    unfold visitInst in E.
    destruct i as [op | effects replacement | n].
    + destruct (visit NDEBUG ps op) as [r | | | | |]; cbn [bind] in E;
        try discriminate.
      inversion E; subst st1; clear E. cbn in Hr, Hc.
      exists (Lowered (fst r) (snd r) :: l'). cbn [callsOf flat_map].
      rewrite Hr, Hc, <- !app_assoc. repeat split.
      * constructor; [cbn; eauto | exact Hf].
      * discriminate.
    + inversion E; subst st1; clear E. cbn in Hr, Hc, Hd.
      exists (Lowered effects replacement :: l'). cbn [callsOf flat_map].
      rewrite Hr, Hc, <- !app_assoc. repeat split.
      * constructor; [reflexivity | exact Hf].
      * exact Hd.
    + inversion E; subst st1; clear E. cbn in Hr, Hc, Hd.
      exists (OtherInst n :: l'). cbn [callsOf flat_map].
      rewrite Hr, Hc, <- !app_assoc. repeat split.
      * constructor; [reflexivity | exact Hf].
      * exact Hd.
Qed.

Lemma callsOf_nil_iff (l : list Inst) :
  callsOf l = [] <-> existsb isCall l = false.
Proof.
  induction l as [| i l IH]; cbn [callsOf flat_map existsb].
  - split; reflexivity.
  - destruct i; cbn [isCall orb app]; [split; discriminate | exact IH | exact IH].
Qed.

Lemma lowersTo_no_calls (l l' : list Inst) :
  Forall2 lowersTo l l' -> existsb isCall l = false -> l' = l.
Proof.
  induction 1 as [| i r l l' Hi _ IH]; intros Hn; [reflexivity |].
  cbn [existsb] in Hn. apply orb_false_iff in Hn. destruct Hn as [Hi' Hl].
  rewrite (IH Hl). destruct i; cbn in Hi, Hi'; try discriminate; congruence.
Qed.

Lemma lowersTo_with_call (l l' : list Inst) :
  Forall2 lowersTo l l' -> existsb isCall l = true -> l' <> l.
Proof.
  induction 1 as [| i r l l' Hi _ IH]; intros Hc; [discriminate |].
  cbn [existsb] in Hc. intros E. inversion E; subst.
  destruct i as [op | |]; cbn in Hi, Hc.
  - destruct Hi as (e & v & Hi). discriminate.
  - apply IH; auto.
  - apply IH; auto.
Qed.

Lemma no_call_no_stack_op (l : list Inst) :
  existsb isCall l = false -> existsb isStackOp l = false.
Proof.
  induction l as [| i l IH]; [reflexivity |]. cbn [existsb].
  intros H. apply orb_false_iff in H. destruct H as [Hi Hl].
  rewrite (IH Hl). destruct i as [op | |]; cbn in Hi; try discriminate;
    reflexivity.
Qed.

Lemma filter_all {A : Type} (l : list A) : filter (fun _ => true) l = l.
Proof. induction l; cbn; congruence. Qed.


End LowerGpuRtFacts.

(* ===================================================================== *)
(** * Properties of [continuationStackOffsetToPtr] *)
(* ===================================================================== *)

Section StackAddrFacts.
Import IR Builder StackAddr.

Lemma getFunction_name (M : list FunctionDecl) (Name : string) (F : FunctionDecl) :
  getFunction M Name = Some F -> fnName F = Name.
Proof.
  unfold getFunction. intros H. apply find_some in H. destruct H as [_ H].
  apply String.eqb_eq. exact H.
Qed.

(** C7.  Given a 32-bit stack offset, [continuationStackOffsetToPtr] returns
    the offset converted by [inttoptr] to a pointer in the scratch address
    space when the mode is Scratch; when the mode is Global and the runtime
    library provides the base-address function, it returns a GEP over [i8]
    from the base address (the inlined call's 64-bit result converted by
    [inttoptr]) indexed by the offset; and it ends in [report_fatal_error]
    if and only if the module has no stack address-space metadata. *)
Theorem continuationStackOffsetToPtr_modes (NDEBUG : bool)
    (addrSpaceNumber : ContStackAddrspace -> nat)
    (md : option ContStackAddrspace) (Offset : BValue)
    (GpurtLibrary : list FunctionDecl) :
  continuationStackOffsetToPtr NDEBUG addrSpaceNumber (Some Scratch)
      Offset (IntegerTy 32) GpurtLibrary
    = Ok (CreateIntToPtr Offset (PointerTy (addrSpaceNumber Scratch)))
  /\ continuationStackOffsetToPtr NDEBUG addrSpaceNumber (Some Global)
        Offset (IntegerTy 32) GpurtLibrary
      = (_ <- getContinuationStackGlobalMemBase NDEBUG GpurtLibrary ;;
         Ok (CreateGEP (IntegerTy 8)
               (CreateIntToPtr
                  (InlinedCall "_cont_GetContinuationStackGlobalMemBase" [])
                  (PointerTy (addrSpaceNumber Global)))
               [Offset]))
  /\ (forall F,
        getFunction GpurtLibrary "_cont_GetContinuationStackGlobalMemBase"
          = Some F ->
        paramTypes F = [] -> returnType F = IntegerTy 64 ->
        getContinuationStackGlobalMemBase NDEBUG GpurtLibrary = Ok F)
  /\ ((exists msg,
         continuationStackOffsetToPtr NDEBUG addrSpaceNumber md
           Offset (IntegerTy 32) GpurtLibrary = FatalError msg)
      <-> md = None)
  /\ (forall F,
        getFunction GpurtLibrary "_cont_GetContinuationStackGlobalMemBase"
          = Some F ->
        paramTypes F = [] -> returnType F = IntegerTy 64 ->
        (isOk (continuationStackOffsetToPtr NDEBUG addrSpaceNumber md
                 Offset (IntegerTy 32) GpurtLibrary) = false
         <-> md = None)).
Proof.
  assert (Hassert : forall msg, assert NDEBUG (Ty_eqb (IntegerTy 32) (IntegerTy 32)) msg = Ok tt).
  { intros msg. unfold assert. replace (Ty_eqb (IntegerTy 32) (IntegerTy 32)) with true.
    - rewrite orb_true_r. reflexivity.
    - unfold Ty_eqb. destruct (Ty_eq_dec (IntegerTy 32) (IntegerTy 32)); congruence. }
  assert (Hbase : forall F,
             getContinuationStackGlobalMemBase NDEBUG GpurtLibrary = Ok F ->
             fnName F = "_cont_GetContinuationStackGlobalMemBase").
  { intros F. unfold getContinuationStackGlobalMemBase.
    destruct (getFunction GpurtLibrary _) as [F' |] eqn:E.
    - destruct (assert NDEBUG _ _); cbn [bind]; try discriminate.
      intros H; inversion H; subst. eapply getFunction_name; eauto.
    - destruct NDEBUG; discriminate. }
  assert (Hvalid : forall F,
             getFunction GpurtLibrary "_cont_GetContinuationStackGlobalMemBase"
               = Some F ->
             paramTypes F = [] -> returnType F = IntegerTy 64 ->
             getContinuationStackGlobalMemBase NDEBUG GpurtLibrary = Ok F).
  { intros F HF Hp Hr. unfold getContinuationStackGlobalMemBase.
    rewrite HF, Hp, Hr. unfold assert.
    replace (Ty_eqb (IntegerTy 64) (IntegerTy 64)) with true.
    + cbn. rewrite orb_true_r. reflexivity.
    + unfold Ty_eqb. destruct (Ty_eq_dec (IntegerTy 64) (IntegerTy 64)); congruence. }
  unfold continuationStackOffsetToPtr. rewrite !Hassert. cbn [bind].
  split; [reflexivity |]. split; [| split; [| split]]; cycle 3.
  { intros F HF Hp Hr. destruct md as [[|] |]; cbn [isOk].
    - split; discriminate.
    - rewrite (Hvalid F HF Hp Hr). cbn [bind isOk]. split; discriminate.
    - split; reflexivity. }
  - destruct (getContinuationStackGlobalMemBase NDEBUG GpurtLibrary) as [F | | | | |] eqn:E;
      cbn [bind]; try reflexivity.
    rewrite (Hbase F eq_refl). reflexivity.
  - exact Hvalid.
  - split.
    + intros [msg H]. destruct md as [[|] |]; [discriminate | | reflexivity].
      exfalso. unfold getContinuationStackGlobalMemBase in H.
      destruct (getFunction GpurtLibrary _).
      * unfold assert in H. destruct (NDEBUG || _); cbn [bind] in H; discriminate.
      * destruct NDEBUG; discriminate.
    + intros ->. eexists. reflexivity.
Qed.

Lemma continuationStackOffsetToPtr_modes_witness :
  continuationStackOffsetToPtr false Examples.exampleAddrSpaces (Some Global)
    (Existing "offset") (IntegerTy 32) Examples.exampleGpurtLibrary
  = Ok (CreateGEP (IntegerTy 8)
          (CreateIntToPtr
             (InlinedCall "_cont_GetContinuationStackGlobalMemBase" [])
             (PointerTy 22))
          [Existing "offset"]).
Proof.
  destruct (continuationStackOffsetToPtr_modes false Examples.exampleAddrSpaces
              (Some Global) (Existing "offset") Examples.exampleGpurtLibrary)
    as (_ & Hg & Hb & _ & _).
  rewrite Hg.
  rewrite (Hb _ eq_refl eq_refl eq_refl). reflexivity.
Defined.

End StackAddrFacts.

(* ===================================================================== *)
(** * Properties of [replaceIntrinsicCall] *)
(* ===================================================================== *)

Section IntrinsicRemapFacts.
Import IR Builder IntrinsicRemap Spec.

Lemma getHitStateAccessor_found (NDEBUG : bool) (lib : list FunctionDecl)
    (Name msg : string) (F : FunctionDecl) :
  getHitStateAccessor NDEBUG lib Name msg = Ok F ->
  getFunction lib Name = Some F /\ fnName F = Name.
Proof.
  unfold getHitStateAccessor.
  destruct (getFunction lib Name) as [F' |] eqn:E.
  - destruct (assert NDEBUG _ _); cbn [bind]; try discriminate.
    intros H; inversion H; subst. split; [reflexivity |].
    eapply getFunction_name; eauto.
  - destruct NDEBUG; discriminate.
Qed.

(** C6.  For a call whose table entry accesses hit data, a completed
    [replaceIntrinsicCall] has inlined [_cont_GetCandidateState] when the
    shader kind is any-hit or intersection and [_cont_GetCommittedState] for
    every other kind; the state it returns is stored to an alloca created at
    the function entry, and that alloca is the second argument (the hit-data
    argument) of the new call. *)
Theorem replaceIntrinsicCall_hit_state (NDEBUG : bool) (SystemDataTy : Ty)
    (SystemData : BValue) (Kind : DXILShaderKind) (Call : CallInst)
    (GpurtLibrary : list FunctionDecl) (entry : GpuRtIntrinsicEntry)
    (r : Replacement) :
  findIntrImplEntryByIntrinsicCall Call = Ok (Some entry) ->
  AccessesHitData entry = true ->
  replaceIntrinsicCall NDEBUG SystemDataTy SystemData Kind Call GpurtLibrary
    = Ok (Some r) ->
  exists accessor F trav,
    (readsCandidateState Kind -> accessor = "_cont_GetCandidateState") /\
    (~ readsCandidateState Kind -> accessor = "_cont_GetCommittedState") /\
    GetHitData r = Some accessor /\
    getFunction GpurtLibrary accessor = Some F /\
    emitted r =
      [EmitAllocaAtEntry (CreateAlloca (returnType F));
       EmitStore (InlinedCall accessor [trav]) (CreateAlloca (returnType F))] /\
    nth_error (Arguments r) 1 = Some (CreateAlloca (returnType F)) /\
    NewCall r = CreateCall ("_cont_" ++ Name entry)%string (Arguments r).
Proof.
  intros Hentry Hhit H. unfold replaceIntrinsicCall in H.
  rewrite Hentry in H. cbn [bind] in H. rewrite Hhit in H.
  destruct (getFunction GpurtLibrary _) as [IntrImpl |] eqn:Himpl;
    [| discriminate].
  destruct (getFuncArgPtrElementType IntrImpl 0) as [t0 | | | | |];
    cbn [bind] in H; try discriminate.
  destruct (getDXILSystemData NDEBUG SystemData SystemDataTy t0)
    as [sys | | | | |]; cbn [bind] in H; try discriminate.
  set (acc := match Kind with
              | AnyHit | Intersection =>
                  getHitStateAccessor NDEBUG GpurtLibrary "_cont_GetCandidateState"
                    "Could not find GetCandidateState function"
              | _ =>
                  getHitStateAccessor NDEBUG GpurtLibrary "_cont_GetCommittedState"
                    "Could not find GetCommittedState function"
              end) in H.
  destruct acc as [F | | | | |] eqn:Hacc; cbn [bind] in H; try discriminate.
  destruct (getFuncArgPtrElementType F 0) as [t | | | | |];
    cbn [bind] in H; try discriminate.
  destruct (getDXILSystemData NDEBUG SystemData SystemDataTy t)
    as [trav | | | | |]; cbn [bind] in H; try discriminate.
  destruct (convertArguments _ _ _) as [rest | | | | |];
    cbn [bind] in H; try discriminate.
  inversion H; subst r; clear H. cbn [GetHitData emitted Arguments NewCall].
  assert (Hname : fnName IntrImpl = ("_cont_" ++ Name entry)%string)
    by (eapply getFunction_name; eauto).
  subst acc.
  assert (Hcases :
    (readsCandidateState Kind /\
     getHitStateAccessor NDEBUG GpurtLibrary "_cont_GetCandidateState"
       "Could not find GetCandidateState function" = Ok F) \/
    (~ readsCandidateState Kind /\
     getHitStateAccessor NDEBUG GpurtLibrary "_cont_GetCommittedState"
       "Could not find GetCommittedState function" = Ok F)).
  { unfold readsCandidateState.
    destruct Kind; first
      [ left; split; [auto; fail | exact Hacc]
      | right; split; [intros [E | E]; discriminate | exact Hacc] ]. }
  destruct Hcases as [[Hk Hf] | [Hk Hf]];
    apply getHitStateAccessor_found in Hf; destruct Hf as [Hg Hn];
    exists (fnName F), F, trav; rewrite Hn in *; rewrite Hname;
    repeat split; auto; intros; tauto.
Qed.

Lemma replaceIntrinsicCall_hit_state_witness :
  exists r accessor,
    replaceIntrinsicCall false Examples.systemDataTy (Existing "sysdata")
      Intersection Examples.instanceIdCall Examples.exampleGpurtLibrary
      = Ok (Some r) /\
    accessor = "_cont_GetCandidateState" /\
    GetHitData r = Some accessor.
Proof.
  assert (Hrun :
    replaceIntrinsicCall false Examples.systemDataTy (Existing "sysdata")
      Intersection Examples.instanceIdCall Examples.exampleGpurtLibrary
    = Ok (Some
        {| NewCall := CreateCall "_cont_InstanceID"
                        [Existing "sysdata"; CreateAlloca Examples.hitDataTy];
           Arguments := [Existing "sysdata"; CreateAlloca Examples.hitDataTy];
           GetHitData := Some "_cont_GetCandidateState";
           emitted :=
             [EmitAllocaAtEntry (CreateAlloca Examples.hitDataTy);
              EmitStore (InlinedCall "_cont_GetCandidateState" [Existing "sysdata"])
                        (CreateAlloca Examples.hitDataTy)];
           replacesUses := true |})) by reflexivity.
  destruct (replaceIntrinsicCall_hit_state false Examples.systemDataTy
              (Existing "sysdata") Intersection Examples.instanceIdCall
              Examples.exampleGpurtLibrary
              (LgcRtGpuRtMap InstanceIdOp) _ eq_refl eq_refl Hrun)
    as (accessor & F & trav & Hc & _ & Hg & _).
  eexists. exists accessor. split; [exact Hrun |]. split; [| exact Hg].
  apply Hc. right. reflexivity.
Defined.

End IntrinsicRemapFacts.
(* ===================================================================== *)
(** * Facts about the IR model *)
(* ===================================================================== *)

Section IRFacts.
Import IR Spec.

Lemma Value_eqb_eq (a b : Value) : Value_eqb a b = true <-> a = b.
Proof.
  unfold Value_eqb. destruct (Value_eq_dec a b); split; congruence.
Qed.

Lemma Value_eqb_refl (a : Value) : Value_eqb a a = true.
Proof. apply Value_eqb_eq. reflexivity. Qed.

Lemma Value_eqb_neq (a b : Value) : Value_eqb a b = false <-> a <> b.
Proof.
  unfold Value_eqb. destruct (Value_eq_dec a b); split; congruence.
Qed.

Lemma Ty_eqb_eq (a b : Ty) : Ty_eqb a b = true <-> a = b.
Proof. unfold Ty_eqb. destruct (Ty_eq_dec a b); split; congruence. Qed.

Lemma lookup_In (f : Function_) (id : nat) (i : Instruction) :
  lookup f id = Some i -> In i (body f) /\ getId i = id.
Proof.
  unfold lookup. intros H. apply find_some in H. destruct H as [Hin Heq].
  split; [exact Hin | apply Nat.eqb_eq; exact Heq].
Qed.

Lemma find_unique (l : list Instruction) (i : Instruction) :
  NoDup (map getId l) -> In i l ->
  find (fun x => Nat.eqb (getId x) (getId i)) l = Some i.
Proof.
  induction l as [| x l IH]; intros Hnd Hin; [contradiction |].
  cbn [map] in Hnd. inversion Hnd as [| ? ? Hx Hnd']; subst.
  cbn [find]. destruct Hin as [-> | Hin].
  - rewrite Nat.eqb_refl. reflexivity.
  - destruct (Nat.eqb_spec (getId x) (getId i)) as [E | _].
    + exfalso. apply Hx. rewrite E. apply in_map. exact Hin.
    + apply IH; assumption.
Qed.

Lemma lookup_unique (f : Function_) (i : Instruction) :
  uniqueIds f -> In i (body f) -> lookup f (getId i) = Some i.
Proof. intros. apply find_unique; assumption. Qed.

Lemma lookup_exists (f : Function_) (i : Instruction) :
  In i (body f) -> exists i', lookup f (getId i) = Some i'.
Proof.
  intros Hin. unfold lookup.
  destruct (find _ (body f)) as [i' |] eqn:E; [eauto |].
  exfalso. pose proof (find_none _ _ E i Hin) as H. cbn in H.
  rewrite Nat.eqb_refl in H. discriminate.
Qed.

Lemma usesFrom_In (user : nat) (v : Value) (ops : list Value) :
  forall n u, In u (usesFrom user v n ops) ->
              getUser u = user /\ get u = v /\ In v ops.
Proof.
  induction ops as [| o ops IH]; intros n u H; cbn [usesFrom] in H;
    [contradiction |].
  apply in_app_or in H. destruct H as [H | H].
  - destruct (Value_eqb o v) eqn:E; [| contradiction].
    apply Value_eqb_eq in E. destruct H as [<- | []]. cbn.
    repeat split. left. exact E.
  - destruct (IH _ _ H) as (? & ? & ?). repeat split; try assumption.
    right. assumption.
Qed.

Lemma In_usesFrom (user : nat) (v : Value) (ops : list Value) :
  In v ops -> forall n, exists u, In u (usesFrom user v n ops).
Proof.
  induction ops as [| o ops IH]; intros Hin n; [contradiction |].
  cbn [usesFrom]. destruct Hin as [-> | Hin].
  - rewrite Value_eqb_refl. eexists. left. reflexivity.
  - destruct (IH Hin (S n)) as [u Hu]. exists u. apply in_or_app. right. exact Hu.
Qed.

Lemma uses_In (f : Function_) (v : Value) (u : Use) :
  In u (uses f v) ->
  exists i, In i (body f) /\ getUser u = getId i /\ get u = v /\
            In v (operands (getKind i)).
Proof.
  unfold uses. intros H. apply in_flat_map in H. destruct H as (i & Hi & Hu).
  apply usesFrom_In in Hu. exists i. intuition.
Qed.

Lemma In_uses (f : Function_) (v : Value) (i : Instruction) :
  In i (body f) -> In v (operands (getKind i)) ->
  exists u, In u (uses f v) /\ getUser u = getId i.
Proof.
  intros Hi Hv. destruct (In_usesFrom (getId i) v _ Hv 0%nat) as [u Hu].
  exists u. split.
  - unfold uses. apply in_flat_map. exists i. split; assumption.
  - apply usesFrom_In in Hu. intuition.
Qed.

Lemma use_empty_spec (f : Function_) (v : Value) :
  use_empty f v = true <-> uses f v = [].
Proof. unfold use_empty. destruct (uses f v); split; congruence. Qed.

End IRFacts.

(* ===================================================================== *)
(** * The use walk of [forwardContinuationFrameStoreToLoad] *)
(* ===================================================================== *)

Section WalkFacts.
Import IR Forward Spec.

Variable NDEBUG : bool.
Variable getTypeStoreSize : Ty -> Z.
Variable f : Function_.
Hypothesis Hunique : uniqueIds f.

Let visitUse := Forward.visitUse NDEBUG getTypeStoreSize f.
Let walk := fun fuel => Forward.walk NDEBUG getTypeStoreSize fuel f.
Let isUse := Spec.isUse f.
Let withStore := Spec.withStore getTypeStoreSize.

(** What one iteration does, by the kind of the user. *)
Lemma visitUse_spec (pu : PointerUse) :
  isUse pu ->
  exists U,
    In U (body f) /\ getId U = getUser (Ptr pu) /\
    In (get (Ptr pu)) (operands (getKind U)) /\
    ((abortsWalk (getKind U) (get (Ptr pu)) = true /\
      forall wl c, visitUse pu wl c = Ok (inl tt))
     \/ (abortsWalk (getKind U) (get (Ptr pu)) = false /\
         exists delta,
           passThrough (getKind U) = Some delta /\
           forall wl c,
             visitUse pu wl c =
             Ok (inr (pushUses (uses f (VInst (getId U)))
                               (delta + Offset pu) wl, c)))
     \/ (abortsWalk (getKind U) (get (Ptr pu)) = false /\
         passThrough (getKind U) = None /\
         exists ptr,
           getKind U = Load ptr true /\ ptr = get (Ptr pu) /\
           forall wl c,
             visitUse pu wl c = Ok (inr (wl, Spec.withLoad c (Offset pu) (getId U))))
     \/ (abortsWalk (getKind U) (get (Ptr pu)) = false /\
         passThrough (getKind U) = None /\
         exists val ptr,
           getKind U = Store val ptr true /\ ptr = get (Ptr pu) /\
           ((exists ty, valueType f val = Some ty /\
               forall wl c,
                 visitUse pu wl c =
                 Ok (inr (wl, withStore c (Offset pu) ty (getId U))))
            \/ (valueType f val = None /\
                forall wl c, visitUse pu wl c = UndefinedBehaviour)))).
Proof.
  intros Hu. unfold isUse, Spec.isUse in Hu. apply uses_In in Hu.
  destruct Hu as (U & HU & Hid & _ & Hop).
  exists U. split; [exact HU |]. split; [congruence |]. split; [exact Hop |].
  pose proof (lookup_unique f U Hunique HU) as Hl. rewrite <- Hid in Hl.
  unfold visitUse, Forward.visitUse. rewrite Hl.
  destruct (getKind U) as
    [lt cargs | ptr simple | val ptr simple | a b | a b | v | v | v | v
     | ptr idx [off |] | cnd a b | opc ops] eqn:Hk;
    cbn [abortsWalk passThrough];
    try (left; split; [reflexivity | intros; reflexivity]).
  - (* Load *)
    destruct simple; cbn [negb].
    + right. right. left. split; [reflexivity |]. split; [reflexivity |].
      exists ptr. cbn [operands] in Hop. destruct Hop as [Hop | []].
      repeat split; auto.
    + left. split; [reflexivity | intros; reflexivity].
  - (* Store *)
    destruct simple; cbn [negb orb].
    + destruct (Value_eqb val (get (Ptr pu))) eqn:Hv.
      * left. split; [reflexivity | intros; reflexivity].
      * right. right. right. split; [reflexivity |]. split; [reflexivity |].
        exists val, ptr. cbn [operands] in Hop.
        apply Value_eqb_neq in Hv.
        destruct Hop as [Hop | [Hop | []]]; [congruence |].
        split; [reflexivity |]. split; [exact Hop |].
        unfold assert. rewrite Hop, Value_eqb_refl, orb_true_r. cbn [bind].
        destruct (valueType f val) as [ty |].
        -- left. exists ty. split; [reflexivity | intros; reflexivity].
        -- right. split; [reflexivity | intros; reflexivity].
    + left. split; [reflexivity | intros; reflexivity].
  - (* BitCast *)
    right. left. split; [reflexivity |]. exists 0. split; [reflexivity |].
    intros; reflexivity.
  - (* AddrSpaceCast *)
    right. left. split; [reflexivity |]. exists 0. split; [reflexivity |].
    intros; reflexivity.
  - (* GetElementPtr with a constant offset *)
    right. left. split; [reflexivity |]. exists off. split; [reflexivity |].
    intros; reflexivity.
Qed.

(** *** What a finished walk has looked at *)

Lemma unique_by_id (i j : Instruction) :
  In i (body f) -> In j (body f) -> getId i = getId j -> i = j.
Proof.
  intros Hi Hj E. pose proof (lookup_unique f i Hunique Hi) as Li.
  pose proof (lookup_unique f j Hunique Hj) as Lj. congruence.
Qed.

Lemma children_isUse (v : Value) (off : Z) (pu : PointerUse) :
  In pu (pushUses (uses f v) off []) ->
  isUse pu /\ get (Ptr pu) = v /\ Offset pu = off.
Proof.
  intros Hin. unfold pushUses in Hin. rewrite app_nil_r in Hin.
  apply in_rev in Hin. apply in_map_iff in Hin.
  destruct Hin as (u & <- & Hu). cbn [Ptr Offset].
  pose proof Hu as Hu'. apply uses_In in Hu'.
  destruct Hu' as (i & Hi & Hid & Hget & Hop).
  unfold isUse, Spec.isUse. cbn [Ptr]. rewrite Hget. auto.
Qed.

Lemma In_pushUses (v : Value) (off : Z) (U : Instruction) :
  In U (body f) -> In v (operands (getKind U)) ->
  exists pu, In pu (pushUses (uses f v) off []) /\
             getUser (Ptr pu) = getId U /\ get (Ptr pu) = v /\ Offset pu = off.
Proof.
  intros HU Hop. destruct (In_uses f v U HU Hop) as (u & Hu & Hid).
  exists {| Ptr := u; Offset := off |}. cbn [Ptr Offset].
  split; [| split; [exact Hid | split; [| reflexivity]]].
  - unfold pushUses. rewrite app_nil_r. apply -> in_rev.
    apply in_map_iff. exists u. auto.
  - apply uses_In in Hu. destruct Hu as (i & _ & _ & Hget & _). exact Hget.
Qed.

Lemma pushUses_app (us : list Use) (off : Z) (wl : list PointerUse) :
  pushUses us off wl = pushUses us off [] ++ wl.
Proof. unfold pushUses. rewrite app_nil_r. reflexivity. Qed.

Lemma ReachUse_nil (p : Value) (off : Z) (U : Instruction) :
  ~ Spec.ReachUse f [] p off U.
Proof. intros H. induction H; auto. Qed.

(** After one iteration, what was reachable from the work list is either
    the use just visited or still reachable from the new work list. *)
Lemma ReachUse_cons (pu : PointerUse) (wl wl2 : list PointerUse) :
  (forall x, In x wl -> In x wl2) ->
  (forall U0 delta x,
     In U0 (body f) -> getId U0 = getUser (Ptr pu) ->
     passThrough (getKind U0) = Some delta ->
     In x (pushUses (uses f (VInst (getId U0))) (delta + Offset pu) []) ->
     In x wl2) ->
  forall p off U,
    Spec.ReachUse f (pu :: wl) p off U ->
    (getId U = getUser (Ptr pu) /\ p = get (Ptr pu) /\ off = Offset pu) \/
    Spec.ReachUse f wl2 p off U.
Proof.
  intros Hwl Hch p off U H.
  induction H as [pu0 U HIn HU Hid | p off delta U U' H IH Hp HU' Hop].
  - destruct HIn as [<- | HIn].
    + left. auto.
    + right. apply Spec.ReachUse_entry; auto.
  - destruct IH as [(Hid & -> & ->) | IH].
    + right.
      destruct (In_pushUses (VInst (getId U)) (delta + Offset pu) U' HU' Hop)
        as (x & Hx & Hxid & Hxget & Hxoff).
      rewrite <- Hxget at 1. rewrite <- Hxoff.
      apply Spec.ReachUse_entry; [| exact HU' | congruence].
      apply (Hch U delta x); auto.
      clear - H. induction H; auto.
    + right. eapply Spec.ReachUse_step; eauto.
Qed.

Lemma walk_finished_clean :
  forall fuel wl c c',
    (forall pu, In pu wl -> isUse pu) ->
    walk fuel wl c = Ok (Finished c') ->
    forall p off U,
      Spec.ReachUse f wl p off U -> abortsWalk (getKind U) p = false.
Proof.
  induction fuel as [| fuel IH]; intros wl c c' Hwl Hw p off U HR.
  - destruct wl as [| pu wl]; [exfalso; eapply ReachUse_nil; eauto |].
    discriminate.
  - destruct wl as [| pu wl]; [exfalso; eapply ReachUse_nil; eauto |].
    unfold walk in Hw. cbn [Forward.walk] in Hw. fold visitUse in Hw.
    assert (Hwl' : forall x, In x wl -> isUse x)
      by (intros; apply Hwl; right; assumption).
    destruct (visitUse_spec pu (Hwl pu (or_introl eq_refl)))
      as (U0 & HU0 & Hid0 & Hop0 & Hcases).
    destruct Hcases as [[_ Hv] | [(Hna & delta & Hp & Hv)
                       | [(Hna & Hnp & ptr & _ & _ & Hv)
                       | (Hna & Hnp & val & ptr & Hk & _ & [(ty & _ & Hv) | (_ & Hv)])]]];
      rewrite Hv in Hw; cbn [bind] in Hw; try discriminate.
    + (* pass-through *)
      rewrite pushUses_app in Hw.
      destruct (ReachUse_cons pu wl
                  (pushUses (uses f (VInst (getId U0))) (delta + Offset pu) [] ++ wl)
                  ltac:(intros; apply in_or_app; right; assumption)
                  ltac:(intros U1 d x HU1 Hid1 Hp1 Hx;
                        assert (U1 = U0) by (apply unique_by_id; congruence);
                        subst U1; assert (d = delta) by congruence; subst d;
                        apply in_or_app; left; exact Hx)
                  p off U HR) as [(HidU & -> & ->) | HR'].
      * assert (U = U0) by (apply unique_by_id; auto; congruence
                            || (clear - HR; induction HR; auto)).
        subst U. exact Hna.
      * eapply (IH _ c c'); [| exact Hw | exact HR'].
        intros x Hx. apply in_app_or in Hx. destruct Hx as [Hx | Hx].
        -- apply (children_isUse _ _ _ Hx).
        -- apply Hwl'. exact Hx.
    + (* load *)
      destruct (ReachUse_cons pu wl wl ltac:(auto)
                  ltac:(intros U1 d x HU1 Hid1 Hp1 Hx;
                        assert (U1 = U0) by (apply unique_by_id; congruence);
                        subst U1; congruence)
                  p off U HR) as [(HidU & -> & ->) | HR'].
      * assert (U = U0) by (apply unique_by_id; auto; congruence
                            || (clear - HR; induction HR; auto)).
        subst U. exact Hna.
      * eapply (IH _ _ c'); [exact Hwl' | exact Hw | exact HR'].
    + (* store *)
      destruct (ReachUse_cons pu wl wl ltac:(auto)
                  ltac:(intros U1 d x HU1 Hid1 Hp1 Hx;
                        assert (U1 = U0) by (apply unique_by_id; congruence);
                        subst U1; congruence)
                  p off U HR) as [(HidU & -> & ->) | HR'].
      * assert (U = U0) by (apply unique_by_id; auto; congruence
                            || (clear - HR; induction HR; auto)).
        subst U. exact Hna.
      * eapply (IH _ _ c'); [exact Hwl' | exact Hw | exact HR'].
Qed.

(** Every use of a pointer derived from the frame pointer is reachable from
    the initial work list. *)
Lemma Derived_ReachUse (FramePtr : Value) (p : Value) (off : Z) :
  Derived f FramePtr p off ->
  forall U, In U (body f) -> In p (operands (getKind U)) ->
            Spec.ReachUse f (pushUses (uses f FramePtr) 0 []) p off U.
Proof.
  induction 1 as [| p off delta U0 HD IH HU0 Hop0 Hp]; intros U HU Hop.
  - destruct (In_pushUses FramePtr 0 U HU Hop) as (x & Hx & Hxid & Hxget & Hxoff).
    pose proof (Spec.ReachUse_entry f _ x U Hx HU (eq_sym Hxid)) as R.
    rewrite Hxget, Hxoff in R. exact R.
  - eapply Spec.ReachUse_step; eauto.
Qed.

(** *** What a finished walk has collected *)

Lemma In_pushLoad (m : list (Z * list nat)) (off : Z) (l : nat) (o : Z)
    (ls : list nat) :
  In (o, ls) (pushLoad m off l) ->
  In (o, ls) m \/
  (o = off /\ (ls = [l] \/ exists ls0, In (o, ls0) m /\ ls = ls0 ++ [l])).
Proof.
  induction m as [| [o' ls'] m IH]; cbn [pushLoad]; intros H.
  - destruct H as [H | []]. inversion H; subst. right. auto.
  - destruct (Z.eqb_spec o' off) as [-> | Hne].
    + destruct H as [H | H].
      * inversion H; subst. right. split; [reflexivity |]. right.
        exists ls'. split; [left; reflexivity | reflexivity].
      * left. right. exact H.
    + destruct H as [H | H].
      * left. left. exact H.
      * destruct (IH H) as [H' | (-> & [-> | (ls0 & H0 & ->)])].
        -- left. right. exact H'.
        -- right. auto.
        -- right. split; [reflexivity |]. right. exists ls0.
           split; [right; exact H0 | reflexivity].
Qed.

Variable FramePtr : Value.

Let collectedOK (c : Collected) : Prop :=
  Spec.loadsOK f FramePtr c /\
  Spec.storesOK getTypeStoreSize f FramePtr c /\
  Spec.sortedMatches c.

Lemma withLoad_ok (c : Collected) (off : Z) (U : Instruction) (ptr : Value) :
  collectedOK c -> In U (body f) -> getKind U = Load ptr true ->
  Derived f FramePtr ptr off ->
  collectedOK (Spec.withLoad c off (getId U)).
Proof.
  intros (HL & HS & HM) HU Hk HD. split; [| split; [exact HS | exact HM]].
  intros o ls Hin. cbn [Spec.withLoad OffsetLoadMap] in Hin.
  apply In_pushLoad in Hin.
  destruct Hin as [Hin | (-> & [-> | (ls0 & H0 & ->)])].
  - apply HL. exact Hin.
  - split; [discriminate |]. intros l [<- | []]. exists U, ptr. auto.
  - destruct (HL _ _ H0) as [_ H1]. split.
    + destruct ls0; discriminate.
    + intros l Hl. apply in_app_or in Hl. destruct Hl as [Hl | [<- | []]].
      * apply H1. exact Hl.
      * exists U, ptr. auto.
Qed.

Lemma withStore_ok (c : Collected) (off : Z) (U : Instruction)
    (val ptr : Value) (ty : Ty) :
  collectedOK c -> In U (body f) -> getKind U = Store val ptr true ->
  valueType f val = Some ty -> Derived f FramePtr ptr off ->
  collectedOK (withStore c off ty (getId U)).
Proof.
  intros (HL & HS & HM) HU Hk Hty HD. split; [exact HL | split].
  - intros iv Hin. cbn [withStore Spec.withStore StoreIntervals] in Hin.
    apply in_app_or in Hin. destruct Hin as [Hin | [<- | []]].
    + apply HS. exact Hin.
    + exists U, val, ptr, ty. cbn [left right value]. auto 10.
  - unfold Spec.sortedMatches in *.
    cbn [withStore Spec.withStore StoreIntervals SortedStores].
    rewrite map_app, HM. reflexivity.
Qed.

Lemma walk_collected_ok :
  forall fuel wl c c',
    (forall pu, In pu wl ->
                isUse pu /\ Derived f FramePtr (get (Ptr pu)) (Offset pu)) ->
    collectedOK c ->
    walk fuel wl c = Ok (Finished c') ->
    collectedOK c'.
Proof.
  induction fuel as [| fuel IH]; intros wl c c' Hwl Hc Hw.
  - destruct wl; [| discriminate]. cbn in Hw. congruence.
  - destruct wl as [| pu wl]; [cbn in Hw; congruence |].
    unfold walk in Hw. cbn [Forward.walk] in Hw. fold visitUse in Hw.
    assert (Hwl' : forall x, In x wl ->
              isUse x /\ Derived f FramePtr (get (Ptr x)) (Offset x))
      by (intros; apply Hwl; right; assumption).
    destruct (Hwl pu (or_introl eq_refl)) as [Huse HD].
    destruct (visitUse_spec pu Huse) as (U & HU & Hid & Hop & Hcases).
    destruct Hcases as [[_ Hv] | [(_ & delta & Hp & Hv)
                       | [(_ & _ & ptr & Hk & Hptr & Hv)
                       | (_ & _ & val & ptr & Hk & Hptr & [(ty & Hty & Hv) | (_ & Hv)])]]];
      rewrite Hv in Hw; cbn [bind] in Hw; try discriminate.
    + rewrite pushUses_app in Hw.
      refine (IH _ c c' _ Hc Hw).
      intros x Hx. apply in_app_or in Hx. destruct Hx as [Hx | Hx].
      * destruct (children_isUse _ _ _ Hx) as (Hxu & Hxg & Hxo).
        split; [exact Hxu |]. rewrite Hxg, Hxo.
        eapply Derived_step; eauto.
      * apply Hwl'. exact Hx.
    + refine (IH _ _ c' Hwl' _ Hw).
      eapply withLoad_ok; eauto. subst ptr. exact HD.
    + refine (IH _ _ c' Hwl' _ Hw).
      eapply withStore_ok; eauto. subst ptr. exact HD.
Qed.

(** *** Termination of the walk *)

Variable N : nat.
Hypothesis Hbound : forall i, In i (body f) -> (getId i < N)%nat.
Hypothesis Hnumbered : definedBeforeUse f.
Hypothesis Hdefined : operandsDefined f.

Lemma passThrough_not_other (k : Instr) (delta : Z) :
  passThrough k = Some delta -> isOther k = false.
Proof. destruct k; cbn; congruence. Qed.

Let rankOK := Spec.rankOK f N.

Lemma children_ok (k : nat) (U : Instruction) (delta off : Z) :
  In U (body f) -> passThrough (getKind U) = Some delta ->
  (N <= getId U + S k)%nat ->
  forall pu, In pu (pushUses (uses f (VInst (getId U))) off []) ->
             isUse pu /\ rankOK k pu.
Proof.
  intros HU Hp Hk pu Hin. unfold pushUses in Hin. rewrite app_nil_r in Hin.
  apply in_rev in Hin. apply in_map_iff in Hin.
  destruct Hin as (u & <- & Hu). cbn [Ptr].
  pose proof Hu as Hu'. apply uses_In in Hu'.
  destruct Hu' as (i & Hi & Hid & Hget & Hop).
  split.
  - unfold isUse, Spec.isUse. cbn [Ptr]. rewrite Hget. exact Hu.
  - intros U' HU' Hid' Hpass. cbn [Ptr] in Hid'.
    assert (i = U') by (apply unique_by_id; congruence). subst i.
    destruct (passThrough (getKind U')) as [d |] eqn:Hd; [| congruence].
    pose proof (Hnumbered U' (getId U) HU' (passThrough_not_other _ _ Hd) Hop).
    lia.
Qed.

Lemma walk_segment :
  forall k L,
    (forall pu, In pu L -> isUse pu /\ rankOK k pu) ->
    forall wl c,
    exists n,
      (forall fuel, walk (n + fuel)%nat (L ++ wl) c = Ok GiveUp) \/
      (exists c', forall fuel, walk (n + fuel)%nat (L ++ wl) c = walk fuel wl c').
Proof.
  induction k as [k IHk] using lt_wf_ind.
  induction L as [| pu L IHL]; intros HL wl c.
  - exists 0%nat. right. exists c. intros fuel. reflexivity.
  - assert (HL' : forall pu', In pu' L -> isUse pu' /\ rankOK k pu')
      by (intros; apply HL; right; assumption).
    destruct (HL pu (or_introl eq_refl)) as [Huse Hrank].
    destruct (visitUse_spec pu Huse) as (U & HU & Hid & Hop & Hcases).
    destruct Hcases as [[_ Hv] | [(_ & delta & Hp & Hv) | [(_ & _ & ptr & _ & _ & Hv)
                       | (_ & _ & val & ptr & Hk & _ & [(ty & _ & Hv) | (Hnone & _)])]]].
    + exists 1%nat. left. intros fuel. cbn [Nat.add app]. unfold walk.
      cbn [Forward.walk]. fold visitUse. rewrite Hv. reflexivity.
    + assert (Hlt : (getId U < N)%nat) by (apply Hbound; exact HU).
      assert (Hr : (N <= getId U + k)%nat)
        by (apply Hrank; [exact HU | exact Hid | congruence]).
      destruct k as [| k']; [lia |].
      destruct (IHk k' (Nat.lt_succ_diag_r k')
                  (pushUses (uses f (VInst (getId U))) (delta + Offset pu) [])
                  (children_ok k' U delta _ HU Hp Hr) (L ++ wl) c)
        as [n1 [Hg | (c1 & Hc1)]].
      * exists (S n1). left. intros fuel. cbn [Nat.add app]. unfold walk.
        cbn [Forward.walk]. fold visitUse. rewrite Hv. cbn [bind].
        rewrite pushUses_app. apply Hg.
      * destruct (IHL HL' wl c1) as [n2 [Hg | (c2 & Hc2)]].
        -- exists (S (n1 + n2)). left. intros fuel. cbn [Nat.add app].
           unfold walk. cbn [Forward.walk]. fold visitUse. rewrite Hv.
           cbn [bind]. rewrite pushUses_app, <- Nat.add_assoc.
           fold (walk (n1 + (n2 + fuel))%nat). rewrite Hc1. apply Hg.
        -- exists (S (n1 + n2)). right. exists c2. intros fuel.
           cbn [Nat.add app]. unfold walk. cbn [Forward.walk]. fold visitUse.
           rewrite Hv. cbn [bind]. rewrite pushUses_app, <- Nat.add_assoc.
           fold (walk (n1 + (n2 + fuel))%nat). rewrite Hc1. apply Hc2.
    + destruct (IHL HL' wl (Spec.withLoad c (Offset pu) (getId U)))
        as [n2 [Hg | (c2 & Hc2)]].
      * exists (S n2). left. intros fuel. cbn [Nat.add app]. unfold walk.
        cbn [Forward.walk]. fold visitUse. rewrite Hv. cbn [bind]. apply Hg.
      * exists (S n2). right. exists c2. intros fuel. cbn [Nat.add app].
        unfold walk. cbn [Forward.walk]. fold visitUse. rewrite Hv.
        cbn [bind]. apply Hc2.
    + destruct (IHL HL' wl (withStore c (Offset pu) ty (getId U)))
        as [n2 [Hg | (c2 & Hc2)]].
      * exists (S n2). left. intros fuel. cbn [Nat.add app]. unfold walk.
        cbn [Forward.walk]. fold visitUse. rewrite Hv. cbn [bind]. apply Hg.
      * exists (S n2). right. exists c2. intros fuel. cbn [Nat.add app].
        unfold walk. cbn [Forward.walk]. fold visitUse. rewrite Hv.
        cbn [bind]. apply Hc2.
    + exfalso. apply (Hdefined U val HU); [| exact Hnone].
      rewrite Hk. cbn. left. reflexivity.
Qed.

End WalkFacts.

Section GiveUpFacts.
Import IR Forward Spec.

Lemma id_bound (f : Function_) (i : Instruction) :
  In i (body f) -> (getId i < S (list_max (map getId (body f))))%nat.
Proof.
  intros Hi.
  pose proof (proj1 (list_max_le (map getId (body f)) _) (Nat.le_refl _)) as H.
  rewrite Forall_forall in H. specialize (H (getId i) (in_map getId _ _ Hi)).
  lia.
Qed.

(** With enough fuel the walk ends, either giving up or with a collection. *)
Lemma walk_total (NDEBUG : bool) (getTypeStoreSize : Ty -> Z) (f : Function_)
    (FramePtr : Value) :
  uniqueIds f -> definedBeforeUse f -> operandsDefined f ->
  exists n,
    (forall fuel,
       walk NDEBUG getTypeStoreSize (n + fuel) f
         (pushUses (uses f FramePtr) 0 []) emptyCollected = Ok GiveUp) \/
    (exists c, forall fuel,
       walk NDEBUG getTypeStoreSize (n + fuel) f
         (pushUses (uses f FramePtr) 0 []) emptyCollected = Ok (Finished c)).
Proof.
  intros Hu Hn Hd.
  set (N := S (list_max (map getId (body f)))).
  assert (Hinit : forall pu, In pu (pushUses (uses f FramePtr) 0 []) ->
                             Spec.isUse f pu /\ Spec.rankOK f N N pu).
  { intros pu Hpu. split.
    - exact (proj1 (children_isUse f _ _ _ Hpu)).
    - intros U _ _ _. lia. }
  destruct (walk_segment NDEBUG getTypeStoreSize f Hu N (id_bound f) Hn Hd N
              (pushUses (uses f FramePtr) 0 []) Hinit
              [] emptyCollected) as [n [Hg | (c & Hc)]].
  - exists n. left. intros fuel. specialize (Hg fuel).
    rewrite app_nil_r in Hg. exact Hg.
  - exists n. right. exists c. intros fuel. specialize (Hc fuel).
    rewrite app_nil_r in Hc. rewrite Hc. destruct fuel; reflexivity.
Qed.

(** C3.  In a well-formed function, whenever some pointer derived from the
    frame pointer through constant-offset address computation has a user at
    which the analysis gives up (an address computation whose offset is not
    constant, a non-simple load or store, a store of the pointer itself, or a
    user of any other kind), [forwardContinuationFrameStoreToLoad] returns
    normally with the function exactly as it was: this happens for every
    sufficient amount of fuel, and no amount of fuel yields a different
    function. *)
Theorem forward_gives_up_unchanged (NDEBUG : bool) (getTypeStoreSize : Ty -> Z)
    (dominates : nat -> nat -> bool) (f : Function_) (FramePtr p : Value)
    (off : Z) (U : Instruction) :
  uniqueIds f -> definedBeforeUse f -> operandsDefined f ->
  Derived f FramePtr p off ->
  In U (body f) -> In p (operands (getKind U)) ->
  abortsWalk (getKind U) p = true ->
  (exists n, forall fuel,
     forwardContinuationFrameStoreToLoad NDEBUG getTypeStoreSize dominates
       (n + fuel) f FramePtr = Ok f) /\
  (forall fuel f',
     forwardContinuationFrameStoreToLoad NDEBUG getTypeStoreSize dominates
       fuel f FramePtr = Ok f' -> f' = f).
Proof.
  intros Hu Hn Hd HD HU Hop Hab.
  assert (Hinit : forall pu, In pu (pushUses (uses f FramePtr) 0 []) ->
                             Spec.isUse f pu)
    by (intros pu Hpu; exact (proj1 (children_isUse f _ _ _ Hpu))).
  assert (Hno : forall fuel c,
            walk NDEBUG getTypeStoreSize fuel f
              (pushUses (uses f FramePtr) 0 []) emptyCollected
            <> Ok (Finished c)).
  { intros fuel c Hw.
    pose proof (walk_finished_clean NDEBUG getTypeStoreSize f Hu fuel _ _ _
                  Hinit Hw p off U
                  (Derived_ReachUse f FramePtr p off HD U HU Hop)) as Hc.
    congruence. }
  split.
  - destruct (walk_total NDEBUG getTypeStoreSize f FramePtr Hu Hn Hd)
      as [n [Hg | (c & Hc)]].
    + exists n. intros fuel. unfold forwardContinuationFrameStoreToLoad.
      rewrite Hg. reflexivity.
    + exfalso. apply (Hno (n + 0)%nat c). apply Hc.
  - intros fuel f'. unfold forwardContinuationFrameStoreToLoad.
    destruct (walk NDEBUG getTypeStoreSize fuel f _ _) as [[| c] | | | | |] eqn:Hw;
      cbn [bind]; try discriminate.
    + congruence.
    + exfalso. apply (Hno fuel c Hw).
Qed.

End GiveUpFacts.

(* ===================================================================== *)
(** * The forwarding decision *)
(* ===================================================================== *)

Section DecisionFacts.
Import IR Forward Spec.

Lemma In_insertSorted (p x : OffsetStorePair) (l : list OffsetStorePair) :
  In x (insertSorted p l) <-> x = p \/ In x l.
Proof.
  induction l as [| q l IH]; cbn [insertSorted].
  - cbn. intuition.
  - destruct (spOffset q <=? spOffset p); cbn [In]; [rewrite IH |]; intuition.
Qed.

Lemma insertSorted_sorted (p : OffsetStorePair) (l : list OffsetStorePair) :
  StronglySorted offsetLe l -> StronglySorted offsetLe (insertSorted p l).
Proof.
  induction 1 as [| q l Hs IH Hq]; cbn [insertSorted].
  - constructor; constructor.
  - destruct (Z.leb_spec (spOffset q) (spOffset p)) as [Hle | Hgt].
    + constructor; [exact IH |]. rewrite Forall_forall. intros x Hx.
      apply In_insertSorted in Hx. destruct Hx as [-> | Hx]; [exact Hle |].
      rewrite Forall_forall in Hq. apply Hq. exact Hx.
    + constructor; [constructor; assumption |].
      constructor; [unfold offsetLe; lia |].
      rewrite Forall_forall in *. intros x Hx. specialize (Hq x Hx).
      unfold offsetLe in *. lia.
Qed.

Lemma sortStores_fold (l acc : list OffsetStorePair) :
  StronglySorted offsetLe acc ->
  StronglySorted offsetLe (fold_left (fun a p => insertSorted p a) l acc) /\
  (forall x, In x (fold_left (fun a p => insertSorted p a) l acc) <->
             In x l \/ In x acc).
Proof.
  revert acc. induction l as [| p l IH]; intros acc Hacc; cbn [fold_left].
  - split; [exact Hacc | intros x; cbn; intuition].
  - destruct (IH (insertSorted p acc) (insertSorted_sorted p acc Hacc))
      as [Hs Hin].
    split; [exact Hs |]. intros x. rewrite Hin, In_insertSorted. cbn [In].
    intuition.
Qed.

Lemma sortStores_sorted (l : list OffsetStorePair) :
  StronglySorted offsetLe (sortStores l).
Proof. apply sortStores_fold. constructor. Qed.

Lemma In_sortStores (l : list OffsetStorePair) (x : OffsetStorePair) :
  In x (sortStores l) <-> In x l.
Proof.
  unfold sortStores.
  destruct (sortStores_fold l [] (SSorted_nil _)) as [_ H].
  rewrite H. cbn. intuition.
Qed.

(** On a sorted sequence, [upper_bound] finds the least offset above [V]. *)
Lemma upper_bound_sorted (l : list OffsetStorePair) (V : Z) :
  StronglySorted offsetLe l ->
  match upper_bound l V with
  | None => forall e, In e l -> spOffset e <= V
  | Some e0 => V < spOffset e0 /\
               forall e, In e l -> V < spOffset e -> spOffset e0 <= spOffset e
  end.
Proof.
  unfold upper_bound.
  induction 1 as [| q l Hs IH Hq]; cbn [find].
  - intros e [].
  - destruct (Z.ltb_spec V (spOffset q)) as [Hlt | Hge].
    + split; [exact Hlt |]. intros e [<- | He] _; [lia |].
      rewrite Forall_forall in Hq. apply (Hq e He).
    + destruct (find _ l) as [e0 |].
      * destruct IH as [H0 H1]. split; [exact H0 |].
        intros e [<- | He] Hlt; [lia | auto].
      * intros e [<- | He]; [lia | auto].
Qed.

Variable NDEBUG : bool.
Variable getTypeStoreSize : Ty -> Z.
Variable dominates : nat -> nat -> bool.

(** When the checks let a load through, one store is the sole and exact
    source of the loaded bytes. *)
Lemma forwardableStore_some (f : Function_) (c : Collected) (Offset : Z)
    (StoreInfo : IntervalData) (Load : Instruction) (s : nat) (val : Value) :
  forwardableStore NDEBUG getTypeStoreSize dominates f c
    (sortStores (SortedStores c)) Offset StoreInfo Load = Ok (Some (s, val)) ->
  s = value StoreInfo /\
  (exists front,
     getContaining (StoreIntervals c)
       (Offset + wrap32 (getTypeStoreSize (getType Load)) - 1) = [front] /\
     value front = s) /\
  (forall e, In e (SortedStores c) ->
             ~ (Offset < spOffset e < right StoreInfo)) /\
  (exists S, lookup f s = Some S /\
             exists ptr simple, getKind S = Store val ptr simple) /\
  valueType f val = Some (getType Load) /\
  dominates s (getId Load) = true.
Proof.
  unfold forwardableStore. intros H.
  destruct (assert NDEBUG _ _); cbn [bind] in H; try discriminate.
  destruct (getContaining (StoreIntervals c) _) as [| front [| ? ?]] eqn:Hr;
    try discriminate.
  destruct (Nat.eqb_spec (value front) (value StoreInfo)) as [Hv | Hv];
    cbn [negb] in H; [| discriminate].
  pose proof (upper_bound_sorted _ Offset (sortStores_sorted (SortedStores c)))
    as Hub.
  destruct (upper_bound (sortStores (SortedStores c)) Offset) as [e0 |] eqn:Hu.
  - destruct (Z.ltb_spec (spOffset e0) (right StoreInfo)) as [Hlt | Hge];
      [discriminate |].
    destruct (lookup f (value StoreInfo)) as [[sid sk sty] |] eqn:Hl;
      [| discriminate].
    destruct sk; try discriminate.
    destruct (valueType f val0) as [StoredTy |] eqn:Hty; [| discriminate].
    destruct (Ty_eqb (getType Load) StoredTy) eqn:Hteq; cbn [negb] in H;
      [| discriminate].
    destruct (dominates (value StoreInfo) (getId Load)) eqn:Hd; cbn [negb] in H;
      [| discriminate].
    inversion H; subst s val. apply Ty_eqb_eq in Hteq. subst StoredTy.
    split; [reflexivity |]. split; [eauto |]. split.
    + intros e He [H1 H2]. destruct Hub as [_ Hub].
      specialize (Hub e (proj2 (In_sortStores _ e) He) H1). lia.
    + split; [| auto]. eexists. split; [exact Hl |]. cbn. eauto.
  - cbn in H.
    destruct (lookup f (value StoreInfo)) as [[sid sk sty] |] eqn:Hl;
      [| discriminate].
    destruct sk; try discriminate.
    destruct (valueType f val0) as [StoredTy |] eqn:Hty; [| discriminate].
    destruct (Ty_eqb (getType Load) StoredTy) eqn:Hteq; cbn [negb] in H;
      [| discriminate].
    destruct (dominates (value StoreInfo) (getId Load)) eqn:Hd; cbn [negb] in H;
      [| discriminate].
    inversion H; subst s val. apply Ty_eqb_eq in Hteq. subst StoredTy.
    split; [reflexivity |]. split; [eauto |]. split.
    + intros e He [H1 H2].
      specialize (Hub e (proj2 (In_sortStores _ e) He)). lia.
    + split; [| auto]. eexists. split; [exact Hl |]. cbn. eauto.
Qed.

(** A load step that changes the function went through the checks. *)
Lemma forwardLoad_changed (f f' : Function_) (c : Collected) (Offset : Z)
    (StoreInfo : IntervalData) (LoadId : nat) :
  forwardLoad NDEBUG getTypeStoreSize dominates f c
    (sortStores (SortedStores c)) Offset StoreInfo LoadId = Ok f' ->
  f' <> f ->
  exists Load val,
    lookup f LoadId = Some Load /\
    forwardableStore NDEBUG getTypeStoreSize dominates f c
      (sortStores (SortedStores c)) Offset StoreInfo Load
    = Ok (Some (value StoreInfo, val)).
Proof.
  unfold forwardLoad. intros H Hne.
  destruct (lookup f LoadId) as [Load |] eqn:Hl; [| discriminate].
  destruct Load as [lid lk lty]. destruct lk; try discriminate.
  destruct (forwardableStore _ _ _ _ _ _ _ _ _) as [[[s val] |] | | | | |] eqn:Hs;
    cbn [bind] in H; try discriminate.
  - pose proof (forwardableStore_some _ _ _ _ _ _ _ Hs) as (-> & _).
    eexists. exists val. split; [reflexivity | exact Hs].
  - congruence.
Qed.

(** A group step that changes the function found a single store covering the
    first loaded byte and starting exactly there. *)
Lemma forwardGroup_changed (f f' : Function_) (c : Collected)
    (sorted : list OffsetStorePair) (Offset : Z) (Loads : list nat) :
  forwardGroup NDEBUG getTypeStoreSize dominates f c sorted (Offset, Loads)
    = Ok f' ->
  f' <> f ->
  exists StoreInfo,
    getContaining (StoreIntervals c) Offset = [StoreInfo] /\
    left StoreInfo = Offset /\
    forwardLoads NDEBUG getTypeStoreSize dominates f c sorted Offset StoreInfo
      Loads = Ok f'.
Proof.
  unfold forwardGroup. intros H Hne.
  destruct (assert NDEBUG _ _); cbn [bind] in H; try discriminate.
  destruct (getContaining (StoreIntervals c) Offset) as [| StoreInfo [| ? ?]];
    try congruence.
  destruct (Z.eqb_spec Offset (left StoreInfo)) as [E | E]; cbn [negb] in H;
    [| congruence].
  exists StoreInfo. auto.
Qed.

End DecisionFacts.


(* ===================================================================== *)
(** * The function after forwarding a set of loads *)
(* ===================================================================== *)

Section ApplyForwardingFacts.
Import IR Forward Spec.

Lemma operands_mapOperands (g : Value -> Value) (k : Instr) :
  operands (mapOperands g k) = map g (operands k).
Proof. destruct k; reflexivity. Qed.

Lemma mapOperands_compose (g h : Value -> Value) (k : Instr) :
  mapOperands g (mapOperands h k) = mapOperands (fun v => g (h v)) k.
Proof. destruct k; cbn [mapOperands]; rewrite ?map_map; reflexivity. Qed.

Lemma mapOperands_ext (g h : Value -> Value) (k : Instr) :
  (forall v, g v = h v) -> mapOperands g k = mapOperands h k.
Proof.
  intros E. destruct k; cbn [mapOperands]; rewrite ?E;
    rewrite ?(map_ext g h E); reflexivity.
Qed.

Lemma mapOperands_id (k : Instr) : mapOperands (fun v => v) k = k.
Proof. destruct k; cbn [mapOperands]; rewrite ?map_id; reflexivity. Qed.

Lemma memb_In (x : nat) (l : list nat) : memb x l = true <-> In x l.
Proof.
  unfold memb. rewrite existsb_exists. split.
  - intros (y & Hy & E). apply Nat.eqb_eq in E. subst. exact Hy.
  - intros H. exists x. split; [exact H | apply Nat.eqb_refl].
Qed.

Lemma memb_not_In (x : nat) (l : list nat) : memb x l = false <-> ~ In x l.
Proof.
  rewrite <- memb_In. destruct (memb x l); split; congruence.
Qed.

Lemma Value_eqb_VInst (a b : nat) : Value_eqb (VInst a) (VInst b) = Nat.eqb a b.
Proof.
  destruct (Nat.eqb_spec a b) as [-> | Hne].
  - apply Value_eqb_refl.
  - apply Value_eqb_neq. congruence.
Qed.

Lemma subst_substForwarded (D : list nat) (l : nat) (V v : Value) :
  subst (VInst l) V (substForwarded D V v) = substForwarded (l :: D) V v.
Proof.
  unfold subst. destruct v as [id | n | ty c]; cbn [substForwarded memb existsb].
  - fold (memb id D). destruct (memb id D).
    + rewrite orb_true_r. destruct (Value_eqb V (VInst l)); reflexivity.
    + rewrite orb_false_r, Value_eqb_VInst. reflexivity.
  - replace (Value_eqb (VArg n) (VInst l)) with false; [reflexivity |].
    symmetry. apply Value_eqb_neq. discriminate.
  - replace (Value_eqb (VConst ty c) (VInst l)) with false; [reflexivity |].
    symmetry. apply Value_eqb_neq. discriminate.
Qed.

Lemma substForwarded_nil (V v : Value) : substForwarded [] V v = v.
Proof. destruct v; reflexivity. Qed.

Lemma forwardInst_nil (V : Value) (i : Instruction) : forwardInst [] V i = i.
Proof.
  unfold forwardInst.
  rewrite (mapOperands_ext _ (fun v => v) _ (substForwarded_nil V)).
  rewrite mapOperands_id. destruct i; reflexivity.
Qed.

Lemma applyForwarding_nil (V : Value) (f : Function_) :
  applyForwarding [] [] V f = f.
Proof.
  unfold applyForwarding. cbn [memb existsb negb].
  rewrite (map_ext _ (fun i => i) (forwardInst_nil V)), map_id.
  rewrite filter_all. destruct f; reflexivity.
Qed.

Lemma getId_forwardInst (D : list nat) (V : Value) (i : Instruction) :
  getId (forwardInst D V i) = getId i.
Proof. reflexivity. Qed.

Lemma rauw_applyForwarding (D E : list nat) (V : Value) (f : Function_)
    (l : nat) :
  replaceAllUsesWith (applyForwarding D E V f) (VInst l) V
  = applyForwarding (l :: D) E V f.
Proof.
  unfold replaceAllUsesWith, applyForwarding. cbn [args body]. f_equal.
  induction (body f) as [| i b IH]; [reflexivity |].
  cbn [map filter]. rewrite !getId_forwardInst.
  destruct (memb (getId i) E); cbn [negb map].
  - exact IH.
  - rewrite IH. f_equal. unfold forwardInst. cbn [getId getKind getType].
    f_equal. rewrite mapOperands_compose. apply mapOperands_ext.
    intros v. apply subst_substForwarded.
Qed.

Lemma erase_applyForwarding (D E : list nat) (V : Value) (f : Function_)
    (x : nat) :
  eraseFromParent (applyForwarding D E V f) x = applyForwarding D (x :: E) V f.
Proof.
  unfold eraseFromParent, applyForwarding. cbn [args body]. f_equal.
  induction (map (forwardInst D V) (body f)) as [| i b IH]; [reflexivity |].
  cbn [filter memb existsb]. fold (memb (getId i) E).
  destruct (memb (getId i) E); cbn [negb].
  - rewrite orb_true_r. cbn [negb]. exact IH.
  - rewrite orb_false_r. cbn [filter]. rewrite IH.
    destruct (Nat.eqb (getId i) x); reflexivity.
Qed.

Lemma lookup_applyForwarding (D E : list nat) (V : Value) (f : Function_)
    (id : nat) :
  lookup (applyForwarding D E V f) id =
  if memb id E then None else option_map (forwardInst D V) (lookup f id).
Proof.
  unfold lookup, applyForwarding. cbn [body].
  induction (body f) as [| i b IH]; cbn [map filter find].
  - destruct (memb id E); reflexivity.
  - rewrite getId_forwardInst.
    destruct (Nat.eqb_spec (getId i) id) as [<- | Hne].
    + destruct (memb (getId i) E) eqn:Hm; cbn [negb].
      * rewrite IH. reflexivity.
      * cbn [find]. rewrite getId_forwardInst, Nat.eqb_refl. reflexivity.
    + destruct (memb (getId i) E); cbn [negb]; [exact IH |].
      cbn [find]. rewrite getId_forwardInst.
      destruct (Nat.eqb_spec (getId i) id); [contradiction | exact IH].
Qed.

Lemma valueType_applyForwarding (D E : list nat) (V : Value) (f : Function_)
    (v : Value) :
  valueType (applyForwarding D E V f) v =
  match v with
  | VInst id => if memb id E then None else valueType f v
  | _ => valueType f v
  end.
Proof.
  destruct v as [id | n | ty c]; cbn [valueType]; try reflexivity.
  rewrite lookup_applyForwarding. destruct (memb id E); [reflexivity |].
  destruct (lookup f id); reflexivity.
Qed.

Lemma In_applyForwarding (D E : list nat) (V : Value) (f : Function_)
    (i' : Instruction) :
  In i' (body (applyForwarding D E V f)) <->
  exists i, In i (body f) /\ memb (getId i) E = false /\ i' = forwardInst D V i.
Proof.
  unfold applyForwarding. cbn [body]. rewrite filter_In, in_map_iff. split.
  - intros ((i & <- & Hi) & Hm). exists i. rewrite getId_forwardInst in Hm.
    apply negb_true_iff in Hm. auto.
  - intros (i & Hi & Hm & ->). split; [eauto |].
    rewrite getId_forwardInst, Hm. reflexivity.
Qed.

Lemma uses_applyForwarding_In (D E : list nat) (V : Value) (f : Function_)
    (v : Value) (u : Use) :
  In u (uses (applyForwarding D E V f) v) ->
  exists i v0,
    In i (body f) /\ memb (getId i) E = false /\ getUser u = getId i /\
    In v0 (operands (getKind i)) /\ substForwarded D V v0 = v.
Proof.
  intros H. apply uses_In in H. destruct H as (i' & Hi' & Hid & _ & Hop).
  apply In_applyForwarding in Hi'. destruct Hi' as (i & Hi & Hm & ->).
  cbn [forwardInst getId getKind] in *. rewrite operands_mapOperands in Hop.
  apply in_map_iff in Hop. destruct Hop as (v0 & Hv0 & Hin).
  exists i, v0. auto.
Qed.

Lemma uses_applyForwarding_nonempty (D E : list nat) (V : Value)
    (f : Function_) (i : Instruction) (v0 : Value) :
  In i (body f) -> memb (getId i) E = false -> In v0 (operands (getKind i)) ->
  uses (applyForwarding D E V f) (substForwarded D V v0) <> [].
Proof.
  intros Hi Hm Hop.
  destruct (In_uses (applyForwarding D E V f) (substForwarded D V v0)
              (forwardInst D V i)) as (u & Hu & _).
  - apply In_applyForwarding. exists i. auto.
  - cbn [forwardInst getKind]. rewrite operands_mapOperands.
    apply in_map. exact Hop.
  - intros E0. rewrite E0 in Hu. contradiction.
Qed.

Lemma substForwarded_other (D : list nat) (V v : Value) :
  (forall j, v = VInst j -> memb j D = false) -> substForwarded D V v = v.
Proof.
  intros H. destruct v as [j | |]; try reflexivity.
  cbn [substForwarded]. rewrite (H j eq_refl). reflexivity.
Qed.

Lemma valueType_applyForwarding_kept (D E : list nat) (V : Value)
    (f : Function_) (v : Value) :
  (forall j, v = VInst j -> memb j E = false) ->
  valueType (applyForwarding D E V f) v = valueType f v.
Proof.
  intros H. rewrite valueType_applyForwarding.
  destruct v as [j | |]; try reflexivity. rewrite (H j eq_refl). reflexivity.
Qed.

Lemma NoDup_app_disjoint {A : Type} (l l' : list A) :
  NoDup (l ++ l') -> forall x, In x l -> ~ In x l'.
Proof.
  induction l as [| a l IH]; cbn [app]; intros H x Hx; [contradiction |].
  apply NoDup_cons_iff in H. destruct H as [Ha Hnd].
  destruct Hx as [<- | Hx].
  - intros Hx'. apply Ha. apply in_or_app. right. exact Hx'.
  - apply IH; assumption.
Qed.

End ApplyForwardingFacts.

(* ===================================================================== *)
(** * What the use walk collects *)
(* ===================================================================== *)

Section WalkCompleteness.
Import IR Forward Spec ForwardConditions.

Variable NDEBUG : bool.
Variable getTypeStoreSize : Ty -> Z.
Variable f : Function_.
Variable FramePtr : Value.
Hypothesis Hunique : uniqueIds f.

Let visitUse := Forward.visitUse NDEBUG getTypeStoreSize f.
Let walk := fun fuel => Forward.walk NDEBUG getTypeStoreSize fuel f.

(** The user of a use that occurs in [f]. *)
Lemma isUse_user (pu : PointerUse) (U : Instruction) :
  isUse f pu -> In U (body f) -> getId U = getUser (Ptr pu) ->
  In (get (Ptr pu)) (operands (getKind U)).
Proof.
  intros Hu HU Hid. unfold isUse in Hu. apply uses_In in Hu.
  destruct Hu as (i & Hi & Hid' & _ & Hop).
  assert (i = U) by (apply (unique_by_id f Hunique); congruence).
  subst i. exact Hop.
Qed.

(** What is reachable from a work list whose entries are entries or children
    of entries of another work list is reachable from that one. *)
Lemma ReachUse_from_children (wl1 wl2 : list PointerUse) :
  (forall x, In x wl2 -> isUse f x) ->
  (forall x, In x wl2 ->
     In x wl1 \/
     exists pu U0 delta,
       In pu wl1 /\ In U0 (body f) /\ getId U0 = getUser (Ptr pu) /\
       passThrough (getKind U0) = Some delta /\
       In x (pushUses (uses f (VInst (getId U0))) (delta + Offset pu) [])) ->
  forall p off U, ReachUse f wl2 p off U -> ReachUse f wl1 p off U.
Proof.
  intros Huse Hsub p off U H.
  induction H as [x U HIn HU Hid | p off delta U U' H IH Hp HU' Hop].
  - destruct (Hsub x HIn) as [H1 | (pu & U0 & delta & Hpu & HU0 & Hid0 & Hp & Hx)].
    + apply ReachUse_entry; assumption.
    + destruct (children_isUse f _ _ _ Hx) as (_ & Hget & Hoff).
      rewrite Hget, Hoff. eapply ReachUse_step.
      * apply (ReachUse_entry f wl1 pu U0); assumption.
      * exact Hp.
      * exact HU.
      * rewrite <- Hget. apply isUse_user; [apply Huse; exact HIn | exact HU | exact Hid].
  - eapply ReachUse_step; eauto.
Qed.

Lemma ReachUse_weaken (pu : PointerUse) (wl : list PointerUse) (p : Value)
    (off : Z) (U : Instruction) :
  ReachUse f wl p off U -> ReachUse f (pu :: wl) p off U.
Proof.
  intros H.
  induction H as [x U HIn HU Hid | p off delta U U' H IH Hp HU' Hop].
  - apply ReachUse_entry; [right; exact HIn | exact HU | exact Hid].
  - eapply ReachUse_step; eauto.
Qed.

(** When the walk gives up, it does so at a use it reached. *)
Lemma walk_gives_up_reason :
  forall fuel wl c,
    (forall pu, In pu wl -> isUse f pu) ->
    walk fuel wl c = Ok GiveUp ->
    exists p off U,
      ReachUse f wl p off U /\ abortsWalk (getKind U) p = true.
Proof.
  induction fuel as [| fuel IH]; intros wl c Hwl Hw.
  - destruct wl; discriminate.
  - destruct wl as [| pu wl]; [discriminate |].
    unfold walk in Hw. cbn [Forward.walk] in Hw. fold visitUse in Hw.
    assert (Hwl' : forall x, In x wl -> isUse f x)
      by (intros; apply Hwl; right; assumption).
    destruct (visitUse_spec NDEBUG getTypeStoreSize f Hunique pu
                (Hwl pu (or_introl eq_refl)))
      as (U0 & HU0 & Hid0 & Hop0 & Hcases).
    fold visitUse in Hcases.
    destruct Hcases as [[Hab Hv] | [(Hna & delta & Hp & Hv)
                       | [(Hna & Hnp & ptr & _ & _ & Hv)
                       | (Hna & Hnp & val & ptr & Hk & _ & [(ty & _ & Hv) | (_ & Hv)])]]];
      rewrite Hv in Hw; cbn [bind] in Hw; try discriminate.
    + exists (get (Ptr pu)), (Offset pu), U0. split; [| exact Hab].
      apply ReachUse_entry; [left; reflexivity | exact HU0 | exact Hid0].
    + rewrite pushUses_app in Hw.
      assert (Hch : forall x,
                In x (pushUses (uses f (VInst (getId U0))) (delta + Offset pu) []
                      ++ wl) -> isUse f x).
      { intros x Hx. apply in_app_or in Hx. destruct Hx as [Hx | Hx];
          [exact (proj1 (children_isUse f _ _ _ Hx)) | exact (Hwl' x Hx)]. }
      destruct (IH _ c Hch Hw) as (p & off & U & HR & Hab).
      exists p, off, U. split; [| exact Hab].
      apply (ReachUse_from_children (pu :: wl)
               (pushUses (uses f (VInst (getId U0))) (delta + Offset pu) [] ++ wl));
        [exact Hch | | exact HR].
      * intros x Hx. apply in_app_or in Hx. destruct Hx as [Hx | Hx].
        -- right. exists pu, U0, delta. repeat split; auto. left. reflexivity.
        -- left. right. exact Hx.
    + destruct (IH _ _ Hwl' Hw) as (p & off & U & HR & Hab).
      exists p, off, U. split; [apply ReachUse_weaken; exact HR | exact Hab].
    + destruct (IH _ _ Hwl' Hw) as (p & off & U & HR & Hab).
      exists p, off, U. split; [apply ReachUse_weaken; exact HR | exact Hab].
Qed.

(** What the walk reaches from uses of derived pointers are uses of derived
    pointers. *)
Lemma ReachUse_Derived (wl : list PointerUse) :
  (forall pu, In pu wl ->
     isUse f pu /\ Derived f FramePtr (get (Ptr pu)) (Offset pu)) ->
  forall p off U,
    ReachUse f wl p off U ->
    Derived f FramePtr p off /\ In U (body f) /\ In p (operands (getKind U)).
Proof.
  intros Hwl p off U H.
  induction H as [x U HIn HU Hid | p off delta U U' H IH Hp HU' Hop].
  - destruct (Hwl x HIn) as [Hu HD]. split; [exact HD |]. split; [exact HU |].
    apply isUse_user; assumption.
  - destruct IH as (HD & HU & Hop0). split; [| auto].
    eapply Derived_step; eauto.
Qed.

Lemma initial_worklist (pu : PointerUse) :
  In pu (pushUses (uses f FramePtr) 0 []) ->
  isUse f pu /\ Derived f FramePtr (get (Ptr pu)) (Offset pu).
Proof.
  intros Hpu. destruct (children_isUse f _ _ _ Hpu) as (H1 & H2 & H3).
  split; [exact H1 | rewrite H2, H3; apply Derived_frame].
Qed.

(** [recorded c off U]: the collection holds the load or store [U] at offset
    [off]. *)
Let recorded (c : Collected) (off : Z) (U : Instruction) : Prop :=
  match getKind U with
  | Load _ _ => exists ls, In (off, ls) (OffsetLoadMap c) /\ In (getId U) ls
  | Store val _ _ =>
      exists iv ty,
        In iv (StoreIntervals c) /\ left iv = off /\ value iv = getId U /\
        valueType f val = Some ty /\
        right iv = off + wrap32 (getTypeStoreSize ty) - 1
  | _ => True
  end.

Lemma pushLoad_keeps (m : list (Z * list nat)) (off : Z) (l : nat) (o : Z)
    (ls : list nat) (x : nat) :
  In (o, ls) m -> In x ls ->
  exists ls', In (o, ls') (pushLoad m off l) /\ In x ls'.
Proof.
  induction m as [| [o' ls'] m IH]; intros Hin Hx; [contradiction |].
  cbn [pushLoad]. destruct Hin as [Hin | Hin].
  - injection Hin as -> ->. destruct (Z.eqb_spec o off) as [-> | Hne].
    + exists (ls ++ [l]). split; [left; reflexivity | apply in_or_app; auto].
    + exists ls. split; [left; reflexivity | exact Hx].
  - destruct (o' =? off).
    + exists ls. split; [right; exact Hin | exact Hx].
    + destruct (IH Hin Hx) as (ls2 & H1 & H2). exists ls2.
      split; [right; exact H1 | exact H2].
Qed.

Lemma pushLoad_adds (m : list (Z * list nat)) (off : Z) (l : nat) :
  exists ls, In (off, ls) (pushLoad m off l) /\ In l ls.
Proof.
  induction m as [| [o' ls'] m IH]; cbn [pushLoad].
  - exists [l]. split; left; reflexivity.
  - destruct (Z.eqb_spec o' off) as [-> | Hne].
    + exists (ls' ++ [l]). split; [left; reflexivity |].
      apply in_or_app. right. left. reflexivity.
    + destruct IH as (ls & H1 & H2). exists ls. split; [right; exact H1 | exact H2].
Qed.

Lemma recorded_withLoad (c : Collected) (off : Z) (U : Instruction) (o : Z)
    (l : nat) :
  recorded c off U -> recorded (withLoad c o l) off U.
Proof.
  unfold recorded. destruct (getKind U); auto.
  intros (ls & H1 & H2). cbn [withLoad OffsetLoadMap].
  exact (pushLoad_keeps _ _ _ _ _ _ H1 H2).
Qed.

Lemma recorded_withStore (c : Collected) (off : Z) (U : Instruction) (o : Z)
    (ty : Ty) (s : nat) :
  recorded c off U -> recorded (withStore getTypeStoreSize c o ty s) off U.
Proof.
  unfold recorded. destruct (getKind U); auto.
  intros (iv & ty' & H1 & H2). exists iv, ty'. split; [| exact H2].
  cbn [withStore StoreIntervals]. apply in_or_app. left. exact H1.
Qed.

(** A finished walk has recorded every load and store it could reach, and
    kept what was recorded before. *)
Lemma walk_complete :
  forall fuel wl c c',
    (forall pu, In pu wl -> isUse f pu) ->
    walk fuel wl c = Ok (Finished c') ->
    (forall p off U, ReachUse f wl p off U -> recorded c' off U) /\
    (forall off U, recorded c off U -> recorded c' off U).
Proof.
  induction fuel as [| fuel IH]; intros wl c c' Hwl Hw.
  - destruct wl as [| pu wl]; [| discriminate]. cbn in Hw.
    injection Hw as <-. split; [| auto].
    intros p off U HR. exfalso. eapply ReachUse_nil; eauto.
  - destruct wl as [| pu wl].
    { cbn in Hw. injection Hw as <-. split; [| auto].
      intros p off U HR. exfalso. eapply ReachUse_nil; eauto. }
    unfold walk in Hw. cbn [Forward.walk] in Hw. fold visitUse in Hw.
    assert (Hwl' : forall x, In x wl -> isUse f x)
      by (intros; apply Hwl; right; assumption).
    destruct (visitUse_spec NDEBUG getTypeStoreSize f Hunique pu
                (Hwl pu (or_introl eq_refl)))
      as (U0 & HU0 & Hid0 & Hop0 & Hcases).
    fold visitUse in Hcases.
    assert (Hsame : forall U, In U (body f) -> getId U = getUser (Ptr pu) ->
                              U = U0)
      by (intros U HU HidU; apply (unique_by_id f Hunique); congruence).
    destruct Hcases as [[_ Hv] | [(Hna & delta & Hp & Hv)
                       | [(Hna & Hnp & ptr & Hk & _ & Hv)
                       | (Hna & Hnp & val & ptr & Hk & _ & [(ty & Hty & Hv) | (_ & Hv)])]]];
      rewrite Hv in Hw; cbn [bind] in Hw; try discriminate.
    + (* pass-through *)
      rewrite pushUses_app in Hw.
      assert (Hch : forall x,
                In x (pushUses (uses f (VInst (getId U0))) (delta + Offset pu) []
                      ++ wl) -> isUse f x).
      { intros x Hx. apply in_app_or in Hx. destruct Hx as [Hx | Hx];
          [exact (proj1 (children_isUse f _ _ _ Hx)) | exact (Hwl' x Hx)]. }
      destruct (IH _ c c' Hch Hw) as [Hreach Hmono].
      split; [| exact Hmono].
      intros p off U HR.
      destruct (ReachUse_cons f pu wl
                  (pushUses (uses f (VInst (getId U0))) (delta + Offset pu) [] ++ wl)
                  ltac:(intros; apply in_or_app; right; assumption)
                  ltac:(intros U1 d x HU1 Hid1 Hp1 Hx;
                        rewrite (Hsame U1 HU1 Hid1) in *;
                        assert (d = delta) by congruence; subst d;
                        apply in_or_app; left; exact Hx)
                  p off U HR) as [(HidU & -> & ->) | HR'].
      * assert (U = U0).
        { apply Hsame; [| exact HidU]. clear - HR. induction HR; auto. }
        subst U. unfold recorded.
        destruct (getKind U0); cbn in Hp; try discriminate; exact I.
      * exact (Hreach p off U HR').
    + (* load *)
      destruct (IH _ _ c' Hwl' Hw) as [Hreach Hmono].
      split.
      * intros p off U HR.
        destruct (ReachUse_cons f pu wl wl ltac:(auto)
                    ltac:(intros U1 d x HU1 Hid1 Hp1 Hx;
                          rewrite (Hsame U1 HU1 Hid1) in *; congruence)
                    p off U HR) as [(HidU & -> & ->) | HR'].
        -- assert (U = U0).
           { apply Hsame; [| exact HidU]. clear - HR. induction HR; auto. }
           subst U. apply Hmono. unfold recorded. rewrite Hk.
           cbn [withLoad OffsetLoadMap]. apply pushLoad_adds.
        -- exact (Hreach p off U HR').
      * intros off U HR. apply Hmono. apply recorded_withLoad. exact HR.
    + (* store *)
      destruct (IH _ _ c' Hwl' Hw) as [Hreach Hmono].
      split.
      * intros p off U HR.
        destruct (ReachUse_cons f pu wl wl ltac:(auto)
                    ltac:(intros U1 d x HU1 Hid1 Hp1 Hx;
                          rewrite (Hsame U1 HU1 Hid1) in *; congruence)
                    p off U HR) as [(HidU & -> & ->) | HR'].
        -- assert (U = U0).
           { apply Hsame; [| exact HidU]. clear - HR. induction HR; auto. }
           subst U. apply Hmono. unfold recorded. rewrite Hk.
           eexists. exists ty. cbn [withStore StoreIntervals].
           split; [apply in_or_app; right; left; reflexivity |].
           cbn [left right value]. auto.
        -- exact (Hreach p off U HR').
      * intros off U HR. apply Hmono. apply recorded_withStore. exact HR.
Qed.

End WalkCompleteness.

Section UseFacts.
Import IR Spec ForwardConditions.

Lemma usesFrom_pos (user : nat) (v : Value) (ops : list Value) :
  forall n u,
    In u (usesFrom user v n ops) ->
    exists k, getOperandNo u = (n + k)%nat /\ nth_error ops k = Some v /\
              getUser u = user /\ get u = v.
Proof.
  induction ops as [| o ops IH]; intros n u H; cbn [usesFrom] in H;
    [contradiction |].
  apply in_app_or in H. destruct H as [H | H].
  - destruct (Value_eqb o v) eqn:E; [| contradiction].
    apply Value_eqb_eq in E. destruct H as [<- | []]. exists 0%nat. cbn.
    rewrite Nat.add_0_r, E. auto.
  - destruct (IH _ _ H) as (k & Hk & Hn & Hu & Hg). exists (S k). cbn.
    rewrite Hk, Nat.add_succ_r. auto.
Qed.

Lemma NoDup_usesFrom (user : nat) (v : Value) (ops : list Value) :
  forall n, NoDup (usesFrom user v n ops).
Proof.
  induction ops as [| o ops IH]; intros n; cbn [usesFrom]; [constructor |].
  destruct (Value_eqb o v); cbn [app]; [| apply IH].
  constructor; [| apply IH].
  intros H. apply usesFrom_pos in H. destruct H as (k & Hk & _). cbn in Hk. lia.
Qed.

Lemma NoDup_uses (f : Function_) (v : Value) :
  uniqueIds f -> NoDup (uses f v).
Proof.
  unfold uniqueIds, uses. induction (body f) as [| i l IH]; intros Hnd;
    cbn [flat_map map] in *; [constructor |].
  inversion Hnd as [| ? ? Hi Hl]; subst.
  apply NoDup_app; [apply NoDup_usesFrom | apply IH; exact Hl |].
  intros u Hu Hu'. apply usesFrom_pos in Hu. destruct Hu as (_ & _ & _ & Hid & _).
  apply in_flat_map in Hu'. destruct Hu' as (j & Hj & Hu').
  apply usesFrom_pos in Hu'. destruct Hu' as (_ & _ & _ & Hid' & _).
  apply Hi. rewrite <- Hid, Hid'. apply in_map. exact Hj.
Qed.

Lemma uses_pos (f : Function_) (v : Value) (u : Use) :
  In u (uses f v) ->
  exists i, In i (body f) /\ getUser u = getId i /\ get u = v /\
            nth_error (operands (getKind i)) (getOperandNo u) = Some v.
Proof.
  unfold uses. intros H. apply in_flat_map in H. destruct H as (i & Hi & Hu).
  apply usesFrom_pos in Hu. destruct Hu as (k & Hk & Hn & Hid & Hg).
  exists i. cbn in Hk. subst k. auto.
Qed.

Lemma derived_from_instruction (f : Function_) (x0 : nat) (q : Value) (o : Z) :
  definedBeforeUse f ->
  Derived f (VInst x0) q o -> exists x, q = VInst x /\ (x0 <= x)%nat.
Proof.
  intros Hnumbered. induction 1 as [| p off delta U HD IH HU Hop Hp].
  - exists x0. auto.
  - destruct IH as (x & -> & Hx). exists (getId U). split; [reflexivity |].
    pose proof (Hnumbered U x HU (passThrough_not_other _ _ Hp) Hop). lia.
Qed.

End UseFacts.

Section WalkUniqueness.
Import IR Forward Spec ForwardConditions.

Variable NDEBUG : bool.
Variable getTypeStoreSize : Ty -> Z.
Variable f : Function_.
Variable FramePtr : Value.
Hypothesis Hunique : uniqueIds f.
Hypothesis Hnumbered : definedBeforeUse f.
Hypothesis HnoAbort : neverGivesUp f FramePtr.
Hypothesis Hindices : indicesAreNoFramePointers f FramePtr.

Let visitUse := Forward.visitUse NDEBUG getTypeStoreSize f.
Let walk := fun fuel => Forward.walk NDEBUG getTypeStoreSize fuel f.

(** An instruction uses a pointer derived from the frame pointer in one
    operand only. *)
Lemma derived_use_unique (u1 u2 : Use) (o1 o2 : Z) :
  In u1 (uses f (get u1)) -> In u2 (uses f (get u2)) ->
  getUser u1 = getUser u2 ->
  Derived f FramePtr (get u1) o1 -> Derived f FramePtr (get u2) o2 ->
  u1 = u2.
Proof.
  intros H1 H2 Hid HD1 HD2.
  apply uses_pos in H1. destruct H1 as (i1 & Hi1 & Hu1 & _ & Hn1).
  apply uses_pos in H2. destruct H2 as (i2 & Hi2 & Hu2 & _ & Hn2).
  assert (i2 = i1) by (apply (unique_by_id f Hunique); congruence). subst i2.
  pose proof (HnoAbort _ _ _ HD1 Hi1 (nth_error_In _ _ Hn1)) as A1.
  pose proof (HnoAbort _ _ _ HD2 Hi1 (nth_error_In _ _ Hn2)) as A2.
  assert (E : getOperandNo u1 = getOperandNo u2 /\ get u1 = get u2).
  { destruct (getKind i1) as
      [lt cargs | ptr simple | val ptr simple | a b | a b | v | v | v | v
       | ptr idx [off |] | cnd a b | opc ops] eqn:Hk;
      cbn [abortsWalk] in A1, A2; try discriminate; cbn [operands] in Hn1, Hn2.
    - destruct (getOperandNo u1) as [| [| k1]], (getOperandNo u2) as [| [| k2]];
        cbn in Hn1, Hn2; try discriminate; split; congruence.
    - apply orb_false_iff in A1. destruct A1 as [_ A1].
      apply orb_false_iff in A2. destruct A2 as [_ A2].
      apply Value_eqb_neq in A1. apply Value_eqb_neq in A2.
      destruct (getOperandNo u1) as [| [| [| k1]]],
               (getOperandNo u2) as [| [| [| k2]]];
        cbn in Hn1, Hn2; try discriminate; try congruence; split; congruence.
    - destruct (getOperandNo u1) as [| [| k1]], (getOperandNo u2) as [| [| k2]];
        cbn in Hn1, Hn2; try discriminate; split; congruence.
    - destruct (getOperandNo u1) as [| [| k1]], (getOperandNo u2) as [| [| k2]];
        cbn in Hn1, Hn2; try discriminate; split; congruence.
    - destruct (getOperandNo u1) as [| k1].
      + destruct (getOperandNo u2) as [| k2].
        * cbn in Hn1, Hn2. split; congruence.
        * exfalso. cbn in Hn2.
          exact (Hindices _ _ _ _ _ _ Hi1 Hk (nth_error_In _ _ Hn2) HD2).
      + exfalso. cbn in Hn1.
        exact (Hindices _ _ _ _ _ _ Hi1 Hk (nth_error_In _ _ Hn1) HD1). }
  destruct u1, u2. cbn in *. destruct E. congruence.
Qed.

Lemma allLoads_pushLoad (m : list (Z * list nat)) (off : Z) (l : nat) :
  Permutation (List.concat (map snd (pushLoad m off l)))
              (l :: List.concat (map snd m)).
Proof.
  induction m as [| [o ls] m IH]; cbn [pushLoad].
  - cbn. constructor. constructor.
  - destruct (o =? off); cbn [map snd List.concat].
    + rewrite <- app_assoc. cbn [app]. symmetry. apply Permutation_middle.
    + rewrite IH. symmetry. apply Permutation_middle.
Qed.

(** The bookkeeping of the walk: [Vis] are the uses visited so far. *)
Let InvW (wl : list PointerUse) (c : Collected) (Vis : list Use) : Prop :=
  (forall pu, In pu wl ->
     isUse f pu /\ Derived f FramePtr (get (Ptr pu)) (Offset pu)) /\
  NoDup (map Ptr wl ++ Vis) /\
  (forall u, In u (map Ptr wl ++ Vis) ->
     get u = FramePtr \/
     exists u' U',
       In u' Vis /\ In U' (body f) /\ getId U' = getUser u' /\
       passThrough (getKind U') <> None /\ get u = VInst (getId U')) /\
  (forall u, In u Vis ->
     In u (uses f (get u)) /\ exists o, Derived f FramePtr (get u) o) /\
  NoDup (allLoads c) /\
  (forall l, In l (allLoads c) -> exists u, In u Vis /\ getUser u = l) /\
  NoDup (map value (StoreIntervals c)) /\
  (forall iv, In iv (StoreIntervals c) ->
     exists u, In u Vis /\ getUser u = value iv).

Lemma map_Ptr_pushUses (us : list Use) (off : Z) :
  map Ptr (pushUses us off []) = rev us.
Proof.
  unfold pushUses. rewrite app_nil_r, map_rev, map_map. cbn [Ptr].
  rewrite map_id. reflexivity.
Qed.

Lemma walk_unique :
  forall fuel wl c c' Vis,
    InvW wl c Vis ->
    walk fuel wl c = Ok (Finished c') ->
    NoDup (allLoads c') /\ NoDup (map value (StoreIntervals c')).
Proof.
  induction fuel as [| fuel IH]; intros wl c c' Vis HI Hw.
  - destruct wl; [| discriminate]. cbn in Hw. injection Hw as <-.
    destruct HI as (_ & _ & _ & _ & H1 & _ & H2 & _). auto.
  - destruct wl as [| pu wl].
    { cbn in Hw. injection Hw as <-.
      destruct HI as (_ & _ & _ & _ & H1 & _ & H2 & _). auto. }
    unfold walk in Hw. cbn [Forward.walk] in Hw. fold visitUse in Hw.
    destruct HI as (Hwl & Hnd & Hpar & Hvis & HndL & HownL & HndS & HownS).
    destruct (Hwl pu (or_introl eq_refl)) as [Huse HD].
    assert (Hwl' : forall x, In x wl ->
              isUse f x /\ Derived f FramePtr (get (Ptr x)) (Offset x))
      by (intros; apply Hwl; right; assumption).
    cbn [map app] in Hnd, Hpar.
    assert (Hpu : ~ In (Ptr pu) Vis).
    { inversion Hnd as [| ? ? Hn _]; subst. intros Hin. apply Hn.
      apply in_or_app. right. exact Hin. }
    assert (Hnd' : NoDup (map Ptr wl ++ Ptr pu :: Vis))
      by (exact (Permutation_NoDup (Permutation_middle _ _ _) Hnd)).
    assert (Hpar' : forall u, In u (map Ptr wl ++ Ptr pu :: Vis) ->
              get u = FramePtr \/
              exists u' U',
                In u' (Ptr pu :: Vis) /\ In U' (body f) /\
                getId U' = getUser u' /\
                passThrough (getKind U') <> None /\ get u = VInst (getId U')).
    { intros u Hu.
      assert (Hu' : In u (Ptr pu :: map Ptr wl ++ Vis)).
      { apply in_app_or in Hu. destruct Hu as [Hu | [Hu | Hu]].
        - right. apply in_or_app. left. exact Hu.
        - left. exact Hu.
        - right. apply in_or_app. right. exact Hu. }
      destruct (Hpar u Hu') as [Hf | (u' & U' & H1 & H2)]; [left; exact Hf |].
      right. exists u', U'. split; [right; exact H1 | exact H2]. }
    assert (Hvis' : forall u, In u (Ptr pu :: Vis) ->
              In u (uses f (get u)) /\ exists o, Derived f FramePtr (get u) o).
    { intros u [<- | Hu]; [| exact (Hvis u Hu)].
      split; [exact Huse | eauto]. }
    assert (Hfresh : forall u, In u Vis -> getUser u <> getUser (Ptr pu)).
    { intros u Hu E. destruct (Hvis u Hu) as (Hu1 & o & Ho).
      assert (u = Ptr pu) by (eapply derived_use_unique; eauto).
      subst u. contradiction. }
    destruct (visitUse_spec NDEBUG getTypeStoreSize f Hunique pu Huse)
      as (U0 & HU0 & Hid0 & Hop0 & Hcases).
    fold visitUse in Hcases.
    destruct Hcases as [[_ Hv] | [(Hna & delta & Hp & Hv)
                       | [(Hna & Hnp & ptr & Hk & _ & Hv)
                       | (Hna & Hnp & val & ptr & Hk & _ & [(ty & Hty & Hv) | (_ & Hv)])]]];
      rewrite Hv in Hw; cbn [bind] in Hw; try discriminate.
    + (* pass-through *)
      rewrite pushUses_app in Hw.
      refine (IH _ c c' (Ptr pu :: Vis) _ Hw).
      assert (Hchild : forall u, In u (uses f (VInst (getId U0))) ->
                ~ In u (map Ptr wl ++ Ptr pu :: Vis)).
      { intros u Hu Hin.
        assert (Hg : get u = VInst (getId U0)).
        { apply uses_In in Hu. destruct Hu as (i & _ & _ & Hg & _). exact Hg. }
        assert (Hin' : In u (Ptr pu :: map Ptr wl ++ Vis)).
        { apply in_app_or in Hin. destruct Hin as [Hin | [Hin | Hin]].
          - right. apply in_or_app. left. exact Hin.
          - left. exact Hin.
          - right. apply in_or_app. right. exact Hin. }
        destruct (Hpar u Hin') as [Hf | (u' & U' & Hu' & HU' & Hid' & _ & Hg')].
        - rewrite Hg in Hf. rewrite <- Hf in HD.
          destruct (derived_from_instruction f _ _ _ Hnumbered HD)
            as (x & Hx & Hle).
          rewrite Hx in Hop0.
          pose proof (Hnumbered U0 x HU0 (passThrough_not_other _ _ Hp) Hop0).
          lia.
        - rewrite Hg in Hg'. injection Hg' as Hg'.
          apply (Hfresh u' Hu'). congruence. }
      split; [| split; [| split; [| split; [| auto]]]].
      * intros x Hx. apply in_app_or in Hx. destruct Hx as [Hx | Hx].
        -- destruct (children_isUse f _ _ _ Hx) as (Hxu & Hxg & Hxo).
           split; [exact Hxu |]. rewrite Hxg, Hxo.
           eapply Derived_step; eauto.
        -- apply Hwl'. exact Hx.
      * rewrite map_app, map_Ptr_pushUses, <- app_assoc.
        apply NoDup_app; [apply NoDup_rev, NoDup_uses; exact Hunique
                         | exact Hnd' |].
        intros u Hu. apply in_rev in Hu. apply Hchild. exact Hu.
      * intros u Hu. rewrite map_app, map_Ptr_pushUses, <- app_assoc in Hu.
        apply in_app_or in Hu. destruct Hu as [Hu | Hu]; [| apply Hpar'; exact Hu].
        apply in_rev in Hu. right. exists (Ptr pu), U0.
        split; [left; reflexivity |]. split; [exact HU0 |].
        split; [exact Hid0 |]. split; [congruence |].
        apply uses_In in Hu. destruct Hu as (i & _ & _ & Hg & _). exact Hg.
      * exact Hvis'.
      * split; [exact HndL |]. split.
        -- intros l Hl. destruct (HownL l Hl) as (u & Hu & E).
           exists u. split; [right; exact Hu | exact E].
        -- split; [exact HndS |]. intros iv Hiv.
           destruct (HownS iv Hiv) as (u & Hu & E).
           exists u. split; [right; exact Hu | exact E].
    + (* load *)
      refine (IH _ _ c' (Ptr pu :: Vis) _ Hw).
      assert (HP : Permutation (allLoads (withLoad c (Offset pu) (getId U0)))
                     (getId U0 :: allLoads c))
        by (apply allLoads_pushLoad).
      split; [exact Hwl' |]. split; [exact Hnd' |]. split; [exact Hpar' |].
      split; [exact Hvis' |]. split; [| split; [| split]].
      * apply (Permutation_NoDup (Permutation_sym HP)).
        constructor; [| exact HndL].
        intros Hl. destruct (HownL _ Hl) as (u & Hu & E).
        apply (Hfresh u Hu). congruence.
      * intros l Hl. apply (Permutation_in _ HP) in Hl.
        destruct Hl as [<- | Hl].
        -- exists (Ptr pu). split; [left; reflexivity | congruence].
        -- destruct (HownL l Hl) as (u & Hu & E).
           exists u. split; [right; exact Hu | exact E].
      * exact HndS.
      * intros iv Hiv. destruct (HownS iv Hiv) as (u & Hu & E).
        exists u. split; [right; exact Hu | exact E].
    + (* store *)
      refine (IH _ _ c' (Ptr pu :: Vis) _ Hw).
      split; [exact Hwl' |]. split; [exact Hnd' |]. split; [exact Hpar' |].
      split; [exact Hvis' |]. split; [exact HndL |]. split; [| split].
      * intros l Hl. destruct (HownL l Hl) as (u & Hu & E).
        exists u. split; [right; exact Hu | exact E].
      * cbn [withStore StoreIntervals]. rewrite map_app. cbn [map value].
        apply NoDup_app; [exact HndS | constructor; [intros [] | constructor] |].
        intros x Hx [<- | []]. apply in_map_iff in Hx.
        destruct Hx as (iv & Hv' & Hiv). destruct (HownS iv Hiv) as (u & Hu & E).
        apply (Hfresh u Hu). congruence.
      * intros iv Hiv. cbn [withStore StoreIntervals] in Hiv.
        apply in_app_or in Hiv. destruct Hiv as [Hiv | [<- | []]].
        -- destruct (HownS iv Hiv) as (u & Hu & E).
           exists u. split; [right; exact Hu | exact E].
        -- exists (Ptr pu). split; [left; reflexivity |]. cbn [value].
           congruence.
Qed.

(** In a finished walk from the frame pointer, every load and every store was
    collected once. *)
Lemma walk_collects_once (fuel : nat) (c : Collected) :
  walk fuel (pushUses (uses f FramePtr) 0 []) emptyCollected
    = Ok (Finished c) ->
  NoDup (allLoads c) /\ NoDup (map value (StoreIntervals c)).
Proof.
  apply (walk_unique fuel _ emptyCollected c []).
  split; [| split; [| split; [| split; [| split; [| split; [| split]]]]]].
  - intros pu Hpu. destruct (children_isUse f _ _ _ Hpu) as (H1 & H2 & H3).
    split; [exact H1 | rewrite H2, H3; apply Derived_frame].
  - rewrite app_nil_r, map_Ptr_pushUses. apply NoDup_rev, NoDup_uses.
    exact Hunique.
  - intros u Hu. rewrite app_nil_r, map_Ptr_pushUses in Hu. apply in_rev in Hu.
    left. apply uses_In in Hu. destruct Hu as (i & _ & _ & Hg & _). exact Hg.
  - intros u [].
  - constructor.
  - intros l [].
  - constructor.
  - intros iv [].
Qed.

End WalkUniqueness.

Section CollectedFacts.
Import IR Forward Spec ForwardConditions.

Variable f : Function_.
Variable FramePtr : Value.
Variable c : Collected.
Hypothesis Hunique : uniqueIds f.
Hypothesis Hnumbered : definedBeforeUse f.
Hypothesis Hloads : loadsOK f FramePtr c.

Lemma collected_load (l : nat) :
  In l (allLoads c) ->
  exists o U ptr,
    In U (body f) /\ getId U = l /\ getKind U = Load ptr true /\
    Derived f FramePtr ptr o.
Proof.
  unfold allLoads. intros H. apply in_concat in H.
  destruct H as (ls & Hls & Hl). apply in_map_iff in Hls.
  destruct Hls as ([o ls'] & <- & Hin). cbn [snd] in Hl.
  destruct (Hloads o ls' Hin) as [_ H]. destruct (H l Hl) as (U & ptr & H').
  exists o, U, ptr. exact H'.
Qed.

(** The pointer a collected load reads through is not itself a collected
    load. *)
Lemma load_pointer_not_load (o : Z) (p : nat) :
  Derived f FramePtr (VInst p) o -> ~ In p (allLoads c).
Proof.
  intros HD Hp. destruct (collected_load p Hp) as (o' & U & ptr & HU & Hid & Hk & HD').
  assert (Hfp : FramePtr = VInst p).
  { inversion HD as [Hf | q off delta U0 HD0 HU0 Hop0 Hp0 Hq]; [reflexivity |].
    exfalso. assert (U0 = U) by (apply (unique_by_id f Hunique); congruence).
    subst U0. rewrite Hk in Hp0. discriminate. }
  rewrite Hfp in HD'.
  destruct (derived_from_instruction f _ _ _ Hnumbered HD') as (x & -> & Hx).
  assert (Hlt : (x < getId U)%nat).
  { apply (Hnumbered U x HU); rewrite Hk; cbn; auto. }
  lia.
Qed.


Lemma In_allLoads (o : Z) (ls : list nat) (l : nat) :
  In (o, ls) (OffsetLoadMap c) -> In l ls -> In l (allLoads c).
Proof.
  intros H Hl. unfold allLoads. apply in_concat. exists ls. split; [| exact Hl].
  apply in_map_iff. exists (o, ls). auto.
Qed.

End CollectedFacts.

(* ===================================================================== *)
(** * Forwarding from the only store to the frame *)
(* ===================================================================== *)

Section RoundTrip.
Import IR Forward Spec ForwardConditions.

Variable NDEBUG : bool.
Variable getTypeStoreSize : Ty -> Z.
Variable dominates : nat -> nat -> bool.
Variable f : Function_.
Variable FramePtr : Value.
Variable c : Collected.
Variable S : nat.
Variable Sinst : Instruction.
Variable V ptrS : Value.
Variable simpleS : bool.
Variable T : Ty.

Hypothesis Hunique : uniqueIds f.
Hypothesis Hnumbered : definedBeforeUse f.
Hypothesis Hdom : forall a b, dominates a b = true -> (a < b)%nat.
Hypothesis Hloads : loadsOK f FramePtr c.
Hypothesis Hnodup : NoDup (allLoads c).
Hypothesis HSin : In Sinst (body f).
Hypothesis HSid : getId Sinst = S.
Hypothesis HSk : getKind Sinst = Store V ptrS simpleS.
Hypothesis HV : valueType f V = Some T.
Hypothesis HSder : Derived f FramePtr ptrS 0.
Hypothesis Hstores :
  StoreIntervals c = [{| left := 0; right := 3; value := S |}].
Hypothesis Hsorted : SortedStores c = [{| spOffset := 0; spStore := S |}].
Hypothesis Hsize : wrap32 (getTypeStoreSize T) = 4.

Let iv0 : IntervalData := {| left := 0; right := 3; value := S |}.

(** The loads that can be forwarded from [S]: those of the stored type that
    [S] dominates. *)
Let forwardable (x : nat) : Prop :=
  exists U, In U (body f) /\ getId U = x /\ getType U = T /\
            dominates S x = true.
Let state (D E : list nat) : Function_ := applyForwarding D E V f.

(** The store is not one of the pointers derived from the frame pointer. *)
Lemma store_not_derived (o : Z) : ~ Derived f FramePtr (VInst S) o.
Proof.
  intros HD.
  assert (Hfp : FramePtr = VInst S).
  { inversion HD as [Hf | q off delta U0 HD0 HU0 Hop0 Hp0 Hq]; [reflexivity |].
    exfalso. assert (U0 = Sinst) by (apply (unique_by_id f Hunique); congruence).
    subst U0. rewrite HSk in Hp0. discriminate. }
  pose proof HSder as HD'. rewrite Hfp in HD'.
  destruct (derived_from_instruction f _ _ _ Hnumbered HD') as (x & Hx & Hle).
  assert (Hlt : (x < getId Sinst)%nat).
  { apply (Hnumbered Sinst x HSin); rewrite HSk; cbn; auto. }
  lia.
Qed.

Lemma V_before_S (j : nat) : V = VInst j -> (j < S)%nat.
Proof.
  intros EV. rewrite <- HSid. apply (Hnumbered Sinst j HSin).
  - rewrite HSk. reflexivity.
  - rewrite HSk. cbn. left. exact EV.
Qed.

(** The bookkeeping of the loop: [D] are the loads forwarded so far, [E] the
    instructions erased so far, [Pr] the loads already visited. *)
Let Inv (D E Pr : list nat) : Prop :=
  incl D E /\
  (forall l, In l D -> In l (allLoads c) /\ dominates S l = true /\ In l Pr) /\
  ~ In S E /\
  (forall j, V = VInst j -> ~ In j E) /\
  (forall e, In e E ->
     In e D \/
     (~ In e (allLoads c) /\
      exists U,
        In U (body f) /\ In (getId U) D /\ getKind U = Load (VInst e) true /\
        forall u, In u (uses f (VInst e)) -> In (getUser u) E)) /\
  (forall U p smp,
     In U (body f) -> In (getId U) D -> getKind U = Load (VInst p) smp ->
     In p E \/ exists u, In u (uses f (VInst p)) /\ ~ In (getUser u) D).

Lemma V_stable (D E Pr : list nat) :
  Inv D E Pr -> substForwarded D V V = V.
Proof.
  intros (_ & HD & _). apply substForwarded_other. intros j EV.
  apply memb_not_In. intros Hm. destruct (HD j Hm) as (_ & Hdj & _).
  apply Hdom in Hdj. pose proof (V_before_S j EV). lia.
Qed.

Lemma lookup_state (D E : list nat) (U : Instruction) :
  In U (body f) -> ~ In (getId U) E ->
  lookup (state D E) (getId U) = Some (forwardInst D V U).
Proof.
  intros HU HE. unfold state. rewrite lookup_applyForwarding.
  apply memb_not_In in HE. rewrite HE.
  rewrite (lookup_unique f U Hunique HU). reflexivity.
Qed.

Lemma valueType_V (D E Pr : list nat) :
  Inv D E Pr -> valueType (state D E) V = Some T.
Proof.
  intros (_ & _ & _ & HVE & _). unfold state.
  rewrite valueType_applyForwarding_kept; [exact HV |].
  intros j EV. apply memb_not_In. exact (HVE j EV).
Qed.

(** The decision for one collected load at offset 0: it is forwarded exactly
    when it has the stored type and the store dominates it. *)
Lemma forwardableStore_decision (D E Pr : list nat) (U : Instruction) :
  Inv D E Pr ->
  (NDEBUG = true \/ 1 <= wrap32 (getTypeStoreSize (getType U)) <= 4) ->
  forwardableStore NDEBUG getTypeStoreSize dominates (state D E) c
    (sortStores (SortedStores c)) 0 iv0 (forwardInst D V U)
  = Ok (if Ty_eqb (getType U) T && dominates S (getId U)
        then Some (S, V) else None).
Proof.
  intros HInv Hassert.
  assert (HSE : ~ In S E) by (destruct HInv as (_ & _ & H & _); exact H).
  unfold forwardableStore. cbn [forwardInst getType getId].
  rewrite Hstores, Hsorted.
  set (n := wrap32 (getTypeStoreSize (getType U))) in *.
  cbn [getContaining filter left right].
  destruct ((0 <=? 0 + n - 1) && (0 + n - 1 <=? 3)) eqn:Hrange.
  - unfold assert. cbn [isEmpty negb]. rewrite orb_true_r. cbn [bind].
    cbn [value iv0]. rewrite Nat.eqb_refl. cbn [negb].
    change (upper_bound (sortStores [{| spOffset := 0; spStore := S |}]) 0)
      with (@None OffsetStorePair).
    cbv iota.
    rewrite <- HSid at 1.
    rewrite (lookup_state D E Sinst HSin) by (rewrite HSid; exact HSE).
    unfold forwardInst at 1. rewrite HSk. cbn [mapOperands].
    rewrite (V_stable D E Pr HInv), (valueType_V D E Pr HInv).
    destruct (Ty_eqb (getType U) T); cbn [negb andb]; [| reflexivity].
    destruct (dominates S (getId U)); reflexivity.
  - destruct (Ty_eqb (getType U) T) eqn:HT.
    + exfalso. apply Ty_eqb_eq in HT. unfold n in Hrange.
      rewrite HT, Hsize in Hrange. discriminate.
    + cbn [andb]. unfold assert. cbn [isEmpty negb].
      destruct Hassert as [-> | Hn].
      * reflexivity.
      * exfalso. apply andb_false_iff in Hrange.
        destruct Hrange as [H | H]; [apply Z.leb_gt in H | apply Z.leb_gt in H];
          lia.
Qed.

(** The uses of a value that remain after forwarding come from uses in the
    original function, by users that are not forwarded loads. *)
Lemma remaining_use_original (D E : list nat) (p : nat) :
  incl D E -> ~ In S E ->
  uses (state D E) (VInst p) <> [] ->
  exists u, In u (uses f (VInst p)) /\ ~ In (getUser u) D.
Proof.
  intros Hincl HSE Hne.
  destruct (uses (state D E) (VInst p)) as [| u us] eqn:Hu; [congruence |].
  assert (Hin : In u (uses (state D E) (VInst p))) by (rewrite Hu; left; auto).
  apply uses_applyForwarding_In in Hin.
  destruct Hin as (i & v0 & Hi & Hm & _ & Hop & Hsub).
  apply memb_not_In in Hm.
  destruct v0 as [d | n | ty z]; cbn [substForwarded] in Hsub; try discriminate.
  destruct (memb d D) eqn:Hd.
  - destruct (In_uses f V Sinst HSin) as (u' & Hu' & Hid').
    { rewrite HSk. cbn. auto. }
    exists u'. rewrite <- Hsub. split; [exact Hu' |].
    rewrite Hid', HSid. intros HD. apply HSE, Hincl, HD.
  - inversion Hsub; subst d.
    destruct (In_uses f (VInst p) i Hi Hop) as (u' & Hu' & Hid').
    exists u'. split; [exact Hu' |]. rewrite Hid'. intros HD.
    apply Hm, Hincl, HD.
Qed.

(** The invariant after forwarding the collected load [U]. *)
Lemma Inv_forwarded (D E Pr E' : list nat) (U : Instruction) (ptr : Value)
    (o : Z) :
  Inv D E Pr ->
  In U (body f) -> getKind U = Load ptr true -> Derived f FramePtr ptr o ->
  In (getId U) (allLoads c) -> dominates S (getId U) = true ->
  (E' = getId U :: E \/
   exists p, ptr = VInst p /\ E' = p :: getId U :: E /\
             uses (state (getId U :: D) (getId U :: E)) ptr = []) ->
  (forall p, ptr = VInst p ->
             In p E' \/
             exists u, In u (uses f (VInst p)) /\ ~ In (getUser u) (getId U :: D)) ->
  Inv (getId U :: D) E' (getId U :: Pr).
Proof.
  intros (Hincl & HD & HSE & HVE & HE & HP) HU Hk Hder Hcol Hdoml HE' Hacc.
  pose proof (Hdom _ _ Hdoml) as Hlt.
  assert (HEl : forall x, In x E' -> x = getId U \/ In x E \/
                          (exists p, ptr = VInst p /\ x = p /\
                             uses (state (getId U :: D) (getId U :: E)) ptr = [])).
  { intros x Hx. destruct HE' as [-> | (p & Hp & -> & Hempty)].
    - destruct Hx as [<- | Hx]; auto.
    - destruct Hx as [<- | [<- | Hx]]; eauto 10. }
  assert (HlE : forall x, x = getId U \/ In x E -> In x E').
  { intros x Hx. destruct HE' as [-> | (p & Hp & -> & Hempty)]; cbn;
      intuition congruence. }
  assert (HD' : forall l, In l (getId U :: D) ->
                  In l (allLoads c) /\ dominates S l = true /\
                  In l (getId U :: Pr)).
  { intros l [<- | Hl]; [cbn; auto |].
    destruct (HD l Hl) as (H1 & H2 & H3). cbn. auto. }
  assert (Hstable : substForwarded (getId U :: D) V V = V).
  { apply substForwarded_other. intros j EV. apply memb_not_In. intros Hm.
    destruct (HD' j Hm) as (_ & Hdj & _). apply Hdom in Hdj.
    pose proof (V_before_S j EV). lia. }
  split; [| split; [exact HD' | split; [| split; [| split]]]].
  - intros x [<- | Hx]; apply HlE; [left; reflexivity | right; apply Hincl, Hx].
  - intros HS'. destruct (HEl _ HS') as [HSl | [HSE' | (p & Hp & HSp & _)]].
    + lia.
    + contradiction.
    + subst p. subst ptr. exact (store_not_derived o Hder).
  - intros j EV Hj. pose proof (V_before_S j EV) as HjS.
    destruct (HEl _ Hj) as [Hjl | [HjE | (p & Hp & Hjp & Hempty)]].
    + lia.
    + exact (HVE j EV HjE).
    + subst p.
      apply (uses_applyForwarding_nonempty (getId U :: D) (getId U :: E) V f
               Sinst V HSin).
      * apply memb_not_In. rewrite HSid. intros [HSl | HSE']; [lia | contradiction].
      * rewrite HSk. cbn. auto.
      * rewrite Hstable. assert (Hpv : ptr = V) by congruence.
        rewrite Hpv in Hempty. exact Hempty.
  - intros e He. destruct (HEl _ He) as [-> | [HeE | (p & Hp & -> & Hempty)]].
    + left. left. reflexivity.
    + destruct (HE e HeE) as [HeD | (Hn & U0 & HU0 & HD0 & Hk0 & Hus)];
        [left; right; exact HeD |].
      right. split; [exact Hn |]. exists U0. split; [exact HU0 |].
      split; [right; exact HD0 |]. split; [exact Hk0 |].
      intros u Hu. apply HlE. right. exact (Hus u Hu).
    + right. subst ptr.
      pose proof (load_pointer_not_load f FramePtr c Hunique Hnumbered Hloads o p Hder) as Hnl.
      split; [exact Hnl |]. exists U. split; [exact HU |].
      split; [left; reflexivity |]. split; [exact Hk |].
      intros u Hu. apply HlE.
      destruct (in_dec Nat.eq_dec (getUser u) (getId U :: E)) as [Hin | Hnin].
      { destruct Hin as [Hin | Hin]; [left; symmetry; exact Hin | right; exact Hin]. }
      exfalso. apply uses_In in Hu. destruct Hu as (i & Hi & Hid & _ & Hop).
      apply (uses_applyForwarding_nonempty (getId U :: D) (getId U :: E) V f
               i (VInst p) Hi).
      * apply memb_not_In. rewrite <- Hid. exact Hnin.
      * exact Hop.
      * rewrite substForwarded_other; [exact Hempty |].
        intros j Hj. injection Hj as <-. apply memb_not_In. intros HpD.
        apply Hnl. exact (proj1 (HD' p HpD)).
  - intros U0 p0 smp HU0 Hid0 Hk0.
    destruct Hid0 as [Hid0 | Hid0].
    + assert (U0 = U) by (apply (unique_by_id f Hunique); auto). subst U0.
      apply Hacc. congruence.
    + destruct (HP U0 p0 smp HU0 Hid0 Hk0) as [Hp0 | (u & Hu & Hnu)].
      * left. apply HlE. right. exact Hp0.
      * destruct (Nat.eq_dec (getUser u) (getId U)) as [Heq | Hneq].
        -- apply Hacc. apply uses_In in Hu.
           destruct Hu as (i & Hi & Hid & _ & Hop).
           assert (i = U) by (apply (unique_by_id f Hunique); congruence).
           subst i. rewrite Hk in Hop. cbn in Hop.
           destruct Hop as [Hop | []]. congruence.
        -- right. exists u. split; [exact Hu |]. intros [H | H]; auto.
Qed.

(** One iteration of the inner loop on a collected load at offset 0. *)
Lemma forwardLoad_step (D E Pr : list nat) (U : Instruction) (ptr : Value)
    (o : Z) :
  Inv D E Pr ->
  In U (body f) -> getKind U = Load ptr true -> Derived f FramePtr ptr o ->
  In (getId U) (allLoads c) -> ~ In (getId U) Pr ->
  (NDEBUG = true \/ 1 <= wrap32 (getTypeStoreSize (getType U)) <= 4) ->
  exists D' E',
    forwardLoad NDEBUG getTypeStoreSize dominates (state D E) c
      (sortStores (SortedStores c)) 0 iv0 (getId U) = Ok (state D' E') /\
    Inv D' E' (getId U :: Pr) /\
    incl D D' /\
    (forall x, In x D' -> In x D \/ (x = getId U /\ forwardable x)) /\
    (getType U = T -> dominates S (getId U) = true -> In (getId U) D').
Proof.
  intros HInv HU Hk Hder Hcol HnPr Hassert.
  pose proof HInv as (Hincl & HD & HSE & HVE & HE & HP).
  assert (HlE : ~ In (getId U) E).
  { intros H. destruct (HE _ H) as [H' | [H' _]]; [| contradiction].
    destruct (HD _ H') as (_ & _ & H3). contradiction. }
  assert (Hptr : substForwarded D V ptr = ptr).
  { apply substForwarded_other. intros p Hp. apply memb_not_In. intros HpD.
    destruct (HD _ HpD) as (Hpc & _). subst ptr.
    exact (load_pointer_not_load f FramePtr c Hunique Hnumbered Hloads o p Hder Hpc). }
  assert (Hfi : forwardInst D V U =
                {| getId := getId U; getKind := Load ptr true;
                   getType := getType U |}).
  { unfold forwardInst. rewrite Hk. cbn [mapOperands]. rewrite Hptr. reflexivity. }
  unfold forwardLoad. rewrite (lookup_state D E U HU HlE), Hfi. cbv iota beta.
  rewrite <- Hfi. rewrite (forwardableStore_decision D E Pr U HInv Hassert).
  cbn [bind].
  destruct (Ty_eqb (getType U) T && dominates S (getId U)) eqn:Hcond.
  - apply andb_true_iff in Hcond. destruct Hcond as [HT Hdoml].
    unfold state. rewrite rauw_applyForwarding, erase_applyForwarding.
    fold (state (getId U :: D) (getId U :: E)).
    destruct (use_empty (state (getId U :: D) (getId U :: E)) ptr) eqn:Hempty;
      cbn [negb].
    + apply use_empty_spec in Hempty.
      destruct ptr as [p | n | ty z] eqn:Eptr.
      * unfold state. rewrite erase_applyForwarding.
        exists (getId U :: D), (p :: getId U :: E).
        split; [reflexivity |]. split; [| split; [| split]].
        -- apply (Inv_forwarded D E Pr (p :: getId U :: E) U (VInst p) o
                    HInv HU Hk Hder Hcol Hdoml).
           ++ right. exists p. auto.
           ++ intros p' Hp'. inversion Hp'; subst p'. left. left. reflexivity.
        -- intros x Hx. right. exact Hx.
        -- intros x [<- | Hx]; [right | left; exact Hx].
           split; [reflexivity |]. exists U. apply Ty_eqb_eq in HT. auto.
        -- intros _ _. left. reflexivity.
      * exists (getId U :: D), (getId U :: E).
        split; [reflexivity |]. split; [| split; [| split]].
        -- apply (Inv_forwarded D E Pr (getId U :: E) U _ o
                    HInv HU Hk Hder Hcol Hdoml); [left; reflexivity |].
           intros p' Hp'. discriminate.
        -- intros x Hx. right. exact Hx.
        -- intros x [<- | Hx]; [right | left; exact Hx].
           split; [reflexivity |]. exists U. apply Ty_eqb_eq in HT. auto.
        -- intros _ _. left. reflexivity.
      * exists (getId U :: D), (getId U :: E).
        split; [reflexivity |]. split; [| split; [| split]].
        -- apply (Inv_forwarded D E Pr (getId U :: E) U _ o
                    HInv HU Hk Hder Hcol Hdoml); [left; reflexivity |].
           intros p' Hp'. discriminate.
        -- intros x Hx. right. exact Hx.
        -- intros x [<- | Hx]; [right | left; exact Hx].
           split; [reflexivity |]. exists U. apply Ty_eqb_eq in HT. auto.
        -- intros _ _. left. reflexivity.
    + exists (getId U :: D), (getId U :: E).
      split; [reflexivity |]. split; [| split; [| split]].
      * apply (Inv_forwarded D E Pr (getId U :: E) U ptr o
                 HInv HU Hk Hder Hcol Hdoml); [left; reflexivity |].
        intros p Hp. right.
        apply (remaining_use_original (getId U :: D) (getId U :: E) p).
        -- intros x [<- | Hx]; [left; reflexivity | right; apply Hincl, Hx].
        -- pose proof (Hdom _ _ Hdoml) as Hlt. intros [Hx | Hx]; [lia | contradiction].
        -- rewrite <- Hp. intros Hx. apply use_empty_spec in Hx. congruence.
      * intros x Hx. right. exact Hx.
      * intros x [<- | Hx]; [right | left; exact Hx].
        split; [reflexivity |]. exists U. apply Ty_eqb_eq in HT. auto.
      * intros _ _. left. reflexivity.
  - exists D, E. split; [reflexivity |]. split; [| split; [| split]].
    + split; [exact Hincl |]. split; [| auto].
      intros l Hl. destruct (HD l Hl) as (H1 & H2 & H3). cbn. auto.
    + intros x Hx. exact Hx.
    + intros x Hx. left. exact Hx.
    + intros HT Hdoml. exfalso.
      apply Ty_eqb_eq in HT. rewrite HT, Hdoml in Hcond. discriminate.
Qed.

Lemma Inv_more_visited (D E Pr Pr' : list nat) :
  Inv D E Pr -> incl Pr Pr' -> Inv D E Pr'.
Proof.
  intros (H1 & H2 & H3) Hincl. split; [exact H1 |]. split; [| exact H3].
  intros l Hl. destruct (H2 l Hl) as (Ha & Hb & Hc). auto.
Qed.

Hypothesis Hassert :
  NDEBUG = true \/
  forall Ls U, In (0, Ls) (OffsetLoadMap c) -> In U (body f) ->
               In (getId U) Ls ->
               1 <= wrap32 (getTypeStoreSize (getType U)) <= 4.

(** The inner loop over the loads of an entry at offset 0. *)
Lemma forwardLoads_steps (Ls0 : list nat) :
  In (0, Ls0) (OffsetLoadMap c) ->
  forall Ls D E Pr,
    incl Ls Ls0 -> NoDup Ls -> (forall l, In l Ls -> ~ In l Pr) ->
    Inv D E Pr ->
    exists D' E',
      forwardLoads NDEBUG getTypeStoreSize dominates (state D E) c
        (sortStores (SortedStores c)) 0 iv0 Ls = Ok (state D' E') /\
      Inv D' E' (Ls ++ Pr) /\
      incl D D' /\
      (forall x, In x D' -> In x D \/ (In x Ls /\ forwardable x)) /\
      (forall U, In U (body f) -> In (getId U) Ls -> getType U = T ->
                 dominates S (getId U) = true -> In (getId U) D').
Proof.
  intros Hentry. induction Ls as [| l Ls IH]; intros D E Pr Hsub Hnd HPr HInv.
  - exists D, E. cbn [forwardLoads app]. split; [reflexivity |].
    split; [exact HInv |]. split; [apply incl_refl |].
    split; [auto | intros U _ []].
  - assert (Hl0 : In l Ls0) by (apply Hsub; left; reflexivity).
    destruct (Hloads 0 Ls0 Hentry) as [_ HL].
    destruct (HL l Hl0) as (U & ptr & HU & Hid & Hk & Hder). subst l.
    assert (Hcol : In (getId U) (allLoads c)).
    { unfold allLoads. apply in_concat. exists Ls0. split; [| exact Hl0].
      apply in_map_iff. exists (0, Ls0). auto. }
    apply NoDup_cons_iff in Hnd. destruct Hnd as [Hnl Hnd'].
    destruct (forwardLoad_step D E Pr U ptr 0 HInv HU Hk Hder Hcol
                (HPr _ (or_introl eq_refl))
                ltac:(destruct Hassert as [Hn | Hr];
                      [left; exact Hn | right; exact (Hr Ls0 U Hentry HU Hl0)]))
      as (D1 & E1 & Hstep & HInv1 & Hincl1 & HD1 & Hfw1).
    destruct (IH D1 E1 (getId U :: Pr)
                ltac:(intros x Hx; apply Hsub; right; exact Hx) Hnd'
                ltac:(intros x Hx [Hxl | HxPr];
                      [subst x; contradiction
                      | exact (HPr x (or_intror Hx) HxPr)])
                HInv1)
      as (D2 & E2 & Hsteps & HInv2 & Hincl2 & HD2 & Hfw2).
    exists D2, E2. cbn [forwardLoads]. rewrite Hstep. cbn [bind].
    split; [exact Hsteps |]. split; [| split; [| split]].
    + apply (Inv_more_visited D2 E2 _ _ HInv2).
      intros x Hx. apply in_app_or in Hx. cbn [app In].
      destruct Hx as [Hx | [Hx | Hx]].
      * right. apply in_or_app. left. exact Hx.
      * left. exact Hx.
      * right. apply in_or_app. right. exact Hx.
    + intros x Hx. apply Hincl2, Hincl1, Hx.
    + intros x Hx. destruct (HD2 x Hx) as [Hx1 | [HxLs Hfx]];
        [| right; split; [right; exact HxLs | exact Hfx]].
      destruct (HD1 x Hx1) as [HxD | [-> Hfx]];
        [left; exact HxD | right; split; [left; reflexivity | exact Hfx]].
    + intros U0 HU0 [Hid0 | HLs] HT0 Hdom0.
      * assert (U0 = U) by (apply (unique_by_id f Hunique); auto). subst U0.
        apply Hincl2, Hfw1; assumption.
      * apply Hfw2; assumption.
Qed.

(** The outer loop over the entries of [OffsetLoadMap]. *)
Lemma forwardGroups_steps :
  forall entries D E Pr,
    incl entries (OffsetLoadMap c) ->
    NoDup (List.concat (map snd entries)) ->
    (forall l, In l (List.concat (map snd entries)) -> ~ In l Pr) ->
    Inv D E Pr ->
    exists D' E' Pr',
      forwardGroups NDEBUG getTypeStoreSize dominates (state D E) c
        (sortStores (SortedStores c)) entries = Ok (state D' E') /\
      Inv D' E' Pr' /\
      incl D D' /\
      (forall x, In x D' ->
                 In x D \/
                 ((exists Ls, In (0, Ls) entries /\ In x Ls) /\ forwardable x)) /\
      (forall Ls U, In (0, Ls) entries -> In U (body f) -> In (getId U) Ls ->
                    getType U = T -> dominates S (getId U) = true ->
                    In (getId U) D').
Proof.
  induction entries as [| [o Ls] entries IH]; intros D E Pr Hsub Hnd HPr HInv.
  - exists D, E, Pr. cbn [forwardGroups]. split; [reflexivity |].
    split; [exact HInv |]. split; [apply incl_refl |].
    split; [auto | intros Ls U []].
  - cbn [map snd List.concat] in Hnd, HPr.
    assert (Hentry : In (o, Ls) (OffsetLoadMap c)) by (apply Hsub; left; auto).
    assert (Hsub' : incl entries (OffsetLoadMap c))
      by (intros x Hx; apply Hsub; right; exact Hx).
    pose proof (NoDup_app_remove_l _ _ Hnd) as Hnd2.
    pose proof (NoDup_app_remove_r _ _ Hnd) as Hnd1.
    destruct (Hloads o Ls Hentry) as [Hne _].
    assert (Hgroup :
      exists D1 E1 Pr1,
        forwardGroup NDEBUG getTypeStoreSize dominates (state D E) c
          (sortStores (SortedStores c)) (o, Ls) = Ok (state D1 E1) /\
        Inv D1 E1 Pr1 /\ incl D D1 /\
        (forall l, In l (List.concat (map snd entries)) -> ~ In l Pr1) /\
        (forall x, In x D1 -> In x D \/ (o = 0 /\ In x Ls /\ forwardable x)) /\
        (forall U, o = 0 -> In U (body f) -> In (getId U) Ls ->
                   getType U = T -> dominates S (getId U) = true ->
                   In (getId U) D1)).
    { unfold forwardGroup. unfold assert.
      replace (negb (isEmpty Ls)) with true by (destruct Ls; [congruence | reflexivity]).
      rewrite orb_true_r. cbn [bind]. rewrite Hstores.
      cbn [getContaining filter left right].
      destruct (Z.eqb_spec o 0) as [-> | Hne0].
      - cbn [Z.leb Z.compare andb negb left Z.eqb].
        destruct (forwardLoads_steps Ls Hentry Ls D E Pr (incl_refl _) Hnd1
                    ltac:(intros l Hl; apply HPr; apply in_or_app; left; exact Hl)
                    HInv)
          as (D1 & E1 & Hsteps & HInv1 & Hincl1 & HD1 & Hfw1).
        exists D1, E1, (Ls ++ Pr). split; [exact Hsteps |].
        split; [exact HInv1 |]. split; [exact Hincl1 |].
        split; [| split].
        + intros l Hl Hin. apply in_app_or in Hin. destruct Hin as [Hin | Hin].
          * exact (NoDup_app_disjoint _ _ Hnd l Hin Hl).
          * apply (HPr l); [apply in_or_app; right; exact Hl | exact Hin].
        + intros x Hx. destruct (HD1 x Hx) as [H | [H1 H2]]; auto.
        + intros U _ HU HUl HT0 Hd0. apply Hfw1; assumption.
      - exists D, E, Pr.
        assert (Hres : (if (0 <=? o) && (o <=? 3)
                        then [{| left := 0; right := 3; value := S |}]
                        else []) = [] \/
                       (if (0 <=? o) && (o <=? 3)
                        then [{| left := 0; right := 3; value := S |}]
                        else []) = [{| left := 0; right := 3; value := S |}])
          by (destruct ((0 <=? o) && (o <=? 3)); auto).
        split.
        + destruct Hres as [-> | ->]; [reflexivity |]. cbn [left].
          destruct (Z.eqb_spec o 0); [contradiction | reflexivity].
        + split; [exact HInv |]. split; [apply incl_refl |].
          split; [| split].
          * intros l Hl. apply HPr. apply in_or_app. right. exact Hl.
          * auto.
          * intros U Ho. contradiction. }
    destruct Hgroup as (D1 & E1 & Pr1 & Hg & HInv1 & Hincl1 & HPr1 & HD1 & Hfw1).
    destruct (IH D1 E1 Pr1 Hsub' Hnd2 HPr1 HInv1)
      as (D2 & E2 & Pr2 & Hgs & HInv2 & Hincl2 & HD2 & Hfw2).
    exists D2, E2, Pr2. cbn [forwardGroups]. rewrite Hg. cbn [bind].
    split; [exact Hgs |]. split; [exact HInv2 |]. split; [| split].
    + intros x Hx. apply Hincl2, Hincl1, Hx.
    + intros x Hx. destruct (HD2 x Hx) as [Hx1 | ((Ls' & HLs' & HxLs') & Hfx)].
      * destruct (HD1 x Hx1) as [HxD | (-> & HxLs & Hfx)]; [left; exact HxD |].
        right. split; [| exact Hfx].
        exists Ls. split; [left; reflexivity | exact HxLs].
      * right. split; [| exact Hfx].
        exists Ls'. split; [right; exact HLs' | exact HxLs'].
    + intros Ls' U [Heq | HLs'] HU HUl HT0 Hd0.
      * injection Heq as Ho HL. subst Ls'. apply Hincl2. apply Hfw1; auto.
      * eapply Hfw2; eauto.
Qed.

(** The whole second phase, started on the unchanged function: the loads it
    forwards are the collected loads at offset 0 that have the stored type
    and that the store dominates; besides them it erases only address
    instructions of forwarded loads that are left without users. *)
Lemma forwardGroups_round_trip :
  exists D E,
    forwardGroups NDEBUG getTypeStoreSize dominates f c
      (sortStores (SortedStores c)) (OffsetLoadMap c)
      = Ok (applyForwarding D E V f) /\
    (forall x, In x D <->
               (exists Ls, In (0, Ls) (OffsetLoadMap c) /\ In x Ls) /\
               forwardable x) /\
    incl D E /\ ~ In S E /\ (forall j, V = VInst j -> ~ In j E) /\
    (forall e, In e E ->
       In e D \/
       (~ In e (allLoads c) /\
        exists U,
          In U (body f) /\ In (getId U) D /\ getKind U = Load (VInst e) true /\
          forall u, In u (uses f (VInst e)) -> In (getUser u) E)) /\
    (forall U p smp,
       In U (body f) -> In (getId U) D -> getKind U = Load (VInst p) smp ->
       (forall u, In u (uses f (VInst p)) -> In (getUser u) D) -> In p E) /\
    (forall x, In x D -> uses (applyForwarding D E V f) (VInst x) = []).
Proof.
  assert (HInv0 : Inv [] [] []).
  { split; [apply incl_refl |]. split; [intros l [] |]. split; [intros [] |].
    split; [intros j _ [] |]. split; [intros e [] |]. intros U p smp _ []. }
  destruct (forwardGroups_steps (OffsetLoadMap c) [] [] [] (incl_refl _) Hnodup
              ltac:(intros l _ []) HInv0)
    as (D & E & Pr & Hrun & HInv & _ & HD & Hfw).
  unfold state in Hrun. rewrite applyForwarding_nil in Hrun.
  pose proof HInv as (Hincl & HDl & HSE & HVE & HE & HP).
  exists D, E. split; [exact Hrun |]. split; [| split; [exact Hincl |]].
  { intros x. split.
    - intros Hx. destruct (HD x Hx) as [[] | H]. exact H.
    - intros ((Ls & HLs & HxLs) & U & HU & Hid & HT & Hd). subst x.
      exact (Hfw Ls U HLs HU HxLs HT Hd). }
  split; [exact HSE |]. split; [exact HVE |]. split; [exact HE |]. split.
  - intros U p smp HU HUD Hk Hall.
    destruct (HP U p smp HU HUD Hk) as [HpE | (u & Hu & Hnu)]; [exact HpE |].
    exfalso. apply Hnu, Hall, Hu.
  - intros x Hx. destruct (HDl x Hx) as (_ & Hdx & _).
    destruct (uses (applyForwarding D E V f) (VInst x)) as [| u us] eqn:Hu;
      [reflexivity |]. exfalso.
    assert (Hin : In u (uses (applyForwarding D E V f) (VInst x)))
      by (rewrite Hu; left; reflexivity).
    apply uses_applyForwarding_In in Hin.
    destruct Hin as (i & v0 & _ & _ & _ & _ & Hsub).
    pose proof (Hdom _ _ Hdx) as Hlt.
    destruct v0 as [d | n | ty z]; cbn [substForwarded] in Hsub;
      try discriminate.
    destruct (memb d D) eqn:Hd.
    + pose proof (V_before_S _ Hsub). lia.
    + inversion Hsub; subst d. apply memb_not_In in Hd. contradiction.
Qed.

End RoundTrip.

Section RoundTripTheorem.
Import IR Forward Spec ForwardConditions.

Lemma walk_more_fuel (NDEBUG : bool) (getTypeStoreSize : Ty -> Z)
    (f : Function_) :
  forall fuel wl c r,
    walk NDEBUG getTypeStoreSize fuel f wl c = Ok r ->
    forall k, walk NDEBUG getTypeStoreSize (fuel + k) f wl c = Ok r.
Proof.
  induction fuel as [| fuel IH]; intros wl c r H k.
  - destruct wl; [| discriminate]. cbn in H. destruct k; exact H.
  - destruct wl as [| pu wl]; [exact H |].
    cbn [walk Nat.add] in *.
    destruct (visitUse NDEBUG getTypeStoreSize f pu wl c) as [[[] | [wl' c']] | | | | |];
      cbn [bind] in *; try discriminate; [exact H |].
    apply IH. exact H.
Qed.

(** C2.  Let [f] be a well-formed function whose numbering the dominator
    tree respects, in which no user of a pointer derived from the frame
    pointer makes the analysis give up.  Let the simple store [Sinst] of a
    4-byte value [V], at offset 0, be the only store through a pointer
    derived from the frame pointer, and let it dominate the simple load
    [Linst] of [V]'s type at offset 0; in a build with assertions let every
    load at offset 0 read between one and four bytes.  Then, given enough
    fuel, [forwardContinuationFrameStoreToLoad] returns the function in which
    every use of a forwarded load is replaced by [V] and the instructions [E]
    are erased, and no amount of fuel returns another function.  The
    forwarded loads [D] are exactly the simple loads at offset 0 of [V]'s
    type that the store dominates, [Linst] among them: [Linst] is no longer
    in the function and has no use.  Every erased instruction is a forwarded
    load or the address instruction of a forwarded load all of whose users
    were erased, the address instruction of [Linst] is erased when all its
    users were forwarded loads, and the store stays. *)
Theorem forward_round_trip (NDEBUG : bool) (getTypeStoreSize : Ty -> Z)
    (dominates : nat -> nat -> bool) (f : Function_) (FramePtr : Value)
    (Sinst Linst : Instruction) (V ptrS ptrL : Value) (T : Ty) :
  uniqueIds f -> definedBeforeUse f -> operandsDefined f ->
  (forall a b, dominates a b = true -> (a < b)%nat) ->
  neverGivesUp f FramePtr -> indicesAreNoFramePointers f FramePtr ->
  In Sinst (body f) -> getKind Sinst = Store V ptrS true ->
  Derived f FramePtr ptrS 0 -> valueType f V = Some T ->
  wrap32 (getTypeStoreSize T) = 4 ->
  onlyStoreToFrame f FramePtr Sinst ->
  In Linst (body f) -> getKind Linst = Load ptrL true ->
  Derived f FramePtr ptrL 0 -> getType Linst = T ->
  dominates (getId Sinst) (getId Linst) = true ->
  (NDEBUG = true \/
   forall U, frameLoadAt f FramePtr 0 U ->
             1 <= wrap32 (getTypeStoreSize (getType U)) <= 4) ->
  exists D E,
    (exists n, forall fuel,
       forwardContinuationFrameStoreToLoad NDEBUG getTypeStoreSize dominates
         (n + fuel) f FramePtr = Ok (applyForwarding D E V f)) /\
    (forall fuel f',
       forwardContinuationFrameStoreToLoad NDEBUG getTypeStoreSize dominates
         fuel f FramePtr = Ok f' -> f' = applyForwarding D E V f) /\
    (forall x, In x D <->
               exists U, frameLoadAt f FramePtr 0 U /\ getId U = x /\
                         getType U = T /\
                         dominates (getId Sinst) x = true) /\
    In (getId Linst) D /\
    incl D E /\ ~ In (getId Sinst) E /\
    (forall e, In e E ->
       In e D \/
       exists U,
         In U (body f) /\ In (getId U) D /\ getKind U = Load (VInst e) true /\
         forall u, In u (uses f (VInst e)) -> In (getUser u) E) /\
    (forall p, ptrL = VInst p ->
               (forall u, In u (uses f (VInst p)) -> In (getUser u) D) ->
               In p E) /\
    lookup (applyForwarding D E V f) (getId Linst) = None /\
    uses (applyForwarding D E V f) (VInst (getId Linst)) = [].
Proof.
  intros Hu Hn Hd Hdom Hna Hidx HSin HSk HSder HV Hsize Honly HL HLk HLder HLT
    HLdom Hassert.
  set (wl0 := pushUses (uses f FramePtr) 0 []).
  assert (Hinit : forall pu, In pu wl0 ->
            isUse f pu /\ Derived f FramePtr (get (Ptr pu)) (Offset pu))
    by (apply initial_worklist).
  assert (Hinit' : forall pu, In pu wl0 -> isUse f pu)
    by (intros pu Hpu; exact (proj1 (Hinit pu Hpu))).
  (* the walk finishes *)
  destruct (walk_total NDEBUG getTypeStoreSize f FramePtr Hu Hn Hd)
    as [n [Hg | (c & Hc)]].
  { exfalso. specialize (Hg 0%nat).
    destruct (walk_gives_up_reason NDEBUG getTypeStoreSize f Hu _ _ _ Hinit' Hg)
      as (p & off & U & HR & Hab).
    destruct (ReachUse_Derived f FramePtr Hu wl0 Hinit p off U HR)
      as (HD & HU & Hop).
    rewrite (Hna p off U HD HU Hop) in Hab. discriminate. }
  fold wl0 in Hc. pose proof (Hc 0%nat) as Hw.
  assert (Hempty : loadsOK f FramePtr emptyCollected /\
                   storesOK getTypeStoreSize f FramePtr emptyCollected /\
                   sortedMatches emptyCollected).
  { split; [intros o ls [] | split; [intros iv [] | reflexivity]]. }
  destruct (walk_collected_ok NDEBUG getTypeStoreSize f Hu FramePtr _ _ _ _
              Hinit Hempty Hw) as (Hloads & Hstores & Hsm).
  destruct (walk_collects_once NDEBUG getTypeStoreSize f FramePtr Hu Hn Hna
              Hidx _ c Hw) as [HndL HndS].
  destruct (walk_complete NDEBUG getTypeStoreSize f Hu _ _ _ _ Hinit' Hw)
    as [Hcomplete _].
  (* the collected stores *)
  set (iv0 := {| left := 0; right := 3; value := getId Sinst |}).
  assert (Hall : forall iv, In iv (StoreIntervals c) -> iv = iv0).
  { intros iv Hiv.
    destruct (Hstores iv Hiv) as (U & val & ptr & ty & HU & Hid & Hk & Hty & Hr & HD).
    destruct (Honly U val ptr true (left iv) HU Hk HD) as [-> Hl].
    assert (val = V) by congruence. subst val.
    assert (ty = T) by congruence. subst ty.
    destruct iv as [l r v]. cbn [left right value] in *. unfold iv0.
    f_equal; lia || congruence. }
  assert (Hst : StoreIntervals c = [iv0]).
  { assert (Hin : In iv0 (StoreIntervals c)).
    { pose proof (Hcomplete ptrS 0 Sinst
                    (Derived_ReachUse f FramePtr ptrS 0 HSder Sinst HSin
                       ltac:(rewrite HSk; cbn; auto))) as Hrec.
      rewrite HSk in Hrec. destruct Hrec as (iv & ty & Hiv & _).
      rewrite <- (Hall iv Hiv). exact Hiv. }
    destruct (StoreIntervals c) as [| a [| b l]] eqn:E.
    - destruct Hin.
    - rewrite (Hall a (or_introl eq_refl)). reflexivity.
    - exfalso. rewrite (Hall a (or_introl eq_refl)) in HndS.
      rewrite (Hall b (or_intror (or_introl eq_refl))) in HndS.
      cbn [map] in HndS. inversion HndS as [| ? ? Hx _]. apply Hx. left.
      reflexivity. }
  assert (Hsorted : SortedStores c = [{| spOffset := 0; spStore := getId Sinst |}]).
  { unfold sortedMatches in Hsm. rewrite Hsm, Hst. reflexivity. }
  assert (Hassert' :
    NDEBUG = true \/
    forall Ls U, In (0, Ls) (OffsetLoadMap c) -> In U (body f) ->
                 In (getId U) Ls ->
                 1 <= wrap32 (getTypeStoreSize (getType U)) <= 4).
  { destruct Hassert as [Hnd | Hsz]; [left; exact Hnd | right].
    intros Ls U HLs HU HUl. apply Hsz.
    destruct (Hloads 0 Ls HLs) as [_ Hl].
    destruct (Hl _ HUl) as (U' & ptr & HU' & Hid & Hk & HD).
    assert (U' = U) by (apply (unique_by_id f Hu); assumption). subst U'.
    exists ptr. auto. }
  destruct (forwardGroups_round_trip NDEBUG getTypeStoreSize dominates f
              FramePtr c (getId Sinst) Sinst V ptrS true T Hu Hn Hdom Hloads
              HndL HSin eq_refl HSk HV HSder Hst Hsorted Hsize Hassert')
    as (D & E & Hrun & HD & Hincl & HSE & HVE & HE & HP & Huses).
  assert (HLD : In (getId Linst) D).
  { apply HD. split.
    - pose proof (Hcomplete ptrL 0 Linst
                    (Derived_ReachUse f FramePtr ptrL 0 HLder Linst HL
                       ltac:(rewrite HLk; cbn; auto))) as Hrec.
      rewrite HLk in Hrec. exact Hrec.
    - exists Linst. auto. }
  assert (Hres : forall fuel,
            walk NDEBUG getTypeStoreSize fuel f wl0 emptyCollected
              = Ok (Finished c) ->
            forwardContinuationFrameStoreToLoad NDEBUG getTypeStoreSize
              dominates fuel f FramePtr = Ok (applyForwarding D E V f)).
  { intros fuel Hwf. unfold forwardContinuationFrameStoreToLoad.
    fold wl0. rewrite Hwf. cbn [bind]. rewrite Hst. cbn [isEmpty].
    exact Hrun. }
  exists D, E. split; [| split; [| split; [| split; [exact HLD |]]]].
  - exists n. intros fuel. apply Hres. apply Hc.
  - intros fuel f' Hf.
    unfold forwardContinuationFrameStoreToLoad in Hf. fold wl0 in Hf.
    destruct (walk NDEBUG getTypeStoreSize fuel f wl0 emptyCollected)
      as [r | | | | |] eqn:Hwf; cbn [bind] in Hf; try discriminate.
    pose proof (walk_more_fuel _ _ _ _ _ _ _ Hwf n) as Hmore.
    rewrite Nat.add_comm, Hc in Hmore. injection Hmore as <-.
    pose proof (Hres fuel Hwf) as Hok.
    unfold forwardContinuationFrameStoreToLoad in Hok. fold wl0 in Hok.
    rewrite Hwf in Hok. cbn [bind] in Hok. congruence.
  - intros x. rewrite HD. split.
    + intros ((Ls & HLs & HxLs) & U & HU & Hid & HT & Hdx).
      exists U. split; [| auto].
      destruct (Hloads 0 Ls HLs) as [_ Hl].
      destruct (Hl _ HxLs) as (U' & ptr & HU' & Hid' & Hk & HDer).
      assert (U' = U) by (apply (unique_by_id f Hu); congruence). subst U'.
      exists ptr. auto.
    + intros (U & (ptr & HU & Hk & HDer) & Hid & HT & Hdx). split.
      * pose proof (Hcomplete ptr 0 U
                      (Derived_ReachUse f FramePtr ptr 0 HDer U HU
                         ltac:(rewrite Hk; cbn; auto))) as Hrec.
        rewrite Hk in Hrec. rewrite <- Hid. exact Hrec.
      * exists U. auto.
  - split; [exact Hincl |]. split; [exact HSE |]. split; [| split; [| split]].
    + intros e He. destruct (HE e He) as [H | (_ & H)]; [left; exact H |].
      right. exact H.
    + intros p Hp Hallu. apply (HP Linst p true HL HLD); [congruence | exact Hallu].
    + rewrite lookup_applyForwarding.
      replace (memb (getId Linst) E) with true; [reflexivity |].
      symmetry. apply memb_In. apply Hincl, HLD.
    + exact (Huses _ HLD).
Qed.

End RoundTripTheorem.

(* ===================================================================== *)
(** * Every erased instruction is a forwarded load or its address *)
(* ===================================================================== *)

Section ApplyRewriteFacts.
Import IR Spec ForwardConditions.

Lemma getId_rewriteOperands (sigma : Value -> Value) (i : Instruction) :
  getId (rewriteOperands sigma i) = getId i.
Proof. reflexivity. Qed.

Lemma rauw_applyRewrite (sigma : Value -> Value) (E : list nat)
    (f : Function_) (a b : Value) :
  replaceAllUsesWith (applyRewrite sigma E f) a b
  = applyRewrite (fun v => subst a b (sigma v)) E f.
Proof.
  unfold replaceAllUsesWith, applyRewrite. cbn [args body]. f_equal.
  induction (body f) as [| i l IH]; [reflexivity |].
  cbn [map filter]. rewrite !getId_rewriteOperands.
  destruct (memb (getId i) E); cbn [negb map].
  - exact IH.
  - rewrite IH. f_equal. unfold rewriteOperands. cbn [getId getKind getType].
    f_equal. apply mapOperands_compose.
Qed.

Lemma erase_applyRewrite (sigma : Value -> Value) (E : list nat)
    (f : Function_) (x : nat) :
  eraseFromParent (applyRewrite sigma E f) x = applyRewrite sigma (x :: E) f.
Proof.
  unfold eraseFromParent, applyRewrite. cbn [args body]. f_equal.
  induction (map (rewriteOperands sigma) (body f)) as [| i l IH];
    [reflexivity |].
  cbn [filter memb existsb]. fold (memb (getId i) E).
  destruct (memb (getId i) E); cbn [negb].
  - rewrite orb_true_r. cbn [negb]. exact IH.
  - rewrite orb_false_r. cbn [filter]. rewrite IH.
    destruct (Nat.eqb (getId i) x); reflexivity.
Qed.

Lemma lookup_applyRewrite (sigma : Value -> Value) (E : list nat)
    (f : Function_) (id : nat) :
  lookup (applyRewrite sigma E f) id =
  if memb id E then None else option_map (rewriteOperands sigma) (lookup f id).
Proof.
  unfold lookup, applyRewrite. cbn [body].
  induction (body f) as [| i l IH]; cbn [map filter find].
  - destruct (memb id E); reflexivity.
  - rewrite getId_rewriteOperands.
    destruct (Nat.eqb_spec (getId i) id) as [<- | Hne].
    + destruct (memb (getId i) E) eqn:Hm; cbn [negb].
      * rewrite IH. reflexivity.
      * cbn [find]. rewrite getId_rewriteOperands, Nat.eqb_refl. reflexivity.
    + destruct (memb (getId i) E); cbn [negb]; [exact IH |].
      cbn [find]. rewrite getId_rewriteOperands.
      destruct (Nat.eqb_spec (getId i) id); [contradiction | exact IH].
Qed.

Lemma valueType_applyRewrite (sigma : Value -> Value) (E : list nat)
    (f : Function_) (v : Value) :
  valueType (applyRewrite sigma E f) v =
  match v with
  | VInst id => if memb id E then None else valueType f v
  | _ => valueType f v
  end.
Proof.
  destruct v as [id | n | ty c]; cbn [valueType]; try reflexivity.
  rewrite lookup_applyRewrite. destruct (memb id E); [reflexivity |].
  destruct (lookup f id); reflexivity.
Qed.

Lemma applyRewrite_id (f : Function_) : applyRewrite (fun v => v) [] f = f.
Proof.
  unfold applyRewrite. cbn [memb existsb negb].
  rewrite (map_ext _ (fun i => i)), map_id, filter_all; [destruct f; reflexivity |].
  intros i. unfold rewriteOperands. rewrite mapOperands_id. destruct i; reflexivity.
Qed.

End ApplyRewriteFacts.

Section ForwardSoundness.
Import IR Forward Spec ForwardConditions.

Variable NDEBUG : bool.
Variable getTypeStoreSize : Ty -> Z.
Variable dominates : nat -> nat -> bool.
Variable f : Function_.
Variable FramePtr : Value.
Variable c : Collected.

Hypothesis Hunique : uniqueIds f.
Hypothesis Hnumbered : definedBeforeUse f.
Hypothesis Hloads : loadsOK f FramePtr c.

Let sorted := sortStores (SortedStores c).

(** The load [x] went through the checks of the loop: one collected store
    covers its first byte and starts there, the same store alone covers its
    last byte, no collected store begins strictly inside, the stored value
    has its type and the store dominates it. *)
Let forwardedFrom (x : nat) : Prop :=
  exists Offset Ls StoreInfo U Sinst val ptrS smp,
    In (Offset, Ls) (OffsetLoadMap c) /\ In x Ls /\
    In U (body f) /\ getId U = x /\
    getContaining (StoreIntervals c) Offset = [StoreInfo] /\
    left StoreInfo = Offset /\
    (exists front,
       getContaining (StoreIntervals c)
         (Offset + wrap32 (getTypeStoreSize (getType U)) - 1) = [front] /\
       value front = value StoreInfo) /\
    (forall e, In e (SortedStores c) ->
               ~ (Offset < spOffset e < right StoreInfo)) /\
    In Sinst (body f) /\ getId Sinst = value StoreInfo /\
    getKind Sinst = Store val ptrS smp /\
    valueType f val = Some (getType U) /\
    dominates (value StoreInfo) x = true.

(** [x] is the address instruction of a collected load. *)
Let addressOf (x : nat) : Prop :=
  exists U, In U (body f) /\ In (getId U) (allLoads c) /\
            getKind U = Load (VInst x) true.

Let StateInv (sigma : Value -> Value) (E : list nat) : Prop :=
  (forall v t, valueType (applyRewrite sigma E f) (sigma v) = Some t ->
               valueType f v = Some t) /\
  (forall v, sigma v <> v -> exists l, v = VInst l /\ In l (allLoads c)) /\
  (forall x, In x E -> forwardedFrom x \/ addressOf x).

Lemma valueType_applyRewrite_mono (sigma sigma' : Value -> Value)
    (E E' : list nat) (w : Value) (t : Ty) :
  incl E E' ->
  valueType (applyRewrite sigma' E' f) w = Some t ->
  valueType (applyRewrite sigma E f) w = Some t.
Proof.
  intros Hincl. rewrite !valueType_applyRewrite.
  destruct w as [id | n | ty z]; auto.
  destruct (memb id E') eqn:H'; [discriminate |].
  destruct (memb id E) eqn:H; [| auto].
  apply memb_In in H. apply Hincl in H. apply memb_In in H. congruence.
Qed.

Lemma StateInv_more (sigma : Value -> Value) (E : list nat) (x : nat) :
  StateInv sigma E -> forwardedFrom x \/ addressOf x ->
  StateInv sigma (x :: E).
Proof.
  intros (HT & HS & HJ) Hx. split; [| split; [exact HS |]].
  - intros v t H. apply HT.
    apply (valueType_applyRewrite_mono sigma sigma E (x :: E));
      [intros y Hy; right; exact Hy | exact H].
  - intros y [<- | Hy]; [exact Hx | exact (HJ y Hy)].
Qed.

(** One iteration of the inner loop. *)
Lemma forwardLoad_sound (sigma : Value -> Value) (E : list nat) (Offset : Z)
    (Ls : list nat) (StoreInfo : IntervalData) (LoadId : nat) (g' : Function_) :
  StateInv sigma E ->
  In (Offset, Ls) (OffsetLoadMap c) -> In LoadId Ls ->
  getContaining (StoreIntervals c) Offset = [StoreInfo] ->
  left StoreInfo = Offset ->
  forwardLoad NDEBUG getTypeStoreSize dominates (applyRewrite sigma E f) c
    sorted Offset StoreInfo LoadId = Ok g' ->
  exists sigma' E', g' = applyRewrite sigma' E' f /\ StateInv sigma' E'.
Proof.
  intros HInv Hentry HLs Hleft Hstart H.
  pose proof HInv as (HT & HS & HJ).
  destruct (Hloads Offset Ls Hentry) as [_ HL].
  destruct (HL LoadId HLs) as (U & ptr & HU & Hid & Hk & Hder).
  subst LoadId.
  assert (Hcol : In (getId U) (allLoads c))
    by (exact (In_allLoads c Offset Ls (getId U) Hentry HLs)).
  assert (Hptr : sigma ptr = ptr).
  { destruct (Value_eq_dec (sigma ptr) ptr) as [Heq | Hne]; [exact Heq |].
    exfalso. destruct (HS ptr Hne) as (l & -> & Hl).
    exact (load_pointer_not_load f FramePtr c Hunique Hnumbered Hloads
             Offset l Hder Hl). }
  unfold forwardLoad in H. rewrite lookup_applyRewrite in H.
  destruct (memb (getId U) E) eqn:HmE; [discriminate |].
  rewrite (lookup_unique f U Hunique HU) in H.
  cbn [option_map] in H.
  assert (HLoad : rewriteOperands sigma U =
                  {| getId := getId U; getKind := IR.Load ptr true;
                     getType := getType U |}).
  { unfold rewriteOperands. rewrite Hk. cbn [mapOperands]. rewrite Hptr.
    reflexivity. }
  rewrite HLoad in H. cbv iota beta in H. unfold sorted in H.
  destruct (forwardableStore NDEBUG getTypeStoreSize dominates
              (applyRewrite sigma E f) c (sortStores (SortedStores c)) Offset
              StoreInfo _) as [[[s val] |] | | | | |] eqn:Hs;
    cbn [bind] in H; try discriminate.
  2: { injection H as <-. exists sigma, E. auto. }
  pose proof (forwardableStore_some NDEBUG getTypeStoreSize dominates _ _ _ _ _
                _ _ Hs)
    as (-> & Hfront & Hmid & (Sc & HSc & ptrSc & smp & HkSc) & Hty & Hdoml).
  cbn [getType getId] in Hfront, Hty, Hdoml.
  rewrite lookup_applyRewrite in HSc.
  destruct (memb (value StoreInfo) E) eqn:HmS; [discriminate |].
  destruct (lookup f (value StoreInfo)) as [S0 |] eqn:HS0; [| discriminate].
  cbn [option_map] in HSc. injection HSc as <-.
  cbn [rewriteOperands getKind] in HkSc.
  destruct (getKind S0) as
    [lt cargs | p0 s0 | val0 ptr0 smp0 | a b | a b | v | v | v | v
     | p0 idx off0 | cnd a b | opc ops] eqn:HkS0;
    cbn [mapOperands] in HkSc; try discriminate.
  injection HkSc as Hval _ _.
  apply lookup_In in HS0. destruct HS0 as [HS0in HS0id].
  assert (Htyf : valueType f val0 = Some (getType U)).
  { apply HT. rewrite Hval. exact Hty. }
  assert (Hjust : forwardedFrom (getId U)).
  { exists Offset, Ls, StoreInfo, U, S0, val0, ptr0, smp0.
    repeat split; auto. }
  (* the state after replaceAllUsesWith and eraseFromParent *)
  rewrite rauw_applyRewrite, erase_applyRewrite in H.
  set (sigma1 := fun v => subst (VInst (getId U)) val (sigma v)) in H.
  assert (HInv1 : StateInv sigma1 (getId U :: E)).
  { split; [| split].
    - intros v t Hv.
      pose proof (valueType_applyRewrite_mono sigma sigma1 E (getId U :: E) _ t
                    ltac:(intros y Hy; right; exact Hy) Hv) as Hv'.
      unfold sigma1, subst in Hv'.
      destruct (Value_eqb (sigma v) (VInst (getId U))) eqn:Ev.
      + apply Value_eqb_eq in Ev.
        assert (t = getType U) by congruence. subst t.
        apply HT. rewrite Ev, valueType_applyRewrite, HmE.
        cbn [valueType]. rewrite (lookup_unique f U Hunique HU).
        reflexivity.
      + apply HT. exact Hv'.
    - intros v Hv. destruct (Value_eq_dec (sigma v) v) as [Heq | Hne];
        [| exact (HS v Hne)].
      unfold sigma1, subst in Hv. rewrite Heq in Hv.
      destruct (Value_eqb v (VInst (getId U))) eqn:Ev; [| congruence].
      apply Value_eqb_eq in Ev. exists (getId U). auto.
    - intros x [<- | Hx]; [left; exact Hjust | exact (HJ x Hx)]. }
  destruct (negb (use_empty (applyRewrite sigma1 (getId U :: E) f) ptr)).
  { injection H as <-. exists sigma1, (getId U :: E). auto. }
  destruct ptr as [p | n | ty z].
  - rewrite erase_applyRewrite in H. injection H as <-.
    exists sigma1, (p :: getId U :: E). split; [reflexivity |].
    apply StateInv_more; [exact HInv1 |]. right.
    exists U. auto.
  - injection H as <-. exists sigma1, (getId U :: E). auto.
  - injection H as <-. exists sigma1, (getId U :: E). auto.
Qed.

Lemma forwardLoads_sound (Offset : Z) (Ls : list nat)
    (StoreInfo : IntervalData) :
  In (Offset, Ls) (OffsetLoadMap c) ->
  getContaining (StoreIntervals c) Offset = [StoreInfo] ->
  left StoreInfo = Offset ->
  forall Loads sigma E g',
    incl Loads Ls -> StateInv sigma E ->
    forwardLoads NDEBUG getTypeStoreSize dominates (applyRewrite sigma E f) c
      sorted Offset StoreInfo Loads = Ok g' ->
    exists sigma' E', g' = applyRewrite sigma' E' f /\ StateInv sigma' E'.
Proof.
  intros Hentry Hleft Hstart.
  induction Loads as [| l Loads IH]; intros sigma E g' Hsub HInv H;
    cbn [forwardLoads] in H.
  - injection H as <-. exists sigma, E. auto.
  - destruct (forwardLoad NDEBUG getTypeStoreSize dominates
                (applyRewrite sigma E f) c sorted Offset StoreInfo l)
      as [g1 | | | | |] eqn:H1; cbn [bind] in H; try discriminate.
    destruct (forwardLoad_sound sigma E Offset Ls StoreInfo l g1 HInv Hentry
                (Hsub l (or_introl eq_refl)) Hleft Hstart H1)
      as (sigma1 & E1 & -> & HInv1).
    apply (IH sigma1 E1 g'); [| exact HInv1 | exact H].
    intros x Hx. apply Hsub. right. exact Hx.
Qed.

Lemma forwardGroups_sound :
  forall entries sigma E g',
    incl entries (OffsetLoadMap c) -> StateInv sigma E ->
    forwardGroups NDEBUG getTypeStoreSize dominates (applyRewrite sigma E f) c
      sorted entries = Ok g' ->
    exists sigma' E', g' = applyRewrite sigma' E' f /\ StateInv sigma' E'.
Proof.
  induction entries as [| [Offset Ls] entries IH]; intros sigma E g' Hsub HInv H;
    cbn [forwardGroups] in H.
  - injection H as <-. exists sigma, E. auto.
  - destruct (forwardGroup NDEBUG getTypeStoreSize dominates
                (applyRewrite sigma E f) c sorted (Offset, Ls))
      as [g1 | | | | |] eqn:H1; cbn [bind] in H; try discriminate.
    assert (Hg1 : exists sigma1 E1,
              g1 = applyRewrite sigma1 E1 f /\ StateInv sigma1 E1).
    { unfold forwardGroup in H1.
      destruct (assert NDEBUG _ _); cbn [bind] in H1; try discriminate.
      destruct (getContaining (StoreIntervals c) Offset)
        as [| StoreInfo [| ? ?]] eqn:Hleft;
        try (injection H1 as <-; exists sigma, E; auto).
      destruct (Z.eqb_spec Offset (left StoreInfo)) as [Hstart | Hne];
        cbn [negb] in H1; [| injection H1 as <-; exists sigma, E; auto].
      exact (forwardLoads_sound Offset Ls StoreInfo
               (Hsub _ (or_introl eq_refl)) Hleft (eq_sym Hstart) Ls sigma E g1
               (incl_refl _) HInv H1). }
    destruct Hg1 as (sigma1 & E1 & -> & HInv1).
    apply (IH sigma1 E1 g'); [| exact HInv1 | exact H].
    intros x Hx. apply Hsub. right. exact Hx.
Qed.

(** Every instruction that the second phase erases is a load that went
    through the checks or the address instruction of a collected load. *)
Lemma forwardGroups_erased (g' : Function_) (x : Instruction) :
  forwardGroups NDEBUG getTypeStoreSize dominates f c sorted (OffsetLoadMap c)
    = Ok g' ->
  In x (body f) -> lookup g' (getId x) = None ->
  forwardedFrom (getId x) \/ addressOf (getId x).
Proof.
  intros H Hx Hl.
  assert (HInv0 : StateInv (fun v => v) []).
  { split; [| split].
    - intros v t. rewrite applyRewrite_id. auto.
    - intros v Hv. congruence.
    - intros y []. }
  rewrite <- (applyRewrite_id f) in H at 1.
  destruct (forwardGroups_sound _ _ _ _ (incl_refl _) HInv0 H)
    as (sigma & E & -> & (_ & _ & HJ)).
  apply HJ. rewrite lookup_applyRewrite in Hl.
  destruct (memb (getId x) E) eqn:Hm; [apply memb_In; exact Hm |].
  rewrite (lookup_unique f x Hunique Hx) in Hl. discriminate.
Qed.

End ForwardSoundness.

Section ForwardNegativeCases.
Import IR Forward Spec ForwardConditions.

(** C1.  In a well-formed function, [forwardContinuationFrameStoreToLoad]
    forwards a load from the frame pointer (the load is no longer in the
    function it returns) only when a simple store through a pointer derived
    from the frame pointer starts at the load's offset, stores a value of the
    load's type, so that it covers exactly the loaded bytes, and dominates the
    load, and no other store through a pointer derived from the frame pointer
    covers the first or the last loaded byte or begins strictly inside the
    loaded range.  In particular, with 4-byte stores at offsets 0 and 4
    followed by an 8-byte load at offset 0, and with an 8-byte store at
    offset 0 followed by a 4-byte store at offset 4 and an 8-byte load at
    offset 0, the function is returned unchanged and the load remains. *)
Theorem forward_only_sole_exact_store (NDEBUG : bool)
    (dominates : nat -> nat -> bool) :
  (forall getTypeStoreSize fuel f FramePtr f' L ptr isSimple off0,
     uniqueIds f -> definedBeforeUse f ->
     forwardContinuationFrameStoreToLoad NDEBUG getTypeStoreSize dominates
       fuel f FramePtr = Ok f' ->
     In L (body f) -> getKind L = Load ptr isSimple ->
     Derived f FramePtr ptr off0 ->
     lookup f' (getId L) = None ->
     exists off Sinst val ptrS,
       Derived f FramePtr ptr off /\
       In Sinst (body f) /\ getKind Sinst = Store val ptrS true /\
       Derived f FramePtr ptrS off /\
       valueType f val = Some (getType L) /\
       dominates (getId Sinst) (getId L) = true /\
       forall St val' ptr' isSimple' off' ty',
         In St (body f) -> getKind St = Store val' ptr' isSimple' ->
         Derived f FramePtr ptr' off' -> valueType f val' = Some ty' ->
         St <> Sinst ->
         let n := wrap32 (getTypeStoreSize (getType L)) in
         let n' := wrap32 (getTypeStoreSize ty') in
         ~ (off' <= off <= off' + n' - 1) /\
         ~ (off' <= off + n - 1 <= off' + n' - 1) /\
         ~ (off < off' < off + n - 1)) /\
  (forall fuel,
     forwardContinuationFrameStoreToLoad NDEBUG Examples.exampleDL dominates
       (4 + fuel) Examples.frameSplitStores (VArg 0)
     = Ok Examples.frameSplitStores) /\
  lookup Examples.frameSplitStores 4
    = Some (Examples.inst 4 (Load (VArg 0) true) Examples.i64) /\
  (forall fuel,
     forwardContinuationFrameStoreToLoad NDEBUG Examples.exampleDL dominates
       (4 + fuel) Examples.frameInteriorStore (VArg 0)
     = Ok Examples.frameInteriorStore) /\
  lookup Examples.frameInteriorStore 4
    = Some (Examples.inst 4 (Load (VArg 0) true) Examples.i64).
Proof.
  split; [| split; [| split; [| split]]].
  2: { intros fuel. destruct NDEBUG, fuel; vm_compute; reflexivity. }
  2: reflexivity.
  2: { intros fuel. destruct NDEBUG, fuel; vm_compute; reflexivity. }
  2: reflexivity.
  intros DL fuel f FramePtr f' L ptr smp off0 Hu Hn Hrun HL HLk HLder Hgone.
  set (wl0 := pushUses (uses f FramePtr) 0 []).
  assert (Hinit : forall pu, In pu wl0 ->
            isUse f pu /\ Derived f FramePtr (get (Ptr pu)) (Offset pu))
    by (apply initial_worklist).
  assert (Hinit' : forall pu, In pu wl0 -> isUse f pu)
    by (intros pu Hpu; exact (proj1 (Hinit pu Hpu))).
  assert (Hpresent : lookup f (getId L) <> None)
    by (rewrite (lookup_unique f L Hu HL); discriminate).
  unfold forwardContinuationFrameStoreToLoad in Hrun. fold wl0 in Hrun.
  destruct (walk NDEBUG DL fuel f wl0 emptyCollected) as [[| c] | | | | |] eqn:Hw;
    cbn [bind] in Hrun; try discriminate.
  { injection Hrun as <-. contradiction. }
  destruct (isEmpty (StoreIntervals c)).
  { injection Hrun as <-. contradiction. }
  assert (Hempty : loadsOK f FramePtr emptyCollected /\
                   storesOK DL f FramePtr emptyCollected /\
                   sortedMatches emptyCollected).
  { split; [intros o ls [] | split; [intros iv [] | reflexivity]]. }
  destruct (walk_collected_ok NDEBUG DL f Hu FramePtr _ _ _ _
              Hinit Hempty Hw) as (Hloads & Hstores & Hsm).
  destruct (walk_complete NDEBUG DL f Hu _ _ _ _ Hinit' Hw)
    as [Hcomplete _].
  destruct (forwardGroups_erased NDEBUG DL dominates f FramePtr c Hu Hn Hloads
              f' L Hrun HL Hgone) as [Hfw | Had].
  - destruct Hfw as (Offset & Ls & StoreInfo & U & Sinst & val & ptrS & smpS
                     & Hentry & HxLs & HU & Hid & Hleft & Hstart & Hfront
                     & Hmid & HSin & HSid & HSk & Hty & Hdoml).
    assert (U = L) by (apply (unique_by_id f Hu); assumption). subst U.
    destruct (Hloads Offset Ls Hentry) as [_ HLs].
    destruct (HLs _ HxLs) as (U' & ptr' & HU' & Hid' & Hk' & Hder').
    assert (U' = L) by (apply (unique_by_id f Hu); assumption). subst U'.
    assert (ptr' = ptr) by congruence. subst ptr'.
    assert (HinS : In StoreInfo (StoreIntervals c)).
    { assert (H : In StoreInfo (getContaining (StoreIntervals c) Offset))
        by (rewrite Hleft; left; reflexivity).
      apply filter_In in H. exact (proj1 H). }
    destruct (Hstores StoreInfo HinS)
      as (US & valS & ptrS' & tyS & HUS & HUSid & HUSk & HtyS & Hright & HderS).
    assert (US = Sinst) by (apply (unique_by_id f Hu); congruence). subst US.
    assert (valS = val) by congruence. subst valS.
    assert (ptrS' = ptrS) by congruence. subst ptrS'.
    assert (tyS = getType L) by congruence. subst tyS.
    rewrite Hstart in Hright, HderS.
    exists Offset, Sinst, val, ptrS.
    split; [exact Hder' |]. split; [exact HSin |].
    split; [congruence |]. split; [exact HderS |]. split; [exact Hty |].
    split; [rewrite HSid; exact Hdoml |].
    intros St val' ptr2 smp' off' ty' HSt HStk HStder HStty Hne. cbv zeta.
    pose proof (Hcomplete ptr2 off' St
                  (Derived_ReachUse f FramePtr ptr2 off' HStder St HSt
                     ltac:(rewrite HStk; cbn; auto))) as Hrec.
    rewrite HStk in Hrec.
    destruct Hrec as (iv & ty & Hiv & Hivl & Hivv & Hivty & Hivr).
    assert (ty = ty') by congruence. subst ty.
    assert (Hother : value iv <> value StoreInfo).
    { intros E. apply Hne. apply (unique_by_id f Hu); congruence. }
    split; [| split].
    + intros Hcov.
      assert (H : In iv (getContaining (StoreIntervals c) Offset)).
      { apply filter_In. split; [exact Hiv |].
        apply andb_true_iff. split; apply Z.leb_le; lia. }
      rewrite Hleft in H. destruct H as [H | []]. congruence.
    + intros Hcov. destruct Hfront as (front & Hf & Hfv).
      assert (H : In iv (getContaining (StoreIntervals c)
                           (Offset + wrap32 (DL (getType L)) - 1))).
      { apply filter_In. split; [exact Hiv |].
        apply andb_true_iff. split; apply Z.leb_le; lia. }
      rewrite Hf in H. destruct H as [H | []]. congruence.
    + intros Hin.
      apply (Hmid {| spOffset := left iv; spStore := value iv |}).
      * unfold sortedMatches in Hsm. rewrite Hsm.
        apply in_map_iff. exists iv. auto.
      * cbn [spOffset]. lia.
  - exfalso. destruct Had as (U & HU & Hcol & Hk).
    destruct (collected_load f FramePtr c Hloads _ Hcol)
      as (o & U' & ptr' & HU' & Hid' & Hk' & Hder').
    assert (U' = U) by (apply (unique_by_id f Hu); assumption). subst U'.
    assert (ptr' = VInst (getId L)) by congruence. subst ptr'.
    assert (Hfp : FramePtr = VInst (getId L)).
    { inversion Hder' as [Hf | q off delta U0 HD0 HU0 Hop0 Hp0 Hq];
        [reflexivity |].
      exfalso. assert (U0 = L) by (apply (unique_by_id f Hu); congruence).
      subst U0. rewrite HLk in Hp0. discriminate. }
    rewrite Hfp in HLder.
    destruct (derived_from_instruction f _ _ _ Hn HLder) as (x & -> & Hx).
    assert (Hlt : (x < getId L)%nat).
    { apply (Hn L x HL); rewrite HLk; cbn; auto. }
    lia.
Qed.

End ForwardNegativeCases.

Section ExampleFrames.
Import IR Forward Spec.

Ltac solve_uniqueIds :=
  unfold uniqueIds; cbn;
  repeat (constructor; [cbn; intuition discriminate |]); constructor.

Ltac solve_definedBeforeUse :=
  intros i j Hin Hk Hop; cbn in Hin;
  repeat (destruct Hin as [<- | Hin]; [cbn in Hk, Hop |- * |]);
  try contradiction;
  repeat match goal with
         | H : _ \/ _ |- _ => destruct H
         | H : VInst _ = VInst _ |- _ => inversion H; subst; clear H
         end; try discriminate; try contradiction; try lia.

Ltac solve_operandsDefined :=
  intros i v Hin Hop; cbn in Hin;
  repeat (destruct Hin as [<- | Hin]; [cbn in Hop |]);
  try contradiction;
  repeat match goal with
         | H : _ \/ _ |- _ => destruct H
         end; subst; try contradiction; cbn; discriminate.

Lemma frameVolatile_uniqueIds : uniqueIds Examples.frameVolatile.
Proof. solve_uniqueIds. Qed.

Lemma frameVolatile_definedBeforeUse : definedBeforeUse Examples.frameVolatile.
Proof. solve_definedBeforeUse. Qed.

Lemma frameVolatile_operandsDefined : operandsDefined Examples.frameVolatile.
Proof. solve_operandsDefined. Qed.

Lemma forward_gives_up_unchanged_witness :
  abortsWalk (Load (VArg 0) false) (VArg 0) = true /\
  forwardContinuationFrameStoreToLoad false Examples.exampleDL Nat.ltb
    10 Examples.frameVolatile (VArg 0) = Ok Examples.frameVolatile.
Proof.
  split; [reflexivity |].
  pose proof (proj2 (forward_gives_up_unchanged false Examples.exampleDL Nat.ltb
                 Examples.frameVolatile (VArg 0) (VArg 0) 0
                 (Examples.inst 3 (Load (VArg 0) false) Examples.i32)
                 frameVolatile_uniqueIds frameVolatile_definedBeforeUse
                 frameVolatile_operandsDefined
                 (Derived_frame _ _)
                 ltac:(cbn; tauto) ltac:(cbn; tauto) eq_refl)) as H.
  destruct (forwardContinuationFrameStoreToLoad false Examples.exampleDL Nat.ltb
              10 Examples.frameVolatile (VArg 0)) as [f' | | | | |] eqn:E;
    try discriminate E.
  rewrite (H 10%nat f' E). reflexivity.
Defined.

End ExampleFrames.

Section RoundTripExample.
Import IR Forward Spec ForwardConditions.

Lemma frameRoundTrip_uniqueIds : uniqueIds Examples.frameRoundTrip.
Proof.
  unfold uniqueIds; cbn;
  repeat (constructor; [cbn; intuition discriminate |]); constructor.
Qed.

Lemma frameRoundTrip_definedBeforeUse : definedBeforeUse Examples.frameRoundTrip.
Proof.
  intros i j Hin Hk Hop; cbn in Hin;
  repeat (destruct Hin as [<- | Hin]; [cbn in Hk, Hop |- * |]);
  try contradiction;
  repeat match goal with
         | H : _ \/ _ |- _ => destruct H
         | H : VInst _ = VInst _ |- _ => inversion H; subst; clear H
         end; try discriminate; try contradiction; try lia.
Qed.

Lemma frameRoundTrip_operandsDefined : operandsDefined Examples.frameRoundTrip.
Proof.
  intros i v Hin Hop; cbn in Hin;
  repeat (destruct Hin as [<- | Hin]; [cbn in Hop |]);
  try contradiction;
  repeat match goal with
         | H : _ \/ _ |- _ => destruct H
         end; subst; try contradiction; cbn; discriminate.
Qed.

(** The pointers derived from the frame pointer of [frameRoundTrip]: the
    frame pointer and its bitcast, both at offset 0. *)
Lemma frameRoundTrip_derived (p : Value) (off : Z) :
  Derived Examples.frameRoundTrip (VArg 0) p off ->
  (p = VArg 0 \/ p = VInst 2) /\ off = 0.
Proof.
  induction 1 as [| p off delta U HD IH HU Hop Hp]; [auto |].
  destruct IH as [_ ->]. cbn in HU.
  repeat (destruct HU as [<- | HU]; [cbn in Hp; try discriminate |]);
    try contradiction.
  injection Hp as <-. auto.
Qed.

Lemma frameRoundTrip_neverGivesUp :
  neverGivesUp Examples.frameRoundTrip (VArg 0).
Proof.
  intros p off U HD HU Hop.
  destruct (frameRoundTrip_derived p off HD) as [[-> | ->] _]; cbn in HU;
    repeat (destruct HU as [<- | HU]; [cbn in Hop |- * |]);
    try contradiction; try reflexivity;
    repeat match goal with
           | H : _ \/ _ |- _ => destruct H
           end; try discriminate; try contradiction.
Qed.

Lemma frameRoundTrip_indices :
  indicesAreNoFramePointers Examples.frameRoundTrip (VArg 0).
Proof.
  intros U ptr idx co v off HU Hk. cbn in HU.
  repeat (destruct HU as [<- | HU]; [cbn in Hk; discriminate |]).
  contradiction.
Qed.

Lemma frameRoundTrip_onlyStore :
  onlyStoreToFrame Examples.frameRoundTrip (VArg 0)
    (Examples.inst 1 (Store (VArg 1) (VArg 0) true) VoidTy).
Proof.
  intros U val ptr smp off HU Hk HD.
  destruct (frameRoundTrip_derived ptr off HD) as [_ ->]. cbn in HU.
  repeat (destruct HU as [<- | HU]; [cbn in Hk; try discriminate |]);
    try contradiction.
  auto.
Qed.

Lemma frameRoundTrip_loads (U : Instruction) :
  frameLoadAt Examples.frameRoundTrip (VArg 0) 0 U ->
  1 <= wrap32 (Examples.exampleDL (getType U)) <= 4.
Proof.
  intros (ptr & HU & Hk & _). cbn in HU.
  repeat (destruct HU as [<- | HU]; [cbn in Hk; try discriminate |]);
    try contradiction.
  vm_compute. split; discriminate.
Qed.

Lemma forward_only_sole_exact_store_witness :
  forwardContinuationFrameStoreToLoad false Examples.exampleDL Nat.ltb 10
    Examples.frameRoundTrip (VArg 0)
  = Ok {| args := [PointerTy 0; Examples.i32];
          body := [ Examples.inst 1 (Store (VArg 1) (VArg 0) true) VoidTy;
                    Examples.inst 5 (Other 0 [VArg 1]) VoidTy ] |} /\
  exists off Sinst val ptrS,
    Derived Examples.frameRoundTrip (VArg 0) (VInst 2) off /\
    In Sinst (body Examples.frameRoundTrip) /\
    getKind Sinst = Store val ptrS true /\
    Derived Examples.frameRoundTrip (VArg 0) ptrS off /\
    valueType Examples.frameRoundTrip val = Some Examples.i32 /\
    Nat.ltb (getId Sinst) 4 = true.
Proof.
  split; [reflexivity |].
  destruct (proj1 (forward_only_sole_exact_store false Nat.ltb)
              Examples.exampleDL 10%nat Examples.frameRoundTrip (VArg 0)
              {| args := [PointerTy 0; Examples.i32];
                 body := [ Examples.inst 1 (Store (VArg 1) (VArg 0) true) VoidTy;
                           Examples.inst 5 (Other 0 [VArg 1]) VoidTy ] |}
              (Examples.inst 4 (Load (VInst 2) true) Examples.i32)
              (VInst 2) true 0
              frameRoundTrip_uniqueIds frameRoundTrip_definedBeforeUse
              eq_refl
              ltac:(cbn; tauto) eq_refl
              (Derived_step Examples.frameRoundTrip (VArg 0) (VArg 0) 0 0
                 (Examples.inst 2 (BitCast (VArg 0)) (PointerTy 0))
                 (Derived_frame _ _) ltac:(cbn; tauto) ltac:(cbn; tauto)
                 eq_refl)
              eq_refl)
    as (off & Sinst & val & ptrS & H1 & H2 & H3 & H4 & H5 & H6 & _).
  exists off, Sinst, val, ptrS. auto 10.
Defined.

Lemma forward_round_trip_witness :
  exists D E,
    forwardContinuationFrameStoreToLoad false Examples.exampleDL Nat.ltb
      10 Examples.frameRoundTrip (VArg 0)
    = Ok (applyForwarding D E (VArg 1) Examples.frameRoundTrip) /\
    In 4%nat D /\ In 2%nat E /\
    lookup (applyForwarding D E (VArg 1) Examples.frameRoundTrip) 4 = None /\
    uses (applyForwarding D E (VArg 1) Examples.frameRoundTrip) (VInst 4) = [].
Proof.
  destruct (forward_round_trip false Examples.exampleDL Nat.ltb
              Examples.frameRoundTrip (VArg 0)
              (Examples.inst 1 (Store (VArg 1) (VArg 0) true) VoidTy)
              (Examples.inst 4 (Load (VInst 2) true) Examples.i32)
              (VArg 1) (VArg 0) (VInst 2) Examples.i32
              frameRoundTrip_uniqueIds frameRoundTrip_definedBeforeUse
              frameRoundTrip_operandsDefined
              (fun a b H => proj1 (Nat.ltb_lt a b) H)
              frameRoundTrip_neverGivesUp frameRoundTrip_indices
              ltac:(cbn; tauto) eq_refl (Derived_frame _ _) eq_refl eq_refl
              frameRoundTrip_onlyStore
              ltac:(cbn; tauto) eq_refl
              (Derived_step Examples.frameRoundTrip (VArg 0) (VArg 0) 0 0
                 (Examples.inst 2 (BitCast (VArg 0)) (PointerTy 0))
                 (Derived_frame _ _) ltac:(cbn; tauto) ltac:(cbn; tauto)
                 eq_refl)
              eq_refl eq_refl
              (or_intror frameRoundTrip_loads))
    as (D & E & _ & Hany & _ & HD & _ & _ & _ & Hptr & Hgone & Huses).
  exists D, E. split; [| split; [exact HD | split; [| split]]].
  - rewrite <- (Hany 10%nat _ eq_refl). reflexivity.
  - apply (Hptr 2%nat eq_refl).
    intros u Hu. cbn in Hu. destruct Hu as [<- | []]. exact HD.
  - exact Hgone.
  - exact Huses.
Defined.

(** C2, counterexample.  In [frameVolatile] and in [frameWideLoad] a simple
    store of a 4-byte value at offset 0 is the only store to the frame and
    precedes a simple load of the same type at offset 0 (instruction 2).  In
    the first the analysis gives up at the volatile load and the load stays;
    in the second a build with assertions stops at the assertion on the
    8-byte load at the same offset. *)
Lemma forward_round_trip_counterexample :
  forwardContinuationFrameStoreToLoad true Examples.exampleDL Nat.ltb 10
    Examples.frameVolatile (VArg 0) = Ok Examples.frameVolatile /\
  lookup Examples.frameVolatile 2
    = Some (Examples.inst 2 (Load (VArg 0) true) Examples.i32) /\
  Nat.ltb 1 2 = true /\
  forwardContinuationFrameStoreToLoad false Examples.exampleDL Nat.ltb 10
    Examples.frameWideLoad (VArg 0)
  = AssertionFailed "!IntersectionsRight.empty()".
Proof. repeat split; reflexivity. Qed.

End RoundTripExample.

(* ===================================================================== *)
(** * Properties of [replaceAllPointerUses] *)
(* ===================================================================== *)




Section RewriteFacts.
Import IR AddrSpaceRewrite Spec.

Lemma nth_error_setNth_same {A : Type} (l : list A) (k : nat) (x y : A) :
  nth_error l k = Some y -> nth_error (setNth k x l) k = Some x.
Proof.
  revert k. induction l as [| a l IH]; intros [| k] H; cbn in *;
    try discriminate; [reflexivity | apply IH; exact H].
Qed.

Lemma nth_error_setNth_other {A : Type} (l : list A) (k k' : nat) (x : A) :
  k <> k' -> nth_error (setNth k x l) k' = nth_error l k'.
Proof.
  revert k k'. induction l as [| a l IH]; intros [| k] [| k'] H; cbn;
    try reflexivity; [contradiction | apply IH; congruence].
Qed.

Lemma unused_uses (f : Function_) (v : Value) :
  unused f v <-> uses f v = [].
Proof.
  split.
  - intros H. destruct (uses f v) as [| u us] eqn:E; [reflexivity |].
    exfalso. assert (Hu : In u (uses f v)) by (rewrite E; left; reflexivity).
    apply uses_In in Hu. destruct Hu as (i & Hi & _ & _ & Hop).
    exact (H i Hi Hop).
  - intros H i Hi Hop. destruct (In_uses f v i Hi Hop) as (u & Hu & _).
    rewrite H in Hu. contradiction.
Qed.

Lemma In_body_erase (f : Function_) (x : nat) (i : Instruction) :
  In i (body (eraseFromParent f x)) <-> In i (body f) /\ getId i <> x.
Proof.
  unfold eraseFromParent. cbn [body]. rewrite filter_In.
  destruct (Nat.eqb_spec (getId i) x); cbn [negb]; intuition congruence.
Qed.

Lemma lookup_erase (f : Function_) (x y : nat) :
  lookup (eraseFromParent f x) y = if Nat.eqb y x then None else lookup f y.
Proof.
  unfold lookup, eraseFromParent. cbn [body].
  induction (body f) as [| i b IH]; cbn [filter find].
  - destruct (Nat.eqb y x); reflexivity.
  - destruct (Nat.eqb_spec (getId i) x) as [Hx | Hx]; cbn [negb find].
    + rewrite IH. destruct (Nat.eqb_spec y x) as [-> | Hy]; [reflexivity |].
      destruct (Nat.eqb_spec (getId i) y); [congruence | reflexivity].
    + destruct (Nat.eqb_spec (getId i) y) as [Hy | Hy].
      * destruct (Nat.eqb_spec y x); [congruence | reflexivity].
      * exact IH.
Qed.


Lemma retypeIf_id (x : nat) (t : Ty) (i : Instruction) :
  getId (retypeIf x t i) = getId i.
Proof. unfold retypeIf. destruct (Nat.eqb (getId i) x); reflexivity. Qed.

Lemma retypeIf_kind (x : nat) (t : Ty) (i : Instruction) :
  getKind (retypeIf x t i) = getKind i.
Proof. unfold retypeIf. destruct (Nat.eqb (getId i) x); reflexivity. Qed.

Lemma body_mutateType (f : Function_) (x : nat) (t : Ty) :
  body (mutateType f (VInst x) t) = map (retypeIf x t) (body f).
Proof. reflexivity. Qed.

Lemma lookup_map (g : Instruction -> Instruction) (f : Function_) (b : list Instruction)
    (y : nat) :
  (forall i, getId (g i) = getId i) ->
  find (fun i => Nat.eqb (getId i) y) (map g b)
  = option_map g (find (fun i => Nat.eqb (getId i) y) b).
Proof.
  intros Hg. induction b as [| i b IH]; [reflexivity |].
  cbn [map find]. rewrite Hg. destruct (Nat.eqb (getId i) y); [reflexivity | exact IH].
Qed.

Lemma lookup_mutateType (f : Function_) (x : nat) (t : Ty) (y : nat) :
  lookup (mutateType f (VInst x) t) y = option_map (retypeIf x t) (lookup f y).
Proof.
  unfold lookup. rewrite body_mutateType.
  apply (lookup_map _ f). apply retypeIf_id.
Qed.


Lemma lookup_rauw (f : Function_) (a b : Value) (y : nat) :
  lookup (replaceAllUsesWith f a b) y = option_map (rauwInst a b) (lookup f y).
Proof.
  unfold lookup, replaceAllUsesWith. cbn [body].
  apply (lookup_map (rauwInst a b) f). reflexivity.
Qed.

Lemma isLifetimeMarker_mapOperands (g : Value -> Value) (k : Instr) :
  isLifetimeMarker (mapOperands g k) = isLifetimeMarker k.
Proof. destruct k; reflexivity. Qed.

Lemma rauw_unused (f : Function_) (a b : Value) :
  unused f a -> replaceAllUsesWith f a b = f.
Proof.
  intros H. unfold replaceAllUsesWith. destruct f as [ar bd]. cbn [args body] in *.
  f_equal. unfold unused in H. cbn [body] in H.
  induction bd as [| i bd IH]; [reflexivity |]. cbn [map]. f_equal.
  - assert (Hi : ~ In a (operands (getKind i))) by (apply H; left; reflexivity).
    destruct i as [id k ty]. cbn [getId getKind getType] in *. f_equal.
    assert (Hs : forall v, In v (operands k) -> subst a b v = v).
    { intros v Hv. unfold subst. destruct (Value_eqb v a) eqn:E; [| reflexivity].
      apply Value_eqb_eq in E. subst v. contradiction. }
    clear - Hs.
    assert (Hm : forall l, (forall v, In v l -> subst a b v = v) ->
                           map (subst a b) l = l).
    { induction l as [| v l IHl]; intros Hl; [reflexivity |]. cbn [map].
      rewrite (Hl v (or_introl eq_refl)), IHl; [reflexivity |].
      intros w Hw. apply Hl. right. exact Hw. }
    destruct k; cbn [mapOperands operands] in *;
      rewrite ?Hm by (intros v Hv; apply Hs; cbn; auto);
      rewrite ?Hs by (cbn; auto); reflexivity.
  - apply IH. intros j Hj. apply H. right. exact Hj.
Qed.

Lemma mutateType_same (f : Function_) (v : Value) (T : Ty) :
  retyped f v T -> mutateType f v T = f.
Proof.
  destruct v as [o | k | ty z]; cbn [retyped mutateType].
  - intros [_ H]. destruct f as [ar bd]. cbn [args body] in *. f_equal.
    induction bd as [| i bd IH]; [reflexivity |]. cbn [map]. f_equal.
    + destruct (Nat.eqb_spec (getId i) o) as [E | _]; [| reflexivity].
      destruct (H i (or_introl eq_refl) E) as [HT _].
      destruct i; cbn in *. congruence.
    + apply IH. intros j Hj. apply H. right. exact Hj.
  - intros H. destruct f as [ar bd]. cbn [args body] in *. f_equal.
    revert k H. induction ar as [| a ar IH]; intros k H;
      [destruct k; reflexivity |].
    destruct k as [| k]; cbn [setNth nth_error] in *.
    + congruence.
    + f_equal. apply IH. exact H.
  - reflexivity.
Qed.

Variable Old New : Value.
Variable NewAS : nat.
Hypothesis Hdistinct : Old <> New.


Lemma pointerRewritten_erase (g : Function_) (x : nat) (i : Instruction) :
  pointerRewritten Old New (PointerTy NewAS) g -> lookup g x = Some i -> isLifetimeMarker (getKind i) = true ->
  pointerRewritten Old New (PointerTy NewAS) (eraseFromParent g x).
Proof.
  intros (Hu & Ho & Hn) Hl Hlt. apply lookup_In in Hl as Hi.
  destruct Hi as [Hi Hid]. split; [| split].
  - intros j Hj. apply In_body_erase in Hj. apply Hu. exact (proj1 Hj).
  - destruct Old as [o | k | ty z]; cbn [retyped] in *; try exact Ho.
    destruct Ho as [(io & Hio) Hall].
    assert (Hne : o <> x).
    { intros ->. destruct (Hall i Hi Hid) as [_ Hf]. congruence. }
    split.
    + exists io. rewrite lookup_erase.
      destruct (Nat.eqb_spec o x); [contradiction | exact Hio].
    + intros j Hj. apply In_body_erase in Hj. apply Hall. exact (proj1 Hj).
  - destruct New as [n | k | ty z]; cbn [hasPointerType] in *; try exact Hn.
    destruct Hn as (i' & Hi' & HT & Hf). exists i'.
    rewrite lookup_erase. destruct (Nat.eqb_spec n x) as [-> | _]; [| auto].
    assert (i' = i) by congruence. subst i'. congruence.
Qed.

Lemma pointerRewritten_mutateType (g : Function_) (x : nat) :
  pointerRewritten Old New (PointerTy NewAS) g -> pointerRewritten Old New (PointerTy NewAS) (mutateType g (VInst x) (PointerTy NewAS)).
Proof.
  intros (Hu & Ho & Hn). split; [| split].
  - intros j Hj. rewrite body_mutateType in Hj. apply in_map_iff in Hj.
    destruct Hj as (j0 & <- & Hj0). rewrite retypeIf_kind. apply Hu. exact Hj0.
  - destruct Old as [o | k | ty z]; cbn [retyped] in *; try exact Ho.
    destruct Ho as [(io & Hio) Hall]. split.
    + rewrite lookup_mutateType, Hio. cbn. eauto.
    + intros j Hj Hid. rewrite body_mutateType in Hj. apply in_map_iff in Hj.
      destruct Hj as (j0 & <- & Hj0). rewrite retypeIf_id in Hid.
      rewrite retypeIf_kind. destruct (Hall j0 Hj0 Hid) as [HT Hf].
      split; [| exact Hf]. unfold retypeIf.
      destruct (Nat.eqb (getId j0) x); [reflexivity | exact HT].
  - destruct New as [n | k | ty z]; cbn [hasPointerType] in *; try exact Hn.
    destruct Hn as (i' & Hi' & HT & Hf). exists (retypeIf x (PointerTy NewAS) i').
    rewrite lookup_mutateType, Hi'. split; [reflexivity |].
    rewrite retypeIf_kind. split; [| exact Hf]. unfold retypeIf.
    destruct (Nat.eqb (getId i') x); [reflexivity | exact HT].
Qed.

Lemma pointerRewritten_rauw (g : Function_) (a b : Value) :
  pointerRewritten Old New (PointerTy NewAS) g -> b <> Old -> pointerRewritten Old New (PointerTy NewAS) (replaceAllUsesWith g a b).
Proof.
  intros (Hu & Ho & Hn) Hb. split; [| split].
  - intros j Hj. unfold replaceAllUsesWith in Hj. cbn [body] in Hj.
    apply in_map_iff in Hj. destruct Hj as (j0 & <- & Hj0). cbn [getKind].
    rewrite operands_mapOperands. intros Hin. apply in_map_iff in Hin.
    destruct Hin as (v & Hv & Hvin). unfold subst in Hv.
    destruct (Value_eqb v a); [congruence |]. subst v. exact (Hu j0 Hj0 Hvin).
  - destruct Old as [o | k | ty z]; cbn [retyped] in *; try exact Ho.
    destruct Ho as [(io & Hio) Hall]. split.
    + rewrite lookup_rauw, Hio. cbn. eauto.
    + intros j Hj Hid. unfold replaceAllUsesWith in Hj. cbn [body] in Hj.
      apply in_map_iff in Hj. destruct Hj as (j0 & <- & Hj0).
      cbn [getId getKind getType] in *. rewrite isLifetimeMarker_mapOperands.
      exact (Hall j0 Hj0 Hid).
  - destruct New as [n | k | ty z]; cbn [hasPointerType] in *; try exact Hn.
    destruct Hn as (i' & Hi' & HT & Hf). exists (rauwInst a b i').
    rewrite lookup_rauw, Hi'. split; [reflexivity |]. cbn [rauwInst getType getKind].
    rewrite isLifetimeMarker_mapOperands. auto.
Qed.

Lemma GetMutatedPtrTy_ok (NDEBUG : bool) (t t' : Ty) :
  GetMutatedPtrTy NDEBUG NewAS t = Ok t' -> t' = (PointerTy NewAS).
Proof.
  unfold GetMutatedPtrTy. destruct (castPointerType NDEBUG t); cbn [bind];
    try discriminate. unfold getWithSamePointeeType.
  intros H. inversion H. reflexivity.
Qed.

Lemma doRAUW_pointerRewritten (NDEBUG : bool) (g g' : Function_) (a b : Value) :
  pointerRewritten Old New (PointerTy NewAS) g -> b <> Old -> doRAUW NDEBUG g a b = Ok g' -> pointerRewritten Old New (PointerTy NewAS) g'.
Proof.
  intros HQ Hb. unfold doRAUW.
  destruct (Value_eqb a b).
  - destruct NDEBUG; [| discriminate].
    destruct (use_empty g a); [| discriminate]. congruence.
  - intros H. inversion H; subst g'. apply pointerRewritten_rauw; assumption.
Qed.

Lemma visit_pointerRewritten (NDEBUG : bool) (st st' : State) (Ptr : nat)
    (wl wl' : list nat) :
  visit NDEBUG NewAS st Ptr wl = Ok (st', wl') -> pointerRewritten Old New (PointerTy NewAS) (fn st) -> pointerRewritten Old New (PointerTy NewAS) (fn st').
Proof.
  unfold visit. intros H HQ.
  destruct (lookup (fn st) Ptr) as [Inst |] eqn:Hl; [| discriminate].
  destruct (getKind Inst) as
    [lt cargs | ptr simple | val ptr simple | a b | a b | v | v | v | v
     | ptr idx off | cnd a b | opc ops] eqn:Hk.
  - destruct lt; [| discriminate]. inversion H; subst st' wl'. cbn [fn].
    apply (pointerRewritten_erase _ _ Inst HQ Hl). rewrite Hk. reflexivity.
  - inversion H; subst; exact HQ.
  - inversion H; subst; exact HQ.
  - inversion H; subst; exact HQ.
  - inversion H; subst; exact HQ.
  - inversion H; subst; exact HQ.
  - destruct (GetMutatedPtrTy NDEBUG NewAS (getType Inst)) as [t | | | | |] eqn:Ht;
      cbn [bind] in H; try discriminate.
    apply GetMutatedPtrTy_ok in Ht. subst t.
    inversion H; subst st' wl'. cbn [fn]. apply pointerRewritten_mutateType. exact HQ.
  - destruct (typeOf (fn st) v); cbn [bind] in H; try discriminate.
    destruct (assert NDEBUG _ _); cbn [bind] in H; try discriminate.
    destruct (GetMutatedPtrTy NDEBUG NewAS (getType Inst)) as [t | | | | |] eqn:Ht;
      cbn [bind] in H; try discriminate.
    apply GetMutatedPtrTy_ok in Ht. subst t.
    inversion H; subst st' wl'. cbn [fn]. apply pointerRewritten_mutateType. exact HQ.
  - destruct (typeOf (fn st) v); cbn [bind] in H; try discriminate.
    destruct (castPointerType NDEBUG _); cbn [bind] in H; try discriminate.
    destruct (assert NDEBUG _ _); cbn [bind] in H; try discriminate.
    destruct (GetMutatedPtrTy NDEBUG NewAS (getType Inst)) as [t | | | | |] eqn:Ht;
      cbn [bind] in H; try discriminate.
    apply GetMutatedPtrTy_ok in Ht. subst t.
    destruct (doRAUW NDEBUG _ (VInst Ptr) v) as [g' | | | | |] eqn:Hr;
      cbn [bind] in H; try discriminate.
    inversion H; subst st' wl'. cbn [fn].
    apply (doRAUW_pointerRewritten NDEBUG _ g' (VInst Ptr) v (pointerRewritten_mutateType _ Ptr HQ)); [| exact Hr].
    intros Hv. destruct HQ as (Hu & _). apply lookup_In in Hl.
    apply (Hu Inst (proj1 Hl)). rewrite Hk. cbn. left. exact Hv.
  - destruct (GetMutatedPtrTy NDEBUG NewAS (getType Inst)) as [t | | | | |] eqn:Ht;
      cbn [bind] in H; try discriminate.
    apply GetMutatedPtrTy_ok in Ht. subst t.
    inversion H; subst st' wl'. cbn [fn]. apply pointerRewritten_mutateType. exact HQ.
  - destruct (isPointerTy (getType Inst)).
    + destruct (GetMutatedPtrTy NDEBUG NewAS (getType Inst)) as [t | | | | |] eqn:Ht;
        cbn [bind] in H; try discriminate.
      apply GetMutatedPtrTy_ok in Ht. subst t.
      destruct (Ty_eqb _ (getType Inst)).
      * inversion H; subst; exact HQ.
      * inversion H; subst st' wl'. cbn [fn]. apply pointerRewritten_mutateType. exact HQ.
    + inversion H; subst; exact HQ.
  - discriminate.
Qed.

Lemma loop_pointerRewritten (NDEBUG : bool) :
  forall fuel st wl st',
    loop NDEBUG NewAS fuel st wl = Ok st' -> pointerRewritten Old New (PointerTy NewAS) (fn st) -> pointerRewritten Old New (PointerTy NewAS) (fn st').
Proof.
  induction fuel as [| fuel IH]; intros st wl st' H HQ.
  - destruct wl; [| discriminate]. cbn in H. congruence.
  - destruct wl as [| Ptr wl]; [cbn in H; congruence |].
    cbn [loop] in H.
    destruct (visit NDEBUG NewAS st Ptr wl) as [[st1 wl1] | | | | |] eqn:Hv;
      cbn [bind] in H; try discriminate.
    cbn [fst snd] in H. apply (IH _ _ _ H). exact (visit_pointerRewritten _ _ _ _ _ _ Hv HQ).
Qed.

Lemma pointerRewritten_initial (f : Function_) (oldTy : Ty) :
  isConstant Old = false -> notLifetimeMarker f Old -> notLifetimeMarker f New ->
  typeOf f Old = Ok oldTy -> typeOf f New = Ok (PointerTy NewAS) ->
  pointerRewritten Old New (PointerTy NewAS) (replaceAllUsesWith (mutateType f Old (PointerTy NewAS)) Old New).
Proof.
  intros Hc HlO HlN HtO HtN. split; [| split].
  - intros j Hj. unfold replaceAllUsesWith in Hj. cbn [body] in Hj.
    apply in_map_iff in Hj. destruct Hj as (j0 & <- & Hj0). cbn [getKind].
    rewrite operands_mapOperands. intros Hin. apply in_map_iff in Hin.
    destruct Hin as (v & Hv & _). unfold subst in Hv.
    destruct (Value_eqb v Old) eqn:E.
    + apply Hdistinct. symmetry. exact Hv.
    + apply Value_eqb_neq in E. contradiction.
  - unfold typeOf, valueType in HtO.
    destruct Old as [o | k | ty z]; cbn [retyped isConstant] in *;
      [| | discriminate].
    + destruct (lookup f o) as [io |] eqn:Hio; [| discriminate]. split.
      * rewrite lookup_rauw, lookup_mutateType, Hio. cbn. eauto.
      * intros j Hj Hid. unfold replaceAllUsesWith in Hj. cbn [body] in Hj.
        apply in_map_iff in Hj. destruct Hj as (j1 & <- & Hj1).
        rewrite body_mutateType in Hj1. apply in_map_iff in Hj1.
        destruct Hj1 as (j0 & <- & Hj0). cbn [getId getKind getType] in *.
        rewrite isLifetimeMarker_mapOperands, retypeIf_kind.
        rewrite retypeIf_id in Hid. split.
        -- unfold retypeIf. apply Nat.eqb_eq in Hid. rewrite Hid. reflexivity.
        -- apply (HlO j0 Hj0). congruence.
    + cbn [replaceAllUsesWith mutateType args].
      destruct (nth_error (args f) k) as [t0 |] eqn:Hk; [| discriminate].
      exact (nth_error_setNth_same _ _ _ _ Hk).
  - unfold typeOf, valueType in HtN.
    destruct New as [n | k | ty z]; cbn [hasPointerType] in *.
    + destruct (lookup f n) as [i' |] eqn:Hi'; [| discriminate].
      cbn in HtN. apply lookup_In in Hi' as Hin.
      assert (Hlt : isLifetimeMarker (getKind i') = false).
      { apply (HlN i' (proj1 Hin)). f_equal. symmetry. exact (proj2 Hin). }
      assert (HT : getType i' = (PointerTy NewAS)) by congruence.
      rewrite lookup_rauw.
      destruct Old as [o | k | ty z].
      * rewrite lookup_mutateType, Hi'. cbn [option_map]. eexists.
        split; [reflexivity |]. cbn [rauwInst getType getKind].
        rewrite isLifetimeMarker_mapOperands, retypeIf_kind.
        split; [| exact Hlt]. unfold retypeIf.
        destruct (Nat.eqb (getId i') o); [reflexivity | exact HT].
      * unfold lookup in *. cbn [mutateType body]. rewrite Hi'.
        cbn [option_map]. eexists. split; [reflexivity |].
        cbn [rauwInst getType getKind].
        rewrite isLifetimeMarker_mapOperands. auto.
      * cbn [mutateType]. rewrite Hi'. cbn [option_map]. eexists.
        split; [reflexivity |]. cbn [rauwInst getType getKind].
        rewrite isLifetimeMarker_mapOperands. auto.
    + cbn [replaceAllUsesWith args].
      assert (Hk : nth_error (args f) k = Some (PointerTy NewAS))
        by (destruct (nth_error (args f) k); [congruence | discriminate]).
      destruct Old as [o | k0 | ty z]; cbn [mutateType args]; try exact Hk.
      destruct (Nat.eq_dec k0 k) as [-> | Hne].
      * exact (nth_error_setNth_same _ _ _ _ Hk).
      * rewrite nth_error_setNth_other by exact Hne. exact Hk.
    + congruence.
Qed.

Lemma pointerRewritten_typeOf_old (g : Function_) :
  pointerRewritten Old New (PointerTy NewAS) g -> typeOf g Old = Ok (PointerTy NewAS).
Proof.
  clear Hdistinct. intros (_ & Ho & _). unfold typeOf, valueType.
  destruct Old as [o | k | ty z]; cbn [retyped] in Ho.
  - destruct Ho as [(io & Hio) Hall]. rewrite Hio. cbn [option_map].
    apply lookup_In in Hio. destruct Hio as [Hin Hid].
    rewrite (proj1 (Hall io Hin Hid)). reflexivity.
  - rewrite Ho. reflexivity.
  - rewrite Ho. reflexivity.
Qed.

Lemma pointerRewritten_typeOf_new (g : Function_) :
  pointerRewritten Old New (PointerTy NewAS) g -> typeOf g New = Ok (PointerTy NewAS).
Proof.
  clear Hdistinct. intros (_ & _ & Hn). unfold typeOf, valueType.
  destruct New as [n | k | ty z]; cbn [hasPointerType] in Hn.
  - destruct Hn as (i & Hi & HT & _). rewrite Hi. cbn [option_map].
    rewrite HT. reflexivity.
  - rewrite Hn. reflexivity.
  - rewrite Hn. reflexivity.
Qed.

(** Once the pointer is rewritten, a further call finds nothing to do when
    assertions are compiled out, and fails its first assertion otherwise. *)
Lemma pointerRewritten_second_run (st : State) (fuel : nat) :
  pointerRewritten Old New (PointerTy NewAS) (fn st) ->
  replaceAllPointerUses true fuel (fn st) Old New (ToBeRemoved st) = Ok st /\
  replaceAllPointerUses false fuel (fn st) Old New (ToBeRemoved st)
    = AssertionFailed "NewAS != OldPtrTy->getAddressSpace()".
Proof.
  intros HQ. unfold replaceAllPointerUses.
  rewrite (pointerRewritten_typeOf_old _ HQ), (pointerRewritten_typeOf_new _ HQ).
  cbn [bind castPointerType]. rewrite Nat.eqb_refl. cbn [negb].
  split; [| reflexivity].
  cbn [assert orb bind]. destruct HQ as (Hu & Ho & _).
  rewrite (mutateType_same _ _ _ Ho). unfold users.
  rewrite (proj1 (unused_uses _ _) Hu). cbn [map rev].
  unfold doRAUW. rewrite (proj2 (Value_eqb_neq Old New) Hdistinct).
  rewrite (rauw_unused _ _ _ Hu). cbn [bind].
  destruct st as [g tbr]. destruct fuel; reflexivity.
Qed.

Lemma castPointerType_ok (NDEBUG : bool) (t : Ty) (a : nat) :
  castPointerType NDEBUG t = Ok a -> t = PointerTy a.
Proof.
  destruct t; cbn; try (destruct NDEBUG; discriminate). congruence.
Qed.

Lemma replaceAllPointerUses_pointerRewritten (NDEBUG : bool) (fuel : nat)
    (f : Function_) (tbr : list nat) (st : State) :
  isConstant Old = false -> notLifetimeMarker f Old -> notLifetimeMarker f New ->
  typeOf f New = Ok (PointerTy NewAS) ->
  replaceAllPointerUses NDEBUG fuel f Old New tbr = Ok st ->
  pointerRewritten Old New (PointerTy NewAS) (fn st).
Proof.
  intros Hc HlO HlN HtN. unfold replaceAllPointerUses. rewrite HtN.
  destruct (typeOf f Old) as [oldTy | | | | |] eqn:HtO; cbn [bind];
    try discriminate.
  destruct (castPointerType NDEBUG oldTy) as [OldAS | | | | |]; cbn [bind];
    try discriminate.
  cbn [castPointerType bind].
  destruct (assert NDEBUG (negb _) _); cbn [bind]; try discriminate.
  destruct (assert NDEBUG (Ty_eqb _ _) _); cbn [bind]; try discriminate.
  unfold doRAUW. rewrite (proj2 (Value_eqb_neq Old New) Hdistinct). cbn [bind].
  intros Hloop. apply (loop_pointerRewritten _ _ _ _ _ Hloop). cbn [fn].
  exact (pointerRewritten_initial f oldTy Hc HlO HlN HtO HtN).
Qed.

End RewriteFacts.

Section RewriteIdempotence.
Import IR AddrSpaceRewrite Spec.

Lemma unchangedExceptLifetimeMarkers_refl (f : Function_) :
  unchangedExceptLifetimeMarkers f f.
Proof.
  split; [reflexivity |]. exists []. split; [intros i _ [] |].
  induction (body f) as [| i b IH]; [reflexivity |].
  cbn. f_equal. exact IH.
Qed.

(** C8 (amended).  After a successful rewrite of [Old] into [New] (distinct
    values, [Old] not a constant, neither defined by a lifetime marker),
    [Old] is in the target address space and has no use left.  Invoking the
    rewrite a second time with the same arguments then leaves the function,
    and with it the instruction count and the use graph, exactly as it is
    when assertions are compiled out; in a build with assertions the second
    call fails the assertion [NewAS != OldPtrTy->getAddressSpace()]. *)
Theorem replaceAllPointerUses_second_run (NDEBUG : bool) (fuel : nat)
    (f : Function_) (Old New : Value) (tbr : list nat) (st : State) :
  Old <> New ->
  isConstant Old = false ->
  notLifetimeMarker f Old ->
  notLifetimeMarker f New ->
  replaceAllPointerUses NDEBUG fuel f Old New tbr = Ok st ->
  uses (fn st) Old = [] /\
  typeOf (fn st) Old = typeOf (fn st) New /\
  forall fuel',
    replaceAllPointerUses true fuel' (fn st) Old New (ToBeRemoved st) = Ok st /\
    rewriteLeavesUnchanged true fuel' (fn st) Old New (ToBeRemoved st) /\
    replaceAllPointerUses false fuel' (fn st) Old New (ToBeRemoved st)
      = AssertionFailed "NewAS != OldPtrTy->getAddressSpace()".
Proof.
  intros Hd Hc HlO HlN Hrun.
  assert (HN : exists NewAS, typeOf f New = Ok (PointerTy NewAS)).
  { unfold replaceAllPointerUses in Hrun.
    destruct (typeOf f Old); cbn [bind] in Hrun; try discriminate.
    destruct (typeOf f New) as [newTy | | | | |]; cbn [bind] in Hrun;
      try discriminate.
    destruct (castPointerType NDEBUG _); cbn [bind] in Hrun; try discriminate.
    destruct (castPointerType NDEBUG newTy) as [nAS | | | | |] eqn:Hcast;
      cbn [bind] in Hrun; try discriminate.
    apply castPointerType_ok in Hcast. subst newTy. eauto. }
  destruct HN as [NewAS HtN].
  pose proof (replaceAllPointerUses_pointerRewritten Old New NewAS Hd NDEBUG fuel f
                tbr st Hc HlO HlN HtN Hrun) as HQ.
  split; [| split].
  - apply unused_uses. exact (proj1 HQ).
  - rewrite (pointerRewritten_typeOf_old _ _ _ _ HQ), (pointerRewritten_typeOf_new _ _ _ _ HQ).
    reflexivity.
  - intros fuel'.
    destruct (pointerRewritten_second_run Old New NewAS Hd st fuel' HQ) as [Ht Hf].
    split; [exact Ht | split; [| exact Hf]].
    exists st. split; [exact Ht | apply unchangedExceptLifetimeMarkers_refl].
Qed.

Lemma rewriteFunction_run :
  replaceAllPointerUses false 10 Examples.rewriteFunction (VArg 0) (VArg 1) []
    = Ok {| fn := Examples.rewriteFunctionRewritten; ToBeRemoved := [] |}.
Proof. vm_compute. reflexivity. Qed.

Lemma replaceAllPointerUses_second_run_witness :
  replaceAllPointerUses false 10 Examples.rewriteFunction (VArg 0) (VArg 1) []
    = Ok {| fn := Examples.rewriteFunctionRewritten; ToBeRemoved := [] |} /\
  uses Examples.rewriteFunctionRewritten (VArg 0) = [] /\
  replaceAllPointerUses true 10 Examples.rewriteFunctionRewritten (VArg 0) (VArg 1) []
    = Ok {| fn := Examples.rewriteFunctionRewritten; ToBeRemoved := [] |}.
Proof.
  split; [exact rewriteFunction_run |].
  pose proof (replaceAllPointerUses_second_run false 10 Examples.rewriteFunction
                (VArg 0) (VArg 1) []
                {| fn := Examples.rewriteFunctionRewritten; ToBeRemoved := [] |}
                ltac:(discriminate) eq_refl
                ltac:(intros i _ Hi; discriminate Hi)
                ltac:(intros i _ Hi; discriminate Hi)
                rewriteFunction_run) as (Hu & _ & Hrun).
  split; [exact Hu | exact (proj1 (Hrun 10%nat))].
Defined.

(** C8 (as stated).  A rewrite whose new pointer is in the address space the
    old pointer already has does change the use graph when the old pointer
    has uses: they become uses of the new pointer.  With assertions enabled
    the call does not return at all, also when it is the second call after
    a rewrite that succeeded. *)
Lemma replaceAllPointerUses_same_space_counterexample :
  typeOf Examples.sameSpaceFunction (VArg 0) = Ok (PointerTy 5) /\
  typeOf Examples.sameSpaceFunction (VArg 1) = Ok (PointerTy 5) /\
  replaceAllPointerUses true 10 Examples.sameSpaceFunction (VArg 0) (VArg 1) []
    = Ok {| fn := Examples.sameSpaceRewritten; ToBeRemoved := [] |} /\
  ~ rewriteLeavesUnchanged true 10 Examples.sameSpaceFunction
      (VArg 0) (VArg 1) [] /\
  ~ rewriteLeavesUnchanged false 10 Examples.sameSpaceFunction
      (VArg 0) (VArg 1) [] /\
  replaceAllPointerUses false 10 Examples.rewriteFunction (VArg 0) (VArg 1) []
    = Ok {| fn := Examples.rewriteFunctionRewritten; ToBeRemoved := [] |} /\
  ~ rewriteLeavesUnchanged false 10 Examples.rewriteFunctionRewritten
      (VArg 0) (VArg 1) [].
Proof.
  assert (Hrun :
    replaceAllPointerUses true 10 Examples.sameSpaceFunction (VArg 0) (VArg 1) []
      = Ok {| fn := Examples.sameSpaceRewritten; ToBeRemoved := [] |})
    by (vm_compute; reflexivity).
  repeat split; try reflexivity; try exact Hrun.
  - intros (st & Hst & _ & er & _ & Hb). rewrite Hrun in Hst.
    injection Hst as <-. cbn [fn] in Hb.
    assert (Hin : In (Examples.inst 1 (Load (VArg 1) true) Examples.i32)
                     (body Examples.sameSpaceRewritten)) by (left; reflexivity).
    rewrite Hb in Hin. apply filter_In in Hin. destruct Hin as [Hin _].
    cbn in Hin. destruct Hin as [Hin | [Hin | []]]; discriminate Hin.
  - intros (st & Hst & _). vm_compute in Hst. discriminate Hst.
  - intros (st & Hst & _). vm_compute in Hst. discriminate Hst.
Qed.

End RewriteIdempotence.

(* ===================================================================== *)
(** * Further properties of [LowerGpuRt] *)
(* ===================================================================== *)

Section LowerGpuRtRunFacts.
Import LowerGpuRt Spec Notions.

Lemma OpDecl_eqb_eq (a b : OpDecl) : OpDecl_eqb a b = true <-> a = b.
Proof. destruct a, b; cbn; split; intros H; try reflexivity; discriminate. Qed.

Lemma existsb_OpDecl_In (d : OpDecl) (s : list OpDecl) :
  existsb (OpDecl_eqb d) s = true <-> In d s.
Proof.
  rewrite existsb_exists. split.
  - intros (x & Hx & E). apply OpDecl_eqb_eq in E. subst. exact Hx.
  - intros H. exists d. split; [exact H | apply OpDecl_eqb_eq; reflexivity].
Qed.

Lemma In_setInsert (d x : OpDecl) (s : list OpDecl) :
  In x (setInsert d s) <-> x = d \/ In x s.
Proof.
  unfold setInsert. destruct (existsb (OpDecl_eqb d) s) eqn:E.
  - apply existsb_OpDecl_In in E. split; [auto |]. intros [-> | H]; assumption.
  - rewrite in_app_iff. cbn. intuition congruence.
Qed.

Lemma NoDup_setInsert (d : OpDecl) (s : list OpDecl) :
  NoDup s -> NoDup (setInsert d s).
Proof.
  intros H. unfold setInsert. destruct (existsb (OpDecl_eqb d) s) eqn:E;
    [exact H |].
  assert (Hn : ~ In d s).
  { intros Hin. apply existsb_OpDecl_In in Hin. congruence. }
  clear E. induction H as [| a s Ha Hs IH]; cbn.
  - constructor; [intros [] | constructor].
  - constructor.
    + rewrite in_app_iff. cbn. intros [Hin | [-> | []]];
        [contradiction | apply Hn; left; reflexivity].
    + apply IH. intros Hin. apply Hn. right. exact Hin.
Qed.

(** What the visitor loop of [run] leaves behind: each instruction replaced
    as [loweredBy] says, the calls recorded in order, and the set of their
    declarations. *)
Lemma visitAll_loweredBy (NDEBUG : bool) (ps : PipelineState) (l : list Inst) :
  forall st st',
    visitAll NDEBUG ps st l = Ok st' ->
    exists l',
      rewritten st' = rewritten st ++ l' /\
      Forall2 (loweredBy NDEBUG ps) l l' /\
      m_callsToLower st' = m_callsToLower st ++ callsOf l /\
      (forall d, In d (m_funcsToLower st') <->
                 In d (m_funcsToLower st) \/ In d (calledDecls l)) /\
      (NoDup (m_funcsToLower st) -> NoDup (m_funcsToLower st')).
Proof.
  induction l as [| i l IH]; intros st st' H; cbn [visitAll] in H.
  - inversion H; subst. exists []. rewrite !app_nil_r.
    repeat split; try constructor; cbn; tauto.
  - destruct (visitInst NDEBUG ps st i) as [st1 | | | | |] eqn:E;
      cbn [bind] in H; try discriminate.
    destruct (IH st1 st' H) as (l' & Hr & Hf & Hc & Hd & Hn).
    unfold visitInst in E.
    destruct i as [op | effects replacement | n].
    + destruct (visit NDEBUG ps op) as [r | | | | |] eqn:Hv; cbn [bind] in E;
        try discriminate.
      inversion E; subst st1; clear E. cbn in Hr, Hc, Hd, Hn.
      exists (Lowered (fst r) (snd r) :: l').
      unfold calledDecls in *. cbn [callsOf flat_map map app].
      rewrite Hr, Hc, <- !app_assoc. repeat split.
      * constructor; [cbn; eauto | exact Hf].
      * intros Hin. apply Hd in Hin. rewrite In_setInsert in Hin.
        cbn. intuition auto.
      * intros Hin. apply Hd. rewrite In_setInsert. cbn in Hin.
        intuition auto.
      * intros HN. apply Hn. apply NoDup_setInsert. exact HN.
    + inversion E; subst st1; clear E. cbn in Hr, Hc, Hd, Hn.
      exists (Lowered effects replacement :: l'). cbn [callsOf flat_map].
      rewrite Hr, Hc, <- !app_assoc. repeat split; try apply Hd; try exact Hn.
      constructor; [reflexivity | exact Hf].
    + inversion E; subst st1; clear E. cbn in Hr, Hc, Hd, Hn.
      exists (OtherInst n :: l'). cbn [callsOf flat_map].
      rewrite Hr, Hc, <- !app_assoc. repeat split; try apply Hd; try exact Hn.
      constructor; [reflexivity | exact Hf].
Qed.

Lemma loweredBy_no_call (NDEBUG : bool) (ps : PipelineState) (l l' : list Inst) :
  Forall2 (loweredBy NDEBUG ps) l l' -> existsb isCall l' = false.
Proof.
  induction 1 as [| i r l l' Hi _ IH]; [reflexivity |].
  cbn [existsb]. rewrite IH, orb_false_r.
  destruct i as [op | |]; cbn in Hi.
  - destruct Hi as (e & _ & ->). reflexivity.
  - subst r. reflexivity.
  - subst r. reflexivity.
Qed.

Lemma Forall2_nth_error {A B : Type} (R : A -> B -> Prop) (l : list A)
    (l' : list B) (n : nat) (a : A) :
  Forall2 R l l' -> nth_error l n = Some a ->
  exists b, nth_error l' n = Some b /\ R a b.
Proof.
  intros H. revert n. induction H as [| x y l l' Hxy _ IH]; intros [| n] Hn;
    cbn in *; try discriminate.
  - inversion Hn; subst. eauto.
  - apply IH. exact Hn.
Qed.

Lemma run_inversion (NDEBUG : bool) (ps : PipelineState) (m m' : Module_)
    (pa : PreservedAnalyses) :
  run NDEBUG ps m = Ok (pa, m') ->
  exists stack st,
    createGlobalStack NDEBUG ps m = Ok stack /\
    visitAll NDEBUG ps
      {| rewritten := []; m_callsToLower := []; m_funcsToLower := [] |}
      (insts m) = Ok st /\
    m' = {| globals := globals m
                       ++ match stack with Some g => [g] | None => [] end;
            declarations :=
              filter (fun d => negb (existsb (OpDecl_eqb d) (m_funcsToLower st)))
                     (declarations m);
            insts := rewritten st |}.
Proof.
  unfold run. intros H.
  destruct (createGlobalStack NDEBUG ps m) as [stack | | | | |];
    cbn [bind] in H; try discriminate.
  destruct (visitAll NDEBUG ps _ (insts m)) as [st | | | | |];
    cbn [bind] in H; try discriminate.
  exists stack, st. split; [reflexivity |]. split; [reflexivity |].
  destruct (negb _); inversion H; reflexivity.
Qed.

(** X1.  When [run] completes, the instruction list of the module has the
    same length as before, position by position: a gpurt call is replaced by
    exactly the effects and value its visitor returns, every other
    instruction is left as it is, and no gpurt call remains. *)
Theorem run_lowers_every_call (NDEBUG : bool) (ps : PipelineState)
    (m m' : Module_) (pa : PreservedAnalyses) :
  run NDEBUG ps m = Ok (pa, m') ->
  List.length (insts m') = List.length (insts m) /\
  existsb isCall (insts m') = false /\
  forall n i, nth_error (insts m) n = Some i ->
    exists r, nth_error (insts m') n = Some r /\ loweredBy NDEBUG ps i r.
Proof.
  intros H. destruct (run_inversion _ _ _ _ _ H) as (stack & st & _ & Hv & ->).
  destruct (visitAll_loweredBy _ _ _ _ _ Hv) as (l' & Hr & Hf & _).
  cbn [rewritten app insts] in *. rewrite Hr. split; [| split].
  - symmetry. exact (Forall2_length Hf).
  - exact (loweredBy_no_call _ _ _ _ Hf).
  - intros n i Hn. exact (Forall2_nth_error _ _ _ _ _ Hf Hn).
Qed.

Lemma run_lowers_every_call_witness :
  exists r,
    nth_error [Lowered [] (ConstInt32 1024); OtherInst 0] 0 = Some r /\
    loweredBy false examplePipeline (Call GpurtGetStackSizeOp) r.
Proof.
  exact (proj2 (proj2 (run_lowers_every_call false examplePipeline
           {| globals := []; declarations := [DeclGetStackSize];
              insts := [Call GpurtGetStackSizeOp; OtherInst 0] |}
           {| globals := []; declarations := [];
              insts := [Lowered [] (ConstInt32 1024); OtherInst 0] |}
           PreservedAnalyses_all eq_refl)) 0%nat (Call GpurtGetStackSizeOp)
           eq_refl).
Defined.

Lemma filter_ext_In {A : Type} (f g : A -> bool) (l : list A) :
  (forall a, In a l -> f a = g a) -> filter f l = filter g l.
Proof.
  induction l as [| a l IH]; intros H; [reflexivity |]. cbn.
  rewrite (H a (or_introl eq_refl)), IH; [reflexivity |].
  intros b Hb. apply H. right. exact Hb.
Qed.

Lemma existsb_ext_In (d : OpDecl) (s s' : list OpDecl) :
  (forall x, In x s <-> In x s') ->
  existsb (OpDecl_eqb d) s = existsb (OpDecl_eqb d) s'.
Proof.
  intros H. destruct (existsb (OpDecl_eqb d) s') eqn:E.
  - apply existsb_OpDecl_In. apply H. apply existsb_OpDecl_In. exact E.
  - destruct (existsb (OpDecl_eqb d) s) eqn:E'; [| reflexivity].
    apply existsb_OpDecl_In in E'. apply H in E'.
    apply existsb_OpDecl_In in E'. congruence.
Qed.

(** X2.  When [run] completes, the declarations it erased are exactly those
    of the operations called in the module: the remaining declarations are
    the others, in their order, so the declaration of an operation that is
    never called stays.  The globals are the ones the module had, followed by
    the [LdsStack] global (address space 3, alignment 4) exactly when the
    module has a stack read, write or init operation. *)
Theorem run_declarations_and_globals (NDEBUG : bool) (ps : PipelineState)
    (m m' : Module_) (pa : PreservedAnalyses) :
  run NDEBUG ps m = Ok (pa, m') ->
  declarations m' =
    filter (fun d => negb (existsb (OpDecl_eqb d) (calledDecls (insts m))))
           (declarations m) /\
  (forall d, In d (declarations m') <->
             In d (declarations m) /\ ~ In d (calledDecls (insts m))) /\
  (existsb isStackOp (insts m) = false -> globals m' = globals m) /\
  (existsb isStackOp (insts m) = true ->
   exists g, globals m' = globals m ++ [g] /\ gvName g = "LdsStack" /\
             addrSpace g = 3 /\ alignment g = 4).
Proof.
  intros H. destruct (run_inversion _ _ _ _ _ H) as (stack & st & Hs & Hv & ->).
  destruct (visitAll_loweredBy _ _ _ _ _ Hv) as (l' & _ & _ & _ & Hd & _).
  cbn [m_funcsToLower declarations globals] in *.
  assert (Hfilter :
    filter (fun d => negb (existsb (OpDecl_eqb d) (m_funcsToLower st)))
           (declarations m)
    = filter (fun d => negb (existsb (OpDecl_eqb d) (calledDecls (insts m))))
             (declarations m)).
  { apply filter_ext_In. intros d _. f_equal. apply existsb_ext_In.
    intros x. rewrite Hd. cbn. tauto. }
  rewrite Hfilter. split; [reflexivity |]. split.
  - intros d. rewrite filter_In, negb_true_iff.
    split; intros [Hin Hn]; (split; [exact Hin |]).
    + intros Hc. apply existsb_OpDecl_In in Hc. congruence.
    + destruct (existsb _ _) eqn:E; [| reflexivity].
      apply existsb_OpDecl_In in E. contradiction.
  - unfold createGlobalStack in Hs. rewrite collectPayload_spec in Hs.
    cbn [needGlobalStack needExtraStack] in Hs.
    split; intros Hst; rewrite Hst in Hs.
    + inversion Hs. apply app_nil_r.
    + destruct (getWorkgroupSize NDEBUG ps) as [w | | | | |]; cbn [bind] in Hs;
        try discriminate.
      inversion Hs. eexists. split; [reflexivity |]. cbn. auto.
Qed.

Lemma run_declarations_and_globals_witness :
  In DeclGetStackBase [DeclGetStackBase] <->
  In DeclGetStackBase [DeclGetStackSize; DeclGetStackBase] /\
  ~ In DeclGetStackBase
      (calledDecls [Call GpurtGetStackSizeOp; Call GpurtGetStackSizeOp]).
Proof.
  exact (proj1 (proj2 (run_declarations_and_globals false examplePipeline
           {| globals := []; declarations := [DeclGetStackSize; DeclGetStackBase];
              insts := [Call GpurtGetStackSizeOp; Call GpurtGetStackSizeOp] |}
           {| globals := []; declarations := [DeclGetStackBase];
              insts := [Lowered [] (ConstInt32 1024);
                        Lowered [] (ConstInt32 1024)] |}
           PreservedAnalyses_all eq_refl)) DeclGetStackBase).
Defined.

Lemma visitAll_no_calls (NDEBUG : bool) (ps : PipelineState) (l : list Inst) :
  forall st,
    existsb isCall l = false ->
    visitAll NDEBUG ps st l =
      Ok {| rewritten := rewritten st ++ l;
            m_callsToLower := m_callsToLower st;
            m_funcsToLower := m_funcsToLower st |}.
Proof.
  induction l as [| i l IH]; intros st Hn; cbn [visitAll].
  - rewrite app_nil_r. destruct st; reflexivity.
  - cbn [existsb] in Hn. apply orb_false_iff in Hn. destruct Hn as [Hi Hl].
    destruct i as [op | e r | n]; [discriminate | |];
      cbn [visitInst bind]; rewrite (IH _ Hl); cbn;
      rewrite <- app_assoc; reflexivity.
Qed.

Lemma run_no_calls (NDEBUG : bool) (ps : PipelineState) (m : Module_) :
  existsb isCall (insts m) = false ->
  run NDEBUG ps m = Ok (PreservedAnalyses_none, m).
Proof.
  intros Hn. unfold run, createGlobalStack. rewrite collectPayload_spec.
  cbn [needGlobalStack]. rewrite (no_call_no_stack_op _ Hn). cbn [bind].
  rewrite (visitAll_no_calls _ _ _ _ Hn). cbn.
  rewrite filter_all, app_nil_r. destruct m; reflexivity.
Qed.

(** X3.  The pass is idempotent: run on a module that an earlier run
    returned, with any pipeline state and in either build, it finds no call
    to lower, creates no second [LdsStack] global, erases no declaration,
    and returns [PreservedAnalyses::none()] with the module as it is. *)
Theorem run_idempotent (NDEBUG NDEBUG' : bool) (ps ps' : PipelineState)
    (m m' : Module_) (pa : PreservedAnalyses) :
  run NDEBUG ps m = Ok (pa, m') ->
  run NDEBUG' ps' m' = Ok (PreservedAnalyses_none, m').
Proof.
  intros H. apply run_no_calls.
  destruct (run_inversion _ _ _ _ _ H) as (stack & st & _ & Hv & ->).
  destruct (visitAll_loweredBy _ _ _ _ _ Hv) as (l' & Hr & Hf & _).
  cbn [rewritten app insts] in *. rewrite Hr.
  exact (loweredBy_no_call _ _ _ _ Hf).
Qed.

Lemma run_idempotent_witness :
  run true examplePipeline
    {| globals := []; declarations := [];
       insts := [Lowered [] (ConstInt32 1024); OtherInst 0] |}
  = Ok (PreservedAnalyses_none,
        {| globals := []; declarations := [];
           insts := [Lowered [] (ConstInt32 1024); OtherInst 0] |}).
Proof.
  exact (run_idempotent false true examplePipeline examplePipeline
           {| globals := []; declarations := [DeclGetStackSize];
              insts := [Call GpurtGetStackSizeOp; OtherInst 0] |}
           {| globals := []; declarations := [];
              insts := [Lowered [] (ConstInt32 1024); OtherInst 0] |}
           PreservedAnalyses_all eq_refl).
Defined.

End LowerGpuRtRunFacts.
Section WorkgroupSizeFacts.
Import LowerGpuRt Spec Notions.

Lemma getWorkgroupSize_cases (NDEBUG : bool) (ps : PipelineState) :
  getWorkgroupSize NDEBUG ps =
    if negb NDEBUG && (rawWorkgroupSize ps =? 0)
    then AssertionFailed "workgroupSize != 0"
    else Ok (if gfxIpMajor ps >=? 11
             then wrap32 (alignTo (rawWorkgroupSize ps) 32)
             else rawWorkgroupSize ps).
Proof.
  unfold getWorkgroupSize, rawWorkgroupSize, assert.
  destruct NDEBUG; cbn [orb negb andb bind]; [reflexivity |].
  destruct (_ =? 0); reflexivity.
Qed.

Lemma rawWorkgroupSize_range (ps : PipelineState) :
  0 <= rawWorkgroupSize ps < 2 ^ 32.
Proof.
  unfold rawWorkgroupSize. destruct (isGraphics ps); [lia | apply wrap32_range].
Qed.

Lemma alignTo_32 (v : Z) :
  v <= alignTo v 32 < v + 32 /\ alignTo v 32 mod 32 = 0.
Proof.
  unfold alignTo. split.
  - pose proof (Z.div_mod (v + 32 - 1) 32 ltac:(lia)).
    pose proof (Z.mod_pos_bound (v + 32 - 1) 32 ltac:(lia)). lia.
  - apply Z.mod_mul. lia.
Qed.

Lemma wrap32_mod_32 (z : Z) : z mod 32 = 0 -> wrap32 z mod 32 = 0.
Proof.
  intros H. unfold wrap32.
  pose proof (Z.div_mod z (2 ^ 32) ltac:(lia)) as E.
  assert (E' : z mod 2 ^ 32 = z - 32 * (2 ^ 27 * (z / 2 ^ 32))) by lia.
  rewrite E'. rewrite Zminus_mod, H, Z.mul_comm, Z.mod_mul by lia.
  reflexivity.
Qed.

(** X4.  [getWorkgroupSize] fails only through its assertion, and only in a
    build with assertions when the 32-bit product of the compute workgroup
    dimensions is zero (a zero dimension, or a product that wraps to zero);
    a graphics pipeline always gets 64.  From gfx major version 11 on the
    result is a multiple of 32, and unless rounding up passes [2 ^ 32] it is
    the least one that is not below the product. *)
Theorem getWorkgroupSize_edges (NDEBUG : bool) (ps : PipelineState) :
  (getWorkgroupSize NDEBUG ps = AssertionFailed "workgroupSize != 0" <->
   NDEBUG = false /\ rawWorkgroupSize ps = 0) /\
  (~ (NDEBUG = false /\ rawWorkgroupSize ps = 0) ->
   exists w, getWorkgroupSize NDEBUG ps = Ok w /\ 0 <= w < 2 ^ 32) /\
  (isGraphics ps = true -> getWorkgroupSize NDEBUG ps = Ok 64) /\
  (forall w, getWorkgroupSize NDEBUG ps = Ok w ->
     (gfxIpMajor ps < 11 -> w = rawWorkgroupSize ps) /\
     (11 <= gfxIpMajor ps ->
        w mod 32 = 0 /\
        (rawWorkgroupSize ps <= 2 ^ 32 - 32 ->
         rawWorkgroupSize ps <= w < rawWorkgroupSize ps + 32))).
Proof.
  rewrite getWorkgroupSize_cases.
  pose proof (rawWorkgroupSize_range ps) as R.
  pose proof (alignTo_32 (rawWorkgroupSize ps)) as [A1 A2].
  repeat split.
  - destruct NDEBUG; [discriminate | reflexivity].
  - destruct NDEBUG; cbn [negb andb] in *; [discriminate |].
    destruct (Z.eqb_spec (rawWorkgroupSize ps) 0); [assumption | discriminate].
  - intros [-> E]. rewrite E. reflexivity.
  - intros Hn. destruct NDEBUG; cbn [negb andb].
    + eexists. split; [reflexivity |].
      destruct (_ >=? 11); [apply wrap32_range | exact R].
    + destruct (Z.eqb_spec (rawWorkgroupSize ps) 0) as [E | _];
        [exfalso; auto |].
      eexists. split; [reflexivity |].
      destruct (_ >=? 11); [apply wrap32_range | exact R].
  - intros Hg. unfold rawWorkgroupSize. rewrite Hg.
    replace (negb NDEBUG && (64 =? 0)) with false
      by (destruct NDEBUG; reflexivity).
    destruct (_ >=? 11); reflexivity.
  - intros Hlt. destruct (negb NDEBUG && _); [discriminate |].
    replace (gfxIpMajor ps >=? 11) with false in H
      by (symmetry; rewrite Z.geb_leb; apply Z.leb_gt; lia).
    congruence.
  - destruct (negb NDEBUG && _); [discriminate |].
    replace (gfxIpMajor ps >=? 11) with true in H
      by (symmetry; rewrite Z.geb_leb; apply Z.leb_le; lia).
    inversion H. apply wrap32_mod_32. exact A2.
  - destruct (negb NDEBUG && _); [discriminate |].
    replace (gfxIpMajor ps >=? 11) with true in H
      by (symmetry; rewrite Z.geb_leb; apply Z.leb_le; lia).
    inversion H. rewrite wrap32_small; lia.
  - destruct (negb NDEBUG && _); [discriminate |].
    replace (gfxIpMajor ps >=? 11) with true in H
      by (symmetry; rewrite Z.geb_leb; apply Z.leb_le; lia).
    inversion H. rewrite wrap32_small; lia.
Qed.

Lemma getWorkgroupSize_edges_witness :
  getWorkgroupSize false
    {| isGraphics := false;
       getComputeShaderMode :=
         {| workgroupSizeX := 65536; workgroupSizeY := 65536;
            workgroupSizeZ := 1 |};
       gfxIpMajor := 11;
       getOptions := {| rtBoxSortHeuristicMode := 0;
                        rtStaticPipelineFlags := 0;
                        rtTriCompressMode := 0 |} |}
  = AssertionFailed "workgroupSize != 0".
Proof.
  apply (proj2 (proj1 (getWorkgroupSize_edges false _))).
  split; reflexivity.
Defined.

Ltac unfold_visit :=
  unfold visit, visitGetStackSize, visitGetStackBase, visitGetStackStride,
    visitStackWrite, visitStackRead, visitLdsStackInit, visitLdsStackStore,
    visitGetBoxSortHeuristicMode, visitGetStaticFlags,
    visitGetTriangleCompressionMode, visitGetFlattenedGroupThreadId,
    extraStackIndex, stackBasePerThread.

Lemma visit_cases (NDEBUG : bool) (ps : PipelineState) (op : GpurtOp) :
  (exists e, visit NDEBUG ps op = Ok e) \/
  (visit NDEBUG ps op = AssertionFailed "workgroupSize != 0" /\
   NDEBUG = false /\ rawWorkgroupSize ps = 0 /\
   needsWorkgroupSize (Call op) = true).
Proof.
  pose proof (getWorkgroupSize_cases NDEBUG ps) as G.
  destruct (negb NDEBUG && (rawWorkgroupSize ps =? 0)) eqn:C.
  - apply andb_true_iff in C. destruct C as [C1 C2].
    apply negb_true_iff in C1. apply Z.eqb_eq in C2.
    destruct op as [| | | i v [|] | i [|] | | n o d | | | |];
      unfold_visit;
      rewrite ?G; cbn [bind needsWorkgroupSize];
      try (right; repeat split; first [assumption | reflexivity]);
      try (left; eexists; reflexivity).
    left. unfold assert. rewrite C1. cbn. eexists. reflexivity.
  - left.
    destruct op as [| | | i v [|] | i [|] | | n o d | | | |];
      unfold_visit;
      rewrite ?G; cbn [bind];
      try (eexists; reflexivity).
    + destruct (_ >? 32); eexists; reflexivity.
    + unfold assert. rewrite orb_true_r. cbn. eexists. reflexivity.
Qed.

Lemma visitAll_cases (NDEBUG : bool) (ps : PipelineState) (l : list Inst) :
  forall st,
    (exists st', visitAll NDEBUG ps st l = Ok st') \/
    (visitAll NDEBUG ps st l = AssertionFailed "workgroupSize != 0" /\
     NDEBUG = false /\ rawWorkgroupSize ps = 0 /\
     existsb needsWorkgroupSize l = true).
Proof.
  induction l as [| i l IH]; intros st; cbn [visitAll].
  - left. eauto.
  - destruct i as [op | e r | n]; cbn [visitInst existsb].
    + destruct (visit_cases NDEBUG ps op) as [[e He] | (Hf & H1 & H2 & H3)].
      * rewrite He. cbn [bind].
        destruct (IH {| rewritten := rewritten st ++ [Lowered (fst e) (snd e)];
                        m_callsToLower := m_callsToLower st ++ [op];
                        m_funcsToLower :=
                          setInsert (getCalledFunction op) (m_funcsToLower st) |})
          as [Hok | (Hf & H1 & H2 & H3)]; [left; exact Hok |].
        right. rewrite H3, orb_true_r. auto.
      * right. rewrite Hf, H3. cbn. auto.
    + cbn [bind]. destruct (IH {| rewritten := rewritten st ++ [Lowered e r];
                                  m_callsToLower := m_callsToLower st;
                                  m_funcsToLower := m_funcsToLower st |})
        as [Hok | (Hf & H1 & H2 & H3)]; [left; exact Hok |].
      right. cbn. auto.
    + cbn [bind]. destruct (IH {| rewritten := rewritten st ++ [OtherInst n];
                                  m_callsToLower := m_callsToLower st;
                                  m_funcsToLower := m_funcsToLower st |})
        as [Hok | (Hf & H1 & H2 & H3)]; [left; exact Hok |].
      right. cbn. auto.
Qed.

Lemma isStackOp_needsWorkgroupSize (l : list Inst) :
  existsb isStackOp l = true -> existsb needsWorkgroupSize l = true.
Proof.
  induction l as [| i l IH]; [discriminate |]. cbn [existsb].
  intros H. apply orb_true_iff in H. apply orb_true_iff.
  destruct H as [H | H]; [left | right; auto].
  destruct i as [op | |]; try discriminate. destruct op; try discriminate;
    reflexivity.
Qed.

Lemma needsWorkgroupSize_fails (l : list Inst) (ps : PipelineState) :
  rawWorkgroupSize ps = 0 ->
  existsb isStackOp l = false ->
  existsb needsWorkgroupSize l = true ->
  forall st,
    visitAll false ps st l = AssertionFailed "workgroupSize != 0".
Proof.
  intros H0. pose proof (getWorkgroupSize_cases false ps) as G.
  rewrite H0 in G. cbn in G.
  induction l as [| i l IH]; [discriminate |]. cbn [existsb].
  intros Hs Hn st. apply orb_false_iff in Hs. destruct Hs as [Hsi Hsl].
  cbn [visitAll].
  destruct i as [op | e r | n]; cbn [visitInst].
  - destruct op; try discriminate Hsi;
      unfold_visit;
      rewrite ?G; cbn [bind]; try reflexivity;
      cbn in Hn; apply IH; assumption.
  - cbn [bind]. apply IH; assumption.
  - cbn [bind]. apply IH; assumption.
Qed.

(** X5.  [run] can fail in one way only: it fails the assertion
    [workgroupSize != 0], and it does so exactly when assertions are enabled,
    the 32-bit product of the workgroup dimensions of a compute pipeline is
    zero, and the module has an instruction for which the workgroup size is
    read (a stack-size or stride query, or a stack read, write or init).  In
    every other case it returns. *)
Theorem run_fails_only_on_zero_workgroup (NDEBUG : bool) (ps : PipelineState)
    (m : Module_) :
  (run NDEBUG ps m = AssertionFailed "workgroupSize != 0" <->
   NDEBUG = false /\ rawWorkgroupSize ps = 0 /\
   existsb needsWorkgroupSize (insts m) = true) /\
  (~ (NDEBUG = false /\ rawWorkgroupSize ps = 0 /\
      existsb needsWorkgroupSize (insts m) = true) ->
   exists pa m', run NDEBUG ps m = Ok (pa, m')).
Proof.
  assert (Hcases :
    (exists pa m', run NDEBUG ps m = Ok (pa, m')) \/
    (run NDEBUG ps m = AssertionFailed "workgroupSize != 0" /\
     NDEBUG = false /\ rawWorkgroupSize ps = 0 /\
     existsb needsWorkgroupSize (insts m) = true)).
  { unfold run, createGlobalStack. rewrite collectPayload_spec.
    cbn [needGlobalStack needExtraStack].
    pose proof (getWorkgroupSize_cases NDEBUG ps) as G.
    destruct (existsb isStackOp (insts m)) eqn:Hs.
    - destruct (negb NDEBUG && (rawWorkgroupSize ps =? 0)) eqn:C.
      + right. rewrite G. cbn [bind].
        apply andb_true_iff in C. destruct C as [C1 C2].
        apply negb_true_iff in C1. apply Z.eqb_eq in C2.
        repeat split; try assumption.
        apply isStackOp_needsWorkgroupSize. exact Hs.
      + rewrite G. cbn [bind].
        destruct (visitAll_cases NDEBUG ps (insts m)
                    {| rewritten := []; m_callsToLower := [];
                       m_funcsToLower := [] |})
          as [[st' Hok] | (Hf & H1 & H2 & H3)].
        * left. rewrite Hok. cbn [bind]. destruct (negb (Nat.eqb _ _)); eauto.
        * rewrite H1, H2 in C. discriminate C.
    - cbn [bind].
      destruct (visitAll_cases NDEBUG ps (insts m)
                  {| rewritten := []; m_callsToLower := [];
                     m_funcsToLower := [] |})
        as [[st' Hok] | (Hf & H1 & H2 & H3)].
      + left. rewrite Hok. cbn [bind]. destruct (negb (Nat.eqb _ _)); eauto.
      + right. rewrite Hf. auto. }
  split; [split |].
  - intros Hf. destruct Hcases as [(pa & m' & Hok) | (_ & H)];
      [congruence | exact H].
  - intros (-> & H2 & H3).
    destruct Hcases as [(pa & m' & Hok) | (Hf & _)]; [| exact Hf].
    exfalso. unfold run, createGlobalStack in Hok.
    rewrite collectPayload_spec in Hok. cbn [needGlobalStack] in Hok.
    pose proof (getWorkgroupSize_cases false ps) as G.
    rewrite H2 in G. cbn in G.
    destruct (existsb isStackOp (insts m)) eqn:Hs.
    + rewrite G in Hok. discriminate Hok.
    + cbn [bind] in Hok.
      rewrite (needsWorkgroupSize_fails _ _ H2 Hs H3) in Hok. discriminate Hok.
  - intros Hn. destruct Hcases as [Hok | (_ & H)]; [exact Hok | contradiction].
Qed.

Lemma run_fails_only_on_zero_workgroup_witness :
  run false
    {| isGraphics := false;
       getComputeShaderMode :=
         {| workgroupSizeX := 8; workgroupSizeY := 0; workgroupSizeZ := 1 |};
       gfxIpMajor := 10;
       getOptions := {| rtBoxSortHeuristicMode := 0;
                        rtStaticPipelineFlags := 0;
                        rtTriCompressMode := 0 |} |}
    {| globals := []; declarations := [DeclGetStackStride];
       insts := [OtherInst 0; Call GpurtGetStackStrideOp] |}
  = AssertionFailed "workgroupSize != 0".
Proof.
  apply (proj2 (proj1 (run_fails_only_on_zero_workgroup false _ _))).
  repeat split; reflexivity.
Defined.

End WorkgroupSizeFacts.

Section PreservedAnalysesFacts.
Import LowerGpuRt Spec Notions.

Lemma visit_realistic (NDEBUG : bool) (ps : PipelineState) (op : GpurtOp) :
  realisticWorkgroup ps -> exists e, visit NDEBUG ps op = Ok e.
Proof.
  intros H. destruct (visit_cases NDEBUG ps op) as [He | (_ & Hn & Hz & _)];
    [exact He |].
  exfalso. pose proof (getWorkgroupSize_spec NDEBUG ps H) as Hs.
  rewrite getWorkgroupSize_cases, Hn, Hz in Hs. discriminate.
Qed.

Lemma visitAll_realistic (NDEBUG : bool) (ps : PipelineState) (l : list Inst) :
  realisticWorkgroup ps ->
  forall st, exists st', visitAll NDEBUG ps st l = Ok st'.
Proof.
  intros H st. destruct (visitAll_cases NDEBUG ps l st) as [He | (_ & Hn & Hz & _)];
    [exact He |].
  exfalso. pose proof (getWorkgroupSize_spec NDEBUG ps H) as Hs.
  rewrite getWorkgroupSize_cases, Hn, Hz in Hs. discriminate.
Qed.

Lemma In_callsOf (l : list Inst) (op : GpurtOp) :
  In op (callsOf l) -> exists n, nth_error l n = Some (Call op).
Proof.
  induction l as [| i l IH]; cbn [callsOf flat_map]; [intros [] |].
  intros H. apply in_app_or in H. destruct H as [H | H].
  - destruct i as [op' | |]; cbn in H; try contradiction.
    destruct H as [-> | []]. exists 0%nat. reflexivity.
  - destruct (IH H) as [n Hn]. exists (S n). exact Hn.
Qed.

Lemma nth_error_callsOf (l : list Inst) (n : nat) (op : GpurtOp) :
  nth_error l n = Some (Call op) -> In op (callsOf l).
Proof.
  revert n. induction l as [| i l IH]; intros [| n] H; cbn in H;
    try discriminate; cbn [callsOf flat_map]; apply in_or_app.
  - injection H as ->. left. left. reflexivity.
  - right. exact (IH n H).
Qed.

(** C10.  On realistic workgroup dimensions [run] completes.  Whenever it
    completes, it returns [PreservedAnalyses::all()] exactly when it lowered
    at least one gpurt call: some position of the module held a call, and
    holds in the result the effects and the value that the visitor of that
    operation returns; this is the case exactly when the module contains a
    gpurt call, and the module it returns then differs from the one it was
    given.  It returns [PreservedAnalyses::none()] exactly when the
    module has no gpurt call, and then the module is returned as it was. *)
Theorem run_preserved_analyses (NDEBUG : bool) (ps : PipelineState)
    (m : Module_) :
  (realisticWorkgroup ps -> exists pa m', run NDEBUG ps m = Ok (pa, m')) /\
  forall pa m',
    run NDEBUG ps m = Ok (pa, m') ->
    (pa = PreservedAnalyses_all <->
     exists n op e,
       nth_error (insts m) n = Some (Call op) /\
       visit NDEBUG ps op = Ok e /\
       nth_error (insts m') n = Some (Lowered (fst e) (snd e))) /\
    (pa = PreservedAnalyses_all <-> existsb isCall (insts m) = true) /\
    (pa = PreservedAnalyses_none <-> existsb isCall (insts m) = false) /\
    (pa = PreservedAnalyses_all -> insts m' <> insts m) /\
    (pa = PreservedAnalyses_none -> m' = m).
Proof.
  split.
  - intros H. unfold run.
    rewrite (createGlobalStack_spec NDEBUG ps m H). cbn [bind].
    destruct (visitAll_realistic NDEBUG ps (insts m) H
                {| rewritten := []; m_callsToLower := []; m_funcsToLower := [] |})
      as [st Hst].
    rewrite Hst. cbn [bind]. destruct (negb _); eauto.
  - intros pa m' H.
    destruct (run_inversion _ _ _ _ _ H) as (stack & st & Hs & Hv & Hm').
    destruct (visitAll_loweredBy _ _ _ _ _ Hv) as (l' & Hr & Hf & Hc & _).
    cbn [rewritten m_callsToLower app] in Hr, Hc.
    assert (Hpa : pa = if existsb isCall (insts m)
                       then PreservedAnalyses_all else PreservedAnalyses_none).
    { unfold run in H. rewrite Hs, Hv in H. cbn [bind] in H. rewrite Hc in H.
      destruct (existsb isCall (insts m)) eqn:E.
      - destruct (callsOf (insts m)) eqn:Ec.
        + apply callsOf_nil_iff in Ec. congruence.
        + cbn in H. congruence.
      - apply callsOf_nil_iff in E. rewrite E in H. cbn in H. congruence. }
    assert (Hins : insts m' = l') by (rewrite Hm'; cbn [insts]; exact Hr).
    assert (Hlow : existsb isCall (insts m) = true <->
              exists n op e,
                nth_error (insts m) n = Some (Call op) /\
                visit NDEBUG ps op = Ok e /\
                nth_error (insts m') n = Some (Lowered (fst e) (snd e))).
    { split.
      - intros E. destruct (callsOf (insts m)) as [| op ops] eqn:Ec.
        + apply callsOf_nil_iff in Ec. congruence.
        + destruct (In_callsOf (insts m) op) as [n Hn];
            [rewrite Ec; left; reflexivity |].
          destruct (Forall2_nth_error _ _ _ _ _ Hf Hn) as (r & Hr' & Hl).
          cbn [loweredBy] in Hl. destruct Hl as (e & He & ->).
          exists n, op, e. rewrite Hins. auto.
      - intros (n & op & e & Hn & _ & _).
        destruct (existsb isCall (insts m)) eqn:E; [reflexivity |].
        apply callsOf_nil_iff in E. apply nth_error_callsOf in Hn.
        rewrite E in Hn. destruct Hn. }
    destruct (existsb isCall (insts m)) eqn:Hcalls; subst pa.
    + split; [| split; [| split; [| split]]].
      * split; [intros _; apply Hlow; reflexivity | reflexivity].
      * split; reflexivity.
      * split; discriminate.
      * intros _ E. rewrite Hins in E. subst l'.
        pose proof (loweredBy_no_call _ _ _ _ Hf). congruence.
      * discriminate.
    + split; [| split; [| split; [| split]]].
      * split; [discriminate |]. intros Hex. apply Hlow in Hex. discriminate.
      * split; discriminate.
      * split; reflexivity.
      * discriminate.
      * intros _. rewrite (run_no_calls NDEBUG ps m Hcalls) in H. congruence.
Qed.

Lemma run_preserved_analyses_witness :
  run false examplePipeline
    {| globals := []; declarations := [DeclGetStackSize];
       insts := [OtherInst 0; Call GpurtGetStackSizeOp] |}
  = Ok (PreservedAnalyses_all,
        {| globals := []; declarations := [];
           insts := [OtherInst 0; Lowered [] (ConstInt32 1024)] |}) /\
  exists n op e,
    nth_error [OtherInst 0; Call GpurtGetStackSizeOp] n = Some (Call op) /\
    visit false examplePipeline op = Ok e /\
    nth_error [OtherInst 0; Lowered [] (ConstInt32 1024)] n
    = Some (Lowered (fst e) (snd e)).
Proof.
  split; [reflexivity |].
  exact (proj1 (proj1 (proj2 (run_preserved_analyses false examplePipeline
           {| globals := []; declarations := [DeclGetStackSize];
              insts := [OtherInst 0; Call GpurtGetStackSizeOp] |})
           PreservedAnalyses_all
           {| globals := []; declarations := [];
              insts := [OtherInst 0; Lowered [] (ConstInt32 1024)] |}
           eq_refl)) eq_refl).
Defined.

End PreservedAnalysesFacts.

Section StackLayoutFacts.
Import LowerGpuRt Spec Notions.

(** X6.  When some stack read or write of the module requests the extra
    stack, the extra stack is the upper half of the [LdsStack] global: the
    global has [2 * 16 * W] words, a stack access without the flag addresses
    the element at its index, and one with the flag the element at its index
    plus [16 * W], half the global's length; so for an index below [16 * W]
    the two never meet and the extra-stack element is inside the global.  A
    stack write is replaced by the constant 0, a stack read by the loaded
    word. *)
Theorem extra_stack_is_upper_half (NDEBUG : bool) (ps : PipelineState)
    (m : Module_) :
  realisticWorkgroup ps ->
  existsb requestsExtraStack (insts m) = true ->
  exists g,
    createGlobalStack NDEBUG ps m = Ok (Some g) /\
    numElements g = 2 * (16 * workgroupSize ps) /\
    (forall index value,
       visitStackRead NDEBUG ps index false
         = Ok ([], LoadInt32 (StackElemPtr index)) /\
       visitStackRead NDEBUG ps index true
         = Ok ([], LoadInt32 (StackElemPtr
                     (Add index (ConstInt32 (numElements g / 2))))) /\
       visitStackWrite NDEBUG ps index value false
         = Ok ([StoreTo value (StackElemPtr index)], ConstInt32 0) /\
       visitStackWrite NDEBUG ps index value true
         = Ok ([StoreTo value (StackElemPtr
                  (Add index (ConstInt32 (numElements g / 2))))],
               ConstInt32 0)) /\
    (forall tid i, 0 <= i < 16 * workgroupSize ps ->
       exists j,
         evalExpr tid (Add (ConstInt32 i) (ConstInt32 (numElements g / 2)))
           = Some j /\
         16 * workgroupSize ps <= j < numElements g).
Proof.
  intros Hr He. pose proof (workgroupSize_range ps Hr) as R.
  pose proof (createGlobalStack_spec NDEBUG ps m Hr) as Hg.
  assert (Hs : existsb isStackOp (insts m) = true).
  { apply existsb_exists in He. destruct He as (i & Hi & Hx).
    apply existsb_exists. exists i. split; [exact Hi |].
    destruct i as [op | |]; try discriminate. destruct op; try discriminate;
      reflexivity. }
  rewrite Hs in Hg. eexists. split; [exact Hg |].
  cbn [numElements]. unfold capacity. rewrite He.
  replace (16 * workgroupSize ps * 2 / 2) with (16 * workgroupSize ps)
    by (rewrite Z.div_mul; lia).
  split; [lia |]. split.
  - intros index value.
    unfold visitStackRead, visitStackWrite, extraStackIndex.
    rewrite (getWorkgroupSize_spec NDEBUG ps Hr). cbn [bind].
    replace (wrap32 (workgroupSize ps * MaxLdsStackEntries))
      with (16 * workgroupSize ps)
      by (unfold MaxLdsStackEntries; rewrite wrap32_small; lia).
    repeat split.
  - intros tid i Hi. eexists. split; [reflexivity |].
    rewrite (wrap32_small i) by lia.
    rewrite (wrap32_small (16 * workgroupSize ps)) by lia.
    rewrite wrap32_small by lia. lia.
Qed.

Lemma extra_stack_is_upper_half_witness :
  exists g,
    createGlobalStack false examplePipeline
      {| globals := []; declarations := [DeclStackRead];
         insts := [Call (GpurtStackReadOp (Operand 0) true)] |} = Ok (Some g) /\
    numElements g = 2 * (16 * workgroupSize examplePipeline).
Proof.
  destruct (extra_stack_is_upper_half false examplePipeline
              {| globals := []; declarations := [DeclStackRead];
                 insts := [Call (GpurtStackReadOp (Operand 0) true)] |}
              examplePipeline_realistic eq_refl) as (g & Hg & Hn & _).
  exists g. split; [exact Hg | exact Hn].
Defined.

(** X7.  Whatever the workgroup size, the per-thread base offset that
    [visitLdsStackInit] computes for thread [t] of the workgroup evaluates to
    [t mod 32 + (t div 32) * (16 * 32)], lies below [16 * W] and differs
    between threads; no arithmetic is emitted for [W <= 32], where that
    offset is the thread index itself. *)
Theorem stackBasePerThread_any_size (NDEBUG : bool) (ps : PipelineState) :
  realisticWorkgroup ps ->
  exists e,
    stackBasePerThread NDEBUG ps = Ok e /\
    (workgroupSize ps <= 32 -> e = getThreadIdInGroup ps) /\
    (forall t, 0 <= t < workgroupSize ps ->
       evalExpr t e = Some (base t) /\ 0 <= base t < 16 * workgroupSize ps /\
       (workgroupSize ps <= 32 -> base t = t)) /\
    (forall t1 t2, 0 <= t1 < workgroupSize ps -> 0 <= t2 < workgroupSize ps ->
       t1 <> t2 -> evalExpr t1 e <> evalExpr t2 e).
Proof.
  intros Hr. pose proof (workgroupSize_range ps Hr) as R.
  unfold stackBasePerThread. rewrite (getWorkgroupSize_spec NDEBUG ps Hr).
  cbn [bind].
  assert (Hsmall : forall t, 0 <= t < 32 -> base t = t).
  { intros t Ht. unfold base. rewrite Z.mod_small, Z.div_small by lia. lia. }
  destruct (Z.gtb_spec (workgroupSize ps) 32) as [Hgt | Hle].
  - eexists. split; [reflexivity |]. split; [lia |]. split.
    + intros t Ht. split; [apply evalExpr_swizzled; lia |].
      split; [apply base_range; exact Ht | lia].
    + intros t1 t2 H1 H2 Hne. unfold getThreadIdInGroup.
      rewrite !evalExpr_swizzled by lia.
      intros E. apply Hne. apply base_injective. congruence.
  - eexists. split; [reflexivity |]. split; [reflexivity |].
    assert (Hev : forall t, 0 <= t < workgroupSize ps ->
                  evalExpr t (getThreadIdInGroup ps) = Some (base t)).
    { intros t Ht. unfold getThreadIdInGroup. cbn [evalExpr].
      rewrite wrap32_small by lia. rewrite Hsmall by lia. reflexivity. }
    split.
    + intros t Ht. split; [apply Hev; exact Ht |].
      split; [apply base_range; exact Ht | intros _; apply Hsmall; lia].
    + intros t1 t2 H1 H2 Hne. rewrite !Hev by assumption.
      intros E. apply Hne. apply base_injective. congruence.
Qed.

Lemma stackBasePerThread_any_size_witness :
  exists e,
    stackBasePerThread false
      {| isGraphics := false;
         getComputeShaderMode :=
           {| workgroupSizeX := 4; workgroupSizeY := 4; workgroupSizeZ := 1 |};
         gfxIpMajor := 10;
         getOptions := {| rtBoxSortHeuristicMode := 0;
                          rtStaticPipelineFlags := 0;
                          rtTriCompressMode := 0 |} |} = Ok e /\
    evalExpr 7 e = Some 7.
Proof.
  destruct (stackBasePerThread_any_size false
              {| isGraphics := false;
                 getComputeShaderMode :=
                   {| workgroupSizeX := 4; workgroupSizeY := 4;
                      workgroupSizeZ := 1 |};
                 gfxIpMajor := 10;
                 getOptions := {| rtBoxSortHeuristicMode := 0;
                                  rtStaticPipelineFlags := 0;
                                  rtTriCompressMode := 0 |} |}
              ltac:(intros _; cbn; lia)) as (e & He & _ & Hev & _).
  exists e. split; [exact He |].
  exact (proj1 (Hev 7 ltac:(cbn; lia))).
Defined.

End StackLayoutFacts.

(* ===================================================================== *)
(** * Properties of [removeUnusedFunctionDecls] *)
(* ===================================================================== *)

Section UnusedDeclsFacts.
Import IntrinsicRemap UnusedDecls.

Lemma eraseLoop_spec (OnlyIntrinsics : bool) (Mod : list Function) :
  forall DidChange,
    eraseLoop OnlyIntrinsics Mod DidChange =
      (DidChange || existsb (unusedDecl OnlyIntrinsics) Mod,
       filter (fun F => negb (unusedDecl OnlyIntrinsics F)) Mod).
Proof.
  induction Mod as [| F rest IH]; intros DidChange; cbn [eraseLoop existsb filter].
  - rewrite orb_false_r. reflexivity.
  - rewrite !IH. unfold unusedDecl, asCallee, isLgcRtOp. cbn [calleeName].
    destruct (isDeclaration F), (user_empty F), OnlyIntrinsics,
      (String.prefix "lgc.rt" (getName F)),
      (String.prefix "dx.op." (getName F));
      cbn [andb negb orb fst snd]; rewrite ?orb_true_r, ?orb_false_r;
      reflexivity.
Qed.

Lemma filter_length_lt {A : Type} (f : A -> bool) (l : list A) :
  existsb (fun a => negb (f a)) l = true ->
  (List.length (filter f l) < List.length l)%nat.
Proof.
  induction l as [| a l IH]; [discriminate |]. cbn [existsb filter].
  pose proof (filter_length_le f l) as Hle.
  destruct (f a); cbn [negb orb List.length].
  - intros H. apply IH in H. lia.
  - intros _. lia.
Qed.

Lemma filter_id {A : Type} (f : A -> bool) (l : list A) :
  existsb (fun a => negb (f a)) l = false -> filter f l = l.
Proof.
  induction l as [| a l IH]; [reflexivity |]. cbn [existsb filter].
  intros H. apply orb_false_iff in H. destruct H as [Ha Hl].
  apply negb_false_iff in Ha. rewrite Ha, (IH Hl). reflexivity.
Qed.

Lemma existsb_negb_negb {A : Type} (f : A -> bool) (l : list A) :
  existsb (fun a => negb (negb (f a))) l = existsb f l.
Proof.
  induction l as [| a l IH]; [reflexivity |]. cbn. rewrite negb_involutive, IH.
  reflexivity.
Qed.

(** X8.  [removeUnusedFunctionDecls] leaves, in their order, exactly the
    functions that are not declarations without users (with
    [OnlyIntrinsics]: not such declarations named [lgc.rt...] or
    [dx.op....]); a function with a body or with a user is never erased.
    The flag it returns is true exactly when a function was erased, that is,
    when the module has fewer functions than before. *)
Theorem removeUnusedFunctionDecls_spec (Mod : list Function)
    (OnlyIntrinsics : bool) :
  let r := removeUnusedFunctionDecls Mod OnlyIntrinsics in
  snd r = filter (fun F => negb (unusedDecl OnlyIntrinsics F)) Mod /\
  (forall F, In F (snd r) <->
             In F Mod /\ unusedDecl OnlyIntrinsics F = false) /\
  (forall F, In F Mod -> isDeclaration F = false \/ user_empty F = false ->
             In F (snd r)) /\
  (fst r = true <-> (List.length (snd r) < List.length Mod)%nat) /\
  (fst r = false <-> snd r = Mod).
Proof.
  unfold removeUnusedFunctionDecls. rewrite eraseLoop_spec. cbn [fst snd orb].
  split; [reflexivity |]. split; [| split; [| split]].
  - intros F. rewrite filter_In, negb_true_iff. reflexivity.
  - intros F Hin Hu. apply filter_In. split; [exact Hin |].
    unfold unusedDecl. destruct Hu as [-> | ->];
      rewrite ?andb_false_r; reflexivity.
  - split.
    + intros H. apply filter_length_lt. rewrite existsb_negb_negb. exact H.
    + intros H. destruct (existsb _ Mod) eqn:E; [reflexivity |].
      rewrite filter_id in H by (rewrite existsb_negb_negb; exact E). lia.
  - split.
    + intros H. apply filter_id. rewrite existsb_negb_negb. exact H.
    + intros H. destruct (existsb _ Mod) eqn:E; [| reflexivity].
      assert (Hlt : (List.length
                       (filter (fun F => negb (unusedDecl OnlyIntrinsics F)) Mod)
                     < List.length Mod)%nat).
      { apply filter_length_lt. rewrite existsb_negb_negb. exact E. }
      rewrite H in Hlt. lia.
Qed.

Lemma removeUnusedFunctionDecls_spec_witness :
  In {| getName := "main"; isDeclaration := false; user_empty := true |}
     (snd (removeUnusedFunctionDecls
             [ {| getName := "lgc.rt.trace.ray"; isDeclaration := true;
                  user_empty := true |};
               {| getName := "main"; isDeclaration := false;
                  user_empty := true |} ] true)).
Proof.
  apply (proj1 (proj2 (proj2 (removeUnusedFunctionDecls_spec _ true)))).
  - right. left. reflexivity.
  - left. reflexivity.
Defined.

(** X9.  [removeUnusedFunctionDecls] is idempotent: called again on what it
    left, it returns false and erases nothing.  What it erases with
    [OnlyIntrinsics] it also erases without, and cleaning all unused
    declarations after the intrinsics gives the same module as cleaning all
    at once. *)
Theorem removeUnusedFunctionDecls_idempotent (Mod : list Function)
    (OnlyIntrinsics : bool) :
  let Mod' := snd (removeUnusedFunctionDecls Mod OnlyIntrinsics) in
  removeUnusedFunctionDecls Mod' OnlyIntrinsics = (false, Mod') /\
  incl (snd (removeUnusedFunctionDecls Mod false))
       (snd (removeUnusedFunctionDecls Mod true)) /\
  snd (removeUnusedFunctionDecls
         (snd (removeUnusedFunctionDecls Mod true)) false)
    = snd (removeUnusedFunctionDecls Mod false).
Proof.
  unfold removeUnusedFunctionDecls. rewrite !eraseLoop_spec. cbn [fst snd orb].
  split; [| split].
  - assert (E : existsb (unusedDecl OnlyIntrinsics)
                  (filter (fun F => negb (unusedDecl OnlyIntrinsics F)) Mod)
                = false).
    { induction Mod as [| F rest IH]; [reflexivity |]. cbn [filter].
      destruct (unusedDecl OnlyIntrinsics F) eqn:EF; cbn [negb existsb];
        [exact IH | rewrite EF, IH; reflexivity]. }
    rewrite E. f_equal. apply filter_id. rewrite existsb_negb_negb. exact E.
  - intros F. rewrite !filter_In, !negb_true_iff. intros [Hin Hn].
    split; [exact Hin |]. unfold unusedDecl in *. cbn [negb orb] in *.
    destruct (isDeclaration F && user_empty F); [discriminate | reflexivity].
  - induction Mod as [| F rest IH]; [reflexivity |]. cbn [filter].
    destruct (unusedDecl true F) eqn:ET; cbn [negb].
    + assert (EF : unusedDecl false F = true).
      { unfold unusedDecl in *. cbn [negb orb] in *.
        destruct (isDeclaration F && user_empty F); [reflexivity | discriminate]. }
      rewrite EF. cbn [negb]. exact IH.
    + cbn [filter]. destruct (unusedDecl false F); cbn [negb];
        [exact IH | f_equal; exact IH].
Qed.

End UnusedDeclsFacts.

(* ===================================================================== *)
(** * Properties of the rematerialization predicates *)
(* ===================================================================== *)

Section RematFacts.
Import IntrinsicRemap Remat.

Lemma isRematerializableLgcRtOp_eq (CInst : CallInst)
    (Kind : option DXILShaderKind) :
  isRematerializableLgcRtOp CInst Kind =
    isLgcRtOp (getCalledFunction CInst)
    && (contains RematerializableDialectOps (getCalledFunction CInst)
        || match Kind with
           | None | Some Intersection => true
           | Some _ => false
           end
           && contains RematerializableIntersectionDialectOps
                (getCalledFunction CInst)).
Proof.
  unfold isRematerializableLgcRtOp.
  destruct (isLgcRtOp _); cbn [negb andb]; [| reflexivity].
  destruct (contains RematerializableDialectOps _); cbn [orb]; [reflexivity |].
  destruct (_ && _); reflexivity.
Qed.

(** X10.  [isRematerializableLgcRtOp] is false for every call whose callee is
    missing or not named [lgc.rt...].  For a shader kind other than
    intersection it is true only for the dispatch-rays index and dimensions
    operations, which are rematerializable for every kind; whatever it
    accepts for some kind it accepts for intersection and without a kind.
    It never accepts the current ray extent, the hit kind, or an operation
    that traces, calls, reports, accepts or ignores. *)
Theorem isRematerializableLgcRtOp_spec (CInst : CallInst)
    (Kind : option DXILShaderKind) :
  (isLgcRtOp (getCalledFunction CInst) = false ->
   isRematerializableLgcRtOp CInst Kind = false) /\
  (isRematerializableLgcRtOp CInst Kind = true ->
   isRematerializableLgcRtOp CInst None = true /\
   isRematerializableLgcRtOp CInst (Some Intersection) = true) /\
  (Kind <> None -> Kind <> Some Intersection ->
   (isRematerializableLgcRtOp CInst Kind = true <->
    isLgcRtOp (getCalledFunction CInst) = true /\
    exists c, getCalledFunction CInst = Some c /\
              (dialectOp c = Some DispatchRaysIndexOp \/
               dialectOp c = Some DispatchRaysDimensionsOp))) /\
  (forall c op, getCalledFunction CInst = Some c -> dialectOp c = Some op ->
     In op [RayTcurrentOp; HitKindOp; TraceRayOp; CallCallableShaderOp;
            ReportHitOp; AcceptHitAndEndSearchOp; IgnoreHitOp] ->
     isRematerializableLgcRtOp CInst Kind = false).
Proof.
  rewrite !isRematerializableLgcRtOp_eq.
  split; [| split; [| split]].
  - intros ->. reflexivity.
  - intros H. apply andb_true_iff in H. destruct H as [-> H].
    apply orb_true_iff in H. destruct H as [-> | H]; [split; reflexivity |].
    apply andb_true_iff in H. destruct H as [_ ->].
    cbn. rewrite !orb_true_r. split; reflexivity.
  - intros Hk Hi.
    assert (E : match Kind with
                | None | Some Intersection => true
                | Some _ => false
                end = false).
    { destruct Kind as [[] |]; try reflexivity; congruence. }
    rewrite E. cbn [andb]. rewrite orb_false_r.
    rewrite andb_true_iff. apply and_iff_compat_l.
    unfold contains.
    destruct (getCalledFunction CInst) as [[name [op |]] |].
    + split.
      * intros H. eexists. split; [reflexivity |]. cbn.
        destruct op; try discriminate; auto.
      * intros (c & Hc & [Hd | Hd]); inversion Hc; subst c; cbn in Hd;
          inversion Hd; reflexivity.
    + split; [discriminate |].
      intros (c & Hc & [Hd | Hd]); inversion Hc; subst c; discriminate.
    + split; [discriminate |]. intros (c & Hc & _). discriminate.
  - intros c op Hc Hd Hin. rewrite Hc. destruct c as [name d].
    cbn in Hd. subst d. cbn [contains].
    cbn in Hin.
    destruct Hin as [<- | [<- | [<- | [<- | [<- | [<- | [<- | []]]]]]]];
      cbn; rewrite ?andb_false_r; reflexivity.
Qed.

Lemma isRematerializableLgcRtOp_spec_witness :
  isRematerializableLgcRtOp (callOf "lgc.rt.instance.id" InstanceIdOp) None
    = true /\
  isRematerializableLgcRtOp (callOf "lgc.rt.instance.id" InstanceIdOp)
    (Some ClosestHit) = false.
Proof.
  split.
  - exact (proj1 (proj1 (proj2 (isRematerializableLgcRtOp_spec
             (callOf "lgc.rt.instance.id" InstanceIdOp) (Some Intersection)))
             eq_refl)).
  - reflexivity.
Defined.

Lemma stripExtracts_idempotent (V : MInst) :
  stripExtracts (stripExtracts V) = stripExtracts V.
Proof.
  revert V. fix IH 1. intros [v | v | v | v | a | c i | o];
    try reflexivity; destruct v as [| | J]; try reflexivity;
    cbn [stripExtracts]; apply IH.
Qed.

(** X11.  [LgcMaterializable] looks through extracts: an [extractelement]
    or [extractvalue] whose source is an instruction is materializable
    exactly when that source is, while an extract from a constant or an
    argument is judged by LLVM's default alone.  Every instruction whose
    extract-free source LLVM's default accepts is accepted, and so are a load
    from address space 4 and an insert into a constant; a call without a
    known callee is left to the default. *)
Theorem LgcMaterializable_spec (defaultMaterializable : MInst -> bool) :
  (forall I,
     LgcMaterializable defaultMaterializable
       (ExtractElementInst (MInstruction I))
     = LgcMaterializable defaultMaterializable I /\
     LgcMaterializable defaultMaterializable
       (ExtractValueInst (MInstruction I))
     = LgcMaterializable defaultMaterializable I) /\
  (forall I,
     LgcMaterializable defaultMaterializable (stripExtracts I)
     = LgcMaterializable defaultMaterializable I) /\
  (forall v, v = MConstant \/ v = MArgument ->
     LgcMaterializable defaultMaterializable (ExtractElementInst v)
     = defaultMaterializable (ExtractElementInst v) /\
     LgcMaterializable defaultMaterializable (ExtractValueInst v)
     = defaultMaterializable (ExtractValueInst v)) /\
  (forall I, defaultMaterializable (stripExtracts I) = true ->
     LgcMaterializable defaultMaterializable I = true) /\
  LgcMaterializable defaultMaterializable (LoadInst 4) = true /\
  LgcMaterializable defaultMaterializable (InsertElementInst MConstant) = true /\
  LgcMaterializable defaultMaterializable (InsertValueInst MConstant) = true /\
  (forall CInst Intrinsic, getCalledFunction CInst = None ->
     LgcMaterializable defaultMaterializable (CallInstr CInst Intrinsic)
     = defaultMaterializable (CallInstr CInst Intrinsic)) /\
  (forall CInst Intrinsic, isRematerializableLgcRtOp CInst None = true ->
     LgcMaterializable defaultMaterializable (CallInstr CInst Intrinsic) = true).
Proof.
  assert (Hstrip : forall I,
            LgcMaterializable defaultMaterializable (stripExtracts I)
            = LgcMaterializable defaultMaterializable I).
  { intros I. unfold LgcMaterializable. rewrite stripExtracts_idempotent.
    reflexivity. }
  split; [| split; [exact Hstrip | split; [| split; [| split; [| split;
    [| split; [| split]]]]]]].
  - intros I. split.
    + rewrite <- (Hstrip (ExtractElementInst (MInstruction I))).
      cbn [stripExtracts]. apply Hstrip.
    + rewrite <- (Hstrip (ExtractValueInst (MInstruction I))).
      cbn [stripExtracts]. apply Hstrip.
  - intros v [-> | ->]; split; unfold LgcMaterializable; cbn [stripExtracts];
      destruct (defaultMaterializable _); reflexivity.
  - intros I H. unfold LgcMaterializable. rewrite H. reflexivity.
  - unfold LgcMaterializable. cbn [stripExtracts].
    destruct (defaultMaterializable _); reflexivity.
  - unfold LgcMaterializable. cbn [stripExtracts].
    destruct (defaultMaterializable _); reflexivity.
  - unfold LgcMaterializable. cbn [stripExtracts].
    destruct (defaultMaterializable _); reflexivity.
  - intros CInst Intrinsic H. unfold LgcMaterializable. cbn [stripExtracts].
    rewrite H. destruct (defaultMaterializable _); reflexivity.
  - intros CInst Intrinsic H. unfold LgcMaterializable. cbn [stripExtracts].
    rewrite H. destruct (defaultMaterializable _); [reflexivity |].
    destruct (getCalledFunction CInst) eqn:E; [reflexivity |].
    unfold isRematerializableLgcRtOp in H. rewrite E in H. discriminate H.
Qed.

Lemma LgcMaterializable_spec_witness :
  LgcMaterializable (fun _ => false)
    (ExtractValueInst
       (MInstruction
          (CallInstr (callOf "lgc.rt.dispatch.rays.index" DispatchRaysIndexOp)
                     None)))
  = true.
Proof.
  rewrite (proj2 (proj1 (LgcMaterializable_spec (fun _ => false)) _)).
  exact (proj2 (proj2 (proj2 (proj2 (proj2 (proj2 (proj2 (proj2
           (LgcMaterializable_spec (fun _ => false)))))))))
           (callOf "lgc.rt.dispatch.rays.index" DispatchRaysIndexOp) None
           eq_refl).
Defined.

End RematFacts.

(* ===================================================================== *)
(** * Properties of the metadata utilities *)
(* ===================================================================== *)

Section MetadataFacts.
Import Metadata.

Lemma Constant_eqb_eq (a b : Constant) : Constant_eqb a b = true <-> a = b.
Proof.
  unfold Constant_eqb. destruct (Constant_eq_dec a b); split; congruence.
Qed.

Lemma Constant_eqb_refl (a : Constant) : Constant_eqb a a = true.
Proof. apply Constant_eqb_eq. reflexivity. Qed.

Lemma stripBitCasts_depth (C : Constant) :
  (depth (stripBitCasts C) <= depth C)%nat.
Proof.
  induction C as [g | b z | o C IH | n]; cbn [stripBitCasts depth]; try lia.
  destruct o; cbn [depth]; lia.
Qed.

Lemma stripBitCasts_fixed (C : Constant) :
  stripBitCasts C = C <-> noBitCastOnTop C = true.
Proof.
  destruct C as [g | b z | o C | n]; cbn; try tauto.
  destruct o; cbn; try tauto.
  split; [| discriminate]. intros E.
  pose proof (stripBitCasts_depth C) as H. rewrite E in H. cbn in H. lia.
Qed.

Lemma stripBitCasts_noBitCastOnTop (C : Constant) :
  noBitCastOnTop (stripBitCasts C) = true.
Proof.
  induction C as [g | b z | o C IH | n]; try reflexivity.
  destruct o; try reflexivity. exact IH.
Qed.

Lemma stripBitCasts_idempotent (C : Constant) :
  stripBitCasts (stripBitCasts C) = stripBitCasts C.
Proof. apply stripBitCasts_fixed. apply stripBitCasts_noBitCastOnTop. Qed.

Lemma stripBitCasts_bitcasts (C : Constant) :
  exists n, C = bitcasts n (stripBitCasts C).
Proof.
  induction C as [g | b z | o C IH | k]; try (exists O; reflexivity).
  destruct o; try (exists O; reflexivity).
  destruct IH as [n IH]. exists (S n). cbn. f_equal. exact IH.
Qed.

Lemma hasBitCastOnTop_strippedOperand (MDVal : option Metadata) :
  hasBitCastOnTop MDVal = false <-> strippedOperand MDVal = MDVal.
Proof.
  destruct MDVal as [[C | s | ops | n] |]; cbn; try tauto.
  split.
  - intros H. do 2 f_equal. apply stripBitCasts_fixed.
    destruct C as [g | b z | [] C | n]; try reflexivity; discriminate.
  - intros H. inversion H as [E]. apply stripBitCasts_fixed in E.
    destruct C as [g | b z | [] C | n]; try reflexivity; discriminate.
Qed.

Lemma stripMDCastsFrom_spec (operands : list (option Metadata)) :
  forall Changed,
    stripMDCastsFrom operands Changed =
      (Changed || existsb hasBitCastOnTop operands,
       map strippedOperand operands).
Proof.
  induction operands as [| MDVal rest IH]; intros Changed;
    cbn [stripMDCastsFrom existsb map].
  - rewrite orb_false_r. reflexivity.
  - destruct MDVal as [[Val | s | ops | n] |];
      try (rewrite IH; cbn; reflexivity).
    destruct (Constant_eqb (stripBitCasts Val) Val) eqn:E; cbn [negb].
    + apply Constant_eqb_eq in E. rewrite IH. cbn [fst snd strippedOperand].
      rewrite E.
      replace (hasBitCastOnTop (Some (ConstantAsMetadata Val))) with false;
        [reflexivity |].
      symmetry. apply hasBitCastOnTop_strippedOperand. cbn. rewrite E.
      reflexivity.
    + rewrite IH. cbn [fst snd strippedOperand orb].
      replace (hasBitCastOnTop (Some (ConstantAsMetadata Val))) with true.
      * rewrite orb_true_r. reflexivity.
      * symmetry. destruct (hasBitCastOnTop _) eqn:H; [reflexivity |].
        apply hasBitCastOnTop_strippedOperand in H. cbn in H.
        inversion H as [E']. rewrite E' in E.
        rewrite Constant_eqb_refl in E. discriminate E.
Qed.

Lemma strippedOperand_idempotent (MDVal : option Metadata) :
  strippedOperand (strippedOperand MDVal) = strippedOperand MDVal.
Proof.
  destruct MDVal as [[C | s | ops | n] |]; try reflexivity.
  cbn. rewrite stripBitCasts_idempotent. reflexivity.
Qed.

Lemma map_fixed {A : Type} (f : A -> A) (l : list A) :
  map f l = l <-> forall a, In a l -> f a = a.
Proof.
  induction l as [| a l IH]; cbn.
  - split; [intros _ a [] | reflexivity].
  - split.
    + intros E. inversion E as [[Ea El]]. rewrite Ea, El.
      intros b [<- | Hb]; [exact Ea | apply IH; assumption].
    + intros H. rewrite (H a (or_introl eq_refl)). f_equal. apply IH.
      intros b Hb. apply H. right. exact Hb.
Qed.

(** X12.  [stripMDCasts] keeps the number of operands; a constant operand
    is replaced by the constant under its outermost bitcasts, which has no
    bitcast on top; every other operand, null ones included, stays as it
    is.  The flag it returns is true exactly when some operand had a bitcast
    on top, that is, when the tuple changed.  It is idempotent: on its own
    result it returns false and changes nothing. *)
Theorem stripMDCasts_spec (MDTup : list (option Metadata)) :
  let r := stripMDCasts MDTup in
  List.length (snd r) = List.length MDTup /\
  (forall I Val,
     nth_error MDTup I = Some (Some (ConstantAsMetadata Val)) ->
     exists Const n,
       nth_error (snd r) I = Some (Some (ConstantAsMetadata Const)) /\
       Val = bitcasts n Const /\ noBitCastOnTop Const = true) /\
  (forall I MDVal,
     nth_error MDTup I = Some MDVal ->
     (forall Val, MDVal <> Some (ConstantAsMetadata Val)) ->
     nth_error (snd r) I = Some MDVal) /\
  (fst r = true <-> existsb hasBitCastOnTop MDTup = true) /\
  (fst r = false <-> snd r = MDTup) /\
  stripMDCasts (snd r) = (false, snd r).
Proof.
  unfold stripMDCasts. rewrite !stripMDCastsFrom_spec. cbn [fst snd orb].
  split; [apply length_map |]. split; [| split; [| split; [| split]]].
  - intros I Val H. destruct (stripBitCasts_bitcasts Val) as [n Hn].
    exists (stripBitCasts Val), n. rewrite nth_error_map, H. cbn.
    split; [reflexivity |]. split; [exact Hn |].
    apply stripBitCasts_noBitCastOnTop.
  - intros I MDVal H Hn. rewrite nth_error_map, H. cbn. f_equal.
    destruct MDVal as [[C | s | ops | n] |]; try reflexivity.
    exfalso. exact (Hn C eq_refl).
  - reflexivity.
  - rewrite map_fixed. split.
    + intros E a Ha. apply hasBitCastOnTop_strippedOperand.
      destruct (hasBitCastOnTop a) eqn:Ea; [| reflexivity].
      assert (existsb hasBitCastOnTop MDTup = true)
        by (apply existsb_exists; eauto).
      congruence.
    + intros H. destruct (existsb hasBitCastOnTop MDTup) eqn:E; [| reflexivity].
      apply existsb_exists in E. destruct E as (a & Ha & Ea).
      apply H in Ha. apply hasBitCastOnTop_strippedOperand in Ha. congruence.
  - assert (E : existsb hasBitCastOnTop (map strippedOperand MDTup) = false).
    { induction MDTup as [| a l IH]; [reflexivity |]. cbn [map existsb].
      rewrite IH, orb_false_r. apply hasBitCastOnTop_strippedOperand.
      apply strippedOperand_idempotent. }
    rewrite E. f_equal. apply map_fixed. intros a Ha.
    apply in_map_iff in Ha. destruct Ha as (b & <- & _).
    apply strippedOperand_idempotent.
Qed.

Lemma stripMDCasts_spec_witness :
  exists Const n,
    nth_error
      (snd (stripMDCasts
              [None;
               Some (ConstantAsMetadata
                       (ConstantExpr BitCast
                          (GlobalConstant (Function "main"))))])) 1
      = Some (Some (ConstantAsMetadata Const)) /\
    ConstantExpr BitCast (GlobalConstant (Function "main")) = bitcasts n Const /\
    noBitCastOnTop Const = true.
Proof.
  exact (proj1 (proj2 (stripMDCasts_spec
           [None;
            Some (ConstantAsMetadata
                    (ConstantExpr BitCast
                       (GlobalConstant (Function "main"))))]))
           1%nat _ eq_refl).
Defined.

Lemma functionUnderBitCasts_bitcasts (n : nat) (C : Constant) :
  functionUnderBitCasts (bitcasts n C) = functionUnderBitCasts C.
Proof. induction n as [| n IH]; [reflexivity | exact IH]. Qed.

Lemma functionUnderBitCasts_stripBitCasts (C : Constant) :
  functionUnderBitCasts (stripBitCasts C) = functionUnderBitCasts C.
Proof.
  destruct (stripBitCasts_bitcasts C) as [n Hn]. rewrite Hn at 2.
  symmetry. apply functionUnderBitCasts_bitcasts.
Qed.

Lemma functionUnderBitCasts_Some (C : Constant) (name : string) :
  functionUnderBitCasts C = Some name ->
  stripBitCasts C = GlobalConstant (Function name).
Proof.
  induction C as [g | b z | o C IH | k]; cbn; try discriminate.
  - destruct g; [| discriminate]. congruence.
  - destruct o; try discriminate. exact IH.
Qed.

(** X13.  [extractFunctionOrNull] returns null for null metadata, and for a
    constant it returns a function exactly when the constant is that
    function under zero or more bitcasts; any other expression on the way,
    an address-space cast included, gives null.  Metadata that is not a
    constant makes the cast inside [mdconst::extract_or_null] fail.  The
    answer for an operand of a tuple is the same before and after
    [stripMDCasts]. *)
Theorem extractFunctionOrNull_spec (NDEBUG : bool) :
  extractFunctionOrNull NDEBUG None = Ok None /\
  (forall C name,
     extractFunctionOrNull NDEBUG (Some (ConstantAsMetadata C)) = Ok (Some name)
     <-> exists n, C = bitcasts n (GlobalConstant (Function name))) /\
  (forall C,
     extractFunctionOrNull NDEBUG
       (Some (ConstantAsMetadata (ConstantExpr AddrSpaceCast C))) = Ok None) /\
  (forall N, (forall C, N <> ConstantAsMetadata C) ->
     isOk (extractFunctionOrNull NDEBUG (Some N)) = false) /\
  (forall MDTup I MDVal,
     nth_error MDTup I = Some MDVal ->
     exists MDVal',
       nth_error (snd (stripMDCasts MDTup)) I = Some MDVal' /\
       extractFunctionOrNull NDEBUG MDVal'
       = extractFunctionOrNull NDEBUG MDVal).
Proof.
  split; [reflexivity |]. split; [| split; [| split]].
  - intros C name. cbn [extractFunctionOrNull]. split.
    + intros H. inversion H as [E].
      destruct (stripBitCasts_bitcasts C) as [n Hn]. exists n.
      rewrite (functionUnderBitCasts_Some _ _ E) in Hn. exact Hn.
    + intros [n ->]. rewrite functionUnderBitCasts_bitcasts. reflexivity.
  - reflexivity.
  - intros N HN. destruct N as [C | s | ops | n];
      [exfalso; exact (HN C eq_refl) | | |]; destruct NDEBUG; reflexivity.
  - intros MDTup I MDVal H. unfold stripMDCasts.
    rewrite stripMDCastsFrom_spec. cbn [snd]. rewrite nth_error_map, H.
    cbn [option_map]. eexists. split; [reflexivity |].
    destruct MDVal as [[C | s | ops | n] |]; try reflexivity.
    cbn. rewrite functionUnderBitCasts_stripBitCasts. reflexivity.
Qed.

Lemma extractFunctionOrNull_spec_witness :
  extractFunctionOrNull false
    (Some (ConstantAsMetadata
             (ConstantExpr BitCast
                (ConstantExpr BitCast (GlobalConstant (Function "main"))))))
  = Ok (Some "main").
Proof.
  apply (proj2 (proj1 (proj2 (extractFunctionOrNull_spec false)) _ _)).
  exists 2%nat. reflexivity.
Defined.

Lemma stripCasts_CastOf (C : Constant) : CastOf (stripCasts C) C.
Proof.
  induction C as [g | b z | o C IH | k]; try constructor.
  destruct o; cbn [stripCasts]; constructor; exact IH.
Qed.

Lemma CastOf_stripCasts (G : GlobalValue) (C : Constant) :
  CastOf (GlobalConstant G) C -> stripCasts C = GlobalConstant G.
Proof. induction 1; [reflexivity | assumption | assumption]. Qed.

(** X14.  [isCastGlobal] answers true exactly for a constant that is the
    global itself under zero or more bitcasts and address-space casts, in
    any order; for a null value, a value that is no constant, another
    global, or the global under any other expression it answers false. *)
Theorem isCastGlobal_spec (Global : GlobalValue) (V : option Value) :
  (isCastGlobal Global V = true <->
   exists C, V = Some (ConstantValue C) /\ CastOf (GlobalConstant Global) C) /\
  isCastGlobal Global None = false /\
  (forall n, isCastGlobal Global (Some (NonConstant n)) = false) /\
  (forall Global',
     isCastGlobal Global (Some (ConstantValue (GlobalConstant Global'))) = true
     <-> Global' = Global) /\
  (forall n C,
     isCastGlobal Global
       (Some (ConstantValue (ConstantExpr (OtherOpcode n) C))) = false).
Proof.
  split; [| split; [reflexivity | split; [reflexivity | split]]].
  - split.
    + destruct V as [[C | n] |]; cbn [isCastGlobal]; try discriminate.
      intros H. apply Constant_eqb_eq in H. exists C. split; [reflexivity |].
      rewrite H. apply stripCasts_CastOf.
    + intros (C & -> & H). cbn [isCastGlobal].
      rewrite (CastOf_stripCasts _ _ H). apply Constant_eqb_refl.
  - intros Global'. cbn [isCastGlobal stripCasts]. rewrite Constant_eqb_eq.
    split; congruence.
  - intros n C. cbn [isCastGlobal stripCasts].
    destruct (Constant_eqb _ _) eqn:E; [| reflexivity].
    apply Constant_eqb_eq in E. discriminate E.
Qed.

Lemma isCastGlobal_spec_witness :
  isCastGlobal (GlobalVariable "LdsStack")
    (Some (ConstantValue
             (ConstantExpr BitCast
                (ConstantExpr AddrSpaceCast
                   (GlobalConstant (GlobalVariable "LdsStack"))))))
  = true.
Proof.
  apply (proj2 (proj1 (isCastGlobal_spec _ _))).
  eexists. split; [reflexivity |].
  apply CastOf_BitCast. apply CastOf_AddrSpaceCast. apply CastOf_refl.
Defined.

(** X15.  Register-buffer metadata round-trips: for a register count and an
    address space that fit 32 bits, [getRegisterBufferMetadata] applied to
    what [createRegisterBufferMetadata] built returns the same pair, in
    either build.  With assertions enabled, metadata that is not a tuple of
    exactly two operands is rejected by the format assertion. *)
Theorem registerBufferMetadata_round_trip (NDEBUG : bool) (toField : Z -> Z)
    (MD : RegisterBufferMD) :
  (forall v, 0 <= v < 2 ^ 32 -> toField v = v) ->
  0 <= RegisterCount MD < 2 ^ 32 ->
  0 <= Addrspace MD < 2 ^ 32 ->
  getRegisterBufferMetadata NDEBUG toField (createRegisterBufferMetadata MD)
    = Ok MD /\
  (forall operands, List.length operands <> 2%nat ->
     getRegisterBufferMetadata false toField (MDTuple operands)
     = AssertionFailed
         "registerbuffer metadata must be of format { i32, i32 }") /\
  (forall N, (forall operands, N <> MDTuple operands) ->
     getRegisterBufferMetadata false toField N
     = AssertionFailed
         "registerbuffer metadata must be of format { i32, i32 }").
Proof.
  intros Hf Hc Ha. split; [| split].
  - unfold createRegisterBufferMetadata, getRegisterBufferMetadata, extractI32,
      assert.
    cbn [List.length Nat.eqb nth_error bind orb].
    rewrite !orb_true_r. cbn [bind].
    rewrite !wrap32_small by assumption. rewrite !Hf by assumption.
    destruct MD; reflexivity.
  - intros operands Hn. cbn [getRegisterBufferMetadata]. unfold assert.
    cbn [orb]. destruct (Nat.eqb_spec (List.length operands) 2);
      [contradiction | reflexivity].
  - intros N HN. destruct N as [C | s | ops | n]; try reflexivity.
    exfalso. exact (HN ops eq_refl).
Qed.

Lemma registerBufferMetadata_round_trip_witness :
  getRegisterBufferMetadata false (fun v => v mod 2 ^ 32)
    (createRegisterBufferMetadata {| RegisterCount := 30; Addrspace := 20 |})
  = Ok {| RegisterCount := 30; Addrspace := 20 |}.
Proof.
  apply (registerBufferMetadata_round_trip false (fun v => v mod 2 ^ 32)
           {| RegisterCount := 30; Addrspace := 20 |}).
  - intros v Hv. apply Z.mod_small. exact Hv.
  - cbn. lia.
  - cbn. lia.
Defined.

(** X16.  For 64-bit unsigned counts and a positive register size, as long
    as the product does not exceed 64 bits,
    [computeNeededStackSizeForRegisterBuffer] is the register size times the
    number of 32-bit values that do not fit in the reserved registers: zero
    exactly when everything fits, a multiple of the register size, and
    never smaller for more values. *)
Theorem computeNeededStackSizeForRegisterBuffer_spec
    (RegisterBytes NumI32s NumReservedRegisters : Z) :
  0 < RegisterBytes ->
  0 <= NumI32s < 2 ^ 64 ->
  0 <= NumReservedRegisters < 2 ^ 64 ->
  (NumI32s - NumReservedRegisters) * RegisterBytes < 2 ^ 64 ->
  let r := computeNeededStackSizeForRegisterBuffer RegisterBytes NumI32s
             NumReservedRegisters in
  r = Z.max 0 (NumI32s - NumReservedRegisters) * RegisterBytes /\
  (r = 0 <-> NumI32s <= NumReservedRegisters) /\
  r mod RegisterBytes = 0 /\
  (forall NumI32s', 0 <= NumI32s' <= NumI32s ->
     computeNeededStackSizeForRegisterBuffer RegisterBytes NumI32s'
       NumReservedRegisters <= r).
Proof.
  intros HB HN HR HP.
  assert (Hval : forall n, 0 <= n <= NumI32s ->
            computeNeededStackSizeForRegisterBuffer RegisterBytes n
              NumReservedRegisters
            = Z.max 0 (n - NumReservedRegisters) * RegisterBytes).
  { intros n Hn. unfold computeNeededStackSizeForRegisterBuffer, wrap64.
    destruct (Z.leb_spec n NumReservedRegisters) as [Hle | Hgt].
    - rewrite Z.max_l by lia. reflexivity.
    - rewrite Z.max_r by lia.
      rewrite (Z.mod_small (n - NumReservedRegisters)) by lia.
      apply Z.mod_small. nia. }
  cbv zeta. rewrite (Hval NumI32s) by lia. split; [reflexivity |].
  split; [| split].
  - split; intros H; [nia | rewrite Z.max_l by lia; reflexivity].
  - apply Z.mod_mul. lia.
  - intros n Hn. rewrite (Hval n) by lia. nia.
Qed.

Lemma computeNeededStackSizeForRegisterBuffer_spec_witness :
  computeNeededStackSizeForRegisterBuffer 4 10 6 = Z.max 0 (10 - 6) * 4.
Proof.
  exact (proj1 (computeNeededStackSizeForRegisterBuffer_spec 4 10 6
                  ltac:(lia) ltac:(lia) ltac:(lia) ltac:(lia))).
Defined.

End MetadataFacts.

(* ===================================================================== *)
(** * Further properties of [getDXILSystemData] and [replaceIntrinsicCall] *)
(* ===================================================================== *)

Section SystemDataFacts.
Import IR Builder IntrinsicRemap RemapNotions.

Lemma Ty_eqb_refl (t : Ty) : Ty_eqb t t = true.
Proof. apply Ty_eqb_eq. reflexivity. Qed.

Lemma Ty_eqb_neq (a b : Ty) : Ty_eqb a b = false <-> a <> b.
Proof. unfold Ty_eqb. destruct (Ty_eq_dec a b); split; congruence. Qed.

Lemma descend_unfold (S T : Ty) :
  descend S T =
    if Ty_eqb S T then Ok O
    else match S with
         | StructTy (first :: _) => n <- descend first T ;; Ok (Datatypes.S n)
         | StructTy [] => UndefinedBehaviour
         | _ => FatalError
                  "Invalid system data struct: Did not contain the needed struct type"
         end.
Proof. destruct S as [| | | | | [| first l]]; reflexivity. Qed.

Lemma descend_Ok (T : Ty) (n : nat) :
  forall S,
    descend S T = Ok n <->
    firstMemberAt n S = Some T /\
    forall k, (k < n)%nat -> firstMemberAt k S <> Some T.
Proof.
  induction n as [| n IH]; intros S; rewrite descend_unfold.
  - cbn [firstMemberAt]. destruct (Ty_eqb S T) eqn:E.
    + apply Ty_eqb_eq in E. subst. split; [| reflexivity].
      intros _. split; [reflexivity | intros k Hk; lia].
    + apply Ty_eqb_neq in E. split.
      * destruct S as [| | | | | [| first l]]; try discriminate.
        destruct (descend first T); discriminate.
      * intros [H _]. congruence.
  - destruct (Ty_eqb S T) eqn:E.
    + apply Ty_eqb_eq in E. subst. split; [discriminate |].
      intros [_ H]. exfalso. apply (H O); [lia | reflexivity].
    + apply Ty_eqb_neq in E.
      destruct S as [| | | | | [| first l]]; cbn [firstMemberAt];
        try (split; [discriminate | intros [H _]; discriminate]).
      specialize (IH first).
      destruct (descend first T) as [m | | | | |]; cbn [bind].
      2-6: (split; [discriminate |]; intros [H1 H2]; exfalso;
            assert (Hm : firstMemberAt n first = Some T /\
                         forall k, (k < n)%nat -> firstMemberAt k first <> Some T)
              by (split; [exact H1 |]; intros k Hk;
                  apply (H2 (Datatypes.S k)); lia);
            apply IH in Hm; discriminate Hm).
      split.
      * intros H. inversion H; subst m. destruct IH as [IH _].
        destruct (IH eq_refl) as [H1 H2]. split; [exact H1 |].
        intros [| k] Hk; cbn [firstMemberAt]; [congruence |].
        apply H2. lia.
      * intros [H1 H2]. f_equal. f_equal.
        assert (Hm : Ok m = Ok n (A := nat)).
        { apply IH. split; [exact H1 |]. intros k Hk.
          apply (H2 (Datatypes.S k)). lia. }
        congruence.
Qed.

Lemma descend_Fatal_inv (T : Ty) :
  forall S msg,
    descend S T = FatalError msg ->
    exists n T',
      firstMemberAt n S = Some T' /\ isStructTy T' = false /\
      forall k, (k <= n)%nat -> firstMemberAt k S <> Some T.
Proof.
  fix IH 1. intros S msg. rewrite descend_unfold.
  destruct (Ty_eqb S T) eqn:E; [discriminate |]. apply Ty_eqb_neq in E.
  destruct S as [| b | | a | k e | [| first l]]; try discriminate.
  1-5: (intros _; exists O; eexists; split; [reflexivity |];
        split; [reflexivity |]; intros k' Hk;
        replace k' with O by lia; cbn; congruence).
  destruct (descend first T) as [m | m | | | |] eqn:Hd; cbn [bind];
    try discriminate.
  intros _. destruct (IH first m Hd) as (n & T' & H1 & H2 & H3).
  exists (Datatypes.S n), T'. split; [exact H1 |]. split; [exact H2 |].
  intros [| k] Hk; cbn [firstMemberAt]; [congruence | apply H3; lia].
Qed.

Lemma descend_Fatal (T : Ty) (n : nat) :
  forall S T',
    firstMemberAt n S = Some T' -> isStructTy T' = false ->
    (forall k, (k <= n)%nat -> firstMemberAt k S <> Some T) ->
    descend S T =
      FatalError
        "Invalid system data struct: Did not contain the needed struct type".
Proof.
  induction n as [| n IH]; intros S T' H1 H2 H3; rewrite descend_unfold.
  - cbn in H1. inversion H1; subst T'.
    assert (E : S <> T) by (intros ->; apply (H3 O); [lia | reflexivity]).
    apply Ty_eqb_neq in E. rewrite E.
    destruct S as [| | | | | l]; try reflexivity. discriminate H2.
  - assert (E : S <> T) by (intros ->; apply (H3 O); [lia | reflexivity]).
    apply Ty_eqb_neq in E. rewrite E.
    destruct S as [| | | | | [| first l]]; try discriminate H1.
    cbn [firstMemberAt] in H1.
    rewrite (IH first T' H1 H2); [reflexivity |].
    intros k Hk. apply (H3 (Datatypes.S k)). lia.
Qed.

(** X17.  For a wanted struct type, [getDXILSystemData] follows first
    members only: when the system data type is the wanted type it returns
    the system data pointer itself; when the wanted type is first reached
    after [n >= 1] steps into first members it returns an in-bounds GEP with
    [n + 1] zero indices; and it ends in [report_fatal_error] exactly when
    the chain of first members reaches a type that is not a struct without
    meeting the wanted type, so a wanted type that only occurs as a later
    member is not found. *)
Theorem getDXILSystemData_first_members (NDEBUG : bool) (SystemData : BValue)
    (SystemDataTy Ty : Ty) :
  isStructTy Ty = true ->
  getDXILSystemData NDEBUG SystemData Ty (Some Ty) = Ok SystemData /\
  (forall n,
     firstMemberAt (S n) SystemDataTy = Some Ty ->
     (forall k, (k <= n)%nat -> firstMemberAt k SystemDataTy <> Some Ty) ->
     getDXILSystemData NDEBUG SystemData SystemDataTy (Some Ty)
     = Ok (CreateInBoundsGEP SystemDataTy SystemData
             (repeat (getInt32 0) (S (S n))))) /\
  ((exists msg,
      getDXILSystemData NDEBUG SystemData SystemDataTy (Some Ty)
      = FatalError msg) <->
   exists n T',
     firstMemberAt n SystemDataTy = Some T' /\ isStructTy T' = false /\
     forall k, (k <= n)%nat -> firstMemberAt k SystemDataTy <> Some Ty).
Proof.
  intros Hs. unfold getDXILSystemData, assert. rewrite Hs, !orb_true_r.
  cbn [bind]. split; [| split].
  - rewrite descend_unfold, Ty_eqb_refl. reflexivity.
  - intros n H1 H2.
    assert (Hd : descend SystemDataTy Ty = Ok (S n)).
    { apply descend_Ok. split; [exact H1 |]. intros k Hk. apply H2. lia. }
    rewrite Hd. reflexivity.
  - split.
    + intros [msg H].
      destruct (descend SystemDataTy Ty) as [n | m | | | |] eqn:Hd;
        cbn [bind] in H; try discriminate.
      * destruct (Nat.eqb (S n) 1); discriminate.
      * exact (descend_Fatal_inv _ _ _ Hd).
    + intros (n & T' & H1 & H2 & H3).
      rewrite (descend_Fatal _ _ _ _ H1 H2 H3). cbn [bind]. eauto.
Qed.

Lemma getDXILSystemData_first_members_witness :
  getDXILSystemData false (Existing "data")
    (StructTy [StructTy [Examples.systemDataTy; Examples.i32]; Examples.i64])
    (Some Examples.systemDataTy)
  = Ok (CreateInBoundsGEP
          (StructTy [StructTy [Examples.systemDataTy; Examples.i32];
                     Examples.i64])
          (Existing "data") (repeat (getInt32 0) 3)).
Proof.
  apply (proj1 (proj2 (getDXILSystemData_first_members false (Existing "data")
           (StructTy [StructTy [Examples.systemDataTy; Examples.i32];
                      Examples.i64])
           Examples.systemDataTy eq_refl)) 1%nat).
  - reflexivity.
  - intros k Hk.
    destruct k as [| [| k]]; [discriminate | discriminate | lia].
Defined.

Lemma convertArguments_Ok (IntrName : string) (implParams : list Ty) :
  forall callArgs args,
    convertArguments IntrName callArgs implParams = Ok args ->
    List.length args = List.length implParams /\
    (List.length implParams <= List.length callArgs)%nat /\
    forall i Arg ArgType NewType a,
      nth_error callArgs i = Some (Arg, ArgType) ->
      nth_error implParams i = Some NewType ->
      nth_error args i = Some a ->
      passedAs Arg ArgType NewType a.
Proof.
  induction implParams as [| NewType implParams IH]; intros callArgs args H;
    destruct callArgs as [| [Arg ArgType] callArgs];
    cbn [convertArguments] in H; try discriminate.
  - injection H as <-. repeat split; [cbn; lia |].
    intros [| i] Arg ArgType N a _ Hn; discriminate Hn.
  - injection H as <-. repeat split; [cbn; lia |].
    intros [| i] Arg' ArgType' N a _ Hn; discriminate Hn.
  - destruct (Ty_eqb ArgType NewType) eqn:E.
    + cbn [bind] in H.
      destruct (convertArguments IntrName callArgs implParams) as [rest | | | | |]
        eqn:Hr; cbn [bind] in H; try discriminate.
      injection H as <-. destruct (IH _ _ Hr) as (H1 & H2 & H3).
      cbn [List.length]. repeat split; try lia.
      intros [| i] Arg' ArgType' N a Ha Hn Hx; cbn [nth_error] in *.
      * inversion Ha; inversion Hn; inversion Hx; subst.
        left. apply Ty_eqb_eq in E. auto.
      * eapply H3; eassumption.
    + destruct (isIntegerTy NewType && isIntegerTy ArgType) eqn:Ei;
        cbn [bind] in H; [| discriminate].
      destruct (convertArguments IntrName callArgs implParams) as [rest | | | | |]
        eqn:Hr; cbn [bind] in H; try discriminate.
      injection H as <-. destruct (IH _ _ Hr) as (H1 & H2 & H3).
      cbn [List.length]. repeat split; try lia.
      intros [| i] Arg' ArgType' N a Ha Hn Hx; cbn [nth_error] in *.
      * inversion Ha; inversion Hn; inversion Hx; subst.
        right. apply Ty_eqb_neq in E. apply andb_true_iff in Ei.
        destruct Ei. auto.
      * eapply H3; eassumption.
Qed.

(** X18.  [replaceIntrinsicCall] returns null, replacing nothing, exactly
    for a call whose callee is not named [lgc.rt...]; it ends in
    [report_fatal_error] for an [lgc.rt] operation that has no table entry
    and for an entry whose [_cont_] implementation the library lacks.  When
    it succeeds, the new call is to that implementation, the uses of the old
    call are replaced unless it is void, and after the system data (and the
    hit data) the new call has one argument per remaining parameter of the
    implementation: the call operand at the same position, passed as it is
    when the types agree and zero-extended when both are integer types;
    call operands beyond the parameters are dropped. *)
Theorem replaceIntrinsicCall_outcomes (NDEBUG : bool) (SystemDataTy : Ty)
    (SystemData : BValue) (Kind : DXILShaderKind) (Call : CallInst)
    (GpurtLibrary : list FunctionDecl) :
  (replaceIntrinsicCall NDEBUG SystemDataTy SystemData Kind Call GpurtLibrary
     = Ok None <->
   isLgcRtOp (getCalledFunction Call) = false) /\
  (isLgcRtOp (getCalledFunction Call) = true ->
   (forall c, getCalledFunction Call = Some c -> dialectOp c = None) ->
   replaceIntrinsicCall NDEBUG SystemDataTy SystemData Kind Call GpurtLibrary
     = FatalError "Unhandled lgc.rt op!") /\
  (forall entry,
     findIntrImplEntryByIntrinsicCall Call = Ok (Some entry) ->
     getFunction GpurtLibrary ("_cont_" ++ Name entry)%string = None ->
     replaceIntrinsicCall NDEBUG SystemDataTy SystemData Kind Call GpurtLibrary
       = FatalError ("Intrinsic implementation '"
                     ++ ("_cont_" ++ Name entry) ++ "' not found")%string) /\
  (forall r,
     replaceIntrinsicCall NDEBUG SystemDataTy SystemData Kind Call GpurtLibrary
       = Ok (Some r) ->
     exists entry IntrImpl,
       findIntrImplEntryByIntrinsicCall Call = Ok (Some entry) /\
       getFunction GpurtLibrary ("_cont_" ++ Name entry)%string = Some IntrImpl /\
       NewCall r = CreateCall ("_cont_" ++ Name entry)%string (Arguments r) /\
       replacesUses r = negb (Ty_eqb (callType Call) VoidTy) /\
       let ImplI := if AccessesHitData entry then 2%nat else 1%nat in
       List.length (Arguments r)
         = (ImplI + (List.length (paramTypes IntrImpl) - ImplI))%nat /\
       forall i Arg ArgType NewType a,
         nth_error (argOperands Call) i = Some (Arg, ArgType) ->
         nth_error (paramTypes IntrImpl) (ImplI + i) = Some NewType ->
         nth_error (Arguments r) (ImplI + i) = Some a ->
         passedAs Arg ArgType NewType a).
Proof.
  split; [| split; [| split]].
  - unfold replaceIntrinsicCall, findIntrImplEntryByIntrinsicCall.
    destruct (isLgcRtOp (getCalledFunction Call)); cbn [negb bind];
      [| split; reflexivity].
    split; [| discriminate]. intros H. exfalso.
    destruct (getCalledFunction Call) as [[name [op |]] |]; cbn [bind] in H;
      try discriminate.
    destruct (getFunction GpurtLibrary _) as [IntrImpl |]; [| discriminate].
    destruct (getFuncArgPtrElementType IntrImpl 0); cbn [bind] in H;
      try discriminate.
    destruct (getDXILSystemData _ _ _ _); cbn [bind] in H; try discriminate.
    match type of H with
    | bind ?hit _ = _ => destruct hit as [[[acc em] ha] | | | | |]
    end; cbn [bind] in H; try discriminate.
    destruct (convertArguments _ _ _); cbn [bind] in H; discriminate.
  - intros Hl Hn. unfold replaceIntrinsicCall, findIntrImplEntryByIntrinsicCall.
    rewrite Hl. cbn [negb].
    destruct (getCalledFunction Call) as [[name [op |]] |]; try reflexivity.
    specialize (Hn _ eq_refl). discriminate Hn.
  - intros entry He Hf. unfold replaceIntrinsicCall. rewrite He. cbn [bind].
    rewrite Hf. reflexivity.
  - intros r H. unfold replaceIntrinsicCall in H.
    destruct (findIntrImplEntryByIntrinsicCall Call) as [[entry |] | | | | |];
      cbn [bind] in H; try discriminate.
    destruct (getFunction GpurtLibrary _) as [IntrImpl |] eqn:Hf;
      [| discriminate].
    destruct (getFuncArgPtrElementType IntrImpl 0); cbn [bind] in H;
      try discriminate.
    destruct (getDXILSystemData _ _ _ _) as [sys | | | | |]; cbn [bind] in H;
      try discriminate.
    exists entry, IntrImpl. split; [reflexivity |]. split; [exact Hf |].
    apply getFunction_name in Hf.
    destruct (AccessesHitData entry).
    + match type of H with
      | bind ?hit _ = _ => destruct hit as [[[acc em] ha] | | | | |] eqn:Hh
      end; cbn [bind] in H; try discriminate.
      assert (Hha : List.length ha = 1%nat).
      { match type of Hh with
        | bind ?g _ = _ => destruct g as [G | | | | |]
        end; cbn [bind] in Hh; try discriminate.
        destruct (getFuncArgPtrElementType G 0); cbn [bind] in Hh;
          try discriminate.
        destruct (getDXILSystemData _ _ _ _); cbn [bind] in Hh;
          try discriminate.
        inversion Hh. reflexivity. }
      destruct (convertArguments _ _ _) as [rest | | | | |] eqn:Hr;
        cbn [bind] in H; try discriminate.
      inversion H; subst r. cbn [NewCall Arguments replacesUses].
      destruct (convertArguments_Ok _ _ _ _ Hr) as (H1 & H2 & H3).
      destruct ha as [| h [| h' ha]]; try discriminate Hha.
      split; [rewrite Hf; reflexivity |]. split; [reflexivity |]. split.
      * cbn [List.length app]. rewrite H1, length_skipn. lia.
      * intros i Arg ArgType NewType x Ha Hn Hx.
        cbn [Nat.add nth_error app] in Hx.
        eapply H3; [exact Ha | | exact Hx].
        rewrite nth_error_skipn. exact Hn.
    + cbn [bind] in H.
      destruct (convertArguments _ _ _) as [rest | | | | |] eqn:Hr;
        cbn [bind] in H; try discriminate.
      inversion H; subst r. cbn [NewCall Arguments replacesUses].
      destruct (convertArguments_Ok _ _ _ _ Hr) as (H1 & H2 & H3).
      split; [rewrite Hf; reflexivity |]. split; [reflexivity |]. split.
      * cbn [List.length app]. rewrite H1, length_skipn. lia.
      * intros i Arg ArgType NewType x Ha Hn Hx.
        cbn [Nat.add nth_error app] in Hx.
        eapply H3; [exact Ha | | exact Hx].
        rewrite nth_error_skipn. exact Hn.
Qed.

Lemma replaceIntrinsicCall_outcomes_witness :
  replaceIntrinsicCall false Examples.systemDataTy (Existing "data")
    ClosestHit Examples.instanceIdCall []
  = FatalError "Intrinsic implementation '_cont_InstanceID' not found".
Proof.
  exact (proj1 (proj2 (proj2 (replaceIntrinsicCall_outcomes false
           Examples.systemDataTy (Existing "data") ClosestHit
           Examples.instanceIdCall [])))
           (LgcRtGpuRtMap InstanceIdOp) eq_refl eq_refl).
Defined.

End SystemDataFacts.

(* ===================================================================== *)
(** * Further properties of [replaceAllPointerUses] *)
(* ===================================================================== *)

Section RewriteStructureFacts.
Import IR AddrSpaceRewrite Spec RewriteNotions.

Lemma skeleton_mapOperands (g : Value -> Value) (i : Instruction) (t : Ty) :
  skeleton {| getId := getId i; getKind := mapOperands g (getKind i);
              getType := t |} = skeleton i.
Proof.
  unfold skeleton. cbn [getId getKind]. f_equal. apply mapOperands_compose.
Qed.

Lemma skeleton_retypeIf (x : nat) (t : Ty) (i : Instruction) :
  skeleton (retypeIf x t i) = skeleton i.
Proof.
  unfold skeleton. rewrite retypeIf_id, retypeIf_kind. reflexivity.
Qed.

Lemma setNth_length {A : Type} (n : nat) (x : A) (l : list A) :
  List.length (setNth n x l) = List.length l.
Proof.
  revert n. induction l as [| a l IH]; intros [| n]; cbn; auto.
Qed.

Lemma mutateType_skeleton (g : Function_) (v : Value) (t : Ty) :
  map skeleton (body (mutateType g v t)) = map skeleton (body g) /\
  List.length (args (mutateType g v t)) = List.length (args g).
Proof.
  destruct v as [x | n | ty c]; cbn [mutateType body args].
  - split; [| reflexivity]. rewrite map_map. apply map_ext. intros i.
    apply (skeleton_retypeIf x t i).
  - split; [reflexivity | apply setNth_length].
  - split; reflexivity.
Qed.

Lemma rauw_skeleton (g : Function_) (a b : Value) :
  map skeleton (body (replaceAllUsesWith g a b)) = map skeleton (body g) /\
  List.length (args (replaceAllUsesWith g a b)) = List.length (args g).
Proof.
  unfold replaceAllUsesWith. cbn [body args]. split; [| reflexivity].
  rewrite map_map. apply map_ext. intros i. apply skeleton_mapOperands.
Qed.

Lemma doRAUW_skeleton (NDEBUG : bool) (g g' : Function_) (a b : Value) :
  doRAUW NDEBUG g a b = Ok g' ->
  map skeleton (body g') = map skeleton (body g) /\
  List.length (args g') = List.length (args g).
Proof.
  unfold doRAUW. destruct (Value_eqb a b).
  - destruct NDEBUG; [| discriminate].
    destruct (use_empty g a); [| discriminate].
    intros H; inversion H; subst. split; reflexivity.
  - intros H; inversion H; subst. apply rauw_skeleton.
Qed.

Lemma erase_skeleton (g : Function_) (x : nat) :
  map skeleton (body (eraseFromParent g x))
  = filter (fun s => negb (Nat.eqb (fst s) x)) (map skeleton (body g)).
Proof.
  unfold eraseFromParent. cbn [body].
  induction (body g) as [| i b IH]; [reflexivity |]. cbn [filter map].
  cbn [skeleton fst]. destruct (Nat.eqb (getId i) x); cbn [negb map];
    rewrite IH; reflexivity.
Qed.

Lemma filter_skeleton (P : nat -> bool) (b : list Instruction) :
  map skeleton (filter (fun i => P (getId i)) b)
  = filter (fun s => P (fst s)) (map skeleton b).
Proof.
  induction b as [| i b IH]; [reflexivity |]. cbn [filter map].
  cbn [skeleton fst]. destruct (P (getId i)); cbn [map]; rewrite IH;
    reflexivity.
Qed.

Lemma filter_filter {A : Type} (p q : A -> bool) (l : list A) :
  filter p (filter q l) = filter (fun a => q a && p a) l.
Proof.
  induction l as [| a l IH]; [reflexivity |]. cbn [filter].
  destruct (q a); cbn [filter andb]; [destruct (p a) |]; rewrite IH;
    reflexivity.
Qed.

(** The instruction found under an id has its skeleton among the
    skeletons. *)
Lemma lookup_skeleton (g : Function_) (x : nat) (i : Instruction) :
  lookup g x = Some i ->
  In (skeleton i) (map skeleton (body g)) /\ getId i = x.
Proof.
  intros H. apply lookup_In in H. destruct H as [Hin Hid].
  split; [apply in_map; exact Hin | exact Hid].
Qed.

Lemma isAddrSpaceCast_mapOperands (g : Value -> Value) (k : Instr) :
  isAddrSpaceCast (mapOperands g k) = isAddrSpaceCast k.
Proof. destruct k; reflexivity. Qed.

Lemma skeleton_lifetime (i j : Instruction) :
  skeleton i = skeleton j ->
  getId i = getId j /\
  isLifetimeMarker (getKind i) = isLifetimeMarker (getKind j) /\
  isAddrSpaceCast (getKind i) = isAddrSpaceCast (getKind j).
Proof.
  unfold skeleton. intros H. injection H as Hid Hk. split; [exact Hid |].
  split.
  - rewrite <- (isLifetimeMarker_mapOperands (fun _ => VArg 0) (getKind i)).
    rewrite Hk. apply isLifetimeMarker_mapOperands.
  - rewrite <- (isAddrSpaceCast_mapOperands (fun _ => VArg 0) (getKind i)).
    rewrite Hk. apply isAddrSpaceCast_mapOperands.
Qed.

Variable f : Function_.
Variable tbr : list nat.
Hypothesis Hunique : uniqueIds f.

(** What the rewrite keeps true of the function [g] it has reached and of
    the removal list. *)
Let kept (g : Function_) (removed : list nat) : Prop :=
  List.length (args g) = List.length (args f) /\
  (exists erased,
     (forall i, In i (body f) -> In (getId i) erased ->
                isLifetimeMarker (getKind i) = true) /\
     map skeleton (body g)
     = map skeleton
         (filter (fun i => negb (memb (getId i) erased)) (body f))) /\
  (exists added,
     removed = tbr ++ added /\
     forall x, In x added ->
       exists i, In i (body f) /\ getId i = x /\
                 isAddrSpaceCast (getKind i) = true).

Lemma kept_same_skeleton (g g' : Function_) (removed : list nat) :
  kept g removed ->
  map skeleton (body g') = map skeleton (body g) ->
  List.length (args g') = List.length (args g) ->
  kept g' removed.
Proof.
  intros (Ha & He & Hr) Hs Hl. split; [congruence |]. split; [| exact Hr].
  destruct He as (erased & Hc & Hk). exists erased. split; [exact Hc |].
  congruence.
Qed.

(** An instruction of the function reached comes from one of [f]. *)
Lemma kept_origin (g : Function_) (removed : list nat) (x : nat)
    (i : Instruction) :
  kept g removed -> lookup g x = Some i ->
  exists i0, In i0 (body f) /\ getId i0 = x /\
             isLifetimeMarker (getKind i0) = isLifetimeMarker (getKind i) /\
             isAddrSpaceCast (getKind i0) = isAddrSpaceCast (getKind i).
Proof.
  intros (_ & (erased & _ & Hk) & _) Hl.
  apply lookup_skeleton in Hl. destruct Hl as [Hin Hid].
  rewrite Hk in Hin. apply in_map_iff in Hin.
  destruct Hin as (i0 & Hs & Hi0). apply filter_In in Hi0.
  apply skeleton_lifetime in Hs. destruct Hs as (E1 & E2 & E3).
  exists i0. split; [tauto |]. split; [congruence | auto].
Qed.

Lemma kept_erase (g : Function_) (removed : list nat) (x : nat)
    (i : Instruction) :
  kept g removed -> lookup g x = Some i ->
  isLifetimeMarker (getKind i) = true ->
  kept (eraseFromParent g x) removed.
Proof.
  intros HK Hl Hlt.
  destruct (kept_origin _ _ _ _ HK Hl) as (i0 & Hi0 & Hid & E & _).
  destruct HK as (Ha & (erased & Hc & Hk) & Hr).
  split; [exact Ha |]. split; [| exact Hr].
  exists (x :: erased). split.
  - intros j Hj [Hx | Hin]; [| apply Hc; assumption].
    assert (j = i0).
    { pose proof (lookup_unique f j Hunique Hj) as Lj.
      pose proof (lookup_unique f i0 Hunique Hi0) as L0.
      rewrite <- Hx, <- Hid in Lj. congruence. }
    subst j. congruence.
  - rewrite erase_skeleton, Hk.
    rewrite (filter_skeleton (fun n => negb (memb n erased))).
    rewrite filter_filter.
    rewrite (filter_skeleton (fun n => negb (memb n (x :: erased)))).
    apply filter_ext. intros s. unfold memb. cbn [existsb].
    rewrite negb_orb. apply andb_comm.
Qed.

Lemma visit_kept (NDEBUG : bool) (NewAS : nat) (st st' : State) (Ptr : nat)
    (wl wl' : list nat) :
  visit NDEBUG NewAS st Ptr wl = Ok (st', wl') ->
  kept (fn st) (ToBeRemoved st) -> kept (fn st') (ToBeRemoved st').
Proof.
  unfold visit. intros H HK.
  destruct (lookup (fn st) Ptr) as [Inst |] eqn:Hl; [| discriminate].
  assert (Hmut : forall t,
            kept (mutateType (fn st) (VInst Ptr) t) (ToBeRemoved st)).
  { intros t. destruct (mutateType_skeleton (fn st) (VInst Ptr) t).
    eapply kept_same_skeleton; eauto. }
  destruct (getKind Inst) as
    [lt cargs | ptr simple | val ptr simple | a b | a b | v | v | v | v
     | ptr idx off | cnd a b | opc ops] eqn:Hk.
  - destruct lt; [| discriminate]. inversion H; subst st' wl'. cbn [fn ToBeRemoved].
    apply (kept_erase _ _ _ Inst HK Hl). rewrite Hk. reflexivity.
  - inversion H; subst; exact HK.
  - inversion H; subst; exact HK.
  - inversion H; subst; exact HK.
  - inversion H; subst; exact HK.
  - inversion H; subst; exact HK.
  - destruct (GetMutatedPtrTy NDEBUG NewAS (getType Inst)) as [t | | | | |];
      cbn [bind] in H; try discriminate.
    inversion H; subst st' wl'. apply Hmut.
  - destruct (typeOf (fn st) v); cbn [bind] in H; try discriminate.
    destruct (assert NDEBUG _ _); cbn [bind] in H; try discriminate.
    destruct (GetMutatedPtrTy NDEBUG NewAS (getType Inst)) as [t | | | | |];
      cbn [bind] in H; try discriminate.
    inversion H; subst st' wl'. apply Hmut.
  - destruct (typeOf (fn st) v); cbn [bind] in H; try discriminate.
    destruct (castPointerType NDEBUG _); cbn [bind] in H; try discriminate.
    destruct (assert NDEBUG _ _); cbn [bind] in H; try discriminate.
    destruct (GetMutatedPtrTy NDEBUG NewAS (getType Inst)) as [t | | | | |];
      cbn [bind] in H; try discriminate.
    destruct (doRAUW NDEBUG _ (VInst Ptr) v) as [g' | | | | |] eqn:Hr;
      cbn [bind] in H; try discriminate.
    inversion H; subst st' wl'. cbn [fn ToBeRemoved].
    destruct (doRAUW_skeleton _ _ _ _ _ Hr) as [Hs Hlen].
    destruct (kept_origin _ _ _ _ HK Hl) as (i0 & Hi0 & Hid & _ & Hasc).
    pose proof (kept_same_skeleton _ g' _ (Hmut t) Hs Hlen) as (Ha & He & Hrem).
    split; [exact Ha |]. split; [exact He |].
    destruct Hrem as (added & Hadd & Hall). exists (added ++ [Ptr]).
    split; [rewrite Hadd, app_assoc; reflexivity |].
    intros x Hx. apply in_app_iff in Hx. destruct Hx as [Hx | [<- | []]];
      [apply Hall; exact Hx |].
    exists i0. split; [exact Hi0 |]. split; [exact Hid |].
    rewrite Hasc, Hk. reflexivity.
  - destruct (GetMutatedPtrTy NDEBUG NewAS (getType Inst)) as [t | | | | |];
      cbn [bind] in H; try discriminate.
    inversion H; subst st' wl'. apply Hmut.
  - destruct (isPointerTy (getType Inst)).
    + destruct (GetMutatedPtrTy NDEBUG NewAS (getType Inst)) as [t | | | | |];
        cbn [bind] in H; try discriminate.
      destruct (Ty_eqb _ (getType Inst)).
      * inversion H; subst; exact HK.
      * inversion H; subst st' wl'. apply Hmut.
    + inversion H; subst; exact HK.
  - discriminate.
Qed.

Lemma loop_kept (NDEBUG : bool) (NewAS : nat) :
  forall fuel st wl st',
    loop NDEBUG NewAS fuel st wl = Ok st' ->
    kept (fn st) (ToBeRemoved st) -> kept (fn st') (ToBeRemoved st').
Proof.
  induction fuel as [| fuel IH]; intros st wl st' H HK.
  - destruct wl; [| discriminate]. cbn in H. congruence.
  - destruct wl as [| Ptr wl]; [cbn in H; congruence |].
    cbn [loop] in H.
    destruct (visit NDEBUG NewAS st Ptr wl) as [[st1 wl1] | | | | |] eqn:Hv;
      cbn [bind] in H; try discriminate.
    cbn [fst snd] in H. apply (IH _ _ _ H).
    exact (visit_kept _ _ _ _ _ _ _ Hv HK).
Qed.

Lemma replaceAllPointerUses_kept (NDEBUG : bool) (fuel : nat)
    (Old New : Value) (st : State) :
  replaceAllPointerUses NDEBUG fuel f Old New tbr = Ok st ->
  kept (fn st) (ToBeRemoved st).
Proof.
  unfold replaceAllPointerUses. intros H.
  destruct (typeOf f Old) as [oldTy | | | | |]; cbn [bind] in H;
    try discriminate.
  destruct (typeOf f New) as [newTy | | | | |]; cbn [bind] in H;
    try discriminate.
  destruct (castPointerType NDEBUG oldTy); cbn [bind] in H; try discriminate.
  destruct (castPointerType NDEBUG newTy); cbn [bind] in H; try discriminate.
  destruct (assert NDEBUG (negb _) _); cbn [bind] in H; try discriminate.
  destruct (assert NDEBUG (Ty_eqb _ _) _); cbn [bind] in H; try discriminate.
  destruct (doRAUW NDEBUG _ Old New) as [g' | | | | |] eqn:Hr;
    cbn [bind] in H; try discriminate.
  apply (loop_kept _ _ _ _ _ _ H). cbn [fn ToBeRemoved].
  destruct (doRAUW_skeleton _ _ _ _ _ Hr) as [Hs Hlen].
  destruct (mutateType_skeleton f Old newTy) as [Hs' Hlen'].
  split; [congruence |]. split.
  - exists []. split; [intros i _ [] |]. rewrite Hs, Hs'. f_equal.
    symmetry. clear. induction (body f) as [| i b IH]; [reflexivity |].
    cbn. f_equal. exact IH.
  - exists []. split; [rewrite app_nil_r; reflexivity | intros x []].
Qed.

End RewriteStructureFacts.

Section RewriteStructureTheorem.
Import IR AddrSpaceRewrite Spec RewriteNotions.

(** X19.  In a function with distinct instruction ids, a rewrite that
    completes keeps the number of arguments and every instruction except
    lifetime markers, in order and with its id, opcode, flags and number of
    operands (only operands and result types change); and it extends the
    removal list, at the end, by address-space casts of the function only. *)
Theorem replaceAllPointerUses_keeps_instructions (NDEBUG : bool) (fuel : nat)
    (f : Function_) (Old New : Value) (tbr : list nat) (st : State) :
  uniqueIds f ->
  replaceAllPointerUses NDEBUG fuel f Old New tbr = Ok st ->
  List.length (args (fn st)) = List.length (args f) /\
  (exists erased,
     (forall i, In i (body f) -> In (getId i) erased ->
                isLifetimeMarker (getKind i) = true) /\
     map skeleton (body (fn st))
     = map skeleton
         (filter (fun i => negb (memb (getId i) erased)) (body f))) /\
  (exists added,
     ToBeRemoved st = tbr ++ added /\
     forall x, In x added ->
       exists i, In i (body f) /\ getId i = x /\
                 isAddrSpaceCast (getKind i) = true).
Proof.
  intros Hu H. exact (replaceAllPointerUses_kept f tbr Hu NDEBUG fuel Old New st H).
Qed.

Lemma rewriteFunction_uniqueIds : uniqueIds Examples.rewriteFunction.
Proof.
  unfold uniqueIds; cbn;
  repeat (constructor; [cbn; intuition discriminate |]); constructor.
Qed.

Lemma replaceAllPointerUses_keeps_instructions_witness :
  List.length (args Examples.rewriteFunctionRewritten)
  = List.length (args Examples.rewriteFunction).
Proof.
  exact (proj1 (replaceAllPointerUses_keeps_instructions false 10
           Examples.rewriteFunction (VArg 0) (VArg 1) []
           {| fn := Examples.rewriteFunctionRewritten; ToBeRemoved := [] |}
           rewriteFunction_uniqueIds rewriteFunction_run)).
Defined.

End RewriteStructureTheorem.

Section RewriteUnsupportedFacts.
Import IR AddrSpaceRewrite Spec RewriteNotions.

Lemma unsupported_mapOperands (g : Value -> Value) (k : Instr) :
  unsupported (mapOperands g k) = unsupported k.
Proof. destruct k; reflexivity. Qed.

Lemma uses_mutateType (g : Function_) (v w : Value) (t : Ty) :
  uses (mutateType g v t) w = uses g w.
Proof.
  destruct v as [x | n | ty c]; cbn [mutateType]; try reflexivity.
  unfold uses. cbn [body]. induction (body g) as [| i b IH]; [reflexivity |].
  cbn [map flat_map]. rewrite IH. f_equal.
  destruct (Nat.eqb (getId i) x); reflexivity.
Qed.

Lemma doRAUW_unsupported (NDEBUG : bool) (g g' : Function_) (a b : Value)
    (x : nat) (i : Instruction) :
  doRAUW NDEBUG g a b = Ok g' ->
  lookup g x = Some i -> unsupported (getKind i) = true ->
  exists i', lookup g' x = Some i' /\ unsupported (getKind i') = true.
Proof.
  unfold doRAUW. intros H Hx Hu. destruct (Value_eqb a b).
  - destruct NDEBUG; [| discriminate].
    destruct (use_empty g a); [| discriminate].
    injection H as <-. eauto.
  - injection H as <-. rewrite lookup_rauw, Hx. cbn. eexists.
    split; [reflexivity |]. cbn [rauwInst getKind].
    rewrite unsupported_mapOperands. exact Hu.
Qed.

(** An instruction with an unsupported opcode stays one while other
    instructions are visited. *)
Lemma visit_keeps_unsupported (NDEBUG : bool) (NewAS : nat) (st st' : State)
    (Ptr x : nat) (wl wl' : list nat) (i : Instruction) :
  visit NDEBUG NewAS st Ptr wl = Ok (st', wl') ->
  lookup (fn st) x = Some i -> unsupported (getKind i) = true ->
  x <> Ptr /\
  (exists i', lookup (fn st') x = Some i' /\ unsupported (getKind i') = true) /\
  incl wl wl'.
Proof.
  unfold visit. intros H Hx Hu.
  destruct (lookup (fn st) Ptr) as [Inst |] eqn:Hl; [| discriminate].
  assert (Hne : x <> Ptr).
  { intros ->. assert (Inst = i) by congruence. subst Inst.
    destruct (getKind i) as [[|] ? | | | | | | | | | | |]; try discriminate. }
  split; [exact Hne |].
  assert (Hmut : forall t,
            exists i', lookup (mutateType (fn st) (VInst Ptr) t) x = Some i' /\
                       unsupported (getKind i') = true).
  { intros t. rewrite lookup_mutateType, Hx. cbn. eexists.
    split; [reflexivity |]. rewrite retypeIf_kind. exact Hu. }
  assert (Happ : forall g, incl wl (appendUsers g Ptr wl)).
  { intros g y Hy. unfold appendUsers. apply in_or_app. right. exact Hy. }
  destruct (getKind Inst) as
    [lt cargs | ptr simple | val ptr simple | a b | a b | v | v | v | v
     | ptr idx off | cnd a b | opc ops] eqn:Hk.
  - destruct lt; [| discriminate]. inversion H; subst st' wl'. cbn [fn].
    split; [| apply incl_refl]. rewrite lookup_erase.
    destruct (Nat.eqb_spec x Ptr); [contradiction | eauto].
  - inversion H; subst. split; [eauto | apply incl_refl].
  - inversion H; subst. split; [eauto | apply incl_refl].
  - inversion H; subst. split; [eauto | apply Happ].
  - inversion H; subst. split; [eauto | apply Happ].
  - inversion H; subst. split; [eauto | apply Happ].
  - destruct (GetMutatedPtrTy NDEBUG NewAS (getType Inst)) as [t | | | | |];
      cbn [bind] in H; try discriminate.
    inversion H; subst st' wl'. split; [apply Hmut | apply Happ].
  - destruct (typeOf (fn st) v); cbn [bind] in H; try discriminate.
    destruct (assert NDEBUG _ _); cbn [bind] in H; try discriminate.
    destruct (GetMutatedPtrTy NDEBUG NewAS (getType Inst)) as [t | | | | |];
      cbn [bind] in H; try discriminate.
    inversion H; subst st' wl'. split; [apply Hmut | apply Happ].
  - destruct (typeOf (fn st) v); cbn [bind] in H; try discriminate.
    destruct (castPointerType NDEBUG _); cbn [bind] in H; try discriminate.
    destruct (assert NDEBUG _ _); cbn [bind] in H; try discriminate.
    destruct (GetMutatedPtrTy NDEBUG NewAS (getType Inst)) as [t | | | | |];
      cbn [bind] in H; try discriminate.
    destruct (doRAUW NDEBUG _ (VInst Ptr) v) as [g' | | | | |] eqn:Hr;
      cbn [bind] in H; try discriminate.
    injection H as <- <-. cbn [fn]. split; [| apply Happ].
    destruct (Hmut t) as (i' & Hi' & Hu').
    exact (doRAUW_unsupported _ _ _ _ _ _ _ Hr Hi' Hu').
  - destruct (GetMutatedPtrTy NDEBUG NewAS (getType Inst)) as [t | | | | |];
      cbn [bind] in H; try discriminate.
    inversion H; subst st' wl'. split; [apply Hmut | apply Happ].
  - destruct (isPointerTy (getType Inst)).
    + destruct (GetMutatedPtrTy NDEBUG NewAS (getType Inst)) as [t | | | | |];
        cbn [bind] in H; try discriminate.
      destruct (Ty_eqb _ (getType Inst)).
      * inversion H; subst. split; [eauto | apply incl_refl].
      * inversion H; subst st' wl'. split; [apply Hmut | apply Happ].
    + inversion H; subst. split; [eauto | apply Happ].
  - discriminate.
Qed.

Lemma loop_unsupported (NDEBUG : bool) (NewAS : nat) :
  forall fuel st wl x i,
    In x wl -> lookup (fn st) x = Some i -> unsupported (getKind i) = true ->
    isOk (loop NDEBUG NewAS fuel st wl) = false.
Proof.
  induction fuel as [| fuel IH]; intros st wl x i Hin Hx Hu.
  - destruct wl; [contradiction | reflexivity].
  - destruct wl as [| Ptr wl]; [contradiction |]. cbn [loop].
    destruct (visit NDEBUG NewAS st Ptr wl) as [[st1 wl1] | | | | |] eqn:Hv;
      cbn [bind]; try reflexivity.
    destruct (visit_keeps_unsupported _ _ _ _ _ _ _ _ _ Hv Hx Hu)
      as (Hne & (i' & Hi' & Hu') & Hincl).
    cbn [fst snd]. apply (IH st1 wl1 x i'); [| exact Hi' | exact Hu'].
    apply Hincl. destruct Hin as [E | Hin]; [congruence | exact Hin].
Qed.

(** X20.  The rewrite never completes on a pointer that has a user it has
    no case for (a call that is no lifetime marker, or an instruction of an
    opcode outside its switch); when that user is the pointer's only user and
    the two pointer types differ in their address space, it ends in
    [llvm_unreachable]. *)
Theorem replaceAllPointerUses_unsupported_user (NDEBUG : bool)
    (f : Function_) (Old New : Value) (tbr : list nat) (x : nat)
    (i : Instruction) :
  In x (users f Old) ->
  lookup f x = Some i ->
  unsupported (getKind i) = true ->
  (forall fuel,
     isOk (replaceAllPointerUses NDEBUG fuel f Old New tbr) = false) /\
  (forall fuel OldAS NewAS,
     users f Old = [x] ->
     typeOf f Old = Ok (PointerTy OldAS) ->
     typeOf f New = Ok (PointerTy NewAS) ->
     OldAS <> NewAS ->
     replaceAllPointerUses NDEBUG (S fuel) f Old New tbr
     = UnreachableExecuted
         (if isOther (getKind i) then "Unhandled instruction"
          else "Unhandled call instruction")).
Proof.
  intros Hin Hx Hu.
  assert (Hrauw : forall t,
            exists i', lookup (replaceAllUsesWith (mutateType f Old t) Old New) x
                       = Some i' /\
                       unsupported (getKind i') = true /\
                       isOther (getKind i') = isOther (getKind i)).
  { intros t. rewrite lookup_rauw.
    assert (Hm : exists i0, lookup (mutateType f Old t) x = Some i0 /\
                            getKind i0 = getKind i).
    { destruct Old as [o | n | ty c].
      - rewrite lookup_mutateType, Hx. cbn. eexists. split; [reflexivity |].
        apply retypeIf_kind.
      - unfold lookup in *. cbn [mutateType body]. eauto.
      - cbn [mutateType]. eauto. }
    destruct Hm as (i0 & -> & Hk). cbn. eexists. split; [reflexivity |].
    cbn [rauwInst getKind]. rewrite Hk, unsupported_mapOperands.
    split; [exact Hu |]. destruct (getKind i); reflexivity. }
  split.
  - intros fuel. unfold replaceAllPointerUses.
    destruct (typeOf f Old) as [oldTy | | | | |]; cbn [bind]; try reflexivity.
    destruct (typeOf f New) as [newTy | | | | |]; cbn [bind]; try reflexivity.
    destruct (castPointerType NDEBUG oldTy); cbn [bind]; try reflexivity.
    destruct (castPointerType NDEBUG newTy) as [NewAS | | | | |]; cbn [bind];
      try reflexivity.
    destruct (assert NDEBUG (negb _) _); cbn [bind]; try reflexivity.
    destruct (assert NDEBUG (Ty_eqb _ _) _); cbn [bind]; try reflexivity.
    assert (Hin' : In x (users (mutateType f Old newTy) Old)).
    { unfold users. rewrite uses_mutateType. exact Hin. }
    unfold doRAUW. destruct (Value_eqb Old New).
    + destruct NDEBUG; [| reflexivity].
      destruct (use_empty (mutateType f Old newTy) Old) eqn:Hemp;
        [| reflexivity].
      apply use_empty_spec in Hemp. unfold users in Hin'. rewrite Hemp in Hin'.
      contradiction.
    + cbn [bind]. destruct (Hrauw newTy) as (i' & Hi' & Hu' & _).
      apply (loop_unsupported _ _ _ _ _ x i'); [| exact Hi' | exact Hu'].
      apply -> in_rev. exact Hin'.
  - intros fuel OldAS NewAS Hsole HtO HtN Hne. unfold replaceAllPointerUses.
    rewrite HtO, HtN. cbn [bind castPointerType]. unfold assert.
    replace (Nat.eqb NewAS OldAS) with false
      by (symmetry; apply Nat.eqb_neq; congruence).
    unfold getWithSamePointeeType. rewrite Ty_eqb_refl. cbn [negb orb].
    rewrite !orb_true_r. cbn [bind].
    unfold users. rewrite uses_mutateType. fold (users f Old). rewrite Hsole.
    cbn [rev app]. unfold doRAUW.
    assert (HON : Value_eqb Old New = false).
    { apply Value_eqb_neq. intros ->. rewrite HtO in HtN. congruence. }
    rewrite HON. cbn [bind loop].
    destruct (Hrauw (PointerTy NewAS)) as (i' & Hi' & Hu' & Ho).
    unfold visit. cbn [fn]. rewrite Hi'. rewrite <- Ho.
    destruct (getKind i') as [[|] ? | | | | | | | | | | |]; try discriminate;
      reflexivity.
Qed.

Lemma replaceAllPointerUses_unsupported_user_witness :
  replaceAllPointerUses false 1 unsupportedFunction (VArg 0) (VArg 1) []
  = UnreachableExecuted "Unhandled instruction".
Proof.
  exact (proj2 (replaceAllPointerUses_unsupported_user false
           unsupportedFunction (VArg 0) (VArg 1) [] 1
           {| getId := 1; getKind := Other 7 [VArg 0];
              getType := IntegerTy 32 |}
           ltac:(left; reflexivity) eq_refl eq_refl)
           0%nat 5%nat 21%nat eq_refl eq_refl eq_refl ltac:(discriminate)).
Defined.

End RewriteUnsupportedFacts.

(* ===================================================================== *)
(** * Further properties of [forwardContinuationFrameStoreToLoad] *)
(* ===================================================================== *)

Section ForwardStructureFacts.
Import IR Forward Spec RewriteNotions ForwardNotions.

Lemma onlyErased_refl (f : Function_) : onlyErased f f.
Proof.
  split; [reflexivity |]. exists []. f_equal. symmetry.
  induction (body f) as [| i b IH]; [reflexivity |]. cbn. f_equal. exact IH.
Qed.

Lemma filter_typedSkeleton (P : nat -> bool) (b : list Instruction) :
  map typedSkeleton (filter (fun i => P (getId i)) b)
  = filter (fun s => P (fst (fst s))) (map typedSkeleton b).
Proof.
  induction b as [| i b IH]; [reflexivity |]. cbn [filter map].
  cbn [typedSkeleton skeleton fst]. destruct (P (getId i)); cbn [map];
    rewrite IH; reflexivity.
Qed.

Lemma onlyErased_trans (f g h : Function_) :
  onlyErased f g -> onlyErased g h -> onlyErased f h.
Proof.
  intros (Ha & E1 & H1) (Hb & E2 & H2). split; [congruence |].
  exists (E2 ++ E1). rewrite H2.
  rewrite (filter_typedSkeleton (fun n => negb (memb n E2))), H1.
  rewrite (filter_typedSkeleton (fun n => negb (memb n E1))).
  rewrite filter_filter.
  rewrite (filter_typedSkeleton (fun n => negb (memb n (E2 ++ E1)))).
  apply filter_ext. intros s. unfold memb. rewrite existsb_app, negb_orb.
  apply andb_comm.
Qed.

Lemma onlyErased_rauw (f : Function_) (a b : Value) :
  onlyErased f (replaceAllUsesWith f a b).
Proof.
  split; [reflexivity |]. exists [].
  unfold replaceAllUsesWith. cbn [body]. rewrite map_map.
  replace (filter (fun i => negb (memb (getId i) [])) (body f)) with (body f).
  - apply map_ext. intros i. unfold typedSkeleton. cbn [getType]. f_equal.
    apply skeleton_mapOperands.
  - induction (body f) as [| i l IH]; [reflexivity |]. cbn. f_equal. exact IH.
Qed.

Lemma onlyErased_erase (f : Function_) (x : nat) :
  onlyErased f (eraseFromParent f x).
Proof.
  split; [reflexivity |]. exists [x]. unfold eraseFromParent. cbn [body].
  f_equal. apply filter_ext. intros i. unfold memb. cbn [existsb].
  rewrite orb_false_r, Nat.eqb_sym. reflexivity.
Qed.

Variable NDEBUG : bool.
Variable getTypeStoreSize : Ty -> Z.
Variable dominates : nat -> nat -> bool.

Lemma forwardLoad_onlyErased (f f' : Function_) (c : Collected)
    (sorted : list OffsetStorePair) (Offset : Z) (StoreInfo : IntervalData)
    (LoadId : nat) :
  forwardLoad NDEBUG getTypeStoreSize dominates f c sorted Offset StoreInfo
    LoadId = Ok f' ->
  onlyErased f f'.
Proof.
  unfold forwardLoad. intros H.
  destruct (lookup f LoadId) as [[lid lk lty] |]; [| discriminate].
  destruct lk; try discriminate.
  destruct (forwardableStore _ _ _ _ _ _ _ _ _) as [[[s val] |] | | | | |];
    cbn [bind] in H; try discriminate.
  - assert (H1 : onlyErased f
                   (eraseFromParent (replaceAllUsesWith f (VInst LoadId) val)
                      LoadId)).
    { eapply onlyErased_trans; [apply onlyErased_rauw | apply onlyErased_erase]. }
    destruct (negb (use_empty _ ptr)); [injection H as <-; exact H1 |].
    destruct ptr as [p | n | ty z]; injection H as <-; try exact H1.
    eapply onlyErased_trans; [exact H1 | apply onlyErased_erase].
  - injection H as <-. apply onlyErased_refl.
Qed.

Lemma forwardLoads_onlyErased (c : Collected) (sorted : list OffsetStorePair)
    (Offset : Z) (StoreInfo : IntervalData) (Loads : list nat) :
  forall f f',
    forwardLoads NDEBUG getTypeStoreSize dominates f c sorted Offset StoreInfo
      Loads = Ok f' ->
    onlyErased f f'.
Proof.
  induction Loads as [| L Loads IH]; intros f f' H; cbn [forwardLoads] in H.
  - injection H as <-. apply onlyErased_refl.
  - destruct (forwardLoad _ _ _ _ _ _ _ _ _) as [f1 | | | | |] eqn:E;
      cbn [bind] in H; try discriminate.
    eapply onlyErased_trans;
      [exact (forwardLoad_onlyErased _ _ _ _ _ _ _ E) | exact (IH _ _ H)].
Qed.

Lemma forwardGroups_onlyErased (c : Collected) (sorted : list OffsetStorePair)
    (entries : list (Z * list nat)) :
  forall f f',
    forwardGroups NDEBUG getTypeStoreSize dominates f c sorted entries = Ok f' ->
    onlyErased f f'.
Proof.
  induction entries as [| [Offset Loads] entries IH]; intros f f' H;
    cbn [forwardGroups] in H.
  - injection H as <-. apply onlyErased_refl.
  - destruct (forwardGroup _ _ _ _ _ _ _) as [f1 | | | | |] eqn:E;
      cbn [bind] in H; try discriminate.
    eapply onlyErased_trans; [| exact (IH _ _ H)].
    unfold forwardGroup in E.
    destruct (assert NDEBUG _ _); cbn [bind] in E; try discriminate.
    destruct (getContaining _ _) as [| StoreInfo [| ? ?]];
      try (injection E as <-; apply onlyErased_refl).
    destruct (negb _); [injection E as <-; apply onlyErased_refl |].
    exact (forwardLoads_onlyErased _ _ _ _ _ _ _ E).
Qed.

(** X21.  Store forwarding only erases instructions and replaces operands:
    when it completes, the function has the same arguments, and its
    instructions are instructions of the input in their order, each with
    the id, opcode, flags, number of operands and type it had; nothing is
    added, moved or retyped. *)
Theorem forward_only_erases (fuel : nat) (f f' : Function_)
    (FramePtr : Value) :
  forwardContinuationFrameStoreToLoad NDEBUG getTypeStoreSize dominates
    fuel f FramePtr = Ok f' ->
  onlyErased f f'.
Proof.
  unfold forwardContinuationFrameStoreToLoad. intros H.
  destruct (walk _ _ _ _ _ _) as [[| c] | | | | |]; cbn [bind] in H;
    try discriminate.
  - injection H as <-. apply onlyErased_refl.
  - destruct (isEmpty _); [injection H as <-; apply onlyErased_refl |].
    exact (forwardGroups_onlyErased _ _ _ _ _ H).
Qed.

End ForwardStructureFacts.

Section ForwardStructureExample.
Import IR Forward Spec RewriteNotions ForwardNotions.

Lemma forward_only_erases_witness :
  exists f',
    forwardContinuationFrameStoreToLoad false Examples.exampleDL Nat.ltb
      10 Examples.frameRoundTrip (VArg 0) = Ok f' /\
    onlyErased Examples.frameRoundTrip f'.
Proof.
  destruct (forwardContinuationFrameStoreToLoad false Examples.exampleDL
              Nat.ltb 10 Examples.frameRoundTrip (VArg 0))
    as [f' | | | | |] eqn:E; try (vm_compute in E; discriminate E).
  exists f'. split; [reflexivity |].
  exact (forward_only_erases false Examples.exampleDL Nat.ltb 10
           Examples.frameRoundTrip f' (VArg 0) E).
Defined.

End ForwardStructureExample.

Section ForwardNothingToDo.
Import IR Forward Spec RewriteNotions ForwardNotions.

Variable NDEBUG : bool.
Variable getTypeStoreSize : Ty -> Z.
Variable dominates : nat -> nat -> bool.

Lemma walk_no_new_stores (f : Function_) :
  (forall i, In i (body f) -> isStore (getKind i) = false) ->
  forall fuel wl c c',
    walk NDEBUG getTypeStoreSize fuel f wl c = Ok (Finished c') ->
    StoreIntervals c' = StoreIntervals c.
Proof.
  intros Hns. induction fuel as [| fuel IH]; intros wl c c' H.
  - destruct wl; [| discriminate]. cbn in H. congruence.
  - destruct wl as [| pu wl]; [cbn in H; congruence |]. cbn [walk] in H.
    unfold visitUse in H.
    destruct (lookup f (getUser (Ptr pu))) as [U |] eqn:Hl; [| discriminate].
    apply lookup_In in Hl. destruct Hl as [HU _]. specialize (Hns U HU).
    destruct (getKind U) as
      [lt cargs | ptr simple | val ptr simple | a b | a b | v | v | v | v
       | ptr idx [off |] | cnd a b | opc ops];
      cbn [bind] in H; try discriminate.
    + destruct (negb simple); cbn [bind] in H; [discriminate |].
      apply IH in H. exact H.
    + apply IH in H. exact H.
    + apply IH in H. exact H.
    + apply IH in H. exact H.
Qed.

Lemma walk_no_new_loads (f : Function_) :
  (forall i, In i (body f) -> isLoad (getKind i) = false) ->
  forall fuel wl c c',
    walk NDEBUG getTypeStoreSize fuel f wl c = Ok (Finished c') ->
    OffsetLoadMap c' = OffsetLoadMap c.
Proof.
  intros Hnl. induction fuel as [| fuel IH]; intros wl c c' H.
  - destruct wl; [| discriminate]. cbn in H. congruence.
  - destruct wl as [| pu wl]; [cbn in H; congruence |]. cbn [walk] in H.
    unfold visitUse in H.
    destruct (lookup f (getUser (Ptr pu))) as [U |] eqn:Hl; [| discriminate].
    apply lookup_In in Hl. destruct Hl as [HU _]. specialize (Hnl U HU).
    destruct (getKind U) as
      [lt cargs | ptr simple | val ptr simple | a b | a b | v | v | v | v
       | ptr idx [off |] | cnd a b | opc ops];
      cbn [bind] in H; try discriminate.
    + destruct (negb simple || _); cbn [bind] in H; [discriminate |].
      destruct (assert NDEBUG _ _); cbn [bind] in H; try discriminate.
      destruct (valueType f val); [| discriminate].
      apply IH in H. exact H.
    + apply IH in H. exact H.
    + apply IH in H. exact H.
    + apply IH in H. exact H.
Qed.

(** X22.  Store forwarding has nothing to do, and returns the function as it
    is, when the frame pointer has no use (for any amount of fuel), when the
    function has no store instruction, and when it has no load instruction:
    in the two latter cases every run that completes returns the input. *)
Theorem forward_nothing_to_do (f : Function_) (FramePtr : Value) :
  (uses f FramePtr = [] ->
   forall fuel,
     forwardContinuationFrameStoreToLoad NDEBUG getTypeStoreSize dominates
       fuel f FramePtr = Ok f) /\
  ((forall i, In i (body f) -> isStore (getKind i) = false) \/
   (forall i, In i (body f) -> isLoad (getKind i) = false) ->
   forall fuel f',
     forwardContinuationFrameStoreToLoad NDEBUG getTypeStoreSize dominates
       fuel f FramePtr = Ok f' ->
     f' = f).
Proof.
  split.
  - intros Hu fuel. unfold forwardContinuationFrameStoreToLoad, pushUses.
    rewrite Hu. cbn [map rev app]. destruct fuel; reflexivity.
  - intros Hno fuel f' H. unfold forwardContinuationFrameStoreToLoad in H.
    destruct (walk _ _ _ _ _ _) as [[| c] | | | | |] eqn:Hw; cbn [bind] in H;
      try discriminate; [congruence |].
    destruct Hno as [Hns | Hnl].
    + apply (walk_no_new_stores f Hns) in Hw. cbn in Hw. rewrite Hw in H.
      cbn in H. congruence.
    + apply (walk_no_new_loads f Hnl) in Hw. cbn in Hw. rewrite Hw in H.
      destruct (isEmpty _); cbn in H; congruence.
Qed.

End ForwardNothingToDo.

Section ForwardNothingToDoExample.
Import IR Forward Spec RewriteNotions ForwardNotions.

Lemma forward_nothing_to_do_witness :
  forwardContinuationFrameStoreToLoad false Examples.exampleDL Nat.ltb
    0 Examples.sameSpaceFunction (VArg 1) = Ok Examples.sameSpaceFunction.
Proof.
  exact (proj1 (forward_nothing_to_do false Examples.exampleDL Nat.ltb
                  Examples.sameSpaceFunction (VArg 1)) eq_refl 0%nat).
Defined.

End ForwardNothingToDoExample.

(* ===================================================================== *)
(** * Properties of the get-or-insert helpers, [replaceEnqueueIntrinsic] and [fixupDxilMetadata] *)
(* ===================================================================== *)

Section ModuleFunctionsFacts.
Import IR ModuleFunctions.

Lemma getNamedValue_app (M M' : list GlobalValue) (Name : string) :
  getNamedValue (M ++ M') Name =
    match getNamedValue M Name with
    | Some GV => Some GV
    | None => getNamedValue M' Name
    end.
Proof.
  unfold getNamedValue. induction M as [| GV M IH]; [reflexivity |].
  cbn [app find]. destruct (String.eqb (valueName GV) Name); [reflexivity | exact IH].
Qed.

Lemma getFunction_getName (M : list GlobalValue) (Name : string) (F : Function) :
  getFunction M Name = Some F -> getName F = Name.
Proof.
  unfold getFunction, getNamedValue. intros H.
  destruct (find _ M) as [[F' | n] |] eqn:E; try discriminate.
  injection H as <-. apply find_some in E.
  apply String.eqb_eq. exact (proj2 E).
Qed.

Lemma getOrInsert_spec (NDEBUG : bool) (M : list GlobalValue) (Func : Function) :
  getsOrInserts NDEBUG (getName Func) M (getOrInsert NDEBUG M Func) /\
  (forall M' F, getOrInsert NDEBUG M Func = Ok (M', F) ->
                getOrInsert NDEBUG M' Func = Ok (M', F)).
Proof.
  assert (Hnew : getNamedValue M (getName Func) = None ->
                 getNamedValue (M ++ [FunctionValue Func]) (getName Func)
                 = Some (FunctionValue Func)).
  { intros E. rewrite getNamedValue_app, E. unfold getNamedValue.
    cbn [find valueName]. rewrite String.eqb_refl. reflexivity. }
  assert (Hother : forall other, other <> getName Func ->
            getNamedValue (M ++ [FunctionValue Func]) other
            = getNamedValue M other).
  { intros other Hne. rewrite getNamedValue_app.
    destruct (getNamedValue M other); [reflexivity |].
    unfold getNamedValue. cbn [find valueName].
    destruct (String.eqb_spec (getName Func) other); [congruence | reflexivity]. }
  unfold getsOrInserts, getOrInsert, getFunction.
  destruct (getNamedValue M (getName Func)) as [[F | n] |] eqn:E.
  - assert (HF : getName F = getName Func).
    { apply (getFunction_getName M). unfold getFunction. rewrite E. reflexivity. }
    split; [split; [| split; [| split]] |].
    + intros F' H. injection H as <-. reflexivity.
    + discriminate.
    + discriminate.
    + intros M' F' H. injection H as <- <-. rewrite E. auto.
    + intros M' F' H. injection H as <- <-. rewrite E. reflexivity.
  - split; [split; [| split; [| split]] |].
    + discriminate.
    + discriminate.
    + reflexivity.
    + unfold castFailure. destruct NDEBUG; discriminate.
    + unfold castFailure. destruct NDEBUG; discriminate.
  - split; [split; [| split; [| split]] |].
    + discriminate.
    + intros _. eauto.
    + discriminate.
    + intros M' F' H. injection H as <- <-. rewrite (Hnew eq_refl). auto.
    + intros M' F' H. injection H as <- <-. rewrite (Hnew eq_refl). reflexivity.
Qed.

(** X23.  Each of [getContinuationStackOffset],
    [getRegisterBufferSetPointerBarrier] and [getAccelStructAddr] returns the
    function that the module has under the helper's fixed name, with the
    module unchanged and whatever the type and attributes of that function;
    when the name is free it appends exactly one declaration and returns it;
    when the name belongs to a value that is no function the [cast<Function>]
    fails.  A returned function has the fixed name and is what the module
    then has under that name, no value of another name is affected, and
    calling the helper again on the resulting module changes nothing and
    returns the same function. *)
Theorem get_or_insert_helpers (NDEBUG : bool) (M : list GlobalValue)
    (HandleTy : Ty) :
  (getsOrInserts NDEBUG "continuation.getContinuationStackOffset" M
     (getContinuationStackOffset NDEBUG M) /\
   forall M' F, getContinuationStackOffset NDEBUG M = Ok (M', F) ->
                getContinuationStackOffset NDEBUG M' = Ok (M', F)) /\
  (getsOrInserts NDEBUG "registerbuffer.setpointerbarrier" M
     (getRegisterBufferSetPointerBarrier NDEBUG M) /\
   forall M' F, getRegisterBufferSetPointerBarrier NDEBUG M = Ok (M', F) ->
                getRegisterBufferSetPointerBarrier NDEBUG M' = Ok (M', F)) /\
  (getsOrInserts NDEBUG "amd.dx.getAccelStructAddr" M
     (getAccelStructAddr NDEBUG M HandleTy) /\
   forall M' F, getAccelStructAddr NDEBUG M HandleTy = Ok (M', F) ->
                getAccelStructAddr NDEBUG M' HandleTy = Ok (M', F)).
Proof.
  unfold getContinuationStackOffset, getRegisterBufferSetPointerBarrier,
    getAccelStructAddr.
  split; [| split];
    match goal with
    | |- context [getOrInsert _ _ ?Func] =>
        exact (getOrInsert_spec NDEBUG M Func)
    end.
Qed.

Lemma get_or_insert_helpers_witness :
  getContinuationStackOffset false
    [ OtherValue "lds";
      FunctionValue
        {| getName := "continuation.getContinuationStackOffset";
           ReturnType := IntegerTy 8; Params := [IntegerTy 1];
           isVarArg := false; FnAttrs := []; Memory := [] |} ]
  = Ok ([ OtherValue "lds";
          FunctionValue
            {| getName := "continuation.getContinuationStackOffset";
               ReturnType := IntegerTy 8; Params := [IntegerTy 1];
               isVarArg := false; FnAttrs := []; Memory := [] |} ],
        {| getName := "continuation.getContinuationStackOffset";
           ReturnType := IntegerTy 8; Params := [IntegerTy 1];
           isVarArg := false; FnAttrs := []; Memory := [] |}).
Proof.
  exact (proj1 (proj1 (proj1 (get_or_insert_helpers false
           [ OtherValue "lds";
             FunctionValue
               {| getName := "continuation.getContinuationStackOffset";
                  ReturnType := IntegerTy 8; Params := [IntegerTy 1];
                  isVarArg := false; FnAttrs := []; Memory := [] |} ]
           VoidTy))) _ eq_refl).
Defined.

End ModuleFunctionsFacts.

Section EnqueueIntrinsicsFacts.
Import EnqueueIntrinsics.

Lemma prefix_app (a b s : string) :
  String.prefix (a ++ b)%string s = true -> String.prefix a s = true.
Proof.
  revert s. induction a as [| ch a IH]; intros s H; [destruct s; reflexivity |].
  destruct s as [| ch' s]; [discriminate |]. cbn in *.
  destruct (Ascii.ascii_dec ch ch'); [apply IH; exact H | discriminate].
Qed.

Lemma contains_app (a b s : string) :
  contains (a ++ b)%string s = true -> contains a s = true.
Proof.
  induction s as [| ch s IH]; cbn [contains]; intros H;
    apply orb_true_iff in H; apply orb_true_iff.
  - destruct H as [H | H]; [left; exact (prefix_app _ _ _ H) | discriminate].
  - destruct H as [H | H]; [left; exact (prefix_app _ _ _ H) | right; auto].
Qed.

Lemma insertAt_spec {A : Type} (x : A) (l : list A) :
  forall n,
    ((n <= List.length l)%nat ->
     insertAt n x l = Some (firstn n l ++ x :: skipn n l)) /\
    ((List.length l < n)%nat -> insertAt n x l = None).
Proof.
  induction l as [| a l IH]; intros [| n]; cbn [insertAt firstn skipn app List.length];
    split; intros H; try reflexivity; try lia.
  - rewrite (proj1 (IH n)) by lia. reflexivity.
  - rewrite (proj2 (IH n)) by lia. reflexivity.
Qed.

Lemma usedBy_callUsers (id : nat) (u : Use) (Uses : list Use) :
  In u Uses -> usedBy id u = true -> In id (callUsers Uses).
Proof.
  intros Hin Hu. unfold callUsers. apply in_flat_map. exists u.
  split; [exact Hin |].
  destruct u as [c | c |]; cbn in *; try discriminate;
    apply Nat.eqb_eq in Hu; auto.
Qed.

Lemma replaceEnqueueFrom_spec (Name : string) (Uses : list Use) :
  forall erased,
    NoDup (callUsers Uses) ->
    (forall id, In id erased -> ~ In id (callUsers Uses)) ->
    (forall edits,
       replaceEnqueueFrom Name Uses erased = Ok edits ->
       Forall2 (replaces Name) (calleeUses Uses) edits) /\
    ((forall c, In c (calleeUses Uses) ->
                exists a, newCallArgs Name c = Ok a) ->
     exists edits, replaceEnqueueFrom Name Uses erased = Ok edits).
Proof.
  induction Uses as [| u rest IH]; intros erased Hnd Hdis.
  - split; [intros edits H; injection H as <-; constructor |].
    intros _. exists []. reflexivity.
  - cbn [replaceEnqueueFrom].
    assert (Hlive : existsb (fun id => usedBy id u) erased = false).
    { destruct (existsb _ erased) eqn:E; [| reflexivity]. exfalso.
      apply existsb_exists in E. destruct E as (id & Hid & Hu).
      apply (Hdis id Hid). apply (usedBy_callUsers id u); [left; reflexivity | exact Hu]. }
    rewrite Hlive.
    assert (Hrest : forall ids,
              callUsers (u :: rest) = ids ++ callUsers rest ->
              NoDup (callUsers rest) /\
              (forall id, In id erased -> ~ In id (callUsers rest)) /\
              (forall id, In id ids -> ~ In id (callUsers rest))).
    { intros ids E. rewrite E in Hnd. split; [| split].
      - clear - Hnd. induction ids as [| a ids IH]; [exact Hnd |].
        inversion Hnd; subst. auto.
      - intros id Hid Hin. apply (Hdis id Hid). rewrite E.
        apply in_or_app. right. exact Hin.
      - intros id Hid Hin. clear - Hnd Hid Hin.
        induction ids as [| a ids IH]; [contradiction |].
        inversion Hnd as [| ? ? Hna Hnd']; subst.
        destruct Hid as [-> | Hid]; [| auto].
        apply Hna. apply in_or_app. right. exact Hin. }
    destruct u as [c | c |].
    + destruct (Hrest [callId c] eq_refl) as (Hnd' & Hdis' & Hc).
      assert (Hdis2 : forall id, In id (callId c :: erased) ->
                                 ~ In id (callUsers rest)).
      { intros id [<- | Hid]; [apply Hc; left; reflexivity | auto]. }
      assert (Hnext :
        match find (fun u => negb (existsb (fun id => usedBy id u) erased)) rest
        with
        | Some next => usedBy (callId c) next
        | None => false
        end = false).
      { destruct (find _ rest) as [next |] eqn:Ef; [| reflexivity].
        apply find_some in Ef. destruct Ef as [Hin _].
        destruct (usedBy (callId c) next) eqn:Eu; [| reflexivity]. exfalso.
        apply (Hc (callId c) (or_introl eq_refl)).
        exact (usedBy_callUsers _ _ _ Hin Eu). }
      rewrite Hnext. destruct (IH (callId c :: erased) Hnd' Hdis2) as [IH1 IH2].
      cbn [calleeUses flat_map app]. fold (calleeUses rest). split.
      * intros edits H.
        destruct (newCallArgs Name c) as [Args | | | | |] eqn:Ea;
          cbn [bind] in H; try discriminate.
        destruct (replaceEnqueueFrom Name rest (callId c :: erased))
          as [edits' | | | | |] eqn:Er; cbn [bind] in H; try discriminate.
        injection H as <-. constructor; [| apply IH1; reflexivity].
        split; [reflexivity | exact Ea].
      * intros Hall. destruct (Hall c (or_introl eq_refl)) as [a Ha].
        rewrite Ha. cbn [bind].
        destruct IH2 as [edits' He];
          [intros c' Hc'; apply Hall; right; exact Hc' |].
        rewrite He. cbn [bind]. eauto.
    + destruct (Hrest [callId c] eq_refl) as (Hnd' & Hdis' & _).
      exact (IH erased Hnd' Hdis').
    + destruct (Hrest [] eq_refl) as (Hnd' & Hdis' & _).
      exact (IH erased Hnd' Hdis').
Qed.

(** X24.  When every call uses the intrinsic once, [replaceEnqueueIntrinsic]
    replaces exactly the calls that have the intrinsic as their callee, in
    use-list order, and touches no other user.  The new call has the
    arguments of the old one; for a name that contains [EnqueueCall] the
    return address (the calling function, as an integer) is inserted before
    position 2, or before position 3 when the name contains [WaitEnqueue],
    which a call with fewer arguments does not survive. *)
Theorem replaceEnqueueIntrinsic_spec (Name : string) (Uses : list Use) :
  usedOnce Uses ->
  (forall edits,
     replaceEnqueueIntrinsic Name Uses = Ok edits ->
     Forall2 (replaces Name) (calleeUses Uses) edits) /\
  ((forall c, In c (calleeUses Uses) -> exists a, newCallArgs Name c = Ok a) ->
   exists edits, replaceEnqueueIntrinsic Name Uses = Ok edits) /\
  (forall c,
     (contains "EnqueueCall" Name = false ->
      newCallArgs Name c = Ok (callArgs c)) /\
     (contains "EnqueueCall" Name = true ->
      let k := (if contains "WaitEnqueue" Name then 3 else 2)%nat in
      ((k <= List.length (callArgs c))%nat ->
       newCallArgs Name c
       = Ok (firstn k (callArgs c)
             ++ RetAddr (getFunction c) :: skipn k (callArgs c))) /\
      ((List.length (callArgs c) < k)%nat ->
       newCallArgs Name c = UndefinedBehaviour))).
Proof.
  intros Hu.
  destruct (replaceEnqueueFrom_spec Name Uses [] Hu ltac:(intros id []))
    as [H1 H2].
  split; [exact H1 |]. split; [exact H2 |].
  intros c. unfold newCallArgs. split.
  - intros ->. rewrite andb_false_r. reflexivity.
  - intros Hc.
    rewrite (contains_app "Enqueue" "Call" Name Hc), Hc. cbn [andb].
    cbv zeta. split; intros Hlen.
    + rewrite (proj1 (insertAt_spec _ _ _) Hlen). reflexivity.
    + rewrite (proj2 (insertAt_spec _ _ _) Hlen). reflexivity.
Qed.

Lemma replaceEnqueueIntrinsic_spec_witness :
  Forall2 (replaces "_AmdWaitEnqueueCall")
    (calleeUses
       [OtherUse;
        CalleeUse {| callId := 7;
                     callArgs := [Operand 0; Operand 1; Operand 2; Operand 3];
                     getFunction := "traversal" |}])
    [{| erasedCall := 7;
        newArgs := [Operand 0; Operand 1; Operand 2; RetAddr "traversal";
                    Operand 3] |}].
Proof.
  apply (proj1 (replaceEnqueueIntrinsic_spec "_AmdWaitEnqueueCall"
           [OtherUse;
            CalleeUse {| callId := 7;
                         callArgs := [Operand 0; Operand 1; Operand 2; Operand 3];
                         getFunction := "traversal" |}]
           ltac:(repeat constructor; cbn; tauto))).
  reflexivity.
Defined.

End EnqueueIntrinsicsFacts.

Section FixupMetadataFacts.
Import Metadata FixupMetadata.

Variables MDContinuationName MDContPayloadTyName : string.

(** [T'] is [T] with the tuples [ids] stripped. *)
Let strippedOn (ids : list nat) (T T' : (nat -> list (option Metadata))) : Prop :=
  forall id,
    T' id = if existsb (Nat.eqb id) ids
            then map strippedOperand (T id) else T id.

Let anyBitCast (T : (nat -> list (option Metadata))) (ids : list nat) : bool :=
  existsb (fun id => existsb hasBitCastOnTop (T id)) ids.

Lemma stripped_operands_fixed (operands : list (option Metadata)) :
  map strippedOperand (map strippedOperand operands)
  = map strippedOperand operands.
Proof.
  rewrite map_map. apply map_ext. intros a. apply strippedOperand_idempotent.
Qed.

Lemma stripped_operands_no_bitcast (operands : list (option Metadata)) :
  existsb hasBitCastOnTop (map strippedOperand operands) = false.
Proof.
  induction operands as [| a l IH]; [reflexivity |]. cbn [map existsb].
  rewrite IH, orb_false_r. apply hasBitCastOnTop_strippedOperand.
  apply strippedOperand_idempotent.
Qed.

Lemma strippedOn_nil (T : (nat -> list (option Metadata))) : strippedOn [] T T.
Proof. intros id. reflexivity. Qed.

Lemma strippedOn_app (l1 l2 : list nat) (T T1 T2 : (nat -> list (option Metadata))) :
  strippedOn l1 T T1 -> strippedOn l2 T1 T2 -> strippedOn (l1 ++ l2) T T2.
Proof.
  intros H1 H2 id. rewrite H2, H1, existsb_app.
  destruct (existsb (Nat.eqb id) l1), (existsb (Nat.eqb id) l2);
    cbn [orb]; try reflexivity.
  apply stripped_operands_fixed.
Qed.

Lemma anyBitCast_app (l1 l2 : list nat) (T T1 : (nat -> list (option Metadata))) :
  strippedOn l1 T T1 ->
  anyBitCast T l1 || anyBitCast T1 l2 = anyBitCast T (l1 ++ l2).
Proof.
  intros H1. unfold anyBitCast. rewrite existsb_app.
  destruct (existsb (fun id => existsb hasBitCastOnTop (T id)) l1) eqn:E1;
    [reflexivity |].
  cbn [orb]. induction l2 as [| id l2 IH]; [reflexivity |].
  cbn [existsb]. rewrite IH. f_equal. rewrite H1.
  destruct (existsb (Nat.eqb id) l1) eqn:Ein; [| reflexivity].
  rewrite stripped_operands_no_bitcast. symmetry.
  apply existsb_exists in Ein. destruct Ein as (j & Hj & Ej).
  apply Nat.eqb_eq in Ej. subst j.
  destruct (existsb hasBitCastOnTop (T id)) eqn:Eb; [| reflexivity].
  rewrite <- E1. symmetry. apply existsb_exists. exists id. auto.
Qed.

Lemma stripNode_spec (c : bool) (T : (nat -> list (option Metadata))) (Annot : option MDNode) :
  let r := stripNode (c, T) Annot in
  fst r = c || anyBitCast T (tupleNodes [Annot]) /\
  strippedOn (tupleNodes [Annot]) T (snd r).
Proof.
  destruct Annot as [[id | n] |]; cbn [stripNode tupleNodes flat_map app fst snd];
    try (split; [unfold anyBitCast; cbn; rewrite orb_false_r; reflexivity
                | apply strippedOn_nil]).
  unfold stripMDCasts. rewrite stripMDCastsFrom_spec. cbn [fst snd orb].
  split.
  - unfold anyBitCast. cbn [existsb]. rewrite orb_false_r. reflexivity.
  - intros j. unfold replaceOperands. cbn [existsb]. rewrite orb_false_r.
    destruct (Nat.eqb_spec j id) as [-> | _]; reflexivity.
Qed.

Lemma tupleNodes_cons (Annot : option MDNode) (l : list (option MDNode)) :
  tupleNodes (Annot :: l) = tupleNodes [Annot] ++ tupleNodes l.
Proof. unfold tupleNodes. cbn [flat_map]. rewrite app_nil_r. reflexivity. Qed.

Lemma stripNodes_spec (l : list (option MDNode)) :
  forall (c : bool) (T : (nat -> list (option Metadata))),
    let r := fold_left stripNode l (c, T) in
    fst r = c || anyBitCast T (tupleNodes l) /\
    strippedOn (tupleNodes l) T (snd r).
Proof.
  induction l as [| Annot l IH]; intros c T.
  - cbn. rewrite orb_false_r. split; [reflexivity | apply strippedOn_nil].
  - cbn [fold_left]. destruct (stripNode_spec c T Annot) as [Hc HT].
    destruct (stripNode (c, T) Annot) as [c1 T1]. cbn [fst snd] in Hc, HT.
    destruct (IH c1 T1) as [Hc' HT']. cbv zeta. rewrite tupleNodes_cons. split.
    + rewrite Hc', Hc, <- orb_assoc. f_equal. apply anyBitCast_app. exact HT.
    + exact (strippedOn_app _ _ _ _ _ HT HT').
Qed.

Let namedTuples (M : Module_) (MDName : string) : list nat :=
  match getNamedMetadata M MDName with
  | Some operands => tupleNodes operands
  | None => []
  end.

Lemma fixupNamed_spec (M : Module_) (c : bool) (T : (nat -> list (option Metadata))) (MDName : string) :
  let r := fixupNamed M (c, T) MDName in
  fst r = c || anyBitCast T (namedTuples M MDName) /\
  strippedOn (namedTuples M MDName) T (snd r).
Proof.
  unfold fixupNamed, namedTuples.
  destruct (getNamedMetadata M MDName) as [operands |].
  - apply stripNodes_spec.
  - cbn. rewrite orb_false_r. split; [reflexivity | apply strippedOn_nil].
Qed.

Lemma setMetadataNull_absent (F : Function) :
  hasMetadata MDContPayloadTyName F = false ->
  setMetadataNull MDContPayloadTyName F = F.
Proof.
  unfold hasMetadata, getMetadata, setMetadataNull.
  destruct F as [name atts]. cbn [getName Attachments]. intros H. f_equal.
  induction atts as [| A atts IH]; [reflexivity |].
  cbn [find filter] in *.
  destruct (String.eqb (fst A) MDContPayloadTyName); [discriminate |].
  cbn [negb]. f_equal. apply IH. exact H.
Qed.

Lemma getMetadata_setMetadataNull (F : Function) (Kind : string) :
  getMetadata (setMetadataNull MDContPayloadTyName F) Kind
  = if String.eqb Kind MDContPayloadTyName then None else getMetadata F Kind.
Proof.
  unfold getMetadata, setMetadataNull. cbn [Attachments].
  induction (Attachments F) as [| A atts IH].
  - cbn. destruct (String.eqb Kind MDContPayloadTyName); reflexivity.
  - cbn [filter find].
    destruct (String.eqb_spec (fst A) MDContPayloadTyName) as [EP | NP];
      cbn [negb].
    + rewrite IH.
      destruct (String.eqb_spec Kind MDContPayloadTyName) as [-> | NK];
        [reflexivity |].
      destruct (String.eqb_spec (fst A) Kind); [congruence | reflexivity].
    + cbn [find].
      destruct (String.eqb_spec (fst A) Kind) as [EK | NK].
      * destruct (String.eqb_spec Kind MDContPayloadTyName);
          [congruence | reflexivity].
      * exact IH.
Qed.

Let continuationTuples (Fs : list Function) : list nat :=
  flat_map (fun F => tupleNodes [getMetadata F MDContinuationName]) Fs.

Lemma fixupFunctions_spec (Fs : list Function) :
  forall (c : bool) (T : (nat -> list (option Metadata))),
    let r := fixupFunctions MDContinuationName MDContPayloadTyName (c, T) Fs in
    fst (fst r)
    = c || anyBitCast T (continuationTuples Fs)
      || existsb (hasMetadata MDContPayloadTyName) Fs /\
    strippedOn (continuationTuples Fs) T (snd (fst r)) /\
    snd r = map (setMetadataNull MDContPayloadTyName) Fs.
Proof.
  induction Fs as [| F Fs IH]; intros c T.
  - cbn. rewrite !orb_false_r.
    split; [reflexivity | split; [apply strippedOn_nil | reflexivity]].
  - cbn [fixupFunctions]. cbv zeta.
    assert (H1 : exists c1 T1,
               fixupFunction MDContinuationName MDContPayloadTyName (c, T) F
               = ((c1, T1), setMetadataNull MDContPayloadTyName F) /\
               c1 = c || anyBitCast T
                           (tupleNodes [getMetadata F MDContinuationName])
                    || hasMetadata MDContPayloadTyName F /\
               strippedOn (tupleNodes [getMetadata F MDContinuationName])
                 T T1).
    { unfold fixupFunction.
      assert (Hs : forall st1,
                (match getMetadata F MDContinuationName with
                 | Some MD => stripNode (c, T) (Some MD)
                 | None => (c, T)
                 end) = st1 ->
                fst st1 = c || anyBitCast T
                                 (tupleNodes [getMetadata F MDContinuationName])
                /\ strippedOn (tupleNodes [getMetadata F MDContinuationName])
                     T (snd st1)).
      { intros st1 <-.
        destruct (getMetadata F MDContinuationName) as [MD |].
        - apply stripNode_spec.
        - cbn. rewrite orb_false_r. split; [reflexivity | apply strippedOn_nil]. }
      destruct (Hs _ eq_refl) as [Hc HT].
      destruct (match getMetadata F MDContinuationName with
                | Some MD => stripNode (c, T) (Some MD)
                | None => (c, T)
                end) as [c1 T1].
      cbn [fst snd] in *.
      destruct (hasMetadata MDContPayloadTyName F) eqn:EP.
      - exists true, T1. rewrite orb_true_r. auto.
      - exists c1, T1. rewrite orb_false_r, setMetadataNull_absent by exact EP.
        auto. }
    destruct H1 as (c1 & T1 & E & Hc & HT). rewrite E. cbn [fst snd].
    destruct (IH c1 T1) as (Hc' & HT' & Hf).
    cbn [map existsb]. unfold continuationTuples. cbn [flat_map].
    fold (continuationTuples Fs). split; [| split].
    + rewrite Hc', Hc.
      rewrite <- (anyBitCast_app _ (continuationTuples Fs) T T1 HT).
      destruct c, (anyBitCast T (tupleNodes [getMetadata F MDContinuationName])),
        (hasMetadata MDContPayloadTyName F), (anyBitCast T1 (continuationTuples Fs)),
        (existsb (hasMetadata MDContPayloadTyName) Fs); reflexivity.
    + exact (strippedOn_app _ _ _ _ _ HT HT').
    + rewrite Hf. reflexivity.
Qed.

Lemma fixupDxilMetadata_eq (M : Module_) :
  let r := fixupDxilMetadata MDContinuationName MDContPayloadTyName M in
  let stripped := strippedTuples MDContinuationName M in
  strippedOn stripped (Tuples M) (Tuples (snd r)) /\
  NamedMetadata (snd r) = NamedMetadata M /\
  functions (snd r) = map (setMetadataNull MDContPayloadTyName) (functions M) /\
  fst r = anyBitCast (Tuples M) stripped
          || existsb (hasMetadata MDContPayloadTyName) (functions M).
Proof.
  unfold fixupDxilMetadata, strippedTuples. cbn [fold_left flat_map].
  rewrite app_nil_r.
  fold (namedTuples M "dx.typeAnnotations") (namedTuples M "dx.entryPoints")
       (continuationTuples (functions M)).
  destruct (fixupNamed_spec M false (Tuples M) "dx.typeAnnotations")
    as [Hc1 HT1].
  destruct (fixupNamed M (false, Tuples M) "dx.typeAnnotations") as [c1 T1].
  destruct (fixupNamed_spec M c1 T1 "dx.entryPoints") as [Hc2 HT2].
  destruct (fixupNamed M (c1, T1) "dx.entryPoints") as [c2 T2].
  destruct (fixupFunctions_spec (functions M) c2 T2) as (Hc3 & HT3 & Hf).
  destruct (fixupFunctions MDContinuationName MDContPayloadTyName (c2, T2)
              (functions M)) as [[c3 T3] Fs'].
  cbn [fst snd Tuples NamedMetadata functions] in *.
  pose proof (strippedOn_app _ _ _ _ _ HT1 HT2) as HT12.
  split; [| split; [| split]].
  - exact (strippedOn_app _ _ _ _ _ HT12 HT3).
  - reflexivity.
  - exact Hf.
  - rewrite Hc3, Hc2, Hc1. cbn [orb]. f_equal.
    rewrite (anyBitCast_app _ _ _ _ HT1).
    exact (anyBitCast_app _ _ _ _ HT12).
Qed.

Lemma strippedTuples_again (M : Module_) (id : nat) :
  let M' := snd (fixupDxilMetadata MDContinuationName MDContPayloadTyName M) in
  In id (strippedTuples MDContinuationName M') ->
  In id (strippedTuples MDContinuationName M).
Proof.
  cbv zeta. destruct (fixupDxilMetadata_eq M) as (_ & Hn & Hf & _).
  unfold strippedTuples, getNamedMetadata. rewrite Hn, Hf.
  intros H. apply in_app_or in H. apply in_or_app.
  destruct H as [H | H]; [left; exact H | right].
  apply in_flat_map in H. destruct H as (F' & HF' & Hid).
  apply in_map_iff in HF'. destruct HF' as (F & <- & HF).
  apply in_flat_map. exists F. split; [exact HF |].
  rewrite getMetadata_setMetadataNull in Hid.
  destruct (String.eqb MDContinuationName MDContPayloadTyName);
    [destruct Hid | exact Hid].
Qed.

(** X25.  [fixupDxilMetadata] strips the bitcasts from the constant operands
    of exactly the tuples that are operands of [dx.typeAnnotations] and
    [dx.entryPoints] or the continuation metadata of a function, and leaves
    every other tuple as it is; it removes the payload-type metadata from
    every function and changes nothing else.  It returns true exactly when
    one of these tuples had an operand with a bitcast on top or a function
    had payload-type metadata.  Run on its own result it returns false and
    changes nothing. *)
Theorem fixupDxilMetadata_spec (M : Module_) :
  let r := fixupDxilMetadata MDContinuationName MDContPayloadTyName M in
  let stripped := strippedTuples MDContinuationName M in
  (forall id,
     Tuples (snd r) id
     = if existsb (Nat.eqb id) stripped
       then map strippedOperand (Tuples M id) else Tuples M id) /\
  NamedMetadata (snd r) = NamedMetadata M /\
  functions (snd r) = map (setMetadataNull MDContPayloadTyName) (functions M) /\
  fst r = existsb (fun id => existsb hasBitCastOnTop (Tuples M id)) stripped
          || existsb (hasMetadata MDContPayloadTyName) (functions M) /\
  (let r2 := fixupDxilMetadata MDContinuationName MDContPayloadTyName (snd r) in
   fst r2 = false /\
   (forall id, Tuples (snd r2) id = Tuples (snd r) id) /\
   NamedMetadata (snd r2) = NamedMetadata (snd r) /\
   functions (snd r2) = functions (snd r)).
Proof.
  cbv zeta. destruct (fixupDxilMetadata_eq M) as (HT & Hn & Hf & Hc).
  split; [exact HT |]. split; [exact Hn |]. split; [exact Hf |].
  split; [exact Hc |].
  pose proof (strippedTuples_again M) as Hsub. cbv zeta in Hsub.
  destruct (fixupDxilMetadata_eq
              (snd (fixupDxilMetadata MDContinuationName MDContPayloadTyName M)))
    as (HT2 & Hn2 & Hf2 & Hc2).
  set (M' := snd (fixupDxilMetadata MDContinuationName MDContPayloadTyName M))
    in *.
  assert (Hfixed : forall id,
            existsb (Nat.eqb id) (strippedTuples MDContinuationName M') = true ->
            Tuples M' id = map strippedOperand (Tuples M id)).
  { intros id H. apply existsb_exists in H. destruct H as (j & Hj & Ej).
    apply Nat.eqb_eq in Ej. subst j. apply Hsub in Hj. rewrite HT.
    replace (existsb (Nat.eqb id) (strippedTuples MDContinuationName M))
      with true; [reflexivity |].
    symmetry. apply existsb_exists. exists id. split; [exact Hj |].
    apply Nat.eqb_refl. }
  assert (Hnone : forall F, In F (functions M') ->
                            hasMetadata MDContPayloadTyName F = false).
  { intros F HF. rewrite Hf in HF. apply in_map_iff in HF.
    destruct HF as (F0 & <- & _). unfold hasMetadata.
    rewrite getMetadata_setMetadataNull, String.eqb_refl. reflexivity. }
  split; [| split; [| split]].
  - rewrite Hc2. apply orb_false_iff. split.
    + unfold anyBitCast.
      destruct (existsb _ (strippedTuples MDContinuationName M')) eqn:E;
        [| reflexivity].
      apply existsb_exists in E. destruct E as (id & Hid & Hb).
      rewrite Hfixed, stripped_operands_no_bitcast in Hb; [discriminate |].
      apply existsb_exists. exists id. split; [exact Hid | apply Nat.eqb_refl].
    + destruct (existsb _ (functions M')) eqn:E; [| reflexivity].
      apply existsb_exists in E. destruct E as (F & HF & Hp).
      rewrite (Hnone F HF) in Hp. discriminate.
  - intros id. rewrite HT2.
    destruct (existsb (Nat.eqb id) (strippedTuples MDContinuationName M')) eqn:E;
      [| reflexivity].
    rewrite (Hfixed id E). apply stripped_operands_fixed.
  - exact Hn2.
  - rewrite Hf2. apply map_fixed. intros F HF.
    apply setMetadataNull_absent. exact (Hnone F HF).
Qed.

End FixupMetadataFacts.
